(** * PerfectNS: a shallow embedding of the nested sampling drivers

    The Python sources embedded here are
    - [PerfectNestedSampling/nested_sampling.py] (standard and dynamic drivers,
      thread generator, importance functions),
    - [npns/nested_sampling.py] (an earlier revision of the standard driver and
      thread generator),
    - [PerfectNS/estimators.py] (estimators and the reference-table helper),
    - [perfectns/parallelised_wrappers.py] (the wrappers that run a function
      on many runs, generate many runs and cache them).

    Conventions of the embedding.
    - A numpy float is an exact rational ([Q]); rounding is not modelled.
      Where numpy would produce [nan] or [inf] (a division by zero) the model
      raises [NonFinite].  The one [-inf] the drivers store ([logz_dead]) and
      the one [nan] they store (the start of a thread born from the whole
      prior) are explicit constructors.
    - Transcendental functions and the library calls whose code is not part of
      the repository ([np.exp], [np.log], [logsumexp], [np.argsort], ...) are
      the fields of the class [NumLib].
    - [np.log(np.random.random())] is read from a tape of draws which is
      threaded through the code; a loop that asks for a draw when the tape is
      exhausted stops with [OutOfDraws].
    - The [while] loop of the dynamic driver is bounded by a fuel; [None] is
      the loop still running when the fuel is spent.
    - A Python exception is a [Raise]; the assertion sites are told apart.
    - The process pool of the wrappers is the order in which its futures
      complete; what [get_run_data] does with a file is a trace of events. *)

From Stdlib Require Import String Ascii DecimalString.
From Stdlib Require Import QArith Qround Qabs Qpower Lqa Lia ZArith List Bool.
From Stdlib Require Import Permutation Sorting.Sorted Sorting.Mergesort Orders.
Import ListNotations.
Open Scope Q_scope.

(** ** Exceptions and the result monad *)

Inductive assertion : Type :=
| AssertInterval        (* generate_single_thread: logx_start > logx_end *)
| AssertDynamicGoal     (* generate_dynamic_run: 0 <= dynamic_goal <= 1 *)
| AssertDynamicFraction (* min_max_importance: 0 < dynamic_fraction < 1 *)
| AssertUniqueMatch     (* exactly one sample at a thread's start or end logl *)
| AssertTuningType      (* p_importance: tuning_type == 'theta1' *)
| AssertProbability     (* credible interval probability in (0, 1) *)
| AssertGaussian        (* paramCredEstimator.analytical: likelihood, prior *)
| AssertLogxTerminate.  (* check_by_integrating: logx_terminate is not None *)

Inductive exn : Type :=
| AssertionError (a : assertion)
| AttributeError
| IndexError
| ValueError
| TypeError
| NonFinite     (* numpy continues with nan or inf; Q has neither *)
| OutOfDraws.   (* the tape of random draws is exhausted *)

Inductive result (A : Type) : Type :=
| Ok (a : A)
| Raise (e : exn).

Arguments Ok {A} a.
Arguments Raise {A} e.

Definition bind {A B : Type} (m : result A) (k : A -> result B) : result B :=
  match m with
  | Ok a => k a
  | Raise e => Raise e
  end.

Declare Scope result_scope.
Delimit Scope result_scope with result.
Notation "x <- m ;; k" := (bind m (fun x => k))
  (at level 61, m at next level, right associativity) : result_scope.
Notation "' p <- m ;; k" := (bind m (fun p => k))
  (at level 61, p pattern, m at next level, right associativity) : result_scope.
Open Scope result_scope.

Definition assert (b : bool) (a : assertion) : result unit :=
  if b then Ok tt else Raise (AssertionError a).

Definition is_ok {A : Type} (m : result A) : bool :=
  match m with Ok _ => true | Raise _ => false end.

(** ** Comparisons on floats *)

Definition Qltb (x y : Q) : bool := negb (Qle_bool y x).
Definition Qgtb (x y : Q) : bool := Qltb y x.

(** A float that may be [nan] ([thread_min_max[:, 0]], [logl_min]). *)
Inductive nanQ : Type :=
| NaN
| Val (q : Q).

Definition isnan (x : nanQ) : bool :=
  match x with NaN => true | Val _ => false end.

(** A float that may be [-inf] ([logz_dead]). *)
Inductive infQ : Type :=
| NegInf
| Fin (q : Q).

(** [a > b] where [b] may be [-inf] and [a] is finite. *)
Definition gt_inf (a : Q) (b : infQ) : bool :=
  match b with
  | NegInf => true
  | Fin q => Qgtb a q
  end.

(** ** The numerical library *)

Class NumLib : Type := {
  np_exp : Q -> Q;
  np_log : Q -> Q;
  (* x ** y for a fractional exponent *)
  np_power : Q -> Q -> Q;
  np_sqrt : Q -> Q;
  (* scipy.misc.logsumexp / mf.log_sum_given_logs on a non-empty array *)
  lse : list Q -> Q;
  (* np.argsort with the default kind *)
  np_argsort : list Q -> list nat;
  erfinv : Q -> Q
}.

(** What numpy documents of [np.argsort]: the indices, each once, in an order
    that sorts the keys.  The default kind is not documented as stable. *)
Definition keys_along (keys : list Q) (idx : list nat) : list Q :=
  map (fun i => nth i keys 0) idx.

Definition argsort_contract (argsort : list Q -> list nat) : Prop :=
  forall keys,
    Permutation (argsort keys) (seq 0 (length keys)) /\
    StronglySorted Qle (keys_along keys (argsort keys)).

(** ** Array helpers *)

(** An integer used as a float. *)
Definition natQ (n : nat) : Q := inject_Z (Z.of_nat n).

Definition sumQ (l : list Q) : Q := fold_right Qplus 0 l.

(** [np.cumsum]. *)
Fixpoint cumsum_from (acc : Q) (l : list Q) : list Q :=
  match l with
  | [] => []
  | x :: l' => (acc + x) :: cumsum_from (acc + x) l'
  end.

Definition cumsum (l : list Q) : list Q := cumsum_from 0 l.

Definition Qmaxb (x y : Q) : Q := if Qltb x y then y else x.
Definition Qminb (x y : Q) : Q := if Qltb y x then y else x.

(** [a.max()] and [a.min()]: [ValueError] on an empty array. *)
Definition np_max (l : list Q) : result Q :=
  match l with
  | [] => Raise ValueError
  | x :: l' => Ok (fold_left Qmaxb l' x)
  end.

Definition np_min (l : list Q) : result Q :=
  match l with
  | [] => Raise ValueError
  | x :: l' => Ok (fold_left Qminb l' x)
  end.

(** [x / y] on floats. *)
Definition fdiv (x y : Q) : result Q :=
  if Qeq_bool y 0 then Raise NonFinite else Ok (x / y).

Fixpoint mapM {A B : Type} (f : A -> result B) (l : list A) : result (list B) :=
  match l with
  | [] => Ok []
  | a :: l' => b <- f a ;; bs <- mapM f l' ;; Ok (b :: bs)
  end.

(** [a op b] elementwise on arrays of one shape. *)
Fixpoint zipM {A B C : Type} (f : A -> B -> result C) (l : list A) (m : list B)
  : result (list C) :=
  match l, m with
  | [], [] => Ok []
  | a :: l', b :: m' => c <- f a b ;; cs <- zipM f l' m' ;; Ok (c :: cs)
  | _, _ => Raise ValueError
  end.

(** [a op= b]: the result has the shape of [a]; an array [b] of one entry is
    broadcast, any other difference of shape raises. *)
Definition inplace {A B : Type} (f : A -> B -> result A) (a : list A) (b : list B)
  : result (list A) :=
  if (length b =? length a)%nat then zipM f a b
  else match b with
       | [y] => mapM (fun x => f x y) a
       | _ => Raise ValueError
       end.

(** [a op b]: as [a op= b], and an array [a] of one entry is broadcast too. *)
Definition broadcast {A B C : Type} (f : A -> B -> result C) (a : list A)
  (b : list B) : result (list C) :=
  if (length b =? length a)%nat then zipM f a b
  else match a, b with
       | _, [y] => mapM (fun x => f x y) a
       | [x], _ => mapM (f x) b
       | _, _ => Raise ValueError
       end.

(** [np.where(cond)[0]]. *)
Fixpoint where_from {A : Type} (i : nat) (p : A -> bool) (l : list A) : list nat :=
  match l with
  | [] => []
  | a :: l' => if p a then i :: where_from (S i) p l' else where_from (S i) p l'
  end.

Definition np_where {A : Type} (p : A -> bool) (l : list A) : list nat :=
  where_from 0 p l.

(** [a[i]] for [0 <= i]. *)
Definition index {A : Type} (l : list A) (i : nat) : result A :=
  match nth_error l i with
  | Some a => Ok a
  | None => Raise IndexError
  end.

(** [a[-i]] for [1 <= i]. *)
Definition index_neg {A : Type} (l : list A) (i : nat) : result A :=
  if ((1 <=? i) && (i <=? length l))%nat then index l (length l - i)
  else Raise IndexError.

(** [a[idx]] for an index array. *)
Definition take {A : Type} (l : list A) (idx : list nat) : result (list A) :=
  mapM (index l) idx.

Fixpoint set_nth {A : Type} (l : list A) (i : nat) (v : A) : list A :=
  match l, i with
  | [], _ => []
  | _ :: l', O => v :: l'
  | a :: l', S i' => a :: set_nth l' i' v
  end.

(** [a[-i] = v] for [1 <= i]. *)
Definition set_neg {A : Type} (l : list A) (i : nat) (v : A) : result (list A) :=
  if ((1 <=? i) && (i <=? length l))%nat then Ok (set_nth l (length l - i) v)
  else Raise IndexError.

(** ** Settings *)

Record Settings : Type := {
  n_dim : nat;
  dims_to_sample : nat;
  nlive_const : nat;
  ninit : nat;
  termination_fraction : Q;
  dynamic_goal : option Q;
  n_samples_max : option Q;
  nbatch : nat;
  dynamic_fraction : Q;
  tuned_dynamic_p : bool;
  logx_terminate : option Q;
  r_given_logx : Q -> Q;
  logl_given_r : Q -> Q;
  (* mf.sample_nsphere_shells(r, n_dim, dims_to_sample): one row per radius *)
  sample_nsphere_shells : list Q -> list (list Q);
  (* type(settings.likelihood).__name__, type(settings.prior).__name__ *)
  likelihood_name : string;
  prior_name : string;
  likelihood_scale : Q;
  prior_scale : Q;
  (* settings.logz_analytic() *)
  logz_analytic : result Q
}.

(** ** Random draws *)

Definition tape : Type := list Q.

(** [np.log(np.random.random())]. *)
Definition draw (t : tape) : result (Q * tape) :=
  match t with
  | [] => Raise OutOfDraws
  | d :: t' => Ok (d, t')
  end.

(** ** Thread generator *)

(** One row of a samples array:
    [[logl, r, logx, thread label, change in nlive, params]]. *)
Record sample : Type := {
  logl : Q;
  r : Q;
  logx : Q;
  thread_label : nat;
  dnlive : Z;
  theta : list Q
}.

(** The [while] loop of [generate_thread_logx]; [last] is [logx_list[-1]] and
    the result lists the points appended after it. *)
Fixpoint thread_logx_loop (logx_end last : Q) (t : tape) : result (list Q * tape) :=
  if Qgtb last logx_end then
    match t with
    | [] => Raise OutOfDraws
    | d :: t' =>
        ' (rest, t'') <- thread_logx_loop logx_end (last + d) t' ;;
        Ok ((last + d) :: rest, t'')
    end
  else Ok ([], t).

Definition generate_thread_logx (logx_end logx_start : Q) (keep_final_point : bool)
  (t : tape) : result (list Q * tape) :=
  ' (d, t1) <- draw t ;;
  ' (rest, t2) <- thread_logx_loop logx_end (logx_start + d) t1 ;;
  let logx_list := (logx_start + d) :: rest in
  if negb keep_final_point then Ok (removelast logx_list, t2)
  else Ok (logx_list, t2).

(** [lrxtn[-1, 4] = -1] on a column of zeros. *)
Fixpoint end_marks (n : nat) : list Z :=
  match n with
  | O => []
  | S O => [(-1)%Z]
  | S n' => 0%Z :: end_marks n'
  end.

Fixpoint combine_rows (label : nat) (ls rs xs : list Q) (ns : list Z)
  (ths : list (list Q)) : result (list sample) :=
  match ls, rs, xs, ns, ths with
  | [], [], [], [], [] => Ok []
  | l :: ls', r0 :: rs', x :: xs', n :: ns', th :: ths' =>
      rows <- combine_rows label ls' rs' xs' ns' ths' ;;
      Ok ({| logl := l; r := r0; logx := x; thread_label := label;
             dnlive := n; theta := th |} :: rows)
  | _, _, _, _, _ => Raise ValueError
  end.

Definition generate_single_thread (s : Settings) (logx_end : option Q)
  (label : nat) (logx_start : Q) (keep_final_point : bool) (t : tape)
  : result (option (list sample) * tape) :=
  logx_end' <- match logx_end with
               | Some e => Ok e
               | None => match logx_terminate s with
                         | Some e => Ok e
                         | None => Raise TypeError
                         end
               end ;;
  _ <- assert (Qgtb logx_start logx_end') AssertInterval ;;
  ' (logx_list, t') <- generate_thread_logx logx_end' logx_start keep_final_point t ;;
  match logx_list with
  | [] => Ok (None, t')
  | _ :: _ =>
      let rs := map (r_given_logx s) logx_list in
      let ls := map (logl_given_r s) rs in
      rows <- combine_rows label ls rs logx_list
                (end_marks (length logx_list)) (sample_nsphere_shells s rs) ;;
      Ok (Some rows, t')
  end.

(** ** Standard driver ([PerfectNestedSampling/nested_sampling.py]) *)

(** One row of [live_points]: [[logl, r, logx, thread label]]. *)
Record point : Type := {
  p_logl : Q;
  p_r : Q;
  p_logx : Q;
  p_label : nat
}.

(** A nested sampling run dictionary. *)
Record run : Type := {
  run_settings : option Settings;
  run_logl : list Q;
  run_r : list Q;
  run_logx : list Q;
  run_thread_labels : list nat;
  run_theta : list (list Q);
  run_nlive_array : list Q;
  run_thread_min_max : list (nanQ * Q)
}.

(** [scipy.misc.logsumexp(a)]: the maximum of an empty array raises. *)
Definition logsumexp `{NumLib} (a : list Q) : result Q :=
  match a with
  | [] => Raise ValueError
  | _ :: _ => Ok (lse a)
  end.

(** [logsumexp((logz_dead, x))]: [exp(-inf)] adds nothing to the sum. *)
Definition logsumexp_dead `{NumLib} (logz_dead : infQ) (x : Q) : infQ :=
  match logz_dead with
  | NegInf => Fin x
  | Fin z => Fin (lse [z; x])
  end.

Fixpoint draws (n : nat) (t : tape) : result (list Q * tape) :=
  match n with
  | O => Ok ([], t)
  | S n' =>
      ' (d, t1) <- draw t ;;
      ' (ds, t2) <- draws n' t1 ;;
      Ok (d :: ds, t2)
  end.

Definition new_point (s : Settings) (label : nat) (lx : Q) : point :=
  let r0 := r_given_logx s lx in
  {| p_logl := logl_given_r s r0; p_r := r0; p_logx := lx; p_label := label |}.

Fixpoint init_live (s : Settings) (label : nat) (lxs : list Q) : list point :=
  match lxs with
  | [] => []
  | lx :: lxs' => new_point s label lx :: init_live s (S label) lxs'
  end.

(** The variables the replacement loop updates. *)
Record std_state : Type := {
  live_points : list point;
  logx_i : Q;
  logz_dead : infQ;
  logz_live : Q;
  dead_points_list : list point
}.

(** [logsumexp(live_points[:, 0]) + logx_i - np.log(nlive_const)]. *)
Definition live_evidence `{NumLib} (nlive : nat) (live : list point) (lxi : Q)
  : result Q :=
  l <- logsumexp (map p_logl live) ;;
  Ok (l + lxi - np_log (natQ nlive)).

(** The loop condition
    [logz_live - np.log(settings.termination_fraction) > logz_dead]. *)
Definition std_cond `{NumLib} (s : Settings) (st : std_state) : bool :=
  gt_inf (logz_live st - np_log (termination_fraction s)) (logz_dead st).

(** [np.where(a == a.min())[0][0]]. *)
Definition argmin_first (a : list Q) : result nat :=
  m <- np_min a ;;
  index (np_where (Qeq_bool m) a) 0.

(** One pass through the loop body, with the draw [d] for the new point. *)
Definition std_body `{NumLib} (s : Settings) (nlive : nat) (logtrapz : Q)
  (st : std_state) (d : Q) : result std_state :=
  ind <- argmin_first (map p_logl (live_points st)) ;;
  dying <- index (live_points st) ind ;;
  let dead' := dead_points_list st ++ [dying] in
  step <- fdiv (-1) (natQ nlive) ;;
  let lxi := logx_i st + step in
  let lzd := logsumexp_dead (logz_dead st) (p_logl dying + logtrapz + lxi) in
  let live' := set_nth (live_points st) ind
                 (new_point s (p_label dying) (p_logx dying + d)) in
  lzl <- live_evidence nlive live' lxi ;;
  Ok {| live_points := live'; logx_i := lxi; logz_dead := lzd;
        logz_live := lzl; dead_points_list := dead' |}.

Fixpoint std_loop `{NumLib} (s : Settings) (nlive : nat) (logtrapz : Q)
  (st : std_state) (t : tape) : result (std_state * tape) :=
  if std_cond s st then
    match t with
    | [] => Raise OutOfDraws
    | d :: t' =>
        st' <- std_body s nlive logtrapz st d ;;
        std_loop s nlive logtrapz st' t'
    end
  else Ok (st, t).

(** The state on entry to the loop. *)
Definition std_init `{NumLib} (s : Settings) (nlive : nat) (t : tape)
  : result (std_state * Q * tape) :=
  ' (lxs, t') <- draws nlive t ;;
  let live := init_live s 1 lxs in
  lzl <- live_evidence nlive live 0 ;;
  step <- fdiv (-1) (natQ nlive) ;;
  let tt := np_exp step in
  inv <- fdiv 1 tt ;;
  let logtrapz := np_log ((1 # 2) * (inv - tt)) in
  Ok ({| live_points := live; logx_i := 0; logz_dead := NegInf;
         logz_live := lzl; dead_points_list := [] |}, logtrapz, t').

Fixpoint foldM {A B : Type} (f : B -> A -> result B) (l : list A) (b : B)
  : result B :=
  match l with
  | [] => Ok b
  | a :: l' => b' <- f b a ;; foldM f l' b'
  end.

(** [np.zeros(n) + nlive_const] followed by
    [for i in range(1, nlive_const): a[-i] = i]. *)
Definition nlive_array_of (n nlive : nat) : result (list Q) :=
  foldM (fun a i => set_neg a i (natQ i)) (seq 1 (nlive - 1)) (repeat (natQ nlive) n).

(** The code after the loop: stack the dead points and the sorted live points
    and build the run dictionary. *)
Definition std_finish `{NumLib} (s : Settings) (nlive : nat) (st : std_state)
  : result run :=
  _ <- match dead_points_list st with
       | [] => Raise ValueError   (* np.vstack of a (0,) and an (n, 4) array *)
       | _ :: _ => Ok tt
       end ;;
  sorted_live <- take (live_points st) (np_argsort (map p_logl (live_points st))) ;;
  let points := dead_points_list st ++ sorted_live in
  nla <- nlive_array_of (length points) nlive ;;
  Ok {| run_settings := Some s;
        run_logl := map p_logl points;
        run_r := map p_r points;
        run_logx := map p_logx points;
        run_thread_labels := map p_label points;
        run_theta := sample_nsphere_shells s (map p_r points);
        run_nlive_array := nla;
        run_thread_min_max := map (fun p => (NaN, p_logl p)) (live_points st) |}.

Definition generate_standard_run `{NumLib} (s : Settings)
  (is_dynamic_initial_run : bool) (t : tape) : result (run * tape) :=
  let nlive := if is_dynamic_initial_run then ninit s else nlive_const s in
  ' (st0, logtrapz, t0) <- std_init s nlive t ;;
  ' (st, t') <- std_loop s nlive logtrapz st0 t0 ;;
  r0 <- std_finish s nlive st ;;
  Ok (r0, t').

(** The loop-head states: the state on entry, and the state after each pass
    through the body that the condition let in. *)
Inductive std_tested `{NumLib} (s : Settings) (nlive : nat) (logtrapz : Q)
  (st0 : std_state) : std_state -> Prop :=
| tested_entry : std_tested s nlive logtrapz st0 st0
| tested_again st d st' :
    std_tested s nlive logtrapz st0 st ->
    std_cond s st = true ->
    std_body s nlive logtrapz st d = Ok st' ->
    std_tested s nlive logtrapz st0 st'.

(** ** Standard driver, earlier revision ([npns/nested_sampling.py]) *)

Module Npns.

(** One row of [live]: [[logl, r, logx]]. *)
Record lrx : Type := {
  l_logl : Q;
  l_r : Q;
  l_logx : Q
}.

Definition new_lrx (s : Settings) (lx : Q) : lrx :=
  let r0 := r_given_logx s lx in
  {| l_logl := logl_given_r s r0; l_r := r0; l_logx := lx |}.

Record state : Type := {
  live : list lrx;
  threads : list (option (list lrx));
  logx_i : Q;
  logz_dead : infQ;
  logz_live : Q;
  step : nat
}.

(** [mf.log_sum_given_logs(live[:, 0]) + logx_i - np.log(nlive)], the value
    the loop body assigns. *)
Definition live_evidence `{NumLib} (nlive : nat) (lv : list lrx) (lxi : Q)
  : result Q :=
  l <- logsumexp (map l_logl lv) ;;
  Ok (l + lxi - np_log (natQ nlive)).

(** [settings.zv_termination_fraction] is [termination_fraction]. *)
Definition cond `{NumLib} (s : Settings) (st : state) : bool :=
  gt_inf (logz_live st - np_log (termination_fraction s)) (logz_dead st).

Definition body `{NumLib} (s : Settings) (nlive : nat) (logtrapz : Q)
  (st : state) (d : Q) : result state :=
  dying_ind <- argmin_first (map l_logl (live st)) ;;
  dying <- index (live st) dying_ind ;;
  th <- index (threads st) dying_ind ;;
  let th' := match th with
             | None => Some [dying]
             | Some rows => Some (rows ++ [dying])
             end in
  stp <- fdiv (-1) (natQ nlive) ;;
  let lxi := logx_i st + stp in
  let lzd := logsumexp_dead (logz_dead st) (l_logl dying + logtrapz + lxi) in
  let live' := set_nth (live st) dying_ind (new_lrx s (l_logx dying + d)) in
  lzl <- live_evidence nlive live' lxi ;;
  Ok {| live := live'; threads := set_nth (threads st) dying_ind th';
        logx_i := lxi; logz_dead := lzd; logz_live := lzl;
        step := S (step st) |}.

Fixpoint loop `{NumLib} (s : Settings) (nlive : nat) (logtrapz : Q)
  (st : state) (t : tape) : result (state * tape) :=
  if cond s st then
    match t with
    | [] => Raise OutOfDraws
    | d :: t' =>
        st' <- body s nlive logtrapz st d ;;
        loop s nlive logtrapz st' t'
    end
  else Ok (st, t).

(** The state on entry to the loop:
    [logz_live = mf.log_sum_given_logs(live[:, 0]) + logx_i]. *)
Definition init `{NumLib} (s : Settings) (nlive : nat) (t : tape)
  : result (state * Q * tape) :=
  ' (lxs, t') <- draws nlive t ;;
  let lv := map (new_lrx s) lxs in
  l <- logsumexp (map l_logl lv) ;;
  stp <- fdiv (-1) (natQ nlive) ;;
  let tt := np_exp stp in
  inv <- fdiv 1 tt ;;
  let logtrapz := np_log ((1 # 2) * (inv - tt)) in
  Ok ({| live := lv; threads := repeat None nlive; logx_i := 0;
         logz_dead := NegInf; logz_live := l + 0; step := O |}, logtrapz, t').

(** [np.zeros(n_calls) + nlive] followed by
    [for i in range(1, nlive + 1): a[-i] = i]. *)
Definition nlive_array_of (n_calls nlive : nat) : result (list Q) :=
  foldM (fun a i => set_neg a i (natQ i)) (seq 1 nlive) (repeat (natQ nlive) n_calls).

(** After the loop the first pass of [for i, _ in enumerate(threads)]
    evaluates [threads[:, 2]] on a Python list, which raises [TypeError];
    with no threads the code goes on to [nlive_array]. *)
Definition generate_standard_run `{NumLib} (s : Settings) (nlive : nat)
  (n_calls : nat) (t : tape) : result (list Q * tape) :=
  ' (st0, logtrapz, t0) <- init s nlive t ;;
  ' (st, t') <- loop s nlive logtrapz st0 t0 ;;
  match threads st with
  | _ :: _ => Raise TypeError
  | [] => nla <- nlive_array_of n_calls nlive ;; Ok (nla, t')
  end.

Inductive tested `{NumLib} (s : Settings) (nlive : nat) (logtrapz : Q)
  (st0 : state) : state -> Prop :=
| tested_entry : tested s nlive logtrapz st0 st0
| tested_again st d st' :
    tested s nlive logtrapz st0 st ->
    cond s st = true ->
    body s nlive logtrapz st d = Ok st' ->
    tested s nlive logtrapz st0 st'.

(** [generate_thread_logx] is the same text in both revisions; this one
    tests [len(logx_list) == 0], builds three columns and ends in
    [np.hstack(lrx, ...)], whose second positional argument is not one
    [np.hstack] takes. *)
Definition generate_single_thread (s : Settings) (logx_end : option Q)
  (logx_start : Q) (keep_final_point : bool) (t : tape)
  : result (option (list lrx) * tape) :=
  logx_end' <- match logx_end with
               | Some e => Ok e
               | None => match logx_terminate s with
                         | Some e => Ok e
                         | None => Raise TypeError
                         end
               end ;;
  _ <- assert (Qgtb logx_start logx_end') AssertInterval ;;
  ' (logx_list, t') <- generate_thread_logx logx_end' logx_start keep_final_point t ;;
  if (length logx_list =? 0)%nat then Ok (None, t')
  else Raise TypeError.

End Npns.

(** ** Importance functions *)

(** [a / m] for an array [a] and a scalar [m]. *)
Definition div_all (a : list Q) (m : Q) : result (list Q) :=
  mapM (fun x => fdiv x m) a.

(** [importance / importance.max()]. *)
Definition over_max (a : list Q) : result (list Q) :=
  m <- np_max a ;;
  div_all a m.

Definition z_importance `{NumLib} (w nlive : list Q) (exact : bool)
  : result (list Q) :=
  let c := cumsum w in
  m <- np_max c ;;
  let importance := map (fun x => m - x) c in
  importance' <-
    (if exact then
       i1 <- inplace (fun x n => Ok (x * ((n * n - 3) * np_power n (3 # 2))))
               importance nlive ;;
       i2 <- inplace (fun x n =>
                        fdiv x ((n + 1) * (n + 1) * (n + 1) * np_power (n + 2) (3 # 2)))
               i1 nlive ;;
       i3 <- broadcast (fun x n =>
                          fdiv (x * np_power n (1 # 2)) (np_power (n + 2) (3 # 2)))
               w nlive ;;
       inplace (fun x y => Ok (x + y)) i2 i3
     else
       inplace (fun x n => inv <- fdiv 1 n ;; Ok (x * inv)) importance nlive) ;;
  over_max importance'.

(** [theta[:, 0]]. *)
Definition column0 (th : list (list Q)) : result (list Q) :=
  mapM (fun row => index row 0) th.

Definition p_importance (th : list (list Q)) (w : list Q)
  (tuned : bool) (tuning_type : string) : result (list Q) :=
  if negb tuned then over_max w
  else
    _ <- assert (String.eqb tuning_type "theta1") AssertTuningType ;;
    f <- column0 th ;;
    fw <- broadcast (fun x y => Ok (x * y)) f w ;;
    mean <- fdiv (sumQ fw) (sumQ w) ;;
    let fabs := map (fun x => Qabs (x - mean)) f in
    importance <- broadcast (fun x y => Ok (x * y)) fabs w ;;
    over_max importance.

(** The functions of [analysis_utils] the drivers call; the module is not
    part of the sources embedded here. *)
Class AuLib : Type := {
  samples_array_given_run : run -> list sample;
  dict_given_samples_array : list sample -> list (nanQ * Q) -> run;
  get_logw : list Q -> list Q -> bool -> list Q
}.

Definition point_importance `{NumLib} `{AuLib} (samples : list sample)
  (thread_min_max : list (nanQ * Q)) (s : Settings) (simulate : bool)
  : result (list Q) :=
  let run_dict := dict_given_samples_array samples thread_min_max in
  let logw := get_logw (run_logl run_dict) (run_nlive_array run_dict) simulate in
  m <- np_max logw ;;
  let w_relative := map (fun x => np_exp (x - m)) logw in
  match dynamic_goal s with
  | None => Raise TypeError
  | Some goal =>
      if Qeq_bool goal 0 then
        z_importance w_relative (run_nlive_array run_dict) false
      else if Qeq_bool goal 1 then
        p_importance (run_theta run_dict) w_relative (tuned_dynamic_p s) "theta1"
      else
        imp_z <- z_importance w_relative (run_nlive_array run_dict) false ;;
        imp_p <- p_importance (run_theta run_dict) w_relative
                   (tuned_dynamic_p s) "theta1" ;;
        zn <- div_all imp_z (sumQ imp_z) ;;
        pn <- div_all imp_p (sumQ imp_p) ;;
        importance <- inplace (fun x y => Ok (x + y * goal))
                        (map (fun x => x * (1 - goal)) zn) pn ;;
        over_max importance
  end.

(** [ind = np.where(samples[:, 0] == key)[0]; assert ind.shape == (1,);
    samples[ind[0], 2]]. *)
Definition matches (key : Q) (samples : list sample) : list nat :=
  np_where (fun x => Qeq_bool (logl x) key) samples.

Definition logx_at_unique (key : Q) (samples : list sample) : result Q :=
  let ind := matches key samples in
  _ <- assert (length ind =? 1)%nat AssertUniqueMatch ;;
  i <- index ind 0 ;;
  row <- index samples i ;;
  Ok (logx row).

Definition min_max_importance (importance : list Q) (samples : list sample)
  (s : Settings) : result ((nanQ * Q) * (Q * Q)) :=
  _ <- assert (Qgtb (dynamic_fraction s) 0 && Qltb (dynamic_fraction s) 1)
         AssertDynamicFraction ;;
  let high_importance_inds :=
    np_where (fun x => Qgtb x (dynamic_fraction s)) importance in
  first <- index high_importance_inds 0 ;;
  ' (logl_min, logx_min) <-
    (if (first =? 0)%nat then Ok (NaN, 0)
     else
       row <- index samples (first - 1) ;;
       x <- logx_at_unique (logl row) samples ;;
       Ok (Val (logl row), x)) ;;
  last <- index_neg high_importance_inds 1 ;;
  ' (logl_max, logx_max) <-
    (if (Z.of_nat last =? Z.of_nat (length samples) - 1)%Z then
       row <- index_neg samples 1 ;;
       Ok (logl row, logx row)
     else
       row <- index samples (last + 1) ;;
       x <- logx_at_unique (logl row) samples ;;
       Ok (logl row, x)) ;;
  Ok ((logl_min, logl_max), (logx_min, logx_max)).

(** ** Dynamic driver *)

(** [samples[start_ind, 4] += 1]. *)
Fixpoint bump_at (samples : list sample) (i : nat) : list sample :=
  match samples, i with
  | [], _ => []
  | x :: rest, O =>
      {| logl := logl x; r := r x; logx := logx x; thread_label := thread_label x;
         dnlive := dnlive x + 1; theta := theta x |} :: rest
  | x :: rest, S i' => x :: bump_at rest i'
  end.

Record dyn_state : Type := {
  samples : list sample;
  thread_min_max : list (nanQ * Q)
}.

(** One pass of [for _ in range(settings.nbatch)]. *)
Definition add_thread (s : Settings) (logl_min : nanQ) (logx_min logx_max : Q)
  (st : dyn_state) (t : tape) : result (dyn_state * tape) :=
  let label := S (length (thread_min_max st)) in
  ' (thread, t') <- generate_single_thread s (Some logx_max) label logx_min true t ;;
  samples1 <-
    match logl_min with
    | NaN => Ok (samples st)
    | Val key =>
        let start_ind := matches key (samples st) in
        _ <- assert (length start_ind =? 1)%nat AssertUniqueMatch ;;
        i <- index start_ind 0 ;;
        Ok (bump_at (samples st) i)
    end ;;
  match thread with
  | None => Raise ValueError          (* np.vstack((samples, None)) *)
  | Some rows =>
      final <- index_neg rows 1 ;;
      Ok ({| samples := samples1 ++ rows;
             thread_min_max := thread_min_max st ++ [(logl_min, logl final)] |}, t')
  end.

Fixpoint add_threads (n : nat) (s : Settings) (logl_min : nanQ)
  (logx_min logx_max : Q) (st : dyn_state) (t : tape)
  : result (dyn_state * tape) :=
  match n with
  | O => Ok (st, t)
  | S n' =>
      ' (st', t') <- add_thread s logl_min logx_min logx_max st t ;;
      add_threads n' s logl_min logx_min logx_max st' t'
  end.

(** [samples[np.argsort(samples[:, 0])]]. *)
Definition sort_samples `{NumLib} (samples : list sample) : result (list sample) :=
  take samples (np_argsort (map logl samples)).

(** One pass through the body of [while n_samples < n_samples_max]. *)
Definition dyn_body `{NumLib} `{AuLib} (s : Settings) (st : dyn_state) (t : tape)
  : result (dyn_state * tape) :=
  importance <- point_importance (samples st) (thread_min_max st) s false ;;
  ' (logl_min_max, logx_min_max) <- min_max_importance importance (samples st) s ;;
  ' (st', t') <- add_threads (nbatch s) s (fst logl_min_max)
                   (fst logx_min_max) (snd logx_min_max) st t ;;
  sorted <- sort_samples (samples st') ;;
  Ok ({| samples := sorted; thread_min_max := thread_min_max st' |}, t').

(** The [while] loop; [fuel] bounds the number of passes and [None] is the
    loop still running when the fuel is spent. *)
Fixpoint dyn_loop `{NumLib} `{AuLib} (fuel : nat) (s : Settings) (max : Q)
  (st : dyn_state) (t : tape) : option (result (dyn_state * tape)) :=
  if Qltb (natQ (length (samples st))) max then
    match fuel with
    | O => None
    | S fuel' =>
        match dyn_body s st t with
        | Raise e => Some (Raise e)
        | Ok (st', t') => dyn_loop fuel' s max st' t'
        end
    end
  else Some (Ok (st, t)).

(** [settings.n_samples_max], or the estimate from the exploratory run. *)
Definition samples_budget (s : Settings) (n_samples : nat) : result Q :=
  match n_samples_max s with
  | Some m => Ok m
  | None =>
      ratio <- fdiv (natQ (nlive_const s)) (natQ (ninit s)) ;;
      Ok (natQ n_samples * ratio)
  end.

Definition with_settings (s : Settings) (r0 : run) : run :=
  {| run_settings := Some s;
     run_logl := run_logl r0; run_r := run_r r0; run_logx := run_logx r0;
     run_thread_labels := run_thread_labels r0; run_theta := run_theta r0;
     run_nlive_array := run_nlive_array r0;
     run_thread_min_max := run_thread_min_max r0 |}.

Definition generate_dynamic_run `{NumLib} `{AuLib} (fuel : nat) (s : Settings)
  (t : tape) : option (result (run * tape)) :=
  match dynamic_goal s with
  | None => Some (Raise TypeError)
  | Some goal =>
      if negb (Qle_bool goal 1 && Qle_bool 0 goal) then
        Some (Raise (AssertionError AssertDynamicGoal))
      else
        match generate_standard_run s true t with
        | Raise e => Some (Raise e)
        | Ok (standard_run, t0) =>
            let st0 := {| samples := samples_array_given_run standard_run;
                          thread_min_max := run_thread_min_max standard_run |} in
            match samples_budget s (length (samples st0)) with
            | Raise e => Some (Raise e)
            | Ok max =>
                match dyn_loop fuel s max st0 t0 with
                | None => None
                | Some (Raise e) => Some (Raise e)
                | Some (Ok (st, t')) =>
                    Some (Ok (with_settings s
                                (dict_given_samples_array (samples st)
                                   (thread_min_max st)), t'))
                end
            end
        end
  end.

Definition generate_ns_run `{NumLib} `{AuLib} (fuel : nat) (s : Settings)
  (t : tape) : option (result (run * tape)) :=
  match dynamic_goal s with
  | None => Some (generate_standard_run s false t)
  | Some _ => generate_dynamic_run fuel s t
  end.

(** ** Estimators ([PerfectNS/estimators.py]) *)

(** [np.interp(x, xp, fp)] for a scalar [x] and increasing [xp]: [fp[0]] to the
    left of [xp[0]], [fp[-1]] to the right of [xp[-1]], and on the segment
    [xp[j] <= x < xp[j+1]] the value
    [(fp[j+1] - fp[j]) / (xp[j+1] - xp[j]) * (x - xp[j]) + fp[j]]. *)
Fixpoint interp_from (x x0 y0 : Q) (xp fp : list Q) : result Q :=
  match xp, fp with
  | [], [] => Ok y0
  | x1 :: xp', y1 :: fp' =>
      if Qltb x x1 then
        slope <- fdiv (y1 - y0) (x1 - x0) ;;
        Ok (slope * (x - x0) + y0)
      else interp_from x x1 y1 xp' fp'
  | _, _ => Raise ValueError
  end.

Definition np_interp (x : Q) (xp fp : list Q) : result Q :=
  if negb (length xp =? length fp)%nat then Raise ValueError
  else
    match xp, fp with
    | x0 :: xp', y0 :: fp' =>
        if Qltb x x0 then Ok y0 else interp_from x x0 y0 xp' fp'
    | _, _ => Raise ValueError
    end.

(** [wr[:, 1] = values] on a column of [n] entries: an array of one entry is
    broadcast, any other length but [n] raises. *)
Definition assign_column (n : nat) (values : list Q) : result (list Q) :=
  if (length values =? n)%nat then Ok values
  else match values with
       | [v] => Ok (repeat v n)
       | _ => Raise ValueError
       end.

(** The body the two credible-interval estimators share. *)
Definition cred_estimate `{NumLib} (probability : Q) (logw : list Q)
  (get_values : result (list Q)) : result Q :=
  m <- np_max logw ;;
  let w := map (fun x => np_exp (x - m)) logw in
  values <- get_values ;;
  col <- assign_column (length logw) values ;;
  let order := np_argsort col in
  ws <- take w order ;;
  vs <- take col order ;;
  w0 <- index ws 0 ;;
  let cdf := map (fun c => c - w0 / 2) (cumsum ws) in
  cdf' <- div_all cdf (sumQ ws) ;;
  np_interp probability cdf' vs.

(** [theta[:, j]] with Python's indexing of a column: [j < 0] counts from the
    right. *)
Definition py_index {A : Type} (l : list A) (j : Z) : result A :=
  if (0 <=? j)%Z then index l (Z.to_nat j)
  else index_neg l (Z.to_nat (- j)).

Definition column (th : list (list Q)) (j : Z) : result (list Q) :=
  mapM (fun row => py_index row j) th.

Inductive Estimator : Type :=
| logzEstimator
| zEstimator
| nSamplesEstimator
| rMeanEstimator
| rCredEstimator (probability : Q)
| paramMeanEstimator (param_ind : Z)
| paramCredEstimator (probability : Q) (param_ind : Z)
| paramSquaredMeanEstimator (param_ind : Z).

(** The constructors' assertion [1 > probability > 0]. *)
Definition new_rCredEstimator (probability : Q) : result Estimator :=
  _ <- assert (Qgtb 1 probability && Qgtb probability 0) AssertProbability ;;
  Ok (rCredEstimator probability).

Definition new_paramCredEstimator (probability : Q) (param_ind : Z)
  : result Estimator :=
  _ <- assert (Qgtb 1 probability && Qgtb probability 0) AssertProbability ;;
  Ok (paramCredEstimator probability param_ind).

(** Python's [str] on a float and on an integer, and the parts of scipy and
    [maths_functions] that [check_by_integrating] calls. *)
Class PyLib : Type := {
  str_float : Q -> string;
  str_int : Z -> string;
  quad : (Q -> Q) -> Q -> Q -> Q;
  analytic_logx_terminate : Settings -> option Q;
  logl_given_logx : Settings -> Q -> Q
}.

Definition weighted_mean `{NumLib} (logw : list Q) (get_values : result (list Q))
  : result Q :=
  m <- np_max logw ;;
  let w := map (fun x => np_exp (x - m)) logw in
  values <- get_values ;;
  wv <- broadcast (fun x y => Ok (x * y)) w values ;;
  fdiv (sumQ wv) (sumQ w).

Definition estimator `{NumLib} (e : Estimator) (logw : list Q) (ns_run : run)
  : result Q :=
  match e with
  | logzEstimator => logsumexp logw
  | zEstimator => l <- logsumexp logw ;; Ok (np_exp l)
  | nSamplesEstimator => Ok (natQ (length logw))
  | rMeanEstimator => weighted_mean logw (Ok (run_r ns_run))
  | rCredEstimator p => cred_estimate p logw (Ok (run_r ns_run))
  | paramMeanEstimator k =>
      weighted_mean logw (column (run_theta ns_run) (k - 1))
  | paramCredEstimator p k =>
      cred_estimate p logw (column (run_theta ns_run) (k - 1))
  | paramSquaredMeanEstimator k =>
      m <- np_max logw ;;
      let w := map (fun x => np_exp (x - m)) logw in
      w' <- div_all w (sumQ w) ;;
      col <- column (run_theta ns_run) (k - 1) ;;
      wv <- broadcast (fun x y => Ok (x * (y * y))) w' col ;;
      Ok (sumQ wv)
  end.

(** [ftilde(logx, settings)], for the estimators that have it. *)
Definition ftilde (e : Estimator) : result (Q -> Settings -> Q) :=
  match e with
  | rMeanEstimator => Ok (fun lx s => r_given_logx s lx)
  | paramMeanEstimator _ => Ok (fun _ _ => 0)
  | paramSquaredMeanEstimator _ =>
      Ok (fun lx s => let r0 := r_given_logx s lx in r0 * r0 / natQ (n_dim s))
  | _ => Raise AttributeError
  end.

Definition check_integrand `{NumLib} `{PyLib} (lx : Q)
  (ftilde : Q -> Settings -> Q) (s : Settings) : Q :=
  np_exp (logl_given_logx s lx + lx) * ftilde lx s.

Definition check_by_integrating `{NumLib} `{PyLib} (ftilde : Q -> Settings -> Q)
  (s : Settings) : result Q :=
  match analytic_logx_terminate s with
  | None => Raise (AssertionError AssertLogxTerminate)
  | Some lt =>
      let result := quad (fun lx => check_integrand lx ftilde s) lt 0 in
      lz <- logz_analytic s ;;
      fdiv result (np_exp lz)
  end.

Definition is_gaussian_prior (name : string) : bool :=
  String.eqb name "gaussian" || String.eqb name "gaussian_cached".

Definition analytical `{NumLib} `{PyLib} (e : Estimator) (s : Settings)
  : result Q :=
  match e with
  | logzEstimator => logz_analytic s
  | zEstimator => l <- logz_analytic s ;; Ok (np_exp l)
  | nSamplesEstimator => Raise AttributeError
  | rMeanEstimator => Ok 0
  | rCredEstimator _ => Raise AttributeError
  | paramMeanEstimator _ => Ok 0
  | paramCredEstimator p _ =>
      if Qeq_bool p (1 # 2) then Ok 0
      else
        _ <- assert (String.eqb (likelihood_name s) "gaussian") AssertGaussian ;;
        _ <- assert (is_gaussian_prior (prior_name s)) AssertGaussian ;;
        a <- fdiv 1 (likelihood_scale s * likelihood_scale s) ;;
        b <- fdiv 1 (prior_scale s * prior_scale s) ;;
        let sigma := np_power (a + b) (- (1 # 2)) in
        let z := erfinv (p * 2 - 1) * np_sqrt 2 in
        Ok (z * sigma)
  | paramSquaredMeanEstimator _ =>
      f <- ftilde e ;;
      check_by_integrating f s
  end.

Definition name `{PyLib} (e : Estimator) : string :=
  match e with
  | logzEstimator => "logz"
  | zEstimator => "z"
  | nSamplesEstimator => "n_samples"
  | rMeanEstimator => "r"
  | rCredEstimator p => "rc_" ++ str_float p
  | paramMeanEstimator k => "theta" ++ str_int k
  | paramCredEstimator p k =>
      if Qeq_bool p (1 # 2) then "Median(theta" ++ str_int k ++ ")"
      else "theta" ++ str_int k ++ "c_" ++ str_float p
  | paramSquaredMeanEstimator k => "theta" ++ str_int k ++ "squ"
  end%string.

(** A Python dict with string keys, as an association list without repeated
    keys; [output[k] = v] replaces the value of a key already there. *)
Fixpoint dict_set {V : Type} (d : list (string * V)) (k : string) (v : V)
  : list (string * V) :=
  match d with
  | [] => [(k, v)]
  | (k', v') :: d' =>
      if String.eqb k' k then (k', v) :: d' else (k', v') :: dict_set d' k v
  end.

Fixpoint dict_get {V : Type} (d : list (string * V)) (k : string) : option V :=
  match d with
  | [] => None
  | (k', v') :: d' => if String.eqb k' k then Some v' else dict_get d' k
  end.

(** The loop of [get_true_estimator_values]: [AttributeError] and
    [AssertionError] become [nan], any other exception leaves the function. *)
Fixpoint true_values_loop `{NumLib} `{PyLib} (ests : list Estimator) (s : Settings)
  (output : list (string * nanQ)) (ordered_cols : list string)
  : result (list (string * nanQ) * list string) :=
  match ests with
  | [] => Ok (output, ordered_cols)
  | est :: ests' =>
      let cols := ordered_cols ++ [name est] in
      v <- match analytical est s with
           | Ok v => Ok (Val v)
           | Raise AttributeError => Ok NaN
           | Raise (AssertionError _) => Ok NaN
           | Raise e => Raise e
           end ;;
      true_values_loop ests' s (dict_set output (name est) v) cols
  end.

(** The one-row data frame, as its columns in order. *)
Definition get_true_estimator_values `{NumLib} `{PyLib} (ests : list Estimator)
  (s : Settings) : result (list (string * nanQ)) :=
  ' (output, ordered_cols) <- true_values_loop ests s [] [] ;;
  mapM (fun k => match dict_get output k with
                 | Some v => Ok (k, v)
                 | None => Raise IndexError
                 end) ordered_cols.

(** ** Executable instances

    A sorting routine that meets what numpy documents of [np.argsort], the
    routine numpy runs on a short array, and rational stand-ins for the
    library classes, on which the model runs. *)

(** Keys paired with their positions, ordered by key, equal keys by
    increasing position. *)
Definition key_leb (a b : Q * nat) : bool :=
  Qltb (fst a) (fst b) || (Qle_bool (fst a) (fst b) && (snd a <=? snd b)%nat).

Lemma key_leb_total (a b : Q * nat) : key_leb a b = true \/ key_leb b a = true.
Proof.
  unfold key_leb, Qltb.
  destruct (Qle_bool (fst a) (fst b)) eqn:Eab;
    destruct (Qle_bool (fst b) (fst a)) eqn:Eba; simpl; auto.
  destruct (Nat.leb_spec (snd a) (snd b)) as [Hle | Hlt]; auto.
  right. apply Nat.leb_le. lia.
Qed.

Module KeyOrder <: TotalLeBool.
Definition t : Type := (Q * nat)%type.
Definition leb : t -> t -> bool := key_leb.
Definition leb_total : forall a b, leb a b = true \/ leb b a = true :=
  key_leb_total.
End KeyOrder.

Module KeySort := Sort KeyOrder.

Definition with_positions (keys : list Q) : list (Q * nat) :=
  combine keys (seq 0 (length keys)).

(** A sort of the positions by key in which equal keys keep their order. *)
Definition argsort_stable (keys : list Q) : list nat :=
  map snd (KeySort.sort (with_positions keys)).

(** [np.argsort] of an array of doubles as numpy computes it with the
    default kind on an x86 processor with AVX-512, where the sort is the one
    of x86-simd-sort.  An array of at most 8 entries is loaded with its
    positions into one register of 8 lanes, the free lanes above every key,
    and goes through the bitonic network [sort_zmm_64bit] of six steps.  In
    a step every lane is compared with a partner lane and ends with the
    smaller or the larger of the two keys, as a mask says; it keeps its
    position where the key it ends with is the key it had, and takes the
    partner's otherwise. *)
Definition lane : Type := option (Q * nat).

Definition lane_le (a b : lane) : bool :=
  match a, b with
  | _, None => true
  | None, Some _ => false
  | Some x, Some y => Qle_bool (fst x) (fst y)
  end.

(** One step: the partner of lane [i] is lane [i xor k], and lane [i] takes
    the maximum where bit [b] of [i] is set (the masks [0xAA], [0xCC] and
    [0xF0] are the bits 0, 1 and 2 of the lane number). *)
Definition cmp_merge (k b : nat) (lanes : list lane) : list lane :=
  map (fun i =>
         let mine := nth i lanes None in
         let other := nth (Nat.lxor i k) lanes None in
         if Nat.testbit i b
         then (if lane_le other mine then mine else other)
         else (if lane_le mine other then mine else other))
    (seq 0 (length lanes)).

(** The network of one register: adjacent lanes ([0xAA]), the halves of
    four reversed ([0xCC]), adjacent lanes ([0xAA]), the register reversed
    ([0xF0]), pairs swapped ([0xCC]), adjacent lanes ([0xAA]). *)
Definition sort_zmm_64bit (lanes : list lane) : list lane :=
  cmp_merge 1 0 (cmp_merge 2 1 (cmp_merge 7 2
    (cmp_merge 1 0 (cmp_merge 3 1 (cmp_merge 1 0 lanes))))).

Definition lane_position (l : lane) : list nat :=
  match l with
  | Some p => [snd p]
  | None => []
  end.

(** Arrays of more than 8 entries, which the routine sorts with wider
    networks and a partition step, are not followed here: they are sorted
    by [argsort_stable]. *)
Definition argsort_simd (keys : list Q) : list nat :=
  let n := length keys in
  if (n <=? 8)%nat then
    let lanes := map Some (with_positions keys) ++ repeat None (8 - n) in
    flat_map lane_position (firstn n (sort_zmm_64bit lanes))
  else argsort_stable keys.

(** Rational stand-ins: [2 ^ floor x] for the exponential, [x - 1] for the
    logarithm, the maximum for [logsumexp]. *)
Definition rat_exp (x : Q) : Q := 2 ^ Qfloor x.

Definition rat_lse (a : list Q) : Q :=
  match a with
  | [] => 0
  | x :: a' => fold_left Qmaxb a' x
  end.

#[local] Instance RatLib : NumLib := {
  np_exp := rat_exp;
  np_log := fun x => x - 1;
  np_power := fun x _ => x;
  np_sqrt := fun x => x;
  lse := rat_lse;
  np_argsort := argsort_stable;
  erfinv := fun x => x
}.

(** The same library with the sort numpy runs on a short array. *)
Definition SimdLib : NumLib := {|
  np_exp := rat_exp;
  np_log := fun x => x - 1;
  np_power := fun x _ => x;
  np_sqrt := fun x => x;
  lse := rat_lse;
  np_argsort := argsort_simd;
  erfinv := fun x => x
|}.

(** A probability printed with two decimals, the second dropped when zero. *)
Definition digit (n : N) : string := String (ascii_of_N (48 + n)) "".

Definition str_two_decimals (q : Q) : string :=
  let n := Z.to_N (Qfloor (q * 100)) in
  (NilZero.string_of_uint (N.to_uint (n / 100)) ++ "." ++ digit ((n / 10) mod 10)
   ++ (if (n mod 10 =? 0)%N then "" else digit (n mod 10)))%string.

#[local] Instance RatPy : PyLib := {
  str_float := str_two_decimals;
  str_int := fun k => NilZero.string_of_int (Z.to_int k);
  quad := fun f a b => (b - a) * f a;
  analytic_logx_terminate := fun _ => Some (-10);
  logl_given_logx := fun s lx => logl_given_r s (r_given_logx s lx)
}.

(** A spherical toy problem over the rationals: the radius grows with the
    prior volume and the likelihood falls with the radius. *)
Definition toy_settings : Settings := {|
  n_dim := 1;
  dims_to_sample := 1;
  nlive_const := 2;
  ninit := 2;
  termination_fraction := 1 # 1000;
  dynamic_goal := Some 0;
  n_samples_max := Some 6;
  nbatch := 1;
  dynamic_fraction := 1 # 2;
  tuned_dynamic_p := false;
  logx_terminate := Some (-10);
  r_given_logx := fun lx => 1 / (1 - lx);
  logl_given_r := fun r0 => - (r0 * r0) / 2;
  sample_nsphere_shells := map (fun r0 => [r0]);
  likelihood_name := "gaussian";
  prior_name := "gaussian";
  likelihood_scale := 1;
  prior_scale := 10;
  logz_analytic := Ok 0
|}.

(** A stand-in for [analysis_utils]: the live count starts at the number of
    threads born from the whole prior and follows the changes recorded in
    the samples; the log weights are the log-likelihoods. *)
Fixpoint running_nlive (current : Q) (dn : list Z) : list Q :=
  match dn with
  | [] => []
  | d :: dn' => current :: running_nlive (current + inject_Z d) dn'
  end.

Fixpoint nlive_changes (nlive : list Q) : list Z :=
  match nlive with
  | [] => []
  | a :: rest =>
      match rest with
      | [] => [(-1)%Z]
      | b :: _ => Qfloor (b - a) :: nlive_changes rest
      end
  end.

Fixpoint rows_of (ls rs xs : list Q) (labels : list nat) (ns : list Z)
  (ths : list (list Q)) : list sample :=
  match ls, rs, xs, labels, ns, ths with
  | l :: ls', r0 :: rs', x :: xs', lb :: labels', n :: ns', th :: ths' =>
      {| logl := l; r := r0; logx := x; thread_label := lb; dnlive := n;
         theta := th |} :: rows_of ls' rs' xs' labels' ns' ths'
  | _, _, _, _, _, _ => []
  end.

#[local] Instance ToyAu : AuLib := {
  samples_array_given_run := fun r0 =>
    rows_of (run_logl r0) (run_r r0) (run_logx r0) (run_thread_labels r0)
      (nlive_changes (run_nlive_array r0)) (run_theta r0);
  dict_given_samples_array := fun samples tmm =>
    {| run_settings := None;
       run_logl := map logl samples;
       run_r := map r samples;
       run_logx := map logx samples;
       run_thread_labels := map thread_label samples;
       run_theta := map theta samples;
       run_nlive_array :=
         running_nlive (natQ (length (filter (fun p => isnan (fst p)) tmm)))
           (map dnlive samples);
       run_thread_min_max := tmm |};
  get_logw := fun logl _ _ => logl
}.

(** ** Vocabulary of the properties, and the data of the examples *)

(** Each entry is below the one before it. *)
Definition decreasing (l : list Q) : Prop := Sorted (fun a b => b < a) l.

(** Enough draws are on the tape for the trajectory from [start] to cross
    [logx_end]. *)
Definition crosses (logx_end start : Q) (t : tape) : Prop :=
  exists k, (k < length t)%nat /\ start + sumQ (firstn (S k) t) <= logx_end.

(** The call ends in an exception. *)
Definition raises {A : Type} (m : result A) : Prop := exists e, m = Raise e.

(** The integers [k, k-1, ..., 1] as floats. *)
Definition countdown (k : nat) : list Q := map natQ (rev (seq 1 k)).

(** A tape on which the toy problem runs to the end. *)
Definition toy_tape : tape := [-1; -2; - (1 # 2); -1; -1; -1; -1; -1].

(** [t[i]]: the sum of [w[j]] over [j >= i], as the specification has it. *)
Fixpoint tails_from (w : list Q) : list Q :=
  match w with
  | [] => []
  | x :: w' => sumQ (x :: w') :: tails_from w'
  end.

(** The sum of [w[j]] over [j > i]. *)
Fixpoint tails_after (w : list Q) : list Q :=
  match w with
  | [] => []
  | x :: w' => sumQ w' :: tails_after w'
  end.

(** The specification's words: the tail weight from [i] on, divided by
    [nlive[i]], rescaled so that the maximum is 1. *)
Definition z_importance_spec (w nlive : list Q) : result (list Q) :=
  scaled <- zipM fdiv (tails_from w) nlive ;;
  over_max scaled.

(** The same with the tail weight after [i]. *)
Definition z_importance_after (w nlive : list Q) : result (list Q) :=
  scaled <- zipM fdiv (tails_after w) nlive ;;
  over_max scaled.

(** Two results that raise the same exception or return arrays equal entry
    by entry as rationals. *)
Definition same_result (a b : result (list Q)) : Prop :=
  match a, b with
  | Ok u, Ok v => Forall2 Qeq u v
  | Raise e1, Raise e2 => e1 = e2
  | _, _ => False
  end.

(** [h] is the first, respectively the last, index whose importance exceeds
    [dynamic_fraction]. *)
Definition first_high (s : Settings) (importance : list Q) (h : nat) : Prop :=
  (exists x, nth_error importance h = Some x /\ dynamic_fraction s < x) /\
  forall i y, (i < h)%nat -> nth_error importance i = Some y ->
              y <= dynamic_fraction s.

Definition last_high (s : Settings) (importance : list Q) (h : nat) : Prop :=
  (exists x, nth_error importance h = Some x /\ dynamic_fraction s < x) /\
  forall i y, (h < i)%nat -> nth_error importance i = Some y ->
              y <= dynamic_fraction s.

(** The samples whose [logl] equals [key]. *)
Definition at_logl (key : Q) (samples : list sample) : list sample :=
  filter (fun x => Qeq_bool (logl x) key) samples.

(** The keys the two lookups use: the [logl] just before the first
    high-importance sample unless that is sample 0, and the [logl] just after
    the last one unless that is the final sample. *)
Definition start_key (samples : list sample) (h0 : nat) : option Q :=
  match h0 with
  | O => None
  | S i => option_map logl (nth_error samples i)
  end.

Definition end_key (samples : list sample) (h1 : nat) : option Q :=
  if (S h1 =? length samples)%nat then None
  else option_map logl (nth_error samples (S h1)).

(** A key that is carried by a number of samples other than one. *)
Definition ambiguous (samples : list sample) (key : option Q) : Prop :=
  exists k, key = Some k /\ length (at_logl k samples) <> 1%nat.

(** What a thread start [(logl_min, logx_min)] and a thread end
    [(logl_max, logx_max)] must be. *)
Definition start_ok (samples : list sample) (h0 : nat) (logl_min : nanQ)
  (logx_min : Q) : Prop :=
  match start_key samples h0 with
  | None => logl_min = NaN /\ logx_min = 0
  | Some k =>
      logl_min = Val k /\
      exists row, at_logl k samples = [row] /\ logx_min = logx row
  end.

Definition end_ok (samples : list sample) (h1 : nat) (logl_max logx_max : Q)
  : Prop :=
  match end_key samples h1 with
  | None =>
      exists final, nth_error samples (length samples - 1) = Some final /\
                    logl_max = logl final /\ logx_max = logx final
  | Some k =>
      logl_max = k /\
      exists row, at_logl k samples = [row] /\ logx_max = logx row
  end.

(** The rows are in non-decreasing [logl] order. *)
Definition sorted_by_logl (l : list sample) : Prop :=
  StronglySorted (fun a b => logl a <= logl b) l.


(** The thread label column of the samples. *)
Definition labels (st : dyn_state) : list nat := map thread_label (samples st).

(** The number of samples that thread [label] has. *)
Definition thread_size (label : nat) (l : list sample) : nat :=
  length (filter (fun x => (thread_label x =? label)%nat) l).

(** The state of the dynamic driver after the exploratory run of the toy
    problem on [toy_tape]. *)
Definition toy_dyn_state : dyn_state :=
  Eval vm_compute in
    match generate_standard_run toy_settings true toy_tape with
    | Ok (r0, _) =>
        {| samples := samples_array_given_run r0;
           thread_min_max := run_thread_min_max r0 |}
    | Raise _ => {| samples := []; thread_min_max := [] |}
    end.

(** Draws for the threads the dynamic driver adds to it. *)
Definition toy_dyn_tape : tape := [-1; -1; -1; -1; -1; -1].



(** Two samples of threads 1 and 2 at one [logl]. *)
Definition tied_rows : list sample :=
  [ {| logl := -1; r := 1; logx := -2; thread_label := 1; dnlive := 0;
       theta := [1] |};
    {| logl := -1; r := 1; logx := -3; thread_label := 2; dnlive := (-1);
       theta := [-1] |} ].

(** The part of [cred_estimate] that does not depend on the probability: the
    cumulative distribution and the sorted values handed to [np.interp]. *)
Definition cred_table `{NumLib} (logw : list Q) (get_values : result (list Q))
  : result (list Q * list Q) :=
  m <- np_max logw ;;
  let w := map (fun x => np_exp (x - m)) logw in
  values <- get_values ;;
  col <- assign_column (length logw) values ;;
  let order := np_argsort col in
  ws <- take w order ;;
  vs <- take col order ;;
  w0 <- index ws 0 ;;
  let cdf := map (fun c => c - w0 / 2) (cumsum ws) in
  cdf' <- div_all cdf (sumQ ws) ;;
  Ok (cdf', vs).

(** Three samples of the toy problem, out of order in [r]. *)
Definition toy_run : run := {|
  run_settings := None;
  run_logl := [-3; -2; -1];
  run_r := [3; 1; 2];
  run_logx := [-1; -2; -3];
  run_thread_labels := [1; 1; 1]%nat;
  run_theta := [[3]; [-1]; [2]];
  run_nlive_array := [1; 1; 1];
  run_thread_min_max := [(NaN, -1)]
|}.

(** A name that starts with "M" is the name of a median. *)
Definition median_name (k : string) : Prop :=
  exists rest, k = String "M" rest.

(** Every entry of the dict under the name of a median is [0]. *)
Definition medians_zero (output : list (string * nanQ)) : Prop :=
  forall k v, median_name k -> dict_get output k = Some v -> v = Val 0.

(** ** Parallelised wrappers ([perfectns/parallelised_wrappers.py])

    The wrappers call [concurrent.futures], [nestcheck.io_utils] and
    [perfectns.nested_sampling.generate_ns_run]; these are parameters.  What
    [get_run_data] does with a file is recorded as a trace of events.
    [func_on_runs] and [generate_runs] are the functions as they are written
    under [@iou.timing_decorator], which is not part of the sources; the
    progress bars and the calls of [print] are left out. *)

Module Wrappers.

(** The values a keyword argument of the wrappers takes. *)
Inductive pyval : Type :=
| PyBool (b : bool)
| PyInt (z : Z)
| PyNone.

(** [if v:]. *)
Definition truthy (v : pyval) : bool :=
  match v with
  | PyBool b => b
  | PyInt z => negb (z =? 0)%Z
  | PyNone => false
  end.

(** [v is False]. *)
Definition is_False (v : pyval) : bool :=
  match v with
  | PyBool false => true
  | _ => false
  end.

Definition kwargs : Type := list (string * pyval).

(** The dict without a key. *)
Definition without (k : string) (kw : kwargs) : kwargs :=
  filter (fun p => negb (String.eqb (fst p) k)) kw.

(** [kwargs.pop(k, default)]: the value and the dict without the key. *)
Definition pop (kw : kwargs) (k : string) (default : pyval) : pyval * kwargs :=
  match dict_get kw k with
  | Some v => (v, without k kw)
  | None => (default, kw)
  end.

(** The exceptions of the wrappers: those of the drivers, and those of
    files and of names. *)
Inductive pyexn : Type :=
| Core (e : exn)
| OSError
| EOFError
| UnboundLocalError
| KeyError
| PickleError.

Inductive outcome (A : Type) : Type :=
| Return (a : A)
| Throw (e : pyexn).

Arguments Return {A} a.
Arguments Throw {A} e.

Definition obind {A B : Type} (m : outcome A) (k : A -> outcome B) : outcome B :=
  match m with
  | Return a => k a
  | Throw e => Throw e
  end.

(** The results of calls made one after the other, up to the first that
    raises. *)
Fixpoint collect {A : Type} (l : list (outcome A)) : outcome (list A) :=
  match l with
  | [] => Return []
  | m :: l' => obind m (fun a => obind (collect l') (fun rest => Return (a :: rest)))
  end.

(** [concurrent.futures]: creating a [ProcessPoolExecutor], and the order
    in which [as_completed] yields the futures submitted in the order
    given. *)
Class Pool : Type := {
  new_pool : pyval -> outcome unit;
  as_completed : forall A : Type, list A -> list A
}.

(** A two-dimensional array: its shape and its rows. *)
Record array2 : Type := {
  shape : nat * nat;
  rows : list (list Q)
}.

(** [np.stack(arrays, axis=1)] on one-dimensional arrays: each array is a
    column; no array, or arrays of different lengths, raise [ValueError]. *)
Definition np_stack_axis1 (arrays : list (list Q)) : outcome array2 :=
  match arrays with
  | [] => Throw (Core ValueError)
  | a :: rest =>
      if forallb (fun b => (length b =? length a)%nat) rest then
        Return {| shape := (length a, length arrays);
                  rows := map (fun i => map (fun b => nth i b 0) arrays)
                            (seq 0 (length a)) |}
      else Throw (Core ValueError)
  end.

Inductive results : Type :=
| ResultsList (l : list (list Q))
| ResultsArray (a : array2).

Definition func_on_runs `{Pool}
  (single_run_func : run -> list Estimator -> kwargs -> outcome (list Q))
  (run_list : list run) (estimator_list : list Estimator) (kw : kwargs)
  : outcome results :=
  let (max_workers, kw1) := pop kw "max_workers" PyNone in
  let (parallelise, kw2) := pop kw1 "parallelise" (PyBool true) in
  let (results_as_list, kw3) := pop kw2 "results_as_list" (PyBool false) in
  let calls := map (fun r0 => single_run_func r0 estimator_list kw3) run_list in
  obind (if truthy parallelise then
           obind (new_pool max_workers) (fun _ => collect (as_completed _ calls))
         else collect calls)
    (fun results_list =>
       if truthy results_as_list then Return (ResultsList results_list)
       else obind (np_stack_axis1 results_list)
              (fun a => Return (ResultsArray a))).

(** [ns_generate_ns_run i] is what the call of [ns.generate_ns_run(settings)]
    number [i] returns or raises. *)
Definition generate_runs `{Pool} (ns_generate_ns_run : nat -> outcome run)
  (n_repeat : Z) (max_workers parallelise : pyval) : outcome (list run) :=
  let calls := map ns_generate_ns_run (seq 0 (Z.to_nat n_repeat)) in
  if is_False parallelise then collect calls
  else obind (new_pool max_workers) (fun _ => collect (as_completed _ calls)).

(** [nestcheck.io_utils], and the comparison of the settings with the
    settings recorded in a loaded run. *)
Class IoUtils : Type := {
  data_save_name : Settings -> Z -> string;
  pickle_load : string -> outcome (list run);
  pickle_save : list run -> string -> pyval -> outcome unit;
  settings_match : Settings -> Settings -> bool
}.

(** What [get_run_data] does outside itself. *)
Inductive event : Type :=
| Loaded (save_name : string)
| Generated (n_repeat : Z) (max_workers parallelise : pyval)
| Saved (data : list run) (save_name : string) (overwrite_existing : pyval).

(** The block under [if check_loaded_settings:]: [data] is [None] when the
    name is not bound. *)
Definition check_loaded `{IoUtils} (settings : Settings)
  (data : option (list run)) (load : pyval)
  : outcome (option (list run) * pyval) :=
  match data with
  | None => Throw UnboundLocalError
  | Some [] => Throw (Core IndexError)
  | Some (r0 :: rest) =>
      match run_settings r0 with
      | None => Throw KeyError
      | Some loaded =>
          if settings_match settings loaded then Return (Some (r0 :: rest), load)
          else Return (None, PyBool false)
      end
  end.

(** The block under [if load:]: the data, [load] and [overwrite_existing]
    after it. *)
Definition load_block `{IoUtils} (settings : Settings) (save_name : string)
  (load overwrite_existing check_loaded_settings : pyval)
  : outcome (option (list run) * pyval * pyval) * list event :=
  if truthy load then
    let after (data : option (list run)) (load' overwrite' : pyval) :=
      if truthy check_loaded_settings then
        obind (check_loaded settings data load')
          (fun dl => Return (fst dl, snd dl, overwrite'))
      else Return (data, load', overwrite') in
    (match pickle_load save_name with
     | Return data => after (Some data) load overwrite_existing
     | Throw OSError => after None (PyBool false) overwrite_existing
     | Throw EOFError => after None (PyBool false) (PyBool true)
     | Throw e => Throw e
     end, [Loaded save_name])
  else (Return (None, load, overwrite_existing), []).

Definition get_run_data `{Pool} `{IoUtils}
  (ns_generate_ns_run : Settings -> nat -> outcome run)
  (settings : Settings) (n_repeat : Z) (kw : kwargs)
  : outcome (list run) * list event :=
  let (parallelise, kw1) := pop kw "parallelise" (PyBool true) in
  let (max_workers, kw2) := pop kw1 "max_workers" PyNone in
  let (load, kw3) := pop kw2 "load" (PyBool true) in
  let (save, kw4) := pop kw3 "save" (PyBool true) in
  let (overwrite_existing, kw5) := pop kw4 "overwrite_existing" (PyBool false) in
  let (check_loaded_settings, kw6) :=
    pop kw5 "check_loaded_settings" (PyBool false) in
  match kw6 with
  | _ :: _ => (Throw (Core TypeError), [])
  | [] =>
      let save_name := ("data/" ++ data_save_name settings n_repeat)%string in
      match load_block settings save_name load overwrite_existing
              check_loaded_settings with
      | (Throw e, trace) => (Throw e, trace)
      | (Return (data, load', overwrite'), trace) =>
          if negb (truthy load') then
            let generated := [Generated n_repeat max_workers parallelise] in
            match generate_runs (ns_generate_ns_run settings) n_repeat
                    max_workers parallelise with
            | Throw e => (Throw e, trace ++ generated)
            | Return new_data =>
                if truthy save then
                  (obind (pickle_save new_data save_name overwrite')
                     (fun _ => Return new_data),
                   trace ++ generated ++ [Saved new_data save_name overwrite'])
                else (Return new_data, trace ++ generated)
            end
          else
            match data with
            | Some d => (Return d, trace)
            | None => (Throw UnboundLocalError, trace)
            end
      end
  end.

(** The keyword arguments that are left for [single_run_func]. *)
Definition passed_on (kw : kwargs) : kwargs :=
  without "results_as_list" (without "parallelise" (without "max_workers" kw)).

(** [kwargs.get(k, default)], the value [pop] returns. *)
Definition kwarg (kw : kwargs) (k : string) (default : pyval) : pyval :=
  match dict_get kw k with
  | Some v => v
  | None => default
  end.

(** The keyword arguments [get_run_data] accepts. *)
Definition get_run_data_keys : list string :=
  ["parallelise"; "max_workers"; "load"; "save"; "overwrite_existing";
   "check_loaded_settings"]%string.

(** A pool that completes the futures in the reverse of the order they were
    submitted in, and one that completes them in that order. *)
Definition reversing_pool : Pool :=
  {| new_pool := fun _ => Return tt; as_completed := fun A l => rev l |}.

Definition orderly_pool : Pool :=
  {| new_pool := fun _ => Return tt; as_completed := fun A l => l |}.

(** A disk on which [pickle_load] has the outcome given, and every
    [pickle_save] succeeds. *)
Definition disk (loaded : outcome (list run)) : IoUtils :=
  {| data_save_name := fun _ _ => "runs"%string;
     pickle_load := fun _ => loaded;
     pickle_save := fun _ _ _ => Return tt;
     settings_match := fun _ _ => true |}.

End Wrappers.

(** ** Vocabulary of the further properties *)

(** A point carries the radius and the likelihood of its [logx]. *)
Definition on_curve (s : Settings) (p : point) : Prop :=
  p_r p = r_given_logx s (p_logx p) /\ p_logl p = logl_given_r s (p_r p).

(** The likelihood as a function of [logx]. *)
Definition logl_of_logx (s : Settings) (lx : Q) : Q :=
  logl_given_r s (r_given_logx s lx).

(** The likelihood does not decrease as the prior volume shrinks. *)
Definition likelihood_monotone (s : Settings) : Prop :=
  forall x y, x <= y -> y <= 0 -> logl_of_logx s y <= logl_of_logx s x.

(** The points of the standard driver: every point is on the likelihood
    curve, the live points keep the labels [1 .. nlive] in their rows, and
    every dead point has one of them. *)
Definition std_points_ok (s : Settings) (nlive : nat) (st : std_state) : Prop :=
  Forall (on_curve s) (live_points st) /\
  Forall (on_curve s) (dead_points_list st) /\
  map p_label (live_points st) = seq 1 nlive /\
  Forall (fun p => In (p_label p) (seq 1 nlive)) (dead_points_list st).

(** The order of the standard driver's points: the dead points are in
    increasing order of likelihood and none of them is above a live point;
    the live points are on the likelihood curve inside the prior. *)
Definition std_ordered (s : Settings) (st : std_state) : Prop :=
  Forall (on_curve s) (live_points st) /\
  Forall (fun p => p_logx p <= 0) (live_points st) /\
  StronglySorted Qle (map p_logl (dead_points_list st)) /\
  Forall (fun q => Forall (fun p => p_logl q <= p_logl p) (live_points st))
    (dead_points_list st).

(** A relative importance: every entry is in [[0, 1]] and one entry is 1. *)
Definition relative (v : list Q) : Prop :=
  Forall (fun x => 0 <= x <= 1) v /\ Exists (fun x => x == 1) v.

(** Four samples of two threads, in decreasing order of [logx]. *)
Definition ladder_rows : list sample :=
  [ {| logl := -3; r := 3; logx := -1; thread_label := 1; dnlive := 0;
       theta := [3] |};
    {| logl := -2; r := 2; logx := -2; thread_label := 2; dnlive := 0;
       theta := [2] |};
    {| logl := -1; r := 1; logx := -3; thread_label := 1; dnlive := (-1);
       theta := [1] |};
    {| logl := -1; r := 1; logx := -4; thread_label := 2; dnlive := (-1);
       theta := [1] |} ].

(** The sum of the changes in the number of live points over the samples. *)
Definition dnlive_total (l : list sample) : Z :=
  fold_right Z.add 0%Z (map dnlive l).

(** The threads that start by sampling the whole prior: those whose row of
    [thread_min_max] has [nan] as its start. *)
Definition prior_threads (tmm : list (nanQ * Q)) : Z :=
  Z.of_nat (length (filter (fun p => isnan (fst p)) tmm)).

(** The number of live points after the last sample: the threads that start
    from the whole prior, and the changes recorded in the samples. *)
Definition live_at_end (st : dyn_state) : Z :=
  (prior_threads (thread_min_max st) + dnlive_total (samples st))%Z.

(** The thread and the likelihood of each sample. *)
Definition thread_logls (st : dyn_state) : list (nat * Q) :=
  map (fun x => (thread_label x, logl x)) (samples st).

(** The entry of the table of true values for one estimator: its analytic
    value, and [nan] when [analytical] is missing or fails an assertion. *)
Definition reference_value `{NumLib} `{PyLib} (s : Settings) (e : Estimator)
  : result nanQ :=
  match analytical e s with
  | Ok v => Ok (Val v)
  | Raise AttributeError => Ok NaN
  | Raise (AssertionError _) => Ok NaN
  | Raise err => Raise err
  end.


(** ** Vocabulary of the sample budget *)

(** The likelihood increases strictly as the prior volume shrinks. *)
Definition likelihood_strict (s : Settings) : Prop :=
  forall x y, y < x -> x <= 0 -> logl_of_logx s x < logl_of_logx s y.

(** Every run of [size] consecutive draws that starts among the first
    [(n - 1) * size] draws is on the tape and sums to [w] or less: each of
    [n] threads generated one after the other, from a [logx] that is not
    above 0, is at [w] or below it after [size] draws or fewer. *)
Definition ample (n size : nat) (w : Q) (t : tape) : Prop :=
  forall k, (k + size <= n * size)%nat ->
            (k + size <= length t)%nat /\
            sumQ (firstn size (skipn k t)) <= w.

(** The samples and the tape at the head of the loop
    [while n_samples < n_samples_max], on entry and after each pass. *)
Inductive dyn_reached `{NumLib} `{AuLib} (s : Settings) (max : Q)
  (st0 : dyn_state) (t0 : tape) : dyn_state -> tape -> Prop :=
| reached_entry : dyn_reached s max st0 t0 st0 t0
| reached_pass st t st' t' :
    dyn_reached s max st0 t0 st t ->
    natQ (length (samples st)) < max ->
    dyn_body s st t = Ok (st', t') ->
    dyn_reached s max st0 t0 st' t'.

(** What a pass of the loop finds: an importance for each sample, one of
    them above [dynamic_fraction]; samples on the likelihood curve, no two at
    one [logl], in decreasing order of [logx] inside the prior; and a tape of
    negative draws on which each of the [nbatch] threads is below the lowest
    sample after [size] draws or fewer. *)
Definition pass_ready `{NumLib} `{AuLib} (s : Settings) (size : nat)
  (st : dyn_state) (t : tape) : Prop :=
  (exists importance,
      point_importance (samples st) (thread_min_max st) s false = Ok importance /\
      length importance = length (samples st) /\
      Exists (fun x => dynamic_fraction s < x) importance) /\
  (forall x, In x (samples st) ->
             length (at_logl (logl x) (samples st)) = 1%nat) /\
  Forall (fun x => logl x == logl_of_logx s (logx x)) (samples st) /\
  decreasing (map logx (samples st)) /\
  Forall (fun x => logx x < 0) (samples st) /\
  Forall (fun d => d < 0) t /\
  ample (nbatch s) size (last (map logx (samples st)) 0) t.

(** Draws on which the toy problem adds one thread of two samples. *)
Definition budget_tape : tape := [- (3 # 4); -2].
(** * Properties *)

(** ** Basic facts *)

Lemma Qltb_lt (x y : Q) : Qltb x y = true <-> x < y.
Proof.
  unfold Qltb. rewrite negb_true_iff. split; intro H.
  - apply Qnot_le_lt. intro Hle. apply Qle_bool_iff in Hle. congruence.
  - destruct (Qle_bool y x) eqn:E; [|reflexivity].
    apply Qle_bool_iff in E. exfalso. apply (Qlt_not_le _ _ H E).
Qed.

Lemma Qltb_ge (x y : Q) : Qltb x y = false <-> y <= x.
Proof.
  unfold Qltb. rewrite negb_false_iff. apply Qle_bool_iff.
Qed.

Lemma Qgtb_gt (x y : Q) : Qgtb x y = true <-> y < x.
Proof. unfold Qgtb. apply Qltb_lt. Qed.

Lemma Qgtb_le (x y : Q) : Qgtb x y = false <-> x <= y.
Proof. unfold Qgtb. apply Qltb_ge. Qed.

Lemma bind_ok {A B : Type} (m : result A) (k : A -> result B) (b : B) :
  bind m k = Ok b -> exists a, m = Ok a /\ k a = Ok b.
Proof.
  destruct m as [a | e]; simpl; intro H; [eauto | discriminate].
Qed.

(** Break an equation [x <- m ;; k = Ok v] into its steps. *)
Ltac bind_inv H :=
  let a := fresh "a" in
  let Ha := fresh "Hstep" in
  apply bind_ok in H; destruct H as [a [Ha H]].

Tactic Notation "bind_split" hyp(H) "as" simple_intropattern(a) ident(Ha) :=
  apply bind_ok in H; destruct H as [a [Ha H]].

Lemma mapM_length {A B : Type} (f : A -> result B) (l : list A) (bs : list B) :
  mapM f l = Ok bs -> length bs = length l.
Proof.
  revert bs. induction l as [| a l IH]; simpl; intros bs H.
  - inversion H. reflexivity.
  - bind_inv H. bind_inv H. inversion H; subst. simpl. f_equal. eauto.
Qed.

Lemma index_ok {A : Type} (l : list A) (i : nat) (a : A) :
  index l i = Ok a <-> nth_error l i = Some a.
Proof.
  unfold index. destruct (nth_error l i); split; intro H;
    inversion H; reflexivity.
Qed.

Lemma index_lt {A : Type} (l : list A) (i : nat) :
  (i < length l)%nat -> exists a, index l i = Ok a.
Proof.
  intro H. unfold index. destruct (nth_error l i) eqn:E; [eauto|].
  apply nth_error_None in E. lia.
Qed.

(** ** Thread generator *)

Lemma thread_logx_loop_spec (logx_end : Q) (t : tape) :
  forall last,
    Forall (fun d => d < 0) t ->
    last <= logx_end \/ crosses logx_end last t ->
    exists rest t',
      thread_logx_loop logx_end last t = Ok (rest, t') /\
      decreasing (last :: rest) /\
      List.last (last :: rest) 0 <= logx_end.
Proof.
  induction t as [| d t IH]; intros last Hneg Hcross.
  - assert (Hle : last <= logx_end).
    { destruct Hcross as [H | [k [Hk _]]]; [exact H | simpl in Hk; lia]. }
    exists [], []. simpl. apply Qgtb_le in Hle. rewrite Hle.
    repeat split; [repeat constructor | apply Qgtb_le; exact Hle].
  - simpl. destruct (Qgtb last logx_end) eqn:E.
    + apply Qgtb_gt in E. inversion Hneg as [| ? ? Hd Hneg']; subst.
      destruct (IH (last + d) Hneg') as [rest [t' [Hloop [Hdec Hlast]]]].
      { destruct Hcross as [H | [k [Hk Hsum]]].
        - exfalso. apply (Qlt_not_le _ _ E H).
        - destruct k as [| k].
          + left. simpl in Hsum. lra.
          + right. exists k. split; [simpl in Hk; lia|].
            change (firstn (S (S k)) (d :: t)) with (d :: firstn (S k) t) in Hsum.
            simpl sumQ in Hsum. simpl sumQ. lra. }
      rewrite Hloop. simpl. exists ((last + d) :: rest), t'.
      repeat split.
      * constructor; [exact Hdec | constructor; lra].
      * exact Hlast.
    + exists [], (d :: t). apply Qgtb_le in E.
      repeat split; [repeat constructor | exact E].
Qed.

Lemma generate_thread_logx_keep (logx_end logx_start : Q) (t : tape) :
  Forall (fun d => d < 0) t ->
  crosses logx_end logx_start t ->
  exists logx_list t',
    generate_thread_logx logx_end logx_start true t = Ok (logx_list, t') /\
    logx_list <> [] /\
    decreasing logx_list /\
    List.last logx_list 0 <= logx_end.
Proof.
  intros Hneg [k [Hk Hsum]]. destruct t as [| d t]; [simpl in Hk; lia|].
  inversion Hneg as [| ? ? Hd Hneg']; subst.
  destruct (thread_logx_loop_spec logx_end t (logx_start + d) Hneg')
    as [rest [t' [Hloop [Hdec Hlast]]]].
  { destruct k as [| k].
    - left. simpl in Hsum. lra.
    - right. exists k. split; [simpl in Hk; lia|].
      change (firstn (S (S k)) (d :: t)) with (d :: firstn (S k) t) in Hsum.
      simpl sumQ in Hsum. simpl sumQ. lra. }
  exists ((logx_start + d) :: rest), t'.
  unfold generate_thread_logx. simpl. rewrite Hloop. simpl.
  repeat split; [discriminate | exact Hdec | exact Hlast].
Qed.

Lemma combine_rows_ok (label : nat) (ls rs xs : list Q) (ns : list Z)
  (ths : list (list Q)) :
  length ls = length xs -> length rs = length xs ->
  length ns = length xs -> length ths = length xs ->
  exists rows,
    combine_rows label ls rs xs ns ths = Ok rows /\ map logx rows = xs /\
    Forall (fun x => thread_label x = label) rows.
Proof.
  revert ls rs ns ths.
  induction xs as [| x xs IH]; intros ls rs ns ths Hl Hr Hn Ht;
    destruct ls, rs, ns, ths; simpl in *; try discriminate.
  - exists []. repeat split. constructor.
  - destruct (IH ls rs ns ths) as [rows [Hrows [Hmap Hlab]]]; try lia.
    rewrite Hrows. simpl. eexists. repeat split.
    + simpl. f_equal. exact Hmap.
    + constructor; [reflexivity | exact Hlab].
Qed.

Lemma end_marks_length (n : nat) : length (end_marks n) = n.
Proof.
  induction n as [| n IH]; [reflexivity|].
  destruct n; [reflexivity|]. simpl in *. f_equal. exact IH.
Qed.

(** When the shell sampler returns one row per radius, a thread kept with its
    final point is returned whole. *)
Lemma generate_single_thread_keep (s : Settings) (logx_end logx_start : Q)
  (label : nat) (t : tape) :
  (forall rs, length (sample_nsphere_shells s rs) = length rs) ->
  logx_end < logx_start ->
  Forall (fun d => d < 0) t ->
  crosses logx_end logx_start t ->
  exists rows t',
    generate_single_thread s (Some logx_end) label logx_start true t
      = Ok (Some rows, t') /\
    generate_thread_logx logx_end logx_start true t = Ok (map logx rows, t') /\
    rows <> [] /\
    Forall (fun x => thread_label x = label) rows /\
    decreasing (map logx rows) /\
    List.last (map logx rows) 0 <= logx_end.
Proof.
  intros Hshell Hlt Hneg Hcross.
  destruct (generate_thread_logx_keep logx_end logx_start t Hneg Hcross)
    as [xs [t' [Hgen [Hne [Hdec Hlast]]]]].
  unfold generate_single_thread. simpl.
  apply Qgtb_gt in Hlt. rewrite Hlt. simpl. rewrite Hgen. simpl.
  destruct xs as [| x xs]; [congruence|].
  destruct (combine_rows_ok label
              (map (logl_given_r s) (map (r_given_logx s) (x :: xs)))
              (map (r_given_logx s) (x :: xs)) (x :: xs)
              (end_marks (length (x :: xs)))
              (sample_nsphere_shells s (map (r_given_logx s) (x :: xs))))
    as [rows [Hrows [Hmap Hlab]]].
  - rewrite !length_map. reflexivity.
  - rewrite length_map. reflexivity.
  - apply end_marks_length.
  - rewrite Hshell, length_map. reflexivity.
  - rewrite Hrows. simpl. exists rows, t'. rewrite Hmap.
    repeat split; auto.
    intro Hnil. rewrite Hnil in Hmap. discriminate.
Qed.

Lemma thread_logx_loop_nil (logx_end last : Q) (t t' : tape) :
  thread_logx_loop logx_end last t = Ok ([], t') <->
  last <= logx_end /\ t' = t.
Proof.
  split.
  - destruct t as [| d t]; simpl; destruct (Qgtb last logx_end) eqn:E;
      intro H; try discriminate.
    + inversion H. apply Qgtb_le in E. auto.
    + bind_inv H. destruct a. discriminate.
    + inversion H. apply Qgtb_le in E. auto.
  - intros [Hle ->]. apply Qgtb_le in Hle.
    destruct t; simpl; rewrite Hle; reflexivity.
Qed.

Lemma generate_thread_logx_nil (logx_end logx_start : Q) (keep : bool)
  (t t' : tape) :
  generate_thread_logx logx_end logx_start keep t = Ok ([], t') <->
  keep = false /\ exists d, t = d :: t' /\ logx_start + d <= logx_end.
Proof.
  unfold generate_thread_logx. split.
  - destruct t as [| d t]; simpl; [discriminate|].
    intro H. bind_inv H. destruct a as [rest t2].
    destruct keep; simpl in H; [discriminate|].
    destruct rest as [| y rest]; [| discriminate].
    inversion H; subst.
    apply thread_logx_loop_nil in Hstep. destruct Hstep as [Hle ->].
    split; [reflexivity | eauto].
  - intros [-> [d [-> Hle]]]. simpl.
    assert (Hloop : thread_logx_loop logx_end (logx_start + d) t' = Ok ([], t')).
    { apply thread_logx_loop_nil. auto. }
    rewrite Hloop. reflexivity.
Qed.

(** C9. On an interval [logx_start > logx_end], [generate_single_thread]
    called with [keep_final_point = True] never returns [None].  With
    negative draws, a tape long enough for the trajectory to cross
    [logx_end] and a shell sampler that returns one row per radius, it
    returns a thread: the [logx] column is non-empty, strictly decreasing,
    and ends at or below [logx_end]. *)
Theorem single_thread_keep_final_nonempty (s : Settings)
  (logx_end logx_start : Q) (label : nat) :
  logx_end < logx_start ->
  (forall t t',
      generate_single_thread s (Some logx_end) label logx_start true t
      <> Ok (None, t')) /\
  (forall t,
      (forall rs, length (sample_nsphere_shells s rs) = length rs) ->
      Forall (fun d => d < 0) t ->
      crosses logx_end logx_start t ->
      exists rows t',
        generate_single_thread s (Some logx_end) label logx_start true t
          = Ok (Some rows, t') /\
        generate_thread_logx logx_end logx_start true t = Ok (map logx rows, t') /\
        map logx rows <> [] /\
        decreasing (map logx rows) /\
        List.last (map logx rows) 0 <= logx_end).
Proof.
  intro Hlt. split.
  - intros t t' Hg. unfold generate_single_thread in Hg.
    bind_split Hg as e He. inversion He; subst e.
    bind_split Hg as u Hu.
    bind_split Hg as [xs t1] Hxs.
    destruct xs as [| x xs].
    + inversion Hg; subst t1.
      apply generate_thread_logx_nil in Hxs. destruct Hxs as [Hkeep _].
      discriminate.
    + bind_split Hg as rows Hrows. discriminate.
  - intros t Hshell Hneg Hcross.
    destruct (generate_single_thread_keep s logx_end logx_start label t
                Hshell Hlt Hneg Hcross)
      as [rows [t' [H1 [H2 [H3 [_ [H4 H5]]]]]]].
    exists rows, t'. repeat split; auto.
    destruct rows; [congruence | discriminate].
Qed.

Lemma single_thread_keep_final_nonempty_witness :
  (forall t t',
      generate_single_thread toy_settings (Some (-1)) 1 0 true t
      <> Ok (None, t')) /\
  exists rows t',
    generate_single_thread toy_settings (Some (-1)) 1 0 true [- (1 # 2); -1]
      = Ok (Some rows, t') /\
    generate_thread_logx (-1) 0 true [- (1 # 2); -1] = Ok (map logx rows, t') /\
    map logx rows <> [] /\
    decreasing (map logx rows) /\
    List.last (map logx rows) 0 <= -1.
Proof.
  destruct (single_thread_keep_final_nonempty toy_settings (-1) 0 1)
    as [Hnone Hsome]; [reflexivity|].
  split; [exact Hnone|].
  apply (Hsome [- (1 # 2); -1]).
  - intro rs. simpl. apply length_map.
  - repeat constructor.
  - exists 1%nat. split; [simpl; lia | vm_compute; discriminate].
Defined.

(** C4, as the code has it.  On an interval [logx_start > logx_end] the
    trajectory keeps no point exactly when [keep_final_point] is false and the
    first draw lands at or below [logx_end]; [generate_single_thread] then
    returns [None] and raises nothing, in both revisions. *)
Theorem single_thread_empty_returns_none (s : Settings) (logx_end logx_start : Q)
  (label : nat) (keep : bool) (t t' : tape) :
  logx_end < logx_start ->
  (generate_thread_logx logx_end logx_start keep t = Ok ([], t') <->
   keep = false /\ exists d, t = d :: t' /\ logx_start + d <= logx_end) /\
  (generate_thread_logx logx_end logx_start keep t = Ok ([], t') ->
   generate_single_thread s (Some logx_end) label logx_start keep t
     = Ok (None, t') /\
   Npns.generate_single_thread s (Some logx_end) logx_start keep t
     = Ok (None, t')).
Proof.
  intro Hlt. split; [apply generate_thread_logx_nil|].
  intro Hgen. apply Qgtb_gt in Hlt.
  unfold generate_single_thread, Npns.generate_single_thread. simpl.
  rewrite Hlt. simpl. rewrite Hgen. simpl. auto.
Qed.

Lemma single_thread_empty_returns_none_witness :
  (generate_thread_logx (-1) 0 false [-2] = Ok ([], []) <->
   false = false /\ exists d, [-2] = [d] /\ 0 + d <= -1) /\
  (generate_thread_logx (-1) 0 false [-2] = Ok ([], []) ->
   generate_single_thread toy_settings (Some (-1)) 1 0 false [-2]
     = Ok (None, []) /\
   Npns.generate_single_thread toy_settings (Some (-1)) 0 false [-2]
     = Ok (None, [])).
Proof.
  apply (single_thread_empty_returns_none toy_settings (-1) 0 1 false [-2] []).
  reflexivity.
Defined.

(** C4, as the specification words it, fails: with [keep_final_point] false
    and a first draw of [-2] on the interval from [0] to [-1] no point is
    kept, and the call returns instead of raising. *)
Lemma single_thread_empty_not_raised :
  generate_thread_logx (-1) 0 false [-2] = Ok ([], []) /\
  generate_single_thread toy_settings (Some (-1)) 1 0 false [-2] = Ok (None, []) /\
  ~ raises (generate_single_thread toy_settings (Some (-1)) 1 0 false [-2]) /\
  ~ raises (Npns.generate_single_thread toy_settings (Some (-1)) 0 false [-2]).
Proof.
  repeat split.
  - intros [e H]. vm_compute in H. discriminate.
  - intros [e H]. vm_compute in H. discriminate.
Qed.

(** ** Standard driver *)

Lemma set_nth_length {A : Type} (l : list A) (i : nat) (v : A) :
  length (set_nth l i v) = length l.
Proof.
  revert i. induction l as [| a l IH]; intros [| i]; simpl; auto.
Qed.

Lemma set_nth_app {A : Type} (a b : list A) (x y : A) :
  set_nth (a ++ x :: b) (length a) y = a ++ y :: b.
Proof.
  induction a as [| z a IH]; simpl; [reflexivity | f_equal; exact IH].
Qed.

Lemma repeat_snoc {A : Type} (v : A) (n : nat) :
  repeat v (S n) = repeat v n ++ [v].
Proof.
  induction n as [| n IH]; [reflexivity|].
  simpl in *. f_equal. exact IH.
Qed.

Lemma countdown_S (k : nat) : countdown (S k) = natQ (S k) :: countdown k.
Proof.
  unfold countdown. rewrite seq_S, rev_app_distr. reflexivity.
Qed.

Lemma countdown_length (k : nat) : length (countdown k) = k.
Proof.
  unfold countdown. rewrite length_map, length_rev, length_seq. reflexivity.
Qed.

(** The assignments [a[-i] = i] for [i = k+1, ..., k+m] turn the last [m]
    entries before an already counted-down tail into the next steps of the
    countdown. *)
Lemma countdown_assignments (v : Q) (m : nat) :
  forall k c,
    foldM (fun a i => set_neg a i (natQ i)) (seq (S k) m)
      (repeat v (c + m) ++ countdown k)
    = Ok (repeat v c ++ countdown (k + m)).
Proof.
  induction m as [| m IH]; intros k c.
  - simpl. rewrite !Nat.add_0_r. reflexivity.
  - simpl foldM. unfold set_neg.
    rewrite length_app, repeat_length, countdown_length.
    replace ((1 <=? S k) && (S k <=? c + S m + k))%nat with true.
    2:{ symmetry. apply andb_true_iff. split; apply Nat.leb_le; lia. }
    replace (c + S m + k - S k)%nat with (c + m)%nat by lia.
    replace (c + S m)%nat with (S (c + m)) by lia.
    rewrite repeat_snoc, <- app_assoc. simpl app.
    rewrite <- (repeat_length v (c + m)) at 2.
    rewrite set_nth_app. simpl bind.
    rewrite <- countdown_S.
    replace (k + S m)%nat with (S k + m)%nat by lia.
    apply IH.
Qed.

Lemma nlive_array_of_spec (n_dead nlive : nat) :
  nlive_array_of (n_dead + nlive) nlive
  = Ok (repeat (natQ nlive) n_dead ++ countdown nlive).
Proof.
  unfold nlive_array_of. destruct nlive as [| m].
  - simpl. rewrite Nat.add_0_r, app_nil_r. reflexivity.
  - replace (S m - 1)%nat with m by lia.
    pose proof (countdown_assignments (natQ (S m)) m 0 (S n_dead)) as H.
    simpl countdown in H. rewrite app_nil_r in H.
    replace (n_dead + S m)%nat with (S n_dead + m)%nat by lia.
    rewrite H. simpl plus. rewrite repeat_snoc, <- app_assoc. simpl app.
    rewrite countdown_S. reflexivity.
Qed.

Lemma npns_nlive_array_of_spec (n_dead nlive : nat) :
  Npns.nlive_array_of (n_dead + nlive) nlive
  = Ok (repeat (natQ nlive) n_dead ++ countdown nlive).
Proof.
  unfold Npns.nlive_array_of.
  pose proof (countdown_assignments (natQ nlive) nlive 0 n_dead) as H.
  simpl countdown in H. rewrite app_nil_r in H. exact H.
Qed.

Lemma draws_length (n : nat) :
  forall t ds t', draws n t = Ok (ds, t') -> length ds = n.
Proof.
  induction n as [| n IH]; simpl; intros t ds t' H.
  - inversion H. reflexivity.
  - bind_inv H. destruct a as [d t1]. bind_inv H. destruct a as [ds' t2].
    inversion H; subst. simpl. f_equal. eapply IH. eassumption.
Qed.

Lemma init_live_length (s : Settings) (lxs : list Q) :
  forall label, length (init_live s label lxs) = length lxs.
Proof.
  induction lxs as [| lx lxs IH]; intro label; simpl; auto.
Qed.

Section StandardDriver.

Context `{NumLib}.
Variables (s : Settings) (nlive : nat).

Lemma std_init_live (t : tape) (st0 : std_state) (logtrapz : Q) (t0 : tape) :
  std_init s nlive t = Ok (st0, logtrapz, t0) ->
  length (live_points st0) = nlive /\
  live_evidence nlive (live_points st0) (logx_i st0) = Ok (logz_live st0).
Proof.
  unfold std_init. intro Hinit.
  bind_inv Hinit. destruct a as [lxs t1].
  bind_inv Hinit. bind_inv Hinit. bind_inv Hinit.
  inversion Hinit; subst. simpl.
  rewrite init_live_length. split; [eapply draws_length; eassumption | assumption].
Qed.

Lemma std_body_live (logtrapz : Q) (st st' : std_state) (d : Q) :
  std_body s nlive logtrapz st d = Ok st' ->
  length (live_points st') = length (live_points st) /\
  length (dead_points_list st') = S (length (dead_points_list st)) /\
  live_evidence nlive (live_points st') (logx_i st') = Ok (logz_live st').
Proof.
  unfold std_body. intro Hbody.
  bind_inv Hbody. bind_inv Hbody. bind_inv Hbody. bind_inv Hbody.
  inversion Hbody; subst. simpl.
  rewrite set_nth_length, length_app. simpl.
  repeat split; [lia | assumption].
Qed.

(** In the later revision every value the loop condition tests is the live
    evidence of the current live points. *)
Lemma std_tested_live_evidence (t : tape) (st0 : std_state) (logtrapz : Q)
  (t0 : tape) (st : std_state) :
  std_init s nlive t = Ok (st0, logtrapz, t0) ->
  std_tested s nlive logtrapz st0 st ->
  length (live_points st) = nlive /\
  live_evidence nlive (live_points st) (logx_i st) = Ok (logz_live st).
Proof.
  intros Hinit Htest. induction Htest as [| st d st' _ IH _ Hbody].
  - eapply std_init_live. eassumption.
  - apply std_body_live in Hbody. destruct Hbody as [Hlen [_ Hev]].
    split; [rewrite Hlen; apply IH | exact Hev].
Qed.

(** The loop leaves at the first tested state at which the condition
    fails. *)
Lemma std_loop_exit (logtrapz : Q) (st0 : std_state) (t : tape) :
  forall st st' t',
    std_tested s nlive logtrapz st0 st ->
    std_loop s nlive logtrapz st t = Ok (st', t') ->
    std_tested s nlive logtrapz st0 st' /\ std_cond s st' = false.
Proof.
  induction t as [| d t IH]; intros st st' t' Htest Hloop; simpl in Hloop;
    destruct (std_cond s st) eqn:Hcond; try discriminate.
  - inversion Hloop; subst. auto.
  - bind_inv Hloop. eapply IH; [| eassumption].
    eapply tested_again; eassumption.
  - inversion Hloop; subst. auto.
Qed.

End StandardDriver.

(** ** The two sorting routines meet the contract of [np.argsort] *)

Lemma positions_snd (keys : list Q) :
  forall a, map snd (combine keys (seq a (length keys))) = seq a (length keys).
Proof.
  induction keys as [| k keys IH]; intro a; simpl; [reflexivity|].
  f_equal. apply IH.
Qed.

Lemma positions_key (keys : list Q) :
  forall a k i,
    In (k, i) (combine keys (seq a (length keys))) ->
    (a <= i)%nat /\ nth (i - a) keys 0 = k.
Proof.
  induction keys as [| k0 keys IH]; intros a k i Hin; simpl in Hin; [tauto|].
  destruct Hin as [Heq | Hin].
  - inversion Heq; subst. rewrite Nat.sub_diag. auto.
  - apply IH in Hin. destruct Hin as [Hle Hnth]. split; [lia|].
    replace (i - a)%nat with (S (i - S a)) by lia. exact Hnth.
Qed.

Section ArgsortBy.

Variable leb : Q * nat -> Q * nat -> bool.
Variable sort : list (Q * nat) -> list (Q * nat).
Hypothesis sort_perm : forall l, Permutation l (sort l).
Hypothesis sort_sorted : forall l, Sorted (fun a b => is_true (leb a b)) (sort l).
Hypothesis leb_le : forall a b, leb a b = true -> fst a <= fst b.

Lemma sorted_keys (l : list (Q * nat)) :
  Sorted (fun a b => is_true (leb a b)) l -> StronglySorted Qle (map fst l).
Proof.
  intro Hs. apply Sorted_StronglySorted.
  - intros x y z. apply Qle_trans.
  - induction Hs as [| a l _ IH Hhd]; simpl; constructor; [exact IH|].
    destruct Hhd as [| b l Hab]; simpl; constructor.
    apply leb_le. exact Hab.
Qed.

Lemma argsort_by_contract :
  argsort_contract (fun keys => map snd (sort (with_positions keys))).
Proof.
  intro keys. split.
  - rewrite <- (positions_snd keys 0). apply Permutation_map.
    apply Permutation_sym. apply sort_perm.
  - unfold keys_along. rewrite map_map.
    rewrite (map_ext_in _ fst).
    + apply sorted_keys. apply sort_sorted.
    + intros [k i] Hin. simpl.
      apply (Permutation_in _ (Permutation_sym (sort_perm _))) in Hin.
      apply positions_key in Hin. destruct Hin as [_ Hnth].
      rewrite Nat.sub_0_r in Hnth. exact Hnth.
Qed.

End ArgsortBy.

Lemma argsort_stable_contract : argsort_contract argsort_stable.
Proof.
  apply (argsort_by_contract key_leb).
  - apply KeySort.Permuted_sort.
  - apply KeySort.Sorted_sort.
  - intros a b Hab. unfold key_leb in Hab.
    apply orb_true_iff in Hab. destruct Hab as [Hlt | Hle].
    + apply Qlt_le_weak. apply Qltb_lt. exact Hlt.
    + apply andb_true_iff in Hle. apply Qle_bool_iff. tauto.
Qed.

Lemma argsort_contract_length (argsort : list Q -> list nat) (keys : list Q) :
  argsort_contract argsort -> length (argsort keys) = length keys.
Proof.
  intro Hc. destruct (Hc keys) as [Hperm _].
  rewrite (Permutation_length Hperm). apply length_seq.
Qed.

(** Indexing with a permutation of the positions. *)
Lemma take_nth {A : Type} (l : list A) (d : A) (idx : list nat) (out : list A) :
  take l idx = Ok out -> out = map (fun i => nth i l d) idx.
Proof.
  unfold take. revert out. induction idx as [| i idx IH]; simpl; intros out H.
  - inversion H. reflexivity.
  - bind_inv H. bind_inv H. inversion H; subst.
    apply index_ok in Hstep. f_equal; [| apply IH; assumption].
    symmetry. apply nth_error_nth. exact Hstep.
Qed.

Lemma take_in_range {A : Type} (l : list A) (idx : list nat) :
  Forall (fun i => (i < length l)%nat) idx -> exists out, take l idx = Ok out.
Proof.
  unfold take. induction 1 as [| i idx Hi _ [out IH]]; simpl; [eauto|].
  destruct (index_lt l i Hi) as [a Ha]. rewrite Ha, IH. simpl. eauto.
Qed.

Lemma permutation_in_range (idx : list nat) (n : nat) :
  Permutation idx (seq 0 n) -> Forall (fun i => (i < n)%nat) idx.
Proof.
  intro Hp. apply Forall_forall. intros i Hi.
  apply (Permutation_in _ Hp) in Hi. apply in_seq in Hi. lia.
Qed.

Lemma nth_positions {A : Type} (l : list A) (d : A) :
  map (fun i => nth i l d) (seq 0 (length l)) = l.
Proof.
  induction l as [| a l IH]; simpl; [reflexivity|].
  f_equal. rewrite <- seq_shift, map_map. exact IH.
Qed.

Lemma take_permutation {A : Type} (l : list A) (idx : list nat) :
  Permutation idx (seq 0 (length l)) ->
  exists out, take l idx = Ok out /\ Permutation out l.
Proof.
  intro Hp.
  destruct (take_in_range l idx (permutation_in_range idx _ Hp)) as [out Hout].
  exists out. split; [exact Hout|].
  destruct l as [| d l'].
  - simpl in Hp. apply Permutation_sym, Permutation_nil in Hp. subst idx.
    inversion Hout. constructor.
  - rewrite (take_nth (d :: l') d idx out Hout).
    eapply Permutation_trans; [apply Permutation_map; exact Hp|].
    rewrite nth_positions. apply Permutation_refl.
Qed.

Lemma countdown_index_neg (pre : list Q) (n j : nat) :
  (1 <= j <= n)%nat -> index_neg (pre ++ countdown n) j = Ok (natQ j).
Proof.
  intro Hj. unfold index_neg.
  rewrite length_app, countdown_length.
  replace ((1 <=? j) && (j <=? length pre + n))%nat with true.
  2:{ symmetry. apply andb_true_iff. split; apply Nat.leb_le; lia. }
  apply index_ok. rewrite nth_error_app2 by lia.
  replace (length pre + n - j - length pre)%nat with (n - j)%nat by lia.
  unfold countdown. rewrite nth_error_map.
  rewrite (nth_error_nth' _ 0%nat) by (rewrite length_rev, length_seq; lia).
  rewrite rev_nth by (rewrite length_seq; lia).
  rewrite length_seq, seq_nth by lia.
  simpl. do 2 f_equal. lia.
Qed.

(** C7. A standard run that returns has made [n_dead >= 1] replacements and
    returns [n_dead + nlive] samples; [nlive_array] is [nlive] on the dead
    points and then counts down from [nlive] to [1], so [nlive_array[-j] = j]
    for [1 <= j <= nlive].  The array built by the earlier revision from
    [n_dead + nlive] calls is the same. *)
Theorem standard_run_nlive_array `{NumLib} (s : Settings) (dyn : bool)
  (t : tape) (r0 : run) (t' : tape) :
  (forall keys, length (np_argsort keys) = length keys) ->
  generate_standard_run s dyn t = Ok (r0, t') ->
  let nlive := if dyn then ninit s else nlive_const s in
  exists st0 logtrapz t0 st,
    std_init s nlive t = Ok (st0, logtrapz, t0) /\
    std_loop s nlive logtrapz st0 t0 = Ok (st, t') /\
    let n_dead := length (dead_points_list st) in
    (1 <= n_dead)%nat /\
    length (run_logl r0) = (n_dead + nlive)%nat /\
    run_nlive_array r0 = repeat (natQ nlive) n_dead ++ countdown nlive /\
    (forall j, (1 <= j <= nlive)%nat ->
               index_neg (run_nlive_array r0) j = Ok (natQ j)) /\
    Npns.nlive_array_of (n_dead + nlive) nlive = Ok (run_nlive_array r0).
Proof.
  intros Hlen Hrun nlive. unfold generate_standard_run in Hrun.
  fold nlive in Hrun.
  bind_split Hrun as [[st0 logtrapz] t0] Hinit.
  bind_split Hrun as [st t1] Hloop.
  bind_split Hrun as r1 Hfin. inversion Hrun; subst r1 t1. clear Hrun.
  exists st0, logtrapz, t0, st. split; [assumption|]. split; [assumption|].
  destruct (std_loop_exit s nlive logtrapz st0 t0 st0 st t')
    as [Htest _]; [constructor | assumption |].
  destruct (std_tested_live_evidence s nlive t st0 logtrapz t0 st)
    as [Hlive _]; try assumption.
  unfold std_finish in Hfin.
  bind_split Hfin as u Hdead. bind_split Hfin as sorted_live Htake.
  bind_split Hfin as nla Hnla.
  inversion Hfin; subst r0; clear Hfin. simpl.
  assert (Hsorted : length sorted_live = nlive).
  { apply mapM_length in Htake. rewrite Htake, Hlen, length_map. exact Hlive. }
  rewrite length_app, Hsorted in Hnla.
  rewrite nlive_array_of_spec in Hnla. inversion Hnla; subst nla.
  repeat split.
  - destruct (dead_points_list st); [discriminate | simpl; lia].
  - rewrite length_map, length_app, Hsorted. reflexivity.
  - intros j Hj. apply countdown_index_neg. exact Hj.
  - apply npns_nlive_array_of_spec.
Qed.

Lemma argsort_stable_length (keys : list Q) :
  length (argsort_stable keys) = length keys.
Proof.
  apply argsort_contract_length. apply argsort_stable_contract.
Qed.

Lemma standard_run_nlive_array_witness :
  match generate_standard_run toy_settings false toy_tape with
  | Ok (r0, t') =>
      exists st0 logtrapz t0 st,
        std_init toy_settings 2 toy_tape = Ok (st0, logtrapz, t0) /\
        std_loop toy_settings 2 logtrapz st0 t0 = Ok (st, t') /\
        (1 <= length (dead_points_list st))%nat /\
        length (run_logl r0) = (length (dead_points_list st) + 2)%nat /\
        run_nlive_array r0
        = repeat (natQ 2) (length (dead_points_list st)) ++ countdown 2 /\
        (forall j, (1 <= j <= 2)%nat ->
                   index_neg (run_nlive_array r0) j = Ok (natQ j)) /\
        Npns.nlive_array_of (length (dead_points_list st) + 2) 2
        = Ok (run_nlive_array r0)
  | Raise _ => False
  end.
Proof.
  destruct (generate_standard_run toy_settings false toy_tape)
    as [[r0 t'] | e] eqn:E.
  - apply (@standard_run_nlive_array RatLib toy_settings false toy_tape r0 t'
             argsort_stable_length E).
  - vm_compute in E. discriminate.
Defined.

(** The run of the witness: two replacements, then the two live points. *)
Example toy_standard_run_nlive_array :
  match generate_standard_run toy_settings false toy_tape with
  | Ok (r0, _) => run_nlive_array r0 = [2; 2; 2; 1]
  | Raise _ => False
  end.
Proof. vm_compute. reflexivity. Qed.

(** ** The first test of the earlier revision *)

Section NpnsFirstTest.

Context `{NumLib}.
Variables (s : Settings) (nlive : nat).

Lemma npns_body_live_evidence (logtrapz : Q) (st st' : Npns.state) (d : Q) :
  Npns.body s nlive logtrapz st d = Ok st' ->
  Npns.live_evidence nlive (Npns.live st') (Npns.logx_i st')
  = Ok (Npns.logz_live st').
Proof.
  unfold Npns.body. intro Hbody.
  bind_inv Hbody. bind_inv Hbody. bind_inv Hbody. bind_inv Hbody.
  bind_inv Hbody. inversion Hbody; subst. simpl. assumption.
Qed.

(** C2 on [npns/nested_sampling.py].  The value the loop condition tests on
    entry is [log_sum_given_logs(live[:, 0]) + logx_i]: it differs from the
    live evidence by the missing [- np.log(nlive)] whenever that logarithm
    is not zero, while the value tested after every replacement is the live
    evidence. *)
Theorem npns_first_test_omits_log_nlive (t : tape) (st0 : Npns.state)
  (logtrapz : Q) (t0 : tape) :
  Npns.init s nlive t = Ok (st0, logtrapz, t0) ->
  ~ np_log (natQ nlive) == 0 ->
  Npns.tested s nlive logtrapz st0 st0 /\
  (exists v,
      Npns.live_evidence nlive (Npns.live st0) (Npns.logx_i st0) = Ok v /\
      Npns.logz_live st0 == v + np_log (natQ nlive) /\
      ~ Npns.logz_live st0 == v) /\
  (forall st d st',
      Npns.tested s nlive logtrapz st0 st ->
      Npns.cond s st = true ->
      Npns.body s nlive logtrapz st d = Ok st' ->
      Npns.live_evidence nlive (Npns.live st') (Npns.logx_i st')
      = Ok (Npns.logz_live st')).
Proof.
  intros Hinit Hlog. split; [constructor|]. split.
  - unfold Npns.init in Hinit.
    bind_split Hinit as [lxs t1] Hdraws.
    bind_split Hinit as l Hlse. bind_split Hinit as stp Hstp.
    bind_split Hinit as inv Hinv.
    inversion Hinit; subst. simpl.
    unfold Npns.live_evidence. rewrite Hlse. simpl.
    eexists. split; [reflexivity|]. split; [ring|].
    intro Heq. apply Hlog. lra.
  - intros st d st' _ _ Hbody. eapply npns_body_live_evidence. eassumption.
Qed.

End NpnsFirstTest.

Lemma npns_first_test_omits_log_nlive_witness :
  match Npns.init toy_settings 2 toy_tape with
  | Ok (st0, logtrapz, _) =>
      Npns.tested toy_settings 2 logtrapz st0 st0 /\
      (exists v,
          Npns.live_evidence 2 (Npns.live st0) (Npns.logx_i st0) = Ok v /\
          Npns.logz_live st0 == v + np_log (natQ 2) /\
          ~ Npns.logz_live st0 == v) /\
      (forall st d st',
          Npns.tested toy_settings 2 logtrapz st0 st ->
          Npns.cond toy_settings st = true ->
          Npns.body toy_settings 2 logtrapz st d = Ok st' ->
          Npns.live_evidence 2 (Npns.live st') (Npns.logx_i st')
          = Ok (Npns.logz_live st'))
  | Raise _ => False
  end.
Proof.
  destruct (Npns.init toy_settings 2 toy_tape) as [[[st0 logtrapz] t0] | e] eqn:E.
  - apply (@npns_first_test_omits_log_nlive RatLib toy_settings 2 toy_tape
             st0 logtrapz t0 E).
    vm_compute. discriminate.
  - vm_compute in E. discriminate.
Defined.

(** ** Evidence importance *)

Lemma Qltb_compat (x x' y y' : Q) :
  x == x' -> y == y' -> Qltb x y = Qltb x' y'.
Proof.
  intros Hx Hy. destruct (Qltb x y) eqn:E; symmetry.
  - apply Qltb_lt. apply Qltb_lt in E. lra.
  - apply Qltb_ge. apply Qltb_ge in E. lra.
Qed.

Lemma Qmaxb_compat (x x' y y' : Q) :
  x == x' -> y == y' -> Qmaxb x y == Qmaxb x' y'.
Proof.
  intros Hx Hy. unfold Qmaxb. rewrite (Qltb_compat x x' y y' Hx Hy).
  destruct (Qltb x' y'); assumption.
Qed.

Lemma fold_max_compat (a b : list Q) :
  Forall2 Qeq a b ->
  forall x y, x == y -> fold_left Qmaxb a x == fold_left Qmaxb b y.
Proof.
  induction 1 as [| p q a b Hpq _ IH]; intros x y Hxy; simpl; [exact Hxy|].
  apply IH. apply Qmaxb_compat; assumption.
Qed.

Lemma fold_max_ge (l : list Q) :
  forall x, x <= fold_left Qmaxb l x /\ Forall (fun y => y <= fold_left Qmaxb l x) l.
Proof.
  induction l as [| a l IH]; intro x; simpl.
  - split; [lra | constructor].
  - destruct (IH (Qmaxb x a)) as [Hge Hall].
    assert (Hm : x <= Qmaxb x a /\ a <= Qmaxb x a).
    { unfold Qmaxb. destruct (Qltb x a) eqn:E.
      - apply Qltb_lt in E. lra.
      - apply Qltb_ge in E. lra. }
    split; [lra|]. constructor; [lra | exact Hall].
Qed.

Lemma fold_max_in (l : list Q) :
  forall x, fold_left Qmaxb l x = x \/ In (fold_left Qmaxb l x) l.
Proof.
  induction l as [| a l IH]; intro x; simpl; [auto|].
  destruct (IH (Qmaxb x a)) as [Heq | Hin]; [| auto].
  rewrite Heq. unfold Qmaxb. destruct (Qltb x a); auto.
Qed.

(** [a.max()] is an entry of the array and bounds every entry. *)
Lemma np_max_spec (l : list Q) (m : Q) :
  np_max l = Ok m -> In m l /\ Forall (fun y => y <= m) l.
Proof.
  destruct l as [| x l]; simpl; intro H; inversion H; subst.
  destruct (fold_max_ge l x) as [Hge Hall].
  split; [| constructor; assumption].
  destruct (fold_max_in l x) as [Heq | Hin]; [left; congruence | right; exact Hin].
Qed.

Lemma np_max_compat (a b : list Q) :
  Forall2 Qeq a b ->
  match np_max a, np_max b with
  | Ok m, Ok m' => m == m'
  | Raise e, Raise e' => e = e'
  | _, _ => False
  end.
Proof.
  intros [| x y a' b' Hxy Hab]; simpl; [reflexivity|].
  apply fold_max_compat; assumption.
Qed.

Lemma fdiv_compat (x x' y y' : Q) :
  x == x' -> y == y' ->
  match fdiv x y, fdiv x' y' with
  | Ok q, Ok q' => q == q'
  | Raise e, Raise e' => e = e'
  | _, _ => False
  end.
Proof.
  intros Hx Hy. unfold fdiv.
  rewrite (Qeqb_comp y y' Hy 0 0 (Qeq_refl 0)).
  destruct (Qeq_bool y' 0); [reflexivity|]. rewrite Hx, Hy. reflexivity.
Qed.

Lemma div_all_compat (a b : list Q) (m m' : Q) :
  Forall2 Qeq a b -> m == m' -> same_result (div_all a m) (div_all b m').
Proof.
  intros Hab Hm. unfold div_all.
  induction Hab as [| x y a b Hxy _ IH]; simpl; [constructor|].
  pose proof (fdiv_compat x y m m' Hxy Hm) as Hd.
  destruct (fdiv x m), (fdiv y m'); try contradiction; simpl; [| exact Hd].
  destruct (mapM (fun x0 => fdiv x0 m) a), (mapM (fun x0 => fdiv x0 m') b);
    simpl in *; try contradiction; [constructor; assumption | exact IH].
Qed.

Lemma over_max_compat (a b : list Q) :
  Forall2 Qeq a b -> same_result (over_max a) (over_max b).
Proof.
  intro Hab. unfold over_max.
  pose proof (np_max_compat a b Hab) as Hm.
  destruct (np_max a), (np_max b); try contradiction; simpl; [| exact Hm].
  apply div_all_compat; assumption.
Qed.

Lemma cumsum_tails_after (w : list Q) :
  forall acc total,
    total == acc + sumQ w ->
    Forall2 Qeq (map (fun c => total - c) (cumsum_from acc w)) (tails_after w).
Proof.
  induction w as [| x w IH]; intros acc total Htot; simpl; constructor.
  - simpl in Htot. lra.
  - apply IH. simpl in Htot. lra.
Qed.

Lemma sumQ_nonneg (w : list Q) : Forall (Qle 0) w -> 0 <= sumQ w.
Proof.
  induction 1 as [| x w Hx _ IH]; simpl; lra.
Qed.

(** For non-negative weights the running sum ends at its maximum. *)
Lemma cumsum_max (w : list Q) :
  Forall (Qle 0) w ->
  forall acc m, m == acc -> fold_left Qmaxb (cumsum_from acc w) m == acc + sumQ w.
Proof.
  induction 1 as [| x w Hx _ IH]; intros acc m Hm; simpl; [lra|].
  rewrite (IH (acc + x) (Qmaxb m (acc + x))); [lra|].
  unfold Qmaxb. destruct (Qltb m (acc + x)) eqn:E; [reflexivity|].
  apply Qltb_ge in E. lra.
Qed.

Lemma tails_after_nonneg (w : list Q) :
  Forall (Qle 0) w -> Forall (Qle 0) (tails_after w).
Proof.
  induction 1 as [| x w Hx Hw IH]; simpl; constructor; [| exact IH].
  apply sumQ_nonneg. exact Hw.
Qed.

Lemma tails_after_length (w : list Q) : length (tails_after w) = length w.
Proof. induction w; simpl; auto. Qed.

(** Dividing by positive live counts, entry by entry. *)
Lemma scale_by_nlive (t nlive : list Q) :
  length nlive = length t ->
  Forall (Qlt 0) nlive ->
  exists q,
    zipM fdiv t nlive = Ok q /\
    Forall2 (fun x y => exists n, 0 < n /\ y = x / n) t q.
Proof.
  revert nlive. induction t as [| x t IH]; intros [| n nlive] Hlen Hpos;
    simpl in *; try discriminate.
  - exists []. split; [reflexivity | constructor].
  - inversion Hpos as [| ? ? Hn Hpos']; subst.
    destruct (IH nlive) as [q [Hq Hrel]]; [lia | assumption |].
    unfold fdiv at 1.
    destruct (Qeq_bool n 0) eqn:E.
    { apply Qeq_bool_eq in E. lra. }
    simpl. rewrite Hq. simpl. exists (x / n :: q). split; [reflexivity|].
    constructor; [exists n; auto | exact Hrel].
Qed.

Lemma scale_by_nlive_compat (l t nlive : list Q) :
  Forall2 Qeq l t ->
  length nlive = length t ->
  Forall (Qlt 0) nlive ->
  exists l' q,
    inplace (fun x n => inv <- fdiv 1 n ;; Ok (x * inv)) l nlive = Ok l' /\
    zipM fdiv t nlive = Ok q /\
    Forall2 Qeq l' q.
Proof.
  intros Hlt Hlen Hpos. unfold inplace.
  rewrite Hlen, <- (Forall2_length Hlt), Nat.eqb_refl.
  revert nlive Hlen Hpos.
  induction Hlt as [| x y l t Hxy _ IH]; intros [| n nlive] Hlen Hpos;
    simpl in *; try discriminate.
  - exists [], []. repeat split. constructor.
  - inversion Hpos as [| ? ? Hn Hpos']; subst.
    destruct (IH nlive) as [l' [q [Hl [Hq Hrel]]]]; [lia | assumption |].
    unfold fdiv at 1 3.
    destruct (Qeq_bool n 0) eqn:E.
    { apply Qeq_bool_eq in E. lra. }
    simpl. rewrite Hl, Hq. simpl. eexists; eexists.
    split; [reflexivity|]. split; [reflexivity|].
    constructor; [| exact Hrel].
    rewrite Hxy. apply Qeq_bool_neq in E. field. exact E.
Qed.

Lemma div_all_ok (a : list Q) (m : Q) :
  ~ m == 0 -> div_all a m = Ok (map (fun x => x / m) a).
Proof.
  intro Hm. unfold div_all. induction a as [| x a IH]; simpl; [reflexivity|].
  unfold fdiv at 1. destruct (Qeq_bool m 0) eqn:E.
  - apply Qeq_bool_eq in E. contradiction.
  - simpl. rewrite IH. reflexivity.
Qed.

(** Rescaling non-negative entries, one of them positive, puts the maximum
    at 1. *)
Lemma over_max_one (a : list Q) :
  Forall (Qle 0) a ->
  Exists (Qlt 0) a ->
  exists v m, over_max a = Ok v /\ np_max v = Ok m /\ m == 1.
Proof.
  intros Hnn Hpos. unfold over_max.
  destruct (np_max a) as [top | e] eqn:Emax.
  2:{ destruct a; [inversion Hpos | discriminate]. }
  destruct (np_max_spec a top Emax) as [Hin Hall].
  assert (Htop : 0 < top).
  { apply Exists_exists in Hpos. destruct Hpos as [x [Hx Hx0]].
    rewrite Forall_forall in Hall. specialize (Hall x Hx). lra. }
  simpl. rewrite div_all_ok by lra.
  exists (map (fun x => x / top) a).
  destruct (np_max (map (fun x => x / top) a)) as [m | e] eqn:Em.
  2:{ destruct a; [inversion Hpos | discriminate]. }
  exists m. repeat split.
  destruct (np_max_spec _ m Em) as [Hmin Hmall].
  apply in_map_iff in Hmin. destruct Hmin as [x [Hxm Hx]].
  rewrite Forall_forall in Hall, Hmall.
  assert (Hle : m <= 1).
  { subst m. specialize (Hall x Hx). apply Qle_shift_div_r; lra. }
  assert (Hge : 1 <= m).
  { specialize (Hmall (top / top)).
    assert (Heq : top / top == 1) by (field; lra).
    rewrite <- Heq. apply Hmall. apply in_map_iff. exists top. auto. }
  lra.
Qed.

(** Rescaling an array of zeros divides zero by zero. *)
Lemma over_max_zero (a : list Q) :
  a <> [] -> Forall (Qeq 0) a -> over_max a = Raise NonFinite.
Proof.
  intros Hne Hz. unfold over_max.
  destruct (np_max a) as [top | e] eqn:Emax.
  2:{ destruct a; [congruence | discriminate]. }
  destruct (np_max_spec a top Emax) as [Hin _].
  rewrite Forall_forall in Hz. specialize (Hz top Hin).
  destruct a as [| x a]; [congruence|].
  cbn [bind div_all mapM]. unfold fdiv at 1.
  rewrite (Qeq_eq_bool top 0); [reflexivity|]. lra.
Qed.

Lemma scaled_sign (t q : list Q) :
  Forall2 (fun x y => exists n, 0 < n /\ y = x / n) t q ->
  (Forall (Qle 0) t -> Forall (Qle 0) q) /\
  (Exists (Qlt 0) t -> Exists (Qlt 0) q) /\
  (Forall (Qeq 0) t -> Forall (Qeq 0) q).
Proof.
  induction 1 as [| x y t q [n [Hn ->]] _ [IH1 [IH2 IH3]]].
  - repeat split; intro H; [constructor | inversion H | constructor].
  - repeat split; intro Hx.
    + inversion Hx; subst. constructor; [| auto].
      apply Qle_shift_div_l; lra.
    + inversion Hx; subst.
      * left. apply Qlt_shift_div_l; lra.
      * right. auto.
    + inversion Hx as [| ? ? H0 ?]; subst. constructor; [| auto].
      rewrite <- H0. field. lra.
Qed.

Lemma z_importance_after_cases (w nlive : list Q) :
  w <> [] ->
  length nlive = length w ->
  Forall (Qle 0) w ->
  Forall (Qlt 0) nlive ->
  (Exists (Qlt 0) (tails_after w) ->
   exists v m, z_importance_after w nlive = Ok v /\ np_max v = Ok m /\ m == 1) /\
  (Forall (Qeq 0) (tails_after w) ->
   z_importance_after w nlive = Raise NonFinite).
Proof.
  intros Hne Hlen Hw Hn. unfold z_importance_after.
  destruct (scale_by_nlive (tails_after w) nlive) as [q [Hq Hrel]];
    [rewrite tails_after_length; exact Hlen | exact Hn |].
  rewrite Hq. simpl.
  destruct (scaled_sign _ _ Hrel) as [Hnn [Hpos Hzero]].
  split; intro Ht.
  - apply over_max_one; [apply Hnn, tails_after_nonneg, Hw | apply Hpos, Ht].
  - apply over_max_zero; [| apply Hzero, Ht].
    intro Hnil. subst q. inversion Hrel as [Ht0 |].
    destruct w; [congruence | discriminate].
Qed.

(** C1, as the code has it.  For non-negative weights and positive live
    counts of the same length, [max(cumsum(w)) - cumsum(w)[i]] is the sum of
    [w[j]] over [j > i] (not [j >= i]); [z_importance] returns that tail
    weight divided by [nlive[i]] and rescaled; the maximum of what it returns
    is 1 when some weight after the first is positive, and otherwise the
    rescaling divides zero by zero. *)
Theorem z_importance_tail_after `{NumLib} (w nlive : list Q) :
  w <> [] ->
  length nlive = length w ->
  Forall (Qle 0) w ->
  Forall (Qlt 0) nlive ->
  (exists top,
      np_max (cumsum w) = Ok top /\
      Forall2 Qeq (map (fun c => top - c) (cumsum w)) (tails_after w)) /\
  same_result (z_importance w nlive false) (z_importance_after w nlive) /\
  (Exists (Qlt 0) (tails_after w) ->
   exists v m, z_importance w nlive false = Ok v /\ np_max v = Ok m /\ m == 1) /\
  (Forall (Qeq 0) (tails_after w) ->
   z_importance w nlive false = Raise NonFinite).
Proof.
  intros Hne Hlen Hw Hn.
  assert (Htop : exists top,
             np_max (cumsum w) = Ok top /\
             Forall2 Qeq (map (fun c => top - c) (cumsum w)) (tails_after w)).
  { destruct w as [| x w']; [congruence|].
    unfold cumsum. simpl cumsum_from. simpl np_max.
    eexists. split; [reflexivity|].
    change ((0 + x) :: cumsum_from (0 + x) w') with (cumsum_from 0 (x :: w')).
    apply cumsum_tails_after.
    inversion Hw; subst.
    rewrite (cumsum_max w') by (assumption || reflexivity).
    simpl. ring. }
  destruct Htop as [top [Htop Htails]].
  assert (Hsame : same_result (z_importance w nlive false)
                    (z_importance_after w nlive)).
  { unfold z_importance, z_importance_after. rewrite Htop. cbn [bind].
    destruct (scale_by_nlive_compat _ _ nlive Htails) as [l' [q [Hl [Hq Hlq]]]];
      [rewrite tails_after_length; exact Hlen | exact Hn |].
    rewrite Hl, Hq. cbn [bind]. apply over_max_compat. exact Hlq. }
  destruct (z_importance_after_cases w nlive Hne Hlen Hw Hn) as [Hone Hzero].
  split; [exists top; auto|]. split; [exact Hsame|]. split; intro Ht.
  - destruct (Hone Ht) as [v [m [Hv [Hm Hm1]]]].
    rewrite Hv in Hsame.
    destruct (z_importance w nlive false) as [v' | e]; [| contradiction].
    simpl in Hsame.
    pose proof (np_max_compat v' v Hsame) as Hc. rewrite Hm in Hc.
    destruct (np_max v') as [m' | e] eqn:Em'; [| contradiction].
    exists v', m'. split; [reflexivity|]. split; [exact Em'|].
    rewrite Hc. exact Hm1.
  - rewrite (Hzero Ht) in Hsame.
    destruct (z_importance w nlive false) as [v' | e]; [contradiction|].
    simpl in Hsame. congruence.
Qed.

Lemma z_importance_tail_after_witness :
  (exists top,
      np_max (cumsum [1; 2; 1]) = Ok top /\
      Forall2 Qeq (map (fun c => top - c) (cumsum [1; 2; 1]))
        (tails_after [1; 2; 1])) /\
  same_result (z_importance [1; 2; 1] [2; 2; 1] false)
    (z_importance_after [1; 2; 1] [2; 2; 1]) /\
  (Exists (Qlt 0) (tails_after [1; 2; 1]) ->
   exists v m,
     z_importance [1; 2; 1] [2; 2; 1] false = Ok v /\ np_max v = Ok m /\ m == 1) /\
  (Forall (Qeq 0) (tails_after [1; 2; 1]) ->
   z_importance [1; 2; 1] [2; 2; 1] false = Raise NonFinite).
Proof.
  apply (@z_importance_tail_after RatLib [1; 2; 1] [2; 2; 1]).
  - discriminate.
  - reflexivity.
  - repeat constructor; discriminate.
  - repeat constructor.
Defined.

(** C1, as the specification words it, fails on [w = [1, 1]],
    [nlive = [1, 1]]: the code returns [[1, 0]] where the tail weight from
    [i] on gives [[1, 1/2]], and [max(cumsum(w)) - cumsum(w)[0]] is [1] while
    the sum of [w[j]] over [j >= 0] is [2].  With a negative weight,
    [w = [1, -1]], the difference is not the sum over [j > i] either. *)
Lemma z_importance_not_tail_from :
  (exists v, z_importance [1; 1] [1; 1] false = Ok v /\ Forall2 Qeq v [1; 0]) /\
  (exists v, z_importance_spec [1; 1] [1; 1] = Ok v /\ Forall2 Qeq v [1; 1 # 2]) /\
  ~ same_result (z_importance [1; 1] [1; 1] false) (z_importance_spec [1; 1] [1; 1]) /\
  (exists top,
      np_max (cumsum [1; 1]) = Ok top /\
      ~ Forall2 Qeq (map (fun c => top - c) (cumsum [1; 1])) (tails_from [1; 1])) /\
  (exists top,
      np_max (cumsum [1; -1]) = Ok top /\
      ~ Forall2 Qeq (map (fun c => top - c) (cumsum [1; -1]))
          (tails_after [1; -1])).
Proof.
  split; [| split; [| split; [| split]]].
  - eexists. split; [vm_compute; reflexivity|].
    repeat constructor.
  - eexists. split; [vm_compute; reflexivity|].
    repeat constructor.
  - vm_compute. intro Hs.
    inversion Hs as [| ? ? ? ? _ Hrest]; subst.
    inversion Hrest as [| ? ? ? ? Hq _]; subst.
    vm_compute in Hq. discriminate.
  - eexists. split; [vm_compute; reflexivity|].
    intro Hs. inversion Hs as [| ? ? ? ? Hq _]; subst.
    vm_compute in Hq. discriminate.
  - eexists. split; [vm_compute; reflexivity|].
    intro Hs. inversion Hs as [| ? ? ? ? Hq _]; subst.
    vm_compute in Hq. discriminate.
Qed.

(** ** Insertion interval *)

Lemma where_from_app {A : Type} (p : A -> bool) (a b : list A) :
  forall k, where_from k p (a ++ b)
            = where_from k p a ++ where_from (k + length a) p b.
Proof.
  induction a as [| x a IH]; intro k; simpl.
  - rewrite Nat.add_0_r. reflexivity.
  - rewrite IH. replace (S k + length a)%nat with (k + S (length a))%nat by lia.
    destruct (p x); reflexivity.
Qed.

Lemma where_from_none {A : Type} (p : A -> bool) (l : list A) :
  Forall (fun x => p x = false) l -> forall k, where_from k p l = [].
Proof.
  induction 1 as [| x l Hx _ IH]; intro k; simpl; [reflexivity|].
  rewrite Hx. apply IH.
Qed.

Lemma where_from_length {A : Type} (p : A -> bool) (l : list A) :
  forall k, length (where_from k p l) = length (filter p l).
Proof.
  induction l as [| x l IH]; intro k; simpl; [reflexivity|].
  destruct (p x); simpl; rewrite IH; reflexivity.
Qed.

Lemma where_from_single {A : Type} (p : A -> bool) (l : list A) :
  forall k j,
    where_from k p l = [j] ->
    exists row, nth_error l (j - k) = Some row /\ filter p l = [row] /\ (k <= j)%nat.
Proof.
  induction l as [| x l IH]; intros k j Hw; simpl in Hw; [discriminate|].
  destruct (p x) eqn:Hp.
  - inversion Hw as [[Hj Hrest]]. subst j. exists x.
    rewrite Nat.sub_diag. simpl. rewrite Hp.
    repeat split; [| lia]. f_equal.
    assert (Hlen : length (filter p l) = 0%nat).
    { rewrite <- (where_from_length p l (S k)), Hrest. reflexivity. }
    destruct (filter p l); [reflexivity | discriminate].
  - apply IH in Hw. destruct Hw as [row [Hnth [Hf Hle]]].
    exists row. simpl. rewrite Hp.
    replace (j - k)%nat with (S (j - S k)) by lia. simpl.
    repeat split; [assumption | assumption | lia].
Qed.

(** The lookup of a [logl] key: the assertion holds exactly when one sample
    carries the key, and the [logx] returned is that sample's. *)
Lemma logx_at_unique_spec (key : Q) (samples : list sample) :
  (length (at_logl key samples) = 1%nat ->
   exists row, at_logl key samples = [row] /\
               logx_at_unique key samples = Ok (logx row)) /\
  (length (at_logl key samples) <> 1%nat ->
   logx_at_unique key samples = Raise (AssertionError AssertUniqueMatch)).
Proof.
  unfold logx_at_unique, at_logl, matches, np_where.
  rewrite where_from_length.
  split; intro Hc.
  - rewrite Hc. simpl.
    destruct (where_from 0 (fun x => Qeq_bool (logl x) key) samples)
      as [| j [| ? ?]] eqn:Ew;
      try (rewrite <- (where_from_length _ samples 0), Ew in Hc; discriminate).
    apply where_from_single in Ew. destruct Ew as [row [Hnth [Hf _]]].
    rewrite Nat.sub_0_r in Hnth.
    exists row. split; [exact Hf|].
    unfold index at 1. simpl. unfold index. rewrite Hnth. reflexivity.
  - apply Nat.eqb_neq in Hc. rewrite Hc. reflexivity.
Qed.

Lemma where_first_high (s : Settings) (importance : list Q) (h : nat) :
  first_high s importance h ->
  index (np_where (fun x => Qgtb x (dynamic_fraction s)) importance) 0 = Ok h.
Proof.
  intros [[x [Hn Hx]] Hbefore].
  destruct (nth_error_split importance h Hn) as [pre [post [-> Hlen]]].
  unfold np_where. rewrite where_from_app.
  rewrite where_from_none.
  - simpl. apply Qgtb_gt in Hx. rewrite Hx, Hlen. reflexivity.
  - apply Forall_forall. intros y Hy.
    apply In_nth_error in Hy. destruct Hy as [i Hi].
    assert (Hi' : (i < length pre)%nat).
    { apply nth_error_Some. congruence. }
    apply Qgtb_le. apply (Hbefore i y); [lia|].
    rewrite nth_error_app1 by exact Hi'. exact Hi.
Qed.

Lemma index_neg_last {A : Type} (l : list A) (a : A) :
  index_neg (l ++ [a]) 1 = Ok a.
Proof.
  unfold index_neg. rewrite length_app. change (length [a]) with 1%nat.
  replace ((1 <=? 1) && (1 <=? length l + 1))%nat with true.
  2:{ symmetry. apply andb_true_iff. split; apply Nat.leb_le; lia. }
  apply index_ok. rewrite nth_error_app2 by lia.
  replace (length l + 1 - 1 - length l)%nat with 0%nat by lia. reflexivity.
Qed.

Lemma where_last_high (s : Settings) (importance : list Q) (h : nat) :
  last_high s importance h ->
  index_neg (np_where (fun x => Qgtb x (dynamic_fraction s)) importance) 1 = Ok h.
Proof.
  intros [[x [Hn Hx]] Hafter].
  destruct (nth_error_split importance h Hn) as [pre [post [-> Hlen]]].
  unfold np_where. rewrite where_from_app. simpl where_from at 2.
  apply Qgtb_gt in Hx. rewrite Hx, Hlen.
  rewrite (where_from_none _ post); [apply index_neg_last|].
  apply Forall_forall. intros y Hy.
  apply In_nth_error in Hy. destruct Hy as [i Hi].
  apply Qgtb_le. apply (Hafter (S h + i)%nat y); [lia|].
  rewrite nth_error_app2 by lia.
  replace (S h + i - length pre)%nat with (S i) by lia. exact Hi.
Qed.

(** The thread start computed by [min_max_importance]. *)
Lemma start_lookup (samples : list sample) (h0 : nat) :
  (h0 < length samples)%nat ->
  let start :=
    (if (h0 =? 0)%nat then Ok (NaN, 0)
     else
       row <- index samples (h0 - 1) ;;
       x <- logx_at_unique (logl row) samples ;;
       Ok (Val (logl row), x)) in
  ((exists lmin xmin,
       start = Ok (lmin, xmin) /\ start_ok samples h0 lmin xmin /\
       ~ ambiguous samples (start_key samples h0)) \/
   (start = Raise (AssertionError AssertUniqueMatch) /\
    ambiguous samples (start_key samples h0))) /\
  (h0 <> 0%nat -> start_key samples h0 <> None).
Proof.
  intros Hlt start. subst start. unfold start_ok, ambiguous.
  destruct h0 as [| i]; simpl.
  - split; [| congruence]. left. exists NaN, 0. repeat split.
    intros [k [Hk _]]. discriminate.
  - rewrite Nat.sub_0_r.
    destruct (nth_error samples i) as [prev |] eqn:Ei.
    2:{ apply nth_error_None in Ei. lia. }
    unfold index. rewrite Ei. simpl. split; [| discriminate].
    destruct (logx_at_unique_spec (logl prev) samples) as [Hone Hmany].
    destruct (Nat.eq_dec (length (at_logl (logl prev) samples)) 1) as [Hc | Hc].
    + left. destruct (Hone Hc) as [row [Hrow Hx]]. rewrite Hx. simpl.
      exists (Val (logl prev)), (logx row). repeat split; eauto.
      intros [k [Hk Hn]]. inversion Hk; subst. contradiction.
    + right. rewrite (Hmany Hc). simpl. eauto.
Qed.

(** The thread end computed by [min_max_importance]. *)
Lemma end_lookup (samples : list sample) (h1 : nat) :
  (h1 < length samples)%nat ->
  let stop :=
    (if (Z.of_nat h1 =? Z.of_nat (length samples) - 1)%Z then
       row <- index_neg samples 1 ;;
       Ok (logl row, logx row)
     else
       row <- index samples (h1 + 1) ;;
       x <- logx_at_unique (logl row) samples ;;
       Ok (logl row, x)) in
  ((exists lmax xmax,
       stop = Ok (lmax, xmax) /\ end_ok samples h1 lmax xmax /\
       ~ ambiguous samples (end_key samples h1)) \/
   (stop = Raise (AssertionError AssertUniqueMatch) /\
    ambiguous samples (end_key samples h1))) /\
  (S h1 <> length samples -> end_key samples h1 <> None).
Proof.
  intros Hlt stop. subst stop. unfold end_ok, ambiguous, end_key.
  destruct (Nat.eqb_spec (S h1) (length samples)) as [Heq | Hne].
  - replace (Z.of_nat h1 =? Z.of_nat (length samples) - 1)%Z with true
      by (symmetry; apply Z.eqb_eq; lia).
    split; [| congruence]. left.
    destruct (nth_error samples (length samples - 1)) as [final |] eqn:Ef.
    2:{ apply nth_error_None in Ef. lia. }
    exists (logl final), (logx final). split.
    + unfold index_neg.
      replace ((1 <=? 1) && (1 <=? length samples))%nat with true.
      2:{ symmetry. apply andb_true_iff. split; apply Nat.leb_le; lia. }
      unfold index. rewrite Ef. reflexivity.
    + split; [eauto|]. intros [k [Hk _]]. discriminate.
  - replace (Z.of_nat h1 =? Z.of_nat (length samples) - 1)%Z with false
      by (symmetry; apply Z.eqb_neq; lia).
    replace (h1 + 1)%nat with (S h1) by lia.
    destruct (nth_error samples (S h1)) as [next |] eqn:En.
    2:{ apply nth_error_None in En. lia. }
    unfold index. rewrite En. simpl. split; [| discriminate].
    destruct (logx_at_unique_spec (logl next) samples) as [Hone Hmany].
    destruct (Nat.eq_dec (length (at_logl (logl next) samples)) 1) as [Hc | Hc].
    + left. destruct (Hone Hc) as [row [Hrow Hx]]. rewrite Hx. simpl.
      exists (logl next), (logx row). repeat split; eauto.
      intros [k [Hk Hn]]. inversion Hk; subst. contradiction.
    + right. rewrite (Hmany Hc). simpl. eauto.
Qed.

(** C5. With [dynamic_fraction] in (0, 1), importance and samples of one
    length, [h0] the first and [h1] the last index of importance above
    [dynamic_fraction]: the thread start is [(nan, 0)] when [h0 = 0] and
    otherwise [logl[h0 - 1]] with the [logx] of the one sample at that
    [logl]; the thread end is the final sample when [h1] is the final row and
    otherwise [logl[h1 + 1]] with the [logx] of the one sample at that [logl];
    the call fails, with the unique-match assertion, exactly when one of the
    keys it looks up is carried by a number of samples other than one. *)
Theorem min_max_importance_spec (s : Settings) (importance : list Q)
  (samples : list sample) (h0 h1 : nat) :
  0 < dynamic_fraction s ->
  dynamic_fraction s < 1 ->
  length importance = length samples ->
  first_high s importance h0 ->
  last_high s importance h1 ->
  let res := min_max_importance importance samples s in
  let k0 := start_key samples h0 in
  let k1 := end_key samples h1 in
  (h0 <> 0%nat -> k0 <> None) /\
  (S h1 <> length samples -> k1 <> None) /\
  (raises res <-> ambiguous samples k0 \/ ambiguous samples k1) /\
  (forall e, res = Raise e -> e = AssertionError AssertUniqueMatch) /\
  (forall lmin lmax xmin xmax,
      res = Ok ((lmin, lmax), (xmin, xmax)) ->
      start_ok samples h0 lmin xmin /\ end_ok samples h1 lmax xmax).
Proof.
  intros Hf0 Hf1 Hlen Hfirst Hlast res k0 k1.
  assert (Hlt0 : (h0 < length samples)%nat).
  { destruct Hfirst as [[x [Hn _]] _]. rewrite <- Hlen.
    apply nth_error_Some. congruence. }
  assert (Hlt1 : (h1 < length samples)%nat).
  { destruct Hlast as [[x [Hn _]] _]. rewrite <- Hlen.
    apply nth_error_Some. congruence. }
  destruct (start_lookup samples h0 Hlt0) as [Hstart Hk0].
  destruct (end_lookup samples h1 Hlt1) as [Hstop Hk1].
  fold k0 in Hstart, Hk0. fold k1 in Hstop, Hk1.
  split; [exact Hk0|]. split; [exact Hk1|].
  assert (Hres : res =
    (' (logl_min, logx_min) <-
       (if (h0 =? 0)%nat then Ok (NaN, 0)
        else
          row <- index samples (h0 - 1) ;;
          x <- logx_at_unique (logl row) samples ;;
          Ok (Val (logl row), x)) ;;
     ' (logl_max, logx_max) <-
       (if (Z.of_nat h1 =? Z.of_nat (length samples) - 1)%Z then
          row <- index_neg samples 1 ;;
          Ok (logl row, logx row)
        else
          row <- index samples (h1 + 1) ;;
          x <- logx_at_unique (logl row) samples ;;
          Ok (logl row, x)) ;;
     Ok ((logl_min, logl_max), (logx_min, logx_max)))).
  { subst res. unfold min_max_importance.
    apply Qgtb_gt in Hf0. apply Qltb_lt in Hf1. rewrite Hf0, Hf1.
    cbn [andb assert bind].
    rewrite (where_first_high s importance h0 Hfirst). cbn [bind].
    destruct (if (h0 =? 0)%nat then Ok (NaN, 0)
              else
                row <- index samples (h0 - 1) ;;
                x <- logx_at_unique (logl row) samples ;;
                Ok (Val (logl row), x)) as [[lmin xmin] | e]; cbn [bind];
      [| reflexivity].
    rewrite (where_last_high s importance h1 Hlast). reflexivity. }
  clearbody res k0 k1. subst res. unfold raises.
  destruct Hstart as [[lmin0 [xmin0 [-> [Hok0 Hna0]]]] | [-> Hamb0]];
    cbn [bind].
  - destruct Hstop as [[lmax0 [xmax0 [-> [Hok1 Hna1]]]] | [-> Hamb1]];
      cbn [bind].
    + split; [| split].
      * split; [intros [e He]; discriminate | tauto].
      * discriminate.
      * intros lmin lmax xmin xmax Heq. inversion Heq; subst. auto.
    + split; [| split].
      * split; [auto | eauto].
      * congruence.
      * discriminate.
  - split; [| split].
    + split; [auto | eauto].
    + congruence.
    + discriminate.
Qed.

Lemma min_max_importance_spec_witness :
  let samples :=
    [ {| logl := -3; r := 3; logx := -1; thread_label := 1; dnlive := 0;
         theta := [3] |};
      {| logl := -2; r := 2; logx := -2; thread_label := 2; dnlive := 0;
         theta := [2] |};
      {| logl := -1; r := 1; logx := -3; thread_label := 1; dnlive := (-1);
         theta := [1] |};
      {| logl := -1; r := 1; logx := -4; thread_label := 2; dnlive := (-1);
         theta := [1] |} ] in
  let importance := [1 # 4; 1; 3 # 4; 1 # 8] in
  let res := min_max_importance importance samples toy_settings in
  let k0 := start_key samples 1 in
  let k1 := end_key samples 2 in
  (1%nat <> 0%nat -> k0 <> None) /\
  (3%nat <> length samples -> k1 <> None) /\
  (raises res <-> ambiguous samples k0 \/ ambiguous samples k1) /\
  (forall e, res = Raise e -> e = AssertionError AssertUniqueMatch) /\
  (forall lmin lmax xmin xmax,
      res = Ok ((lmin, lmax), (xmin, xmax)) ->
      start_ok samples 1 lmin xmin /\ end_ok samples 2 lmax xmax).
Proof.
  intros samples importance.
  apply (min_max_importance_spec toy_settings importance samples 1 2).
  - reflexivity.
  - reflexivity.
  - reflexivity.
  - split.
    + exists 1. split; reflexivity.
    + intros [| i] y Hi Hy; [| lia]. inversion Hy; subst. discriminate.
  - split.
    + exists (3 # 4). split; reflexivity.
    + intros i y Hi Hy.
      destruct i as [| [| [| [| i]]]]; try lia.
      * inversion Hy; subst. discriminate.
      * destruct i; discriminate.
Defined.

(** Runs of [min_max_importance] on four samples of which the last two share
    their [logl]: a lookup of that [logl] fails, the other lookups succeed,
    and with no importance above [dynamic_fraction] the first index is
    missing. *)
Example min_max_importance_ambiguous_end :
  let samples :=
    [ {| logl := -3; r := 3; logx := -1; thread_label := 1; dnlive := 0;
         theta := [3] |};
      {| logl := -2; r := 2; logx := -2; thread_label := 2; dnlive := 0;
         theta := [2] |};
      {| logl := -1; r := 1; logx := -3; thread_label := 1; dnlive := (-1);
         theta := [1] |};
      {| logl := -1; r := 1; logx := -4; thread_label := 2; dnlive := (-1);
         theta := [1] |} ] in
  min_max_importance [1 # 4; 1; 3 # 4; 1 # 8] samples toy_settings
  = Raise (AssertionError AssertUniqueMatch) /\
  min_max_importance [1 # 4; 1; 1 # 4; 1 # 8] samples toy_settings
  = Raise (AssertionError AssertUniqueMatch) /\
  min_max_importance [1; 1 # 4; 1 # 4; 1 # 8] samples toy_settings
  = Ok ((NaN, -2), (0, -2)) /\
  min_max_importance [1 # 8; 1 # 4; 1 # 4; 1] samples toy_settings
  = Raise (AssertionError AssertUniqueMatch) /\
  min_max_importance [1 # 8; 1 # 4; 1; 1] samples toy_settings
  = Ok ((Val (-2), -1), (-2, -4)) /\
  min_max_importance [1 # 8; 1 # 4; 1 # 4; 1 # 3] samples toy_settings
  = Raise IndexError.
Proof. vm_compute. repeat split. Qed.

(** ** Sorting the samples *)

Lemma sorted_by_logl_map (l : list sample) :
  StronglySorted Qle (map logl l) -> sorted_by_logl l.
Proof.
  induction l as [| a l IH]; simpl; intro Hs; [constructor|].
  inversion Hs as [| ? ? Hrest Hall]; subst. constructor; [apply IH, Hrest|].
  rewrite Forall_map in Hall. exact Hall.
Qed.

Lemma sort_samples_spec `{NumLib} (samples : list sample) :
  argsort_contract np_argsort ->
  exists sorted,
    sort_samples samples = Ok sorted /\
    sorted_by_logl sorted /\
    Permutation sorted samples.
Proof.
  intro Hc. destruct (Hc (map logl samples)) as [Hperm Hsorted].
  rewrite length_map in Hperm. unfold sort_samples.
  destruct (take_permutation samples _ Hperm) as [sorted [Htake Hp]].
  exists sorted. split; [exact Htake|]. split; [| exact Hp].
  destruct samples as [| d rest].
  - apply Permutation_sym, Permutation_nil in Hp. subst sorted. constructor.
  - apply sorted_by_logl_map.
    rewrite (take_nth (d :: rest) d _ sorted Htake), map_map.
    unfold keys_along in Hsorted.
    rewrite (map_ext_in _ (fun i => nth i (map logl (d :: rest)) 0));
      [exact Hsorted|].
    intros i Hi. apply (Permutation_in _ Hperm) in Hi. apply in_seq in Hi.
    rewrite (nth_indep _ 0 (logl d)) by (rewrite length_map; lia).
    symmetry. apply map_nth.
Qed.

(** ** Dynamic driver: threads and labels *)

Lemma bump_at_labels (l : list sample) :
  forall i, map thread_label (bump_at l i) = map thread_label l.
Proof.
  induction l as [| x l IH]; intros [| i]; simpl; try reflexivity.
  f_equal. apply IH.
Qed.

Lemma combine_rows_labels (label : nat) (xs : list Q) :
  forall ls rs ns ths rows,
    combine_rows label ls rs xs ns ths = Ok rows ->
    map thread_label rows = repeat label (length xs).
Proof.
  induction xs as [| x xs IH]; intros ls rs ns ths rows Hc;
    destruct ls, rs, ns, ths; simpl in Hc; try discriminate.
  - inversion Hc. reflexivity.
  - bind_split Hc as rest Hrest. inversion Hc; subst. simpl.
    f_equal. eapply IH. eassumption.
Qed.

(** A thread that [generate_single_thread] returns has at least one row and
    carries its label on every row. *)
Lemma single_thread_labels (s : Settings) (logx_end : option Q) (label : nat)
  (logx_start : Q) (keep : bool) (t : tape) (rows : list sample) (t' : tape) :
  generate_single_thread s logx_end label logx_start keep t = Ok (Some rows, t') ->
  exists k, (1 <= k)%nat /\ map thread_label rows = repeat label k.
Proof.
  unfold generate_single_thread. intro Hg.
  bind_split Hg as e He. bind_split Hg as u Hu.
  bind_split Hg as [xs t1] Hxs.
  destruct xs as [| x xs]; [discriminate|].
  bind_split Hg as rows' Hrows. inversion Hg; subst.
  exists (length (x :: xs)). split; [simpl; lia|].
  eapply combine_rows_labels. eassumption.
Qed.

Lemma add_thread_labels (s : Settings) (logl_min : nanQ) (logx_min logx_max : Q)
  (st : dyn_state) (t : tape) (st' : dyn_state) (t' : tape) :
  add_thread s logl_min logx_min logx_max st t = Ok (st', t') ->
  exists k,
    (1 <= k)%nat /\
    labels st' = labels st ++ repeat (S (length (thread_min_max st))) k /\
    length (thread_min_max st') = S (length (thread_min_max st)).
Proof.
  unfold add_thread. intro Ha.
  bind_split Ha as [thread t1] Hgen.
  bind_split Ha as samples1 Hbump.
  destruct thread as [rows |]; [| discriminate].
  bind_split Ha as final Hfinal. inversion Ha; subst. clear Ha.
  destruct (single_thread_labels _ _ _ _ _ _ _ _ Hgen) as [k [Hk Hrows]].
  exists k. split; [exact Hk|]. unfold labels. simpl.
  rewrite map_app, Hrows, length_app. simpl. split; [| lia].
  f_equal. destruct logl_min as [| key].
  - inversion Hbump. reflexivity.
  - bind_split Hbump as u Hu. bind_split Hbump as i Hi.
    inversion Hbump. apply bump_at_labels.
Qed.

Lemma add_threads_labels (s : Settings) (logl_min : nanQ) (logx_min logx_max : Q)
  (n : nat) :
  forall st t st' t',
    add_threads n s logl_min logx_min logx_max st t = Ok (st', t') ->
    exists news,
      labels st' = labels st ++ news /\
      (n <= length news)%nat /\
      Forall (fun l => length (thread_min_max st) < l
                       <= length (thread_min_max st) + n)%nat news /\
      length (thread_min_max st') = (length (thread_min_max st) + n)%nat.
Proof.
  induction n as [| n IH]; intros st t st' t' Ha; simpl in Ha.
  - inversion Ha; subst. exists []. rewrite app_nil_r.
    repeat split; [simpl; lia | constructor | lia].
  - bind_split Ha as [st1 t1] Hone.
    apply add_thread_labels in Hone. destruct Hone as [k [Hk [Hl1 Ht1]]].
    apply IH in Ha. destruct Ha as [news [Hl [Hn [Hall Ht]]]].
    exists (repeat (S (length (thread_min_max st))) k ++ news).
    rewrite Hl, Hl1, <- app_assoc. split; [reflexivity|].
    rewrite length_app, repeat_length. split; [lia|]. split; [| lia].
    apply Forall_app. split.
    + apply Forall_forall. intros l Hin. apply repeat_spec in Hin. lia.
    + eapply Forall_impl; [| exact Hall]. simpl. intros l Hrange. lia.
Qed.

Section DynamicDriver.

Context `{NumLib} `{AuLib}.
Variable s : Settings.
Hypothesis argsort_ok : argsort_contract np_argsort.

(** One pass of the loop: the samples are those of the previous pass and
    [nbatch] new threads, sorted by [logl]. *)
Lemma dyn_body_spec (st : dyn_state) (t : tape) (st' : dyn_state) (t' : tape) :
  dyn_body s st t = Ok (st', t') ->
  sorted_by_logl (samples st') /\
  exists news,
    Permutation (labels st') (labels st ++ news) /\
    (nbatch s <= length news)%nat /\
    Forall (fun l => length (thread_min_max st) < l
                     <= length (thread_min_max st) + nbatch s)%nat news /\
    length (thread_min_max st') = (length (thread_min_max st) + nbatch s)%nat.
Proof.
  unfold dyn_body. intro Hb.
  bind_split Hb as importance Himp.
  bind_split Hb as [logl_min_max logx_min_max] Hmm.
  bind_split Hb as [st1 t1] Hadd.
  bind_split Hb as sorted Hsort. inversion Hb; subst. clear Hb. simpl.
  destruct (sort_samples_spec (samples st1) argsort_ok)
    as [sorted' [Hsort' [Hsorted Hperm]]].
  rewrite Hsort' in Hsort. inversion Hsort; subst sorted'.
  split; [exact Hsorted|].
  apply add_threads_labels in Hadd. destruct Hadd as [news [Hl [Hn [Hall Ht]]]].
  exists news. unfold labels in *. simpl. rewrite <- Hl.
  split; [apply Permutation_map; exact Hperm | auto].
Qed.

End DynamicDriver.

(** ** Dynamic driver: the sample budget *)

Lemma natQ_le (a b : nat) : (a <= b)%nat -> natQ a <= natQ b.
Proof.
  intro Hab. unfold natQ. rewrite <- Zle_Qle. lia.
Qed.

Lemma natQ_plus (a b : nat) : natQ (a + b) == natQ a + natQ b.
Proof.
  unfold natQ. rewrite Nat2Z.inj_add, inject_Z_plus. reflexivity.
Qed.

Lemma thread_size_count (label : nat) (l : list sample) :
  thread_size label l = count_occ Nat.eq_dec (map thread_label l) label.
Proof.
  unfold thread_size. induction l as [| x l IH]; simpl; [reflexivity|].
  destruct (Nat.eq_dec (thread_label x) label) as [Heq | Hne].
  - rewrite (proj2 (Nat.eqb_eq _ _) Heq). simpl. f_equal. exact IH.
  - rewrite (proj2 (Nat.eqb_neq _ _) Hne). exact IH.
Qed.

Lemma length_remove_count (x : nat) (l : list nat) :
  length l = (count_occ Nat.eq_dec l x + length (remove Nat.eq_dec x l))%nat.
Proof.
  induction l as [| y l IH]; simpl; [reflexivity|].
  destruct (Nat.eq_dec y x) as [Heq | Hne];
    destruct (Nat.eq_dec x y) as [Heq' | Hne']; try congruence; simpl; lia.
Qed.

Lemma count_remove_le (x y : nat) (l : list nat) :
  (count_occ Nat.eq_dec (remove Nat.eq_dec x l) y <= count_occ Nat.eq_dec l y)%nat.
Proof.
  induction l as [| z l IH]; simpl; [lia|].
  destruct (Nat.eq_dec x z); simpl; destruct (Nat.eq_dec z y); lia.
Qed.

(** Labels drawn from [k] consecutive values, each value on at most [size]
    rows, label at most [k * size] rows. *)
Lemma labels_range_bound (size base : nat) (k : nat) :
  forall ls,
    Forall (fun l => base < l <= base + k)%nat ls ->
    (forall label, (base < label)%nat ->
                   (count_occ Nat.eq_dec ls label <= size)%nat) ->
    (length ls <= k * size)%nat.
Proof.
  induction k as [| k IH]; intros ls Hrange Hcount.
  - destruct ls as [| l ls]; [simpl; lia|].
    inversion Hrange; subst. lia.
  - rewrite (length_remove_count (base + S k) ls).
    assert (Hrest : (length (remove Nat.eq_dec (base + S k)%nat ls) <= k * size)%nat).
    { apply IH.
      - apply Forall_forall. intros l Hin. apply in_remove in Hin.
        destruct Hin as [Hin Hne]. rewrite Forall_forall in Hrange.
        specialize (Hrange l Hin). lia.
      - intros label Hlabel.
        eapply Nat.le_trans; [apply count_remove_le | apply Hcount, Hlabel]. }
    specialize (Hcount (base + S k)%nat). simpl. lia.
Qed.

Section SampleBudget.

Context `{NumLib} `{AuLib}.
Variable s : Settings.
Variable max : Q.
Hypothesis argsort_ok : argsort_contract np_argsort.
Hypothesis batch_pos : (1 <= nbatch s)%nat.

Lemma dyn_body_grows (st : dyn_state) (t : tape) (st' : dyn_state) (t' : tape) :
  dyn_body s st t = Ok (st', t') ->
  (length (samples st) + nbatch s <= length (samples st'))%nat.
Proof.
  intro Hb. destruct (dyn_body_spec s argsort_ok st t st' t' Hb)
    as [_ [news [Hperm [Hn _]]]].
  apply Permutation_length in Hperm. unfold labels in Hperm.
  rewrite length_app, !length_map in Hperm. lia.
Qed.

(** Each pass adds a sample or more, so the loop makes no more passes than
    samples are missing. *)
Lemma dyn_loop_terminates (fuel : nat) :
  forall st t,
    max <= natQ (length (samples st) + fuel) ->
    exists res, dyn_loop fuel s max st t = Some res.
Proof.
  induction fuel as [| fuel IH]; intros st t Hfuel; simpl;
    destruct (Qltb (natQ (length (samples st))) max) eqn:Hcond;
    try (eexists; reflexivity).
  - apply Qltb_lt in Hcond. rewrite Nat.add_0_r in Hfuel. lra.
  - destruct (dyn_body s st t) as [[st' t'] | e] eqn:Hb;
      [| eexists; reflexivity].
    apply IH. apply dyn_body_grows in Hb.
    eapply Qle_trans; [exact Hfuel|]. apply natQ_le. lia.
Qed.

(** The pass that reaches the budget started below it and added [nbatch]
    threads. *)
Lemma dyn_loop_budget (size base : nat) (fuel : nat) :
  forall st t stf tf,
    dyn_loop fuel s max st t = Some (Ok (stf, tf)) ->
    Forall (fun l => l <= length (thread_min_max st))%nat (labels st) ->
    (base <= length (thread_min_max st))%nat ->
    natQ (length (samples st)) < max ->
    (forall label, (base < label)%nat ->
                   (thread_size label (samples stf) <= size)%nat) ->
    max <= natQ (length (samples stf)) /\
    natQ (length (samples stf)) < max + natQ (nbatch s * size).
Proof.
  induction fuel as [| fuel IH]; intros st t stf tf Hloop Hinv Hbase Hlt Hsize;
    simpl in Hloop; pose proof Hlt as Hcond; apply Qltb_lt in Hcond;
    rewrite Hcond in Hloop; [discriminate|].
  destruct (dyn_body s st t) as [[st' t'] | e] eqn:Hb; [| discriminate].
  destruct (dyn_body_spec s argsort_ok st t st' t' Hb)
    as [_ [news [Hperm [Hn [Hrange Htmm]]]]].
  assert (Hinv' : Forall (fun l => l <= length (thread_min_max st'))%nat
                    (labels st')).
  { apply Forall_forall. intros l Hin.
    apply (Permutation_in _ Hperm) in Hin. apply in_app_or in Hin.
    rewrite Forall_forall in Hinv, Hrange.
    destruct Hin as [Hin | Hin]; [specialize (Hinv l Hin) | specialize (Hrange l Hin)];
      lia. }
  destruct (Qlt_le_dec (natQ (length (samples st'))) max) as [Hlt' | Hge'].
  - apply (IH st' t' stf tf Hloop Hinv'); [lia | exact Hlt' | exact Hsize].
  - destruct fuel as [| fuel']; simpl in Hloop;
      apply Qltb_ge in Hge'; rewrite Hge' in Hloop;
      inversion Hloop; subst; apply Qltb_ge in Hge';
      (split; [exact Hge'|]).
    all: assert (Hnews : (length news <= nbatch s * size)%nat);
      [ apply (labels_range_bound size (length (thread_min_max st)));
        [ exact Hrange
        | intros label Hlabel;
          assert (Hc : (count_occ Nat.eq_dec (labels stf) label <= size)%nat)
            by (unfold labels; rewrite <- thread_size_count; apply Hsize; lia);
          rewrite (proj1 (Permutation_count_occ Nat.eq_dec _ _) Hperm label),
            count_occ_app in Hc; lia ]
      | apply Permutation_length in Hperm; unfold labels in Hperm;
        rewrite length_app, !length_map in Hperm; rewrite Hperm;
        rewrite natQ_plus;
        pose proof (natQ_le _ _ Hnews) as Hq; lra ].
Qed.

End SampleBudget.

(** Outside the domain [nbatch >= 1]: with [nbatch = 0] a pass adds nothing,
    and a loop entered below the budget does not return. *)
Lemma dyn_loop_no_batch `{NumLib} `{AuLib} (s : Settings) (max : Q) (fuel : nat) :
  argsort_contract np_argsort ->
  nbatch s = 0%nat ->
  forall st t stf tf,
    natQ (length (samples st)) < max ->
    dyn_loop fuel s max st t <> Some (Ok (stf, tf)).
Proof.
  intros Hsort Hbatch.
  induction fuel as [| fuel IH]; intros st t stf tf Hlt; simpl;
    pose proof Hlt as Hcond; apply Qltb_lt in Hcond; rewrite Hcond;
    [discriminate|].
  destruct (dyn_body s st t) as [[st' t'] | e] eqn:Hb; [| discriminate].
  apply IH.
  destruct (dyn_body_spec s Hsort st t st' t' Hb)
    as [_ [news [Hperm [_ [Hrange _]]]]].
  assert (Hnews : news = []).
  { destruct news as [| l news]; [reflexivity|].
    inversion Hrange; subst. lia. }
  subst news. rewrite app_nil_r in Hperm.
  apply Permutation_length in Hperm. unfold labels in Hperm.
  rewrite !length_map in Hperm. rewrite Hperm. exact Hlt.
Qed.

(** The toy problem on [toy_dyn_tape]: one pass adds thread 3 with two
    samples and reaches the budget of six. *)
Example toy_dynamic_loop :
  match dyn_loop 2 toy_settings 6 toy_dyn_state toy_dyn_tape with
  | Some (Ok (stf, tf)) =>
      labels stf = [1; 3; 1; 2; 3; 1]%nat /\ length (thread_min_max stf) = 3%nat /\
      length tf = 4%nat
  | _ => False
  end.
Proof. vm_compute. repeat split. Qed.




(** Two rows of one [logl] stay as they are under either sort: the network
    leaves a pair of equal keys in adjacent lanes alone. *)
Example sort_samples_tied_pair :
  (exists sorted,
      sort_samples (H := RatLib) tied_rows = Ok sorted /\
      map thread_label sorted = [1; 2]%nat) /\
  (exists sorted,
      sort_samples (H := SimdLib) tied_rows = Ok sorted /\
      map thread_label sorted = [1; 2]%nat).
Proof. split; eexists; split; vm_compute; reflexivity. Qed.

(** ** Credible intervals *)

Lemma fdiv_ok (x y : Q) : ~ y == 0 -> fdiv x y = Ok (x / y).
Proof.
  intro Hy. unfold fdiv. destruct (Qeq_bool y 0) eqn:E; [| reflexivity].
  apply Qeq_bool_eq in E. contradiction.
Qed.

(** On a segment with [x0 < x1] and [y0 <= y1] the interpolant stays between
    [y0] and [y1] and does not decrease. *)
Lemma segment_bounds (x0 x1 y0 y1 x : Q) :
  x0 < x1 -> y0 <= y1 -> x0 <= x -> x <= x1 ->
  y0 <= (y1 - y0) / (x1 - x0) * (x - x0) + y0 <= y1.
Proof.
  intros Hx Hy Hlo Hhi.
  assert (Hs : 0 <= (y1 - y0) / (x1 - x0)) by (apply Qle_shift_div_l; lra).
  assert (He : (y1 - y0) / (x1 - x0) * (x1 - x0) == y1 - y0) by (field; lra).
  split; nra.
Qed.

Lemma segment_mono (x0 x1 y0 y1 x x' : Q) :
  x0 < x1 -> y0 <= y1 -> x <= x' ->
  (y1 - y0) / (x1 - x0) * (x - x0) + y0 <= (y1 - y0) / (x1 - x0) * (x' - x0) + y0.
Proof.
  intros Hx Hy Hxx.
  assert (Hs : 0 <= (y1 - y0) / (x1 - x0)) by (apply Qle_shift_div_l; lra).
  nra.
Qed.

Lemma interp_from_lower (x : Q) (xp : list Q) :
  forall fp x0 y0 v,
    interp_from x x0 y0 xp fp = Ok v ->
    x0 <= x ->
    Sorted Qlt (x0 :: xp) ->
    Sorted Qle (y0 :: fp) ->
    y0 <= v.
Proof.
  induction xp as [| x1 xp IH]; intros fp x0 y0 v Hi Hx0 Hxs Hys;
    destruct fp as [| y1 fp]; simpl in Hi; try discriminate.
  - inversion Hi; subst. lra.
  - apply Sorted_inv in Hxs. destruct Hxs as [Hxs Hx01].
    apply Sorted_inv in Hys. destruct Hys as [Hys Hy01].
    apply HdRel_inv in Hx01. apply HdRel_inv in Hy01.
    destruct (Qltb x x1) eqn:E.
    + apply Qltb_lt in E. rewrite fdiv_ok in Hi by lra. inversion Hi; subst.
      apply (segment_bounds x0 x1 y0 y1 x); lra.
    + apply Qltb_ge in E.
      specialize (IH fp x1 y1 v Hi E Hxs Hys). lra.
Qed.

Lemma interp_from_mono (x x' : Q) (xp : list Q) :
  forall fp x0 y0 v v',
    interp_from x x0 y0 xp fp = Ok v ->
    interp_from x' x0 y0 xp fp = Ok v' ->
    x0 <= x -> x <= x' ->
    Sorted Qlt (x0 :: xp) ->
    Sorted Qle (y0 :: fp) ->
    v <= v'.
Proof.
  induction xp as [| x1 xp IH]; intros fp x0 y0 v v' Hi Hi' Hx0 Hxx Hxs Hys;
    destruct fp as [| y1 fp]; simpl in Hi, Hi'; try discriminate.
  - inversion Hi; inversion Hi'; subst. lra.
  - pose proof Hxs as Hxs0. pose proof Hys as Hys0.
    apply Sorted_inv in Hxs. destruct Hxs as [Hxs Hx01].
    apply Sorted_inv in Hys. destruct Hys as [Hys Hy01].
    apply HdRel_inv in Hx01. apply HdRel_inv in Hy01.
    destruct (Qltb x x1) eqn:E; destruct (Qltb x' x1) eqn:E'.
    + rewrite fdiv_ok in Hi, Hi' by lra. inversion Hi; inversion Hi'; subst.
      apply segment_mono; lra.
    + apply Qltb_lt in E. apply Qltb_ge in E'.
      rewrite fdiv_ok in Hi by lra. inversion Hi; subst.
      pose proof (interp_from_lower x' xp fp x1 y1 v' Hi' E' Hxs Hys) as Hlow.
      pose proof (segment_bounds x0 x1 y0 y1 x) as Hb. lra.
    + apply Qltb_ge in E. apply Qltb_lt in E'. lra.
    + apply Qltb_ge in E. apply (IH fp x1 y1 v v' Hi Hi' E Hxx Hxs Hys).
Qed.

Lemma interp_from_ok (x : Q) (xp : list Q) :
  forall fp x0 y0,
    length xp = length fp ->
    x0 <= x ->
    Sorted Qlt (x0 :: xp) ->
    exists v, interp_from x x0 y0 xp fp = Ok v.
Proof.
  induction xp as [| x1 xp IH]; intros fp x0 y0 Hlen Hx0 Hxs;
    destruct fp as [| y1 fp]; simpl in *; try discriminate.
  - eauto.
  - apply Sorted_inv in Hxs. destruct Hxs as [Hxs Hx01].
    apply HdRel_inv in Hx01.
    destruct (Qltb x x1) eqn:E.
    + rewrite fdiv_ok by lra. simpl. eauto.
    + apply Qltb_ge in E. apply IH; [lia | exact E | exact Hxs].
Qed.

(** [np.interp] does not decrease in [x] when [xp] increases and [fp] does not
    decrease. *)
Lemma np_interp_mono (p1 p2 : Q) (xp fp : list Q) (v1 v2 : Q) :
  Sorted Qlt xp ->
  Sorted Qle fp ->
  p1 <= p2 ->
  np_interp p1 xp fp = Ok v1 ->
  np_interp p2 xp fp = Ok v2 ->
  v1 <= v2.
Proof.
  intros Hxs Hys Hp H1 H2. unfold np_interp in H1, H2.
  destruct (negb (length xp =? length fp)%nat); [discriminate|].
  destruct xp as [| x0 xp]; [discriminate|].
  destruct fp as [| y0 fp]; [discriminate|].
  destruct (Qltb p1 x0) eqn:E1; destruct (Qltb p2 x0) eqn:E2.
  - inversion H1; inversion H2; subst. lra.
  - inversion H1; subst. apply Qltb_ge in E2.
    apply (interp_from_lower p2 xp fp x0 v1 v2 H2 E2 Hxs Hys).
  - apply Qltb_ge in E1. apply Qltb_lt in E2. lra.
  - apply Qltb_ge in E1.
    apply (interp_from_mono p1 p2 xp fp x0 y0 v1 v2 H1 H2 E1 Hp Hxs Hys).
Qed.

Lemma np_interp_ok (p : Q) (xp fp : list Q) :
  xp <> [] ->
  length xp = length fp ->
  Sorted Qlt xp ->
  exists v, np_interp p xp fp = Ok v.
Proof.
  intros Hne Hlen Hxs. unfold np_interp.
  rewrite Hlen, Nat.eqb_refl. simpl.
  destruct xp as [| x0 xp]; [congruence|].
  destruct fp as [| y0 fp]; [discriminate|].
  destruct (Qltb p x0) eqn:E; [eauto|].
  apply Qltb_ge in E. apply interp_from_ok; [simpl in Hlen; lia | exact E | exact Hxs].
Qed.

Lemma cumsum_from_increasing (w : list Q) :
  Forall (Qlt 0) w -> forall acc, Sorted Qlt (acc :: cumsum_from acc w).
Proof.
  induction 1 as [| x w Hx _ IH]; intro acc; simpl.
  - repeat constructor.
  - constructor; [apply IH | constructor; lra].
Qed.

Lemma sorted_map_increasing (f : Q -> Q) (l : list Q) :
  (forall a b, a < b -> f a < f b) -> Sorted Qlt l -> Sorted Qlt (map f l).
Proof.
  intros Hf Hs. induction Hs as [| a l _ IH Hhd]; simpl; constructor; [exact IH|].
  destruct Hhd as [| b l Hab]; simpl; constructor. apply Hf. exact Hab.
Qed.

Lemma sumQ_pos (w : list Q) : w <> [] -> Forall (Qlt 0) w -> 0 < sumQ w.
Proof.
  intros Hne Hw. destruct Hw as [| x w Hx Hw]; [congruence|].
  simpl. assert (0 <= sumQ w).
  { apply sumQ_nonneg. eapply Forall_impl; [| exact Hw].
    intros a Ha. apply Qlt_le_weak. exact Ha. }
  lra.
Qed.

Lemma take_in {A : Type} (l : list A) (idx : list nat) (out : list A) :
  take l idx = Ok out -> Forall (fun a => In a l) out.
Proof.
  unfold take. revert out. induction idx as [| i idx IH]; simpl; intros out Ht.
  - inversion Ht. constructor.
  - bind_split Ht as a Ha. bind_split Ht as rest Hrest. inversion Ht; subst.
    constructor; [| apply IH; exact Hrest].
    apply index_ok in Ha. eapply nth_error_In. exact Ha.
Qed.

Section CredibleIntervals.

Context `{NumLib}.
Hypothesis exp_pos : forall x, 0 < np_exp x.
Hypothesis argsort_ok : argsort_contract np_argsort.

Lemma cred_estimate_table (p : Q) (logw : list Q) (gv : result (list Q)) :
  cred_estimate p logw gv
  = (' (xp, fp) <- cred_table logw gv ;; np_interp p xp fp).
Proof.
  unfold cred_estimate, cred_table.
  destruct (np_max logw); [| reflexivity]. cbn [bind].
  destruct gv; [| reflexivity]. cbn [bind].
  destruct (assign_column _ _); [| reflexivity]. cbn [bind].
  destruct (take _ _); [| reflexivity]. cbn [bind].
  destruct (take _ _); [| reflexivity]. cbn [bind].
  destruct (index _ _); [| reflexivity]. cbn [bind].
  destruct (div_all _ _); reflexivity.
Qed.

Lemma assign_column_length (n : nat) (values col : list Q) :
  assign_column n values = Ok col -> length col = n.
Proof.
  unfold assign_column. destruct (Nat.eqb_spec (length values) n) as [Heq | Hne].
  - intro Hc. inversion Hc; subst. reflexivity.
  - destruct values as [| v [| ? ?]]; intro Hc; inversion Hc.
    apply repeat_length.
Qed.

Lemma cred_table_spec (logw : list Q) (gv : result (list Q)) (xp fp : list Q) :
  cred_table logw gv = Ok (xp, fp) ->
  xp <> [] /\ length xp = length fp /\ Sorted Qlt xp /\ Sorted Qle fp.
Proof.
  unfold cred_table. intro Ht.
  bind_split Ht as m Hm. bind_split Ht as values Hv.
  bind_split Ht as col Hcol. bind_split Ht as ws Hws.
  bind_split Ht as vs Hvs. bind_split Ht as w0 Hw0.
  bind_split Ht as cdf' Hcdf. inversion Ht; subst cdf' vs. clear Ht.
  assert (Hpos : Forall (Qlt 0) ws).
  { apply take_in in Hws. eapply Forall_impl; [| exact Hws].
    intros a Ha. apply in_map_iff in Ha. destruct Ha as [x [<- _]].
    apply exp_pos. }
  assert (Hne : ws <> []).
  { intro Hnil. subst ws. discriminate. }
  assert (Hsum : 0 < sumQ ws) by (apply sumQ_pos; assumption).
  rewrite div_all_ok in Hcdf by lra. inversion Hcdf; subst xp. clear Hcdf.
  assert (Hlen : length ws = length fp).
  { apply mapM_length in Hws, Hvs. congruence. }
  split; [| split; [| split]].
  - destruct ws; [congruence | discriminate].
  - rewrite !length_map. unfold cumsum.
    rewrite <- Hlen. clear. generalize 0 as acc.
    induction ws as [| x ws IH]; intro acc; simpl; [reflexivity|].
    f_equal. apply IH.
  - apply sorted_map_increasing.
    { intros a b Hab. apply Qlt_shift_div_l; [exact Hsum|].
      assert (Heq : a / sumQ ws * sumQ ws == a) by (field; lra).
      rewrite Heq. exact Hab. }
    apply sorted_map_increasing; [intros a b Hab; lra|].
    pose proof (cumsum_from_increasing ws Hpos 0) as Hs.
    apply Sorted_inv in Hs. tauto.
  - rewrite (take_nth col 0 _ fp Hvs).
    apply StronglySorted_Sorted. apply (proj2 (argsort_ok col)).
Qed.

Lemma cred_table_ok (logw values : list Q) :
  logw <> [] ->
  length values = length logw ->
  exists xp fp, cred_table logw (Ok values) = Ok (xp, fp).
Proof.
  intros Hne Hlen. unfold cred_table.
  destruct (np_max logw) as [m | e] eqn:Hm.
  2:{ destruct logw; [congruence | discriminate]. }
  cbn [bind]. unfold assign_column. rewrite Hlen, Nat.eqb_refl. cbn [bind].
  destruct (argsort_ok values) as [Hperm _].
  set (w := map (fun x => np_exp (x - m)) logw).
  assert (Hw : length w = length values).
  { unfold w. rewrite length_map. congruence. }
  destruct (take_permutation values _ Hperm) as [vs [Hvs _]].
  rewrite <- Hw in Hperm.
  destruct (take_permutation w _ Hperm) as [ws [Hws Hpw]].
  rewrite Hws, Hvs. cbn [bind].
  assert (Hpos : Forall (Qlt 0) ws).
  { apply take_in in Hws. eapply Forall_impl; [| exact Hws].
    intros a Ha. apply in_map_iff in Ha. destruct Ha as [x [<- _]].
    apply exp_pos. }
  destruct ws as [| w0 ws'].
  { apply Permutation_length in Hpw. rewrite Hw, Hlen in Hpw.
    destruct logw; [congruence | discriminate]. }
  unfold index at 1. cbn [nth_error bind].
  rewrite div_all_ok.
  - cbn [bind]. eauto.
  - pose proof (sumQ_pos (w0 :: ws')) as Hs.
    assert (0 < sumQ (w0 :: ws')) by (apply Hs; [discriminate | exact Hpos]).
    lra.
Qed.

Lemma cred_estimate_mono (p1 p2 : Q) (logw : list Q) (gv : result (list Q))
  (v1 v2 : Q) :
  p1 <= p2 ->
  cred_estimate p1 logw gv = Ok v1 ->
  cred_estimate p2 logw gv = Ok v2 ->
  v1 <= v2.
Proof.
  intros Hp H1 H2. rewrite cred_estimate_table in H1, H2.
  destruct (cred_table logw gv) as [[xp fp] | e] eqn:Ht; [| discriminate].
  cbn [bind] in H1, H2.
  destruct (cred_table_spec logw gv xp fp Ht) as [_ [_ [Hxs Hys]]].
  apply (np_interp_mono p1 p2 xp fp v1 v2 Hxs Hys Hp H1 H2).
Qed.

Lemma cred_estimate_ok (p : Q) (logw values : list Q) :
  logw <> [] ->
  length values = length logw ->
  exists v, cred_estimate p logw (Ok values) = Ok v.
Proof.
  intros Hne Hlen. rewrite cred_estimate_table.
  destruct (cred_table_ok logw values Hne Hlen) as [xp [fp Ht]].
  rewrite Ht. cbn [bind].
  destruct (cred_table_spec logw (Ok values) xp fp Ht) as [Hx [Hl [Hxs _]]].
  apply np_interp_ok; assumption.
Qed.

End CredibleIntervals.

(** C8. With a positive exponential and an [np.argsort] that meets its
    contract, for a run with non-empty [logw] and probabilities [p1 <= p2]:
    the radial credible interval (on [r] of the length of [logw]) and the
    credible interval of parameter [param_ind] (when that column of [theta]
    exists and has the length of [logw]) both return a value for [p1] and for
    [p2], and the value for [p1] is at most the value for [p2]. *)
Theorem credible_interval_monotone `{NumLib} (p1 p2 : Q) (logw : list Q)
  (ns_run : run) (param_ind : Z) :
  (forall x, 0 < np_exp x) ->
  argsort_contract np_argsort ->
  logw <> [] ->
  p1 <= p2 ->
  (length (run_r ns_run) = length logw ->
   exists v1 v2,
     estimator (rCredEstimator p1) logw ns_run = Ok v1 /\
     estimator (rCredEstimator p2) logw ns_run = Ok v2 /\
     v1 <= v2) /\
  (forall col,
      column (run_theta ns_run) (param_ind - 1) = Ok col ->
      length col = length logw ->
      exists v1 v2,
        estimator (paramCredEstimator p1 param_ind) logw ns_run = Ok v1 /\
        estimator (paramCredEstimator p2 param_ind) logw ns_run = Ok v2 /\
        v1 <= v2) /\
  (forall v1 v2,
      estimator (rCredEstimator p1) logw ns_run = Ok v1 ->
      estimator (rCredEstimator p2) logw ns_run = Ok v2 ->
      v1 <= v2) /\
  (forall v1 v2,
      estimator (paramCredEstimator p1 param_ind) logw ns_run = Ok v1 ->
      estimator (paramCredEstimator p2 param_ind) logw ns_run = Ok v2 ->
      v1 <= v2).
Proof.
  intros Hexp Hsort Hne Hp. simpl estimator. repeat split.
  - intro Hlen.
    destruct (cred_estimate_ok Hexp Hsort p1 logw (run_r ns_run) Hne Hlen)
      as [v1 H1].
    destruct (cred_estimate_ok Hexp Hsort p2 logw (run_r ns_run) Hne Hlen)
      as [v2 H2].
    exists v1, v2. repeat split; try assumption.
    apply (cred_estimate_mono Hexp Hsort p1 p2 logw _ v1 v2 Hp H1 H2).
  - intros col Hcol Hlen. rewrite Hcol.
    destruct (cred_estimate_ok Hexp Hsort p1 logw col Hne Hlen) as [v1 H1].
    destruct (cred_estimate_ok Hexp Hsort p2 logw col Hne Hlen) as [v2 H2].
    exists v1, v2. repeat split; try assumption.
    apply (cred_estimate_mono Hexp Hsort p1 p2 logw _ v1 v2 Hp H1 H2).
  - intros v1 v2. apply (cred_estimate_mono Hexp Hsort p1 p2 logw _ v1 v2 Hp).
  - intros v1 v2. apply (cred_estimate_mono Hexp Hsort p1 p2 logw _ v1 v2 Hp).
Qed.

Lemma rat_exp_pos (x : Q) : 0 < rat_exp x.
Proof. unfold rat_exp. apply Qpower_0_lt. reflexivity. Qed.

Lemma credible_interval_monotone_witness :
  (length (run_r toy_run) = length [-2; -1; 0] ->
   exists v1 v2,
     estimator (rCredEstimator (1 # 4)) [-2; -1; 0] toy_run = Ok v1 /\
     estimator (rCredEstimator (3 # 4)) [-2; -1; 0] toy_run = Ok v2 /\
     v1 <= v2) /\
  (forall col,
      column (run_theta toy_run) (1 - 1) = Ok col ->
      length col = length [-2; -1; 0] ->
      exists v1 v2,
        estimator (paramCredEstimator (1 # 4) 1) [-2; -1; 0] toy_run = Ok v1 /\
        estimator (paramCredEstimator (3 # 4) 1) [-2; -1; 0] toy_run = Ok v2 /\
        v1 <= v2) /\
  (forall v1 v2,
      estimator (rCredEstimator (1 # 4)) [-2; -1; 0] toy_run = Ok v1 ->
      estimator (rCredEstimator (3 # 4)) [-2; -1; 0] toy_run = Ok v2 ->
      v1 <= v2) /\
  (forall v1 v2,
      estimator (paramCredEstimator (1 # 4) 1) [-2; -1; 0] toy_run = Ok v1 ->
      estimator (paramCredEstimator (3 # 4) 1) [-2; -1; 0] toy_run = Ok v2 ->
      v1 <= v2).
Proof.
  apply (@credible_interval_monotone RatLib (1 # 4) (3 # 4) [-2; -1; 0] toy_run 1).
  - exact rat_exp_pos.
  - exact argsort_stable_contract.
  - discriminate.
  - vm_compute. discriminate.
Defined.

(** The values of the witness. *)
Example toy_credible_intervals :
  (exists v, estimator (rCredEstimator (1 # 4)) [-2; -1; 0] toy_run = Ok v /\
             v == 19 # 16) /\
  (exists v, estimator (rCredEstimator (3 # 4)) [-2; -1; 0] toy_run = Ok v /\
             v == 9 # 4) /\
  (exists v, estimator (paramCredEstimator (1 # 4) 1) [-2; -1; 0] toy_run = Ok v /\
             v == - (7 # 16)) /\
  (exists v, estimator (paramCredEstimator (3 # 4) 1) [-2; -1; 0] toy_run = Ok v /\
             v == 9 # 4).
Proof.
  repeat split; eexists; (split; [vm_compute; reflexivity | reflexivity]).
Qed.

(** ** Analytic reference values *)

Lemma dict_get_set_same {V : Type} (d : list (string * V)) (k : string) (v : V) :
  dict_get (dict_set d k v) k = Some v.
Proof.
  induction d as [| [k' v'] d IH]; simpl.
  - rewrite String.eqb_refl. reflexivity.
  - destruct (String.eqb k' k) eqn:E; simpl; rewrite E; [reflexivity | exact IH].
Qed.

Lemma dict_get_set_other {V : Type} (d : list (string * V)) (k k0 : string)
  (v : V) :
  k <> k0 -> dict_get (dict_set d k v) k0 = dict_get d k0.
Proof.
  intro Hne. induction d as [| [k' v'] d IH]; simpl.
  - destruct (String.eqb k k0) eqn:E; [| reflexivity].
    apply String.eqb_eq in E. contradiction.
  - destruct (String.eqb k' k) eqn:E; simpl.
    + apply String.eqb_eq in E. subst k'.
      destruct (String.eqb k k0) eqn:E0; [| reflexivity].
      apply String.eqb_eq in E0. contradiction.
    + destruct (String.eqb k' k0); [reflexivity | exact IH].
Qed.

Section TrueValues.

Context `{NumLib} `{PyLib}.
Variable s : Settings.

Lemma median_name_estimator (e : Estimator) :
  median_name (name e) ->
  exists p k, e = paramCredEstimator p k /\ Qeq_bool p (1 # 2) = true.
Proof.
  intros [rest Hn]. destruct e as [| | | | p | k | p k | k]; simpl in Hn;
    try discriminate.
  destruct (Qeq_bool p (1 # 2)) eqn:E; [eauto | discriminate].
Qed.

Lemma median_analytical (p : Q) (k : Z) :
  Qeq_bool p (1 # 2) = true ->
  analytical (paramCredEstimator p k) s = Ok 0 /\
  median_name (name (paramCredEstimator p k)).
Proof.
  intro Hp. simpl. rewrite Hp. split; [reflexivity|].
  eexists. reflexivity.
Qed.

Lemma true_values_loop_medians (ests : list Estimator) :
  forall output cols output' cols',
    true_values_loop ests s output cols = Ok (output', cols') ->
    medians_zero output ->
    Forall (fun k => exists v, dict_get output k = Some v) cols ->
    medians_zero output' /\
    Forall (fun k => exists v, dict_get output' k = Some v) cols' /\
    cols' = cols ++ map name ests.
Proof.
  induction ests as [| est ests IH]; intros output cols output' cols' Hl Hz Hc;
    simpl in Hl.
  - inversion Hl; subst. rewrite app_nil_r. auto.
  - bind_split Hl as v Hv.
    apply IH in Hl.
    + destruct Hl as [Hz' [Hc' ->]]. split; [exact Hz'|]. split; [exact Hc'|].
      rewrite <- app_assoc. reflexivity.
    + intros k0 v0 Hm Hget.
      destruct (string_dec (name est) k0) as [Heq | Hne].
      * subst k0. rewrite dict_get_set_same in Hget. inversion Hget; subst v0.
        destruct (median_name_estimator est Hm) as [p [k [-> Hp]]].
        destruct (median_analytical p k Hp) as [Ha _].
        rewrite Ha in Hv. inversion Hv. reflexivity.
      * rewrite dict_get_set_other in Hget by exact Hne. eapply Hz; eassumption.
    + apply Forall_app. split.
      * eapply Forall_impl; [| exact Hc]. intros k0 [v0 Hget].
        destruct (string_dec (name est) k0) as [Heq | Hne].
        -- subst k0. rewrite dict_get_set_same. eauto.
        -- rewrite dict_get_set_other by exact Hne. eauto.
      * constructor; [| constructor]. rewrite dict_get_set_same. eauto.
Qed.

End TrueValues.

(** C10. With probability 0.5, [paramCredEstimator.analytical] returns [0]
    for every settings object; the assertions on the likelihood and the prior
    are not evaluated.  In every table [get_true_estimator_values] returns,
    whatever the other estimators, the column of the median holds [0] and
    not [nan], and on the median alone the helper returns that column. *)
Theorem median_analytical_zero `{NumLib} `{PyLib} (s : Settings) (p : Q)
  (param_ind : Z) :
  p == 1 # 2 ->
  analytical (paramCredEstimator p param_ind) s = Ok 0 /\
  get_true_estimator_values [paramCredEstimator p param_ind] s
  = Ok [(name (paramCredEstimator p param_ind), Val 0)] /\
  (forall ests table,
      get_true_estimator_values ests s = Ok table ->
      map fst table = map name ests /\
      forall v, In (name (paramCredEstimator p param_ind), v) table -> v = Val 0).
Proof.
  intro Hp. apply Qeq_bool_iff in Hp.
  destruct (median_analytical s p param_ind Hp) as [Ha Hm].
  split; [exact Ha|]. split.
  - unfold get_true_estimator_values. simpl true_values_loop.
    simpl in Ha. rewrite Ha. simpl. rewrite Hp. simpl.
    rewrite String.eqb_refl. reflexivity.
  - intros ests table Ht. unfold get_true_estimator_values in Ht.
    bind_split Ht as [output cols] Hloop.
    destruct (true_values_loop_medians s ests [] [] output cols Hloop)
      as [Hz [_ Hcols]].
    { intros k v _ Hget. discriminate. }
    { constructor. }
    simpl in Hcols. subst cols.
    assert (Hentries : forall l tbl,
               mapM (fun k => match dict_get output k with
                              | Some v => Ok (k, v)
                              | None => Raise IndexError
                              end) l = Ok tbl ->
               map fst tbl = l /\
               forall k v, In (k, v) tbl -> dict_get output k = Some v).
    { induction l as [| k l IH]; simpl; intros tbl Hm'.
      - inversion Hm'. split; [reflexivity | intros ? ? []].
      - bind_split Hm' as kv Hkv. bind_split Hm' as rest Hrest.
        inversion Hm'; subst tbl. destruct (IH rest Hrest) as [Hf Hin].
        destruct (dict_get output k) as [v0 |] eqn:Hget; [| discriminate].
        inversion Hkv; subst kv. simpl. split; [f_equal; exact Hf|].
        intros k1 v1 [Heq | Hrest']; [inversion Heq; subst; exact Hget | auto]. }
    destruct (Hentries _ _ Ht) as [Hfst Hget]. split; [exact Hfst|].
    intros v Hin. apply (Hz _ v Hm). apply Hget. exact Hin.
Qed.

Lemma median_analytical_zero_witness :
  analytical (paramCredEstimator (2 # 4) 1) toy_settings = Ok 0 /\
  get_true_estimator_values [paramCredEstimator (2 # 4) 1] toy_settings
  = Ok [(name (paramCredEstimator (2 # 4) 1), Val 0)] /\
  (forall ests table,
      get_true_estimator_values ests toy_settings = Ok table ->
      map fst table = map name ests /\
      forall v, In (name (paramCredEstimator (2 # 4) 1), v) table -> v = Val 0).
Proof.
  apply (@median_analytical_zero RatLib RatPy toy_settings (2 # 4) 1).
  reflexivity.
Defined.

(** A table on settings with a likelihood that is not Gaussian: the
    credible interval at 0.84 has no reference value, the median has. *)
Example toy_true_values :
  let cauchy :=
    {| n_dim := 1; dims_to_sample := 1; nlive_const := 2; ninit := 2;
       termination_fraction := 1 # 1000; dynamic_goal := None;
       n_samples_max := None; nbatch := 1; dynamic_fraction := 1 # 2;
       tuned_dynamic_p := false; logx_terminate := None;
       r_given_logx := fun lx => 1 / (1 - lx);
       logl_given_r := fun r0 => - (r0 * r0) / 2;
       sample_nsphere_shells := map (fun r0 => [r0]);
       likelihood_name := "cauchy"; prior_name := "gaussian";
       likelihood_scale := 1; prior_scale := 10;
       logz_analytic := Raise AttributeError |} in
  get_true_estimator_values
    [nSamplesEstimator; paramCredEstimator (1 # 2) 1;
     paramCredEstimator (21 # 25) 1; paramMeanEstimator 1] cauchy
  = Ok [("n_samples"%string, NaN); ("Median(theta1)"%string, Val 0);
        ("theta1c_0.84"%string, NaN); ("theta1"%string, Val 0)].
Proof. vm_compute. reflexivity. Qed.

(** * Further properties of the code *)

(** ** Thread generator: trajectories, rows and errors *)

Lemma thread_logx_loop_sums (logx_end : Q) (t : tape) :
  forall last rest t',
    thread_logx_loop logx_end last t = Ok (rest, t') ->
    exists used,
      t = used ++ t' /\
      rest = cumsum_from last used /\
      Forall (fun x => logx_end < x) (removelast (last :: rest)) /\
      List.last (last :: rest) 0 <= logx_end.
Proof.
  induction t as [| d t IH]; intros last rest t' Hloop; simpl in Hloop;
    destruct (Qgtb last logx_end) eqn:E; try discriminate.
  - inversion Hloop; subst. apply Qgtb_le in E.
    exists []. repeat split; [constructor | exact E].
  - bind_split Hloop as [rest' t''] Hrest. inversion Hloop; subst.
    destruct (IH _ _ _ Hrest) as [used [Ht [Hsum [Habove Hlast]]]].
    exists (d :: used). split; [simpl; f_equal; exact Ht|].
    split; [simpl; f_equal; exact Hsum|]. split.
    + change (removelast (last :: (last + d) :: rest'))
        with (last :: removelast ((last + d) :: rest')).
      constructor; [apply Qgtb_gt; exact E | exact Habove].
    + exact Hlast.
  - inversion Hloop; subst. apply Qgtb_le in E.
    exists []. repeat split; [constructor | exact E].
Qed.

(** X1. A trajectory is the running sum of the draws it consumes, one draw
    per point, starting from [logx_start]: every point but the last is above
    [logx_end] and the last is at or below it.  With [keep_final_point]
    false the same draws are consumed and only the last point is dropped. *)
Theorem thread_logx_running_sum (logx_end logx_start : Q) (t : tape)
  (logx_list : list Q) (t' : tape) :
  generate_thread_logx logx_end logx_start true t = Ok (logx_list, t') ->
  (exists used,
      t = used ++ t' /\
      used <> [] /\
      logx_list = cumsum_from logx_start used) /\
  Forall (fun x => logx_end < x) (removelast logx_list) /\
  List.last logx_list 0 <= logx_end /\
  generate_thread_logx logx_end logx_start false t = Ok (removelast logx_list, t').
Proof.
  unfold generate_thread_logx. intro Hg.
  destruct t as [| d t]; [discriminate|]. simpl in Hg |- *.
  bind_split Hg as [rest t2] Hloop. simpl in Hg. inversion Hg; subst.
  destruct (thread_logx_loop_sums _ _ _ _ _ Hloop)
    as [used [Ht [Hsum [Habove Hlast]]]].
  split.
  - exists (d :: used). split; [simpl; f_equal; exact Ht|].
    split; [discriminate|]. simpl. f_equal. exact Hsum.
  - split; [exact Habove|]. split; [exact Hlast|].
    rewrite Hloop. reflexivity.
Qed.

Lemma thread_logx_running_sum_witness :
  (exists used,
      [-(1 # 2); -1; -3] = used ++ [-3] /\
      used <> [] /\
      [0 + -(1 # 2); 0 + -(1 # 2) + -1] = cumsum_from 0 used) /\
  Forall (fun x => -1 < x) (removelast [0 + -(1 # 2); 0 + -(1 # 2) + -1]) /\
  List.last [0 + -(1 # 2); 0 + -(1 # 2) + -1] 0 <= -1 /\
  generate_thread_logx (-1) 0 false [-(1 # 2); -1; -3]
  = Ok (removelast [0 + -(1 # 2); 0 + -(1 # 2) + -1], [-3]).
Proof.
  apply (thread_logx_running_sum (-1) 0 [-(1 # 2); -1; -3]).
  reflexivity.
Defined.

Lemma thread_logx_loop_raises (logx_end : Q) (t : tape) :
  forall last e, thread_logx_loop logx_end last t = Raise e -> e = OutOfDraws.
Proof.
  induction t as [| d t IH]; intros last e Hloop; simpl in Hloop;
    destruct (Qgtb last logx_end); try discriminate.
  - inversion Hloop. reflexivity.
  - destruct (thread_logx_loop logx_end (last + d) t) as [[rest t'] | e'] eqn:E;
      simpl in Hloop; [discriminate|].
    inversion Hloop; subst. eapply IH. exact E.
Qed.

Lemma generate_thread_logx_raises (logx_end logx_start : Q) (keep : bool)
  (t : tape) (e : exn) :
  generate_thread_logx logx_end logx_start keep t = Raise e -> e = OutOfDraws.
Proof.
  unfold generate_thread_logx. destruct t as [| d t]; simpl; intro Hg.
  - inversion Hg. reflexivity.
  - destruct (thread_logx_loop logx_end (logx_start + d) t)
      as [[rest t'] | e'] eqn:E; simpl in Hg.
    + destruct keep; discriminate.
    + inversion Hg; subst. eapply thread_logx_loop_raises. exact E.
Qed.

Lemma combine_rows_raises (label : nat) (xs : list Q) :
  forall ls rs ns ths e,
    combine_rows label ls rs xs ns ths = Raise e -> e = ValueError.
Proof.
  induction xs as [| x xs IH]; intros ls rs ns ths e Hc;
    destruct ls, rs, ns, ths; simpl in Hc; try discriminate;
    try (inversion Hc; reflexivity).
  destruct (combine_rows label ls rs xs ns ths) as [rows | e'] eqn:E;
    simpl in Hc; [discriminate|].
  inversion Hc; subst. eapply IH. exact E.
Qed.

(** X2. Given [logx_end], [generate_single_thread] fails its assertion
    exactly when [logx_start <= logx_end], whatever the tape and before any
    draw; on a valid interval the only ways it can stop short are an
    exhausted tape and a shell sampler that returns a wrong number of rows.
    The earlier revision asserts the same. *)
Theorem single_thread_interval_assertion (s : Settings) (logx_end logx_start : Q)
  (label : nat) (keep : bool) (t : tape) :
  (generate_single_thread s (Some logx_end) label logx_start keep t
   = Raise (AssertionError AssertInterval) <-> logx_start <= logx_end) /\
  (Npns.generate_single_thread s (Some logx_end) logx_start keep t
   = Raise (AssertionError AssertInterval) <-> logx_start <= logx_end) /\
  (forall e,
      generate_single_thread s (Some logx_end) label logx_start keep t = Raise e ->
      e = AssertionError AssertInterval \/ e = OutOfDraws \/
      (e = ValueError /\
       exists rs, length (sample_nsphere_shells s rs) <> length rs)).
Proof.
  unfold generate_single_thread, Npns.generate_single_thread. cbn [bind].
  destruct (Qgtb logx_start logx_end) eqn:E; cbn [assert bind].
  - apply Qgtb_gt in E.
    destruct (generate_thread_logx logx_end logx_start keep t)
      as [[xs t'] | e'] eqn:Hg; cbn [bind].
    + split; [| split].
      * split; [| intro Hle; lra].
        destruct xs; [discriminate|].
        destruct (combine_rows _ _ _ _ _ _) as [rows | e0] eqn:Hc; cbn [bind];
          [discriminate|].
        apply combine_rows_raises in Hc. subst e0. discriminate.
      * split; [| intro Hle; lra].
        destruct (length xs =? 0)%nat; discriminate.
      * intros e He. destruct xs as [| x xs]; [discriminate|].
        destruct (combine_rows _ _ _ _ _ _) as [rows | e0] eqn:Hc; cbn [bind] in He;
          [discriminate|].
        inversion He; subst e0. pose proof Hc as Hv.
        apply combine_rows_raises in Hv. subst e.
        right. right. split; [reflexivity|].
        exists (map (r_given_logx s) (x :: xs)). intro Hlen.
        destruct (combine_rows_ok label
                    (map (logl_given_r s) (map (r_given_logx s) (x :: xs)))
                    (map (r_given_logx s) (x :: xs)) (x :: xs)
                    (end_marks (length (x :: xs)))
                    (sample_nsphere_shells s (map (r_given_logx s) (x :: xs))))
          as [rows [Hrows _]].
        -- rewrite !length_map. reflexivity.
        -- rewrite length_map. reflexivity.
        -- apply end_marks_length.
        -- rewrite Hlen, length_map. reflexivity.
        -- congruence.
    + apply generate_thread_logx_raises in Hg. subst e'.
      split; [| split].
      * split; [discriminate | intro Hle; lra].
      * split; [discriminate | intro Hle; lra].
      * intros e He. inversion He. auto.
  - apply Qgtb_le in E. split; [| split].
    + split; auto.
    + split; auto.
    + intros e He. inversion He. auto.
Qed.

Lemma combine_rows_columns (label : nat) (xs : list Q) :
  forall ls rs ns ths rows,
    combine_rows label ls rs xs ns ths = Ok rows ->
    map logl rows = ls /\ map r rows = rs /\ map logx rows = xs /\
    map dnlive rows = ns /\ map theta rows = ths.
Proof.
  induction xs as [| x xs IH]; intros ls rs ns ths rows Hc;
    destruct ls, rs, ns, ths; simpl in Hc; try discriminate.
  - inversion Hc. repeat split.
  - bind_split Hc as rest Hrest. inversion Hc; subst. simpl.
    destruct (IH _ _ _ _ _ Hrest) as [H1 [H2 [H3 [H4 H5]]]].
    repeat split; f_equal; assumption.
Qed.

Lemma end_marks_sum (n : nat) :
  (1 <= n)%nat -> fold_right Z.add 0%Z (end_marks n) = (-1)%Z.
Proof.
  induction n as [| n IH]; intro Hn; [lia|].
  destruct n as [| n]; [reflexivity|].
  change (fold_right Z.add 0%Z (end_marks (S (S n))))
    with (0 + fold_right Z.add 0%Z (end_marks (S n)))%Z.
  rewrite IH by lia. reflexivity.
Qed.

(** X3. Every row of a thread that [generate_single_thread] returns carries
    the thread's label, has [r = r_given_logx(logx)] and
    [logl = logl_given_r(r)], and has the shell sample of its radius as
    [theta]; the change in [nlive] is [-1] on the last row and [0] on the
    others, so it sums to [-1] over the thread; the [logx] column is the
    trajectory of [generate_thread_logx]. *)
Theorem single_thread_rows (s : Settings) (logx_end logx_start : Q) (label : nat)
  (keep : bool) (t : tape) (rows : list sample) (t' : tape) :
  generate_single_thread s (Some logx_end) label logx_start keep t
  = Ok (Some rows, t') ->
  generate_thread_logx logx_end logx_start keep t = Ok (map logx rows, t') /\
  Forall (fun x => thread_label x = label /\
                   r x = r_given_logx s (logx x) /\
                   logl x = logl_given_r s (r x)) rows /\
  map theta rows = sample_nsphere_shells s (map r rows) /\
  map dnlive rows = end_marks (length rows) /\
  fold_right Z.add 0%Z (map dnlive rows) = (-1)%Z.
Proof.
  unfold generate_single_thread. cbn [bind]. intro Hg.
  bind_split Hg as u Hu. bind_split Hg as [xs t1] Hxs.
  destruct xs as [| x xs]; [discriminate|].
  bind_split Hg as rows' Hrows. inversion Hg; subst rows' t1. clear Hg.
  pose proof (combine_rows_labels _ _ _ _ _ _ _ Hrows) as Hlab.
  destruct (combine_rows_columns _ _ _ _ _ _ _ Hrows) as [Hl [Hr [Hx [Hn Hth]]]].
  assert (Hlen : length rows = length (x :: xs)).
  { rewrite <- Hx. rewrite length_map. reflexivity. }
  rewrite Hx. split; [exact Hxs|]. split.
  - apply Forall_forall. intros row Hin.
    apply In_nth_error in Hin. destruct Hin as [i Hi].
    assert (Hf : forall (B : Type) (f : sample -> B),
               nth_error (map f rows) i = Some (f row)).
    { intros B f. rewrite nth_error_map, Hi. reflexivity. }
    split; [| split].
    + pose proof (Hf _ thread_label) as H1. rewrite Hlab in H1.
      apply nth_error_In, repeat_spec in H1. exact H1.
    + pose proof (Hf _ r) as H1. rewrite Hr, nth_error_map in H1.
      pose proof (Hf _ logx) as H2. rewrite Hx in H2. rewrite H2 in H1.
      simpl in H1. congruence.
    + pose proof (Hf _ logl) as H1. rewrite Hl, nth_error_map in H1.
      pose proof (Hf _ r) as H2. rewrite Hr in H2. rewrite H2 in H1.
      simpl in H1. congruence.
  - rewrite Hth, Hr. split; [reflexivity|].
    rewrite Hn, Hlen. split; [reflexivity|].
    apply end_marks_sum. simpl. lia.
Qed.

Lemma single_thread_rows_witness :
  match generate_single_thread toy_settings (Some (-1)) 3 0 true
          [-(1 # 2); -1; -3] with
  | Ok (Some rows, t') =>
      generate_thread_logx (-1) 0 true [-(1 # 2); -1; -3] = Ok (map logx rows, t') /\
      Forall (fun x => thread_label x = 3%nat /\
                       r x = r_given_logx toy_settings (logx x) /\
                       logl x = logl_given_r toy_settings (r x)) rows /\
      map theta rows = sample_nsphere_shells toy_settings (map r rows) /\
      map dnlive rows = end_marks (length rows) /\
      fold_right Z.add 0%Z (map dnlive rows) = (-1)%Z
  | _ => False
  end.
Proof.
  destruct (generate_single_thread toy_settings (Some (-1)) 3 0 true
              [-(1 # 2); -1; -3]) as [[[rows |] t'] | e] eqn:E.
  - apply (single_thread_rows toy_settings (-1) 0 3 true [-(1 # 2); -1; -3]
             rows t' E).
  - vm_compute in E. discriminate.
  - vm_compute in E. discriminate.
Defined.

Lemma single_thread_interval_assertion_witness :
  generate_single_thread toy_settings (Some 0) 1 (-1) true toy_tape
  = Raise (AssertionError AssertInterval).
Proof.
  apply (proj1 (single_thread_interval_assertion toy_settings 0 (-1) 1 true
                  toy_tape)).
  discriminate.
Defined.

(** ** Standard driver: the columns of a run *)

Lemma fold_min_le (l : list Q) :
  forall x, fold_left Qminb l x <= x /\ Forall (fun y => fold_left Qminb l x <= y) l.
Proof.
  induction l as [| a l IH]; intro x; simpl.
  - split; [lra | constructor].
  - destruct (IH (Qminb x a)) as [Hle Hall].
    assert (Hm : Qminb x a <= x /\ Qminb x a <= a).
    { unfold Qminb. destruct (Qltb a x) eqn:E.
      - apply Qltb_lt in E. lra.
      - apply Qltb_ge in E. lra. }
    split; [lra|]. constructor; [lra | exact Hall].
Qed.

Lemma np_min_spec (l : list Q) (m : Q) :
  np_min l = Ok m -> Forall (fun y => m <= y) l.
Proof.
  destruct l as [| x l]; simpl; intro Hm; inversion Hm; subst.
  destruct (fold_min_le l x) as [Hle Hall].
  constructor; assumption.
Qed.

Lemma where_from_head {A : Type} (p : A -> bool) (l : list A) :
  forall i k,
    index (where_from i p l) 0 = Ok k ->
    exists j x, k = (i + j)%nat /\ nth_error l j = Some x /\ p x = true.
Proof.
  induction l as [| a l IH]; intros i k Hk; simpl in Hk; [discriminate|].
  destruct (p a) eqn:E.
  - inversion Hk; subst. exists O, a. repeat split; [lia | exact E].
  - destruct (IH _ _ Hk) as [j [x [Hj [Hx Hp]]]].
    exists (S j), x. repeat split; [lia | exact Hx | exact Hp].
Qed.

(** [np.where(a == a.min())[0][0]] is the position of a smallest entry. *)
Lemma argmin_first_spec (a : list Q) (ind : nat) :
  argmin_first a = Ok ind ->
  exists v, nth_error a ind = Some v /\ Forall (fun y => v <= y) a.
Proof.
  unfold argmin_first. intro Ha. bind_split Ha as m Hm.
  apply np_min_spec in Hm.
  destruct (where_from_head _ _ _ _ Ha) as [j [x [Hj [Hx Hp]]]].
  simpl in Hj. subst ind. exists x. split; [exact Hx|].
  apply Qeq_bool_iff in Hp.
  eapply Forall_impl; [| exact Hm]. intros y Hy. simpl in Hy. lra.
Qed.

Lemma set_nth_Forall {A : Type} (P : A -> Prop) (v : A) (l : list A) :
  forall i, Forall P l -> P v -> Forall P (set_nth l i v).
Proof.
  induction l as [| a l IH]; intros i Hl Hv; [destruct i; constructor|].
  inversion Hl; subst. destruct i; simpl; constructor; auto.
Qed.

Lemma set_nth_map_same {A B : Type} (f : A -> B) (v x : A) (l : list A) :
  forall i, nth_error l i = Some x -> f v = f x ->
            map f (set_nth l i v) = map f l.
Proof.
  induction l as [| a l IH]; intros [| i] Hx Hv; simpl in *; try discriminate.
  - inversion Hx; subst. rewrite Hv. reflexivity.
  - f_equal. apply IH; assumption.
Qed.

Lemma init_live_labels (s : Settings) (lxs : list Q) :
  forall label, map p_label (init_live s label lxs) = seq label (length lxs).
Proof.
  induction lxs as [| lx lxs IH]; intro label; simpl; [reflexivity|].
  f_equal. apply IH.
Qed.

Lemma init_live_on_curve (s : Settings) (lxs : list Q) :
  forall label, Forall (on_curve s) (init_live s label lxs).
Proof.
  induction lxs as [| lx lxs IH]; intro label; simpl; constructor.
  - split; reflexivity.
  - apply IH.
Qed.

Lemma init_live_logx (s : Settings) (lxs : list Q) :
  forall label, map p_logx (init_live s label lxs) = lxs.
Proof.
  induction lxs as [| lx lxs IH]; intro label; simpl; [reflexivity|].
  f_equal. apply IH.
Qed.

Lemma draws_split (n : nat) :
  forall t ds t', draws n t = Ok (ds, t') -> t = ds ++ t'.
Proof.
  induction n as [| n IH]; simpl; intros t ds t' Hd.
  - inversion Hd. reflexivity.
  - destruct t as [| d t]; [discriminate|]. simpl in Hd.
    bind_split Hd as [ds' t2] Hrest. inversion Hd; subst.
    simpl. f_equal. eapply IH. exact Hrest.
Qed.

(** Sorting rows by a key with an [argsort] that meets its contract. *)
Lemma take_argsort_sorted {A : Type} (key : A -> Q) (argsort : list Q -> list nat)
  (l out : list A) :
  argsort_contract argsort ->
  take l (argsort (map key l)) = Ok out ->
  StronglySorted Qle (map key out) /\ Permutation out l.
Proof.
  intros Hc Htake. destruct (Hc (map key l)) as [Hperm Hsorted].
  rewrite length_map in Hperm.
  destruct (take_permutation l _ Hperm) as [out' [Htake' Hp]].
  assert (out' = out) by congruence. subst out'.
  split; [| exact Hp].
  destruct l as [| d rest].
  - apply Permutation_sym, Permutation_nil in Hp. subst out. constructor.
  - rewrite (take_nth (d :: rest) d _ out Htake), map_map.
    unfold keys_along in Hsorted.
    rewrite (map_ext_in _ (fun i => nth i (map key (d :: rest)) 0));
      [exact Hsorted|].
    intros i Hi. apply (Permutation_in _ Hperm) in Hi. apply in_seq in Hi.
    rewrite (nth_indep _ 0 (key d)) by (rewrite length_map; lia).
    symmetry. apply map_nth.
Qed.

Section StandardRun.

Context `{NumLib}.
Variables (s : Settings) (nlive : nat).

(** What one pass of the loop does to the points. *)
Lemma std_body_points (logtrapz : Q) (st st' : std_state) (d : Q) :
  std_body s nlive logtrapz st d = Ok st' ->
  exists ind dying,
    nth_error (live_points st) ind = Some dying /\
    Forall (fun p => p_logl dying <= p_logl p) (live_points st) /\
    live_points st'
    = set_nth (live_points st) ind
        (new_point s (p_label dying) (p_logx dying + d)) /\
    dead_points_list st' = dead_points_list st ++ [dying].
Proof.
  unfold std_body. intro Hbody.
  bind_split Hbody as ind Hind. bind_split Hbody as dying Hdying.
  bind_split Hbody as step Hstep. bind_split Hbody as lzl Hlzl.
  inversion Hbody; subst st'; clear Hbody. simpl.
  apply index_ok in Hdying.
  destruct (argmin_first_spec _ _ Hind) as [v [Hv Hall]].
  rewrite nth_error_map, Hdying in Hv. simpl in Hv. inversion Hv; subst v.
  exists ind, dying. repeat split; try assumption.
  rewrite Forall_map in Hall. exact Hall.
Qed.

(** A property of the state that every pass keeps holds when the loop
    leaves, and the loop takes one draw for each point it kills. *)
Lemma std_loop_invariant (logtrapz : Q) (P : std_state -> Prop) (D : Q -> Prop) :
  (forall st d st', D d -> P st -> std_body s nlive logtrapz st d = Ok st' -> P st') ->
  forall t st st' t',
    Forall D t ->
    std_loop s nlive logtrapz st t = Ok (st', t') ->
    P st ->
    P st' /\
    exists used,
      t = used ++ t' /\
      length (dead_points_list st')
      = (length (dead_points_list st) + length used)%nat.
Proof.
  intros Hstep t. induction t as [| d t IH]; intros st st' t' HD Hloop HP;
    simpl in Hloop; destruct (std_cond s st) eqn:Hcond; try discriminate.
  - inversion Hloop; subst. split; [exact HP|]. exists []. split; [reflexivity | simpl; lia].
  - bind_split Hloop as st1 Hbody. inversion HD; subst.
    destruct (IH st1 st' t') as [HP' [used [Ht Hlen]]]; try assumption.
    { eapply Hstep; eassumption. }
    split; [exact HP'|]. exists (d :: used). split; [simpl; f_equal; exact Ht|].
    apply std_body_live in Hbody. destruct Hbody as [_ [Hdead _]].
    rewrite Hlen, Hdead. simpl. lia.
  - inversion Hloop; subst. split; [exact HP|]. exists []. split; [reflexivity | simpl; lia].
Qed.

Lemma std_init_points (t : tape) (st0 : std_state) (logtrapz : Q) (t0 : tape) :
  std_init s nlive t = Ok (st0, logtrapz, t0) ->
  exists lxs,
    draws nlive t = Ok (lxs, t0) /\
    live_points st0 = init_live s 1 lxs /\
    dead_points_list st0 = [].
Proof.
  unfold std_init. intro Hinit.
  bind_split Hinit as [lxs t1] Hdraws. bind_split Hinit as lzl Hlzl.
  bind_split Hinit as step Hstep. bind_split Hinit as inv Hinv.
  inversion Hinit; subst. exists lxs.
  split; [exact Hdraws | split; reflexivity].
Qed.

Lemma std_points_ok_init (t : tape) (st0 : std_state) (logtrapz : Q) (t0 : tape) :
  std_init s nlive t = Ok (st0, logtrapz, t0) -> std_points_ok s nlive st0.
Proof.
  intro Hinit. destruct (std_init_points _ _ _ _ Hinit) as [lxs [Hd [Hl Hdead]]].
  unfold std_points_ok. rewrite Hl, Hdead.
  repeat split; try constructor.
  - apply init_live_on_curve.
  - rewrite init_live_labels. f_equal. eapply draws_length. exact Hd.
Qed.

Lemma std_points_ok_body (logtrapz : Q) (st : std_state) (d : Q) (st' : std_state) :
  std_points_ok s nlive st -> std_body s nlive logtrapz st d = Ok st' -> std_points_ok s nlive st'.
Proof.
  intros [Hlive [Hdead [Hlab Hdl]]] Hbody.
  destruct (std_body_points _ _ _ _ Hbody) as [ind [dying [Hnth [_ [Hl' Hd']]]]].
  assert (Hin : In dying (live_points st)) by (eapply nth_error_In; exact Hnth).
  unfold std_points_ok. rewrite Hl', Hd'. repeat split.
  - apply set_nth_Forall; [exact Hlive | split; reflexivity].
  - apply Forall_app. split; [exact Hdead|]. constructor; [| constructor].
    rewrite Forall_forall in Hlive. apply Hlive. exact Hin.
  - rewrite <- Hlab. eapply set_nth_map_same; [exact Hnth | reflexivity].
  - apply Forall_app. split; [exact Hdl|]. constructor; [| constructor].
    rewrite <- Hlab. apply in_map. exact Hin.
Qed.

End StandardRun.

(** The pieces of a standard run that returns. *)
Lemma standard_run_pieces `{NumLib} (s : Settings) (dyn : bool) (t : tape)
  (r0 : run) (t' : tape) :
  generate_standard_run s dyn t = Ok (r0, t') ->
  let nlive := if dyn then ninit s else nlive_const s in
  exists st0 logtrapz t0 st sorted_live,
    std_init s nlive t = Ok (st0, logtrapz, t0) /\
    std_loop s nlive logtrapz st0 t0 = Ok (st, t') /\
    take (live_points st) (np_argsort (map p_logl (live_points st)))
    = Ok sorted_live /\
    let points := dead_points_list st ++ sorted_live in
    r0 = {| run_settings := Some s;
            run_logl := map p_logl points;
            run_r := map p_r points;
            run_logx := map p_logx points;
            run_thread_labels := map p_label points;
            run_theta := sample_nsphere_shells s (map p_r points);
            run_nlive_array := run_nlive_array r0;
            run_thread_min_max :=
              map (fun p => (NaN, p_logl p)) (live_points st) |}.
Proof.
  intros Hrun nlive. unfold generate_standard_run in Hrun. fold nlive in Hrun.
  bind_split Hrun as [[st0 logtrapz] t0] Hinit.
  bind_split Hrun as [st t1] Hloop.
  bind_split Hrun as r1 Hfin. inversion Hrun; subst r1 t1. clear Hrun.
  exists st0, logtrapz, t0, st.
  unfold std_finish in Hfin.
  bind_split Hfin as u Hdead. bind_split Hfin as sorted_live Htake.
  bind_split Hfin as nla Hnla. inversion Hfin; subst r0; clear Hfin.
  exists sorted_live. repeat split; assumption.
Qed.

(** X4. In a run that [generate_standard_run] returns, each sample's radius
    is [r_given_logx] of its [logx] and its likelihood is [logl_given_r] of
    that radius, [theta] is the shell sample of the [r] column, the settings
    are recorded, and the draws consumed are exactly one per sample of the
    run. *)
Theorem standard_run_columns `{NumLib} (s : Settings) (dyn : bool) (t : tape)
  (r0 : run) (t' : tape) :
  (forall keys, length (np_argsort keys) = length keys) ->
  generate_standard_run s dyn t = Ok (r0, t') ->
  run_r r0 = map (r_given_logx s) (run_logx r0) /\
  run_logl r0 = map (logl_given_r s) (run_r r0) /\
  run_theta r0 = sample_nsphere_shells s (run_r r0) /\
  run_settings r0 = Some s /\
  length (run_r r0) = length (run_logl r0) /\
  length (run_logx r0) = length (run_logl r0) /\
  length (run_thread_labels r0) = length (run_logl r0) /\
  exists used, t = used ++ t' /\ length used = length (run_logl r0).
Proof.
  intros Hlen Hrun.
  destruct (standard_run_pieces s dyn t r0 t' Hrun)
    as [st0 [logtrapz [t0 [st [sorted_live [Hinit [Hloop [Htake Hr0]]]]]]]].
  set (nlive := if dyn then ninit s else nlive_const s) in *.
  destruct (std_loop_invariant s nlive logtrapz (std_points_ok s nlive)
              (fun _ => True)) with (t := t0) (st := st0) (st' := st) (t' := t')
    as [[Hlive [Hdead [Hlab _]]] [used [Ht0 Hused]]].
  { intros st1 d st2 _ Hok Hbody. eapply std_points_ok_body; eassumption. }
  { apply Forall_forall. auto. }
  { exact Hloop. }
  { eapply std_points_ok_init. exact Hinit. }
  destruct (std_init_points s nlive _ _ _ _ Hinit) as [lxs [Hd [_ Hdead0]]].
  assert (Hcurve : Forall (on_curve s) (dead_points_list st ++ sorted_live)).
  { apply Forall_app. split; [exact Hdead|].
    eapply Forall_impl; [| apply (take_in _ _ _ Htake)].
    intros p Hp. rewrite Forall_forall in Hlive. apply Hlive. exact Hp. }
  rewrite Hr0. cbn [run_r run_logx run_logl run_theta run_settings run_thread_labels].
  split; [| split; [| split; [| split; [| split; [| split; [| split]]]]]].
  - rewrite map_map. apply map_ext_in. intros p Hp.
    rewrite Forall_forall in Hcurve. apply (Hcurve p Hp).
  - rewrite map_map. apply map_ext_in. intros p Hp.
    rewrite Forall_forall in Hcurve. apply (Hcurve p Hp).
  - reflexivity.
  - reflexivity.
  - rewrite !length_map. reflexivity.
  - rewrite !length_map. reflexivity.
  - rewrite !length_map. reflexivity.
  - exists (lxs ++ used). split.
    + rewrite (draws_split _ _ _ _ Hd), Ht0, app_assoc. reflexivity.
    + rewrite length_map, !length_app.
      apply mapM_length in Htake. rewrite Htake, Hlen, length_map.
      rewrite Hused, Hdead0. simpl.
      rewrite (draws_length _ _ _ _ Hd).
      apply (f_equal (@length nat)) in Hlab.
      rewrite length_map, length_seq in Hlab. lia.
Qed.

Lemma standard_run_columns_witness :
  match generate_standard_run toy_settings false toy_tape with
  | Ok (r0, t') =>
      run_r r0 = map (r_given_logx toy_settings) (run_logx r0) /\
      run_logl r0 = map (logl_given_r toy_settings) (run_r r0) /\
      run_theta r0 = sample_nsphere_shells toy_settings (run_r r0) /\
      run_settings r0 = Some toy_settings /\
      length (run_r r0) = length (run_logl r0) /\
      length (run_logx r0) = length (run_logl r0) /\
      length (run_thread_labels r0) = length (run_logl r0) /\
      exists used, toy_tape = used ++ t' /\ length used = length (run_logl r0)
  | Raise _ => False
  end.
Proof.
  destruct (generate_standard_run toy_settings false toy_tape)
    as [[r0 t'] | e] eqn:E.
  - apply (@standard_run_columns RatLib toy_settings false toy_tape r0 t'
             argsort_stable_length E).
  - vm_compute in E. discriminate.
Defined.

(** ** Standard driver: threads and their final points *)

(** X5. In a run that [generate_standard_run] returns, every thread label is
    one of [1 .. nlive]; the last [nlive] samples carry each label once; and
    row [k - 1] of [thread_min_max] is [nan] together with the likelihood of
    the last sample of thread [k]. *)
Theorem standard_run_threads `{NumLib} (s : Settings) (dyn : bool) (t : tape)
  (r0 : run) (t' : tape) :
  argsort_contract np_argsort ->
  generate_standard_run s dyn t = Ok (r0, t') ->
  let nlive := if dyn then ninit s else nlive_const s in
  Forall (fun k => (1 <= k <= nlive)%nat) (run_thread_labels r0) /\
  Permutation
    (skipn (length (run_thread_labels r0) - nlive) (run_thread_labels r0))
    (seq 1 nlive) /\
  length (run_thread_min_max r0) = nlive /\
  forall k, (1 <= k <= nlive)%nat ->
    exists i l,
      nth_error (run_thread_labels r0) i = Some k /\
      (forall j, (i < j)%nat -> nth_error (run_thread_labels r0) j <> Some k) /\
      nth_error (run_logl r0) i = Some l /\
      nth_error (run_thread_min_max r0) (k - 1) = Some (NaN, l).
Proof.
  intros Hc Hrun nlive.
  destruct (standard_run_pieces s dyn t r0 t' Hrun)
    as [st0 [logtrapz [t0 [st [sorted_live [Hinit [Hloop [Htake Hr0]]]]]]]].
  fold nlive in Hinit, Hloop.
  destruct (std_loop_invariant s nlive logtrapz (std_points_ok s nlive)
              (fun _ => True)) with (t := t0) (st := st0) (st' := st) (t' := t')
    as [[_ [_ [Hlab Hdl]]] _].
  { intros st1 d st2 _ Hok Hbody. eapply std_points_ok_body; eassumption. }
  { apply Forall_forall. auto. }
  { exact Hloop. }
  { eapply std_points_ok_init. exact Hinit. }
  destruct (take_argsort_sorted p_logl np_argsort _ _ Hc Htake) as [_ Hperm].
  assert (Hlive : length (live_points st) = nlive).
  { apply (f_equal (@length nat)) in Hlab.
    rewrite length_map, length_seq in Hlab. exact Hlab. }
  assert (Hsl : Permutation (map p_label sorted_live) (seq 1 nlive)).
  { rewrite <- Hlab. apply Permutation_map. exact Hperm. }
  rewrite Hr0.
  cbn [run_thread_labels run_logl run_thread_min_max].
  split; [| split; [| split]].
  - rewrite map_app. apply Forall_app. split.
    + rewrite Forall_map. eapply Forall_impl; [| exact Hdl].
      intros p Hp. simpl in Hp. apply in_seq in Hp. lia.
    + apply Forall_forall. intros k Hk.
      apply (Permutation_in _ Hsl) in Hk. apply in_seq in Hk. lia.
  - rewrite map_app, length_app, (Permutation_length Hsl), length_seq.
    replace (length (map p_label (dead_points_list st)) + nlive - nlive)%nat
      with (length (map p_label (dead_points_list st)) + 0)%nat by lia.
    rewrite skipn_app, skipn_all2 by lia.
    replace (length (map p_label (dead_points_list st)) + 0
             - length (map p_label (dead_points_list st)))%nat with O by lia.
    exact Hsl.
  - rewrite length_map. exact Hlive.
  - intros k Hk.
    destruct (nth_error (live_points st) (k - 1)) as [p |] eqn:Hp;
      [| apply nth_error_None in Hp; lia].
    assert (Hpk : p_label p = k).
    { assert (Hm : nth_error (map p_label (live_points st)) (k - 1)
                   = Some (p_label p)).
      { rewrite nth_error_map, Hp. reflexivity. }
      rewrite Hlab in Hm.
      rewrite nth_error_seq in Hm.
      destruct (k - 1 <? nlive)%nat eqn:E; [| discriminate].
      inversion Hm. lia. }
    assert (Hin : In p sorted_live).
    { apply (Permutation_in _ (Permutation_sym Hperm)).
      eapply nth_error_In. exact Hp. }
    apply in_split in Hin. destruct Hin as [a [b Hab]].
    assert (Hnd : NoDup (map p_label sorted_live)).
    { apply (Permutation_NoDup (Permutation_sym Hsl)). apply seq_NoDup. }
    rewrite Hab, map_app in Hnd. simpl in Hnd.
    apply NoDup_remove_2 in Hnd. rewrite Hpk in Hnd.
    exists (length (dead_points_list st) + length a)%nat, (p_logl p).
    assert (Hat : nth_error (dead_points_list st ++ sorted_live)
                    (length (dead_points_list st) + length a) = Some p).
    { rewrite nth_error_app2 by lia.
      replace (length (dead_points_list st) + length a
               - length (dead_points_list st))%nat with (length a + 0)%nat by lia.
      rewrite Hab, nth_error_app2 by lia.
      replace (length a + 0 - length a)%nat with O by lia. reflexivity. }
    split; [| split; [| split]].
    + rewrite nth_error_map, Hat. simpl. f_equal. exact Hpk.
    + intros j Hj Hjk. apply Hnd.
      rewrite Hab in Hjk.
      rewrite !map_app in Hjk. simpl in Hjk.
      rewrite app_assoc in Hjk.
      rewrite nth_error_app2 in Hjk by (rewrite length_app, !length_map; lia).
      rewrite length_app, !length_map in Hjk.
      destruct (j - (length (dead_points_list st) + length a))%nat as [| m] eqn:Hm;
        [lia|].
      simpl in Hjk. apply in_or_app. right. eapply nth_error_In. exact Hjk.
    + rewrite nth_error_map, Hat. reflexivity.
    + rewrite nth_error_map, Hp. reflexivity.
Qed.

Lemma standard_run_threads_witness :
  match generate_standard_run toy_settings false toy_tape with
  | Ok (r0, t') =>
      Forall (fun k => (1 <= k <= 2)%nat) (run_thread_labels r0) /\
      Permutation
        (skipn (length (run_thread_labels r0) - 2) (run_thread_labels r0))
        (seq 1 2) /\
      length (run_thread_min_max r0) = 2%nat /\
      forall k, (1 <= k <= 2)%nat ->
        exists i l,
          nth_error (run_thread_labels r0) i = Some k /\
          (forall j, (i < j)%nat -> nth_error (run_thread_labels r0) j <> Some k) /\
          nth_error (run_logl r0) i = Some l /\
          nth_error (run_thread_min_max r0) (k - 1) = Some (NaN, l)
  | Raise _ => False
  end.
Proof.
  destruct (generate_standard_run toy_settings false toy_tape)
    as [[r0 t'] | e] eqn:E.
  - apply (@standard_run_threads RatLib toy_settings false toy_tape r0 t'
             argsort_stable_contract E).
  - vm_compute in E. discriminate.
Defined.

(** ** Standard driver: the order of the samples *)

Lemma sorted_app (a b : list Q) :
  StronglySorted Qle a -> StronglySorted Qle b ->
  Forall (fun x => Forall (fun y => x <= y) b) a ->
  StronglySorted Qle (a ++ b).
Proof.
  induction a as [| x a IH]; intros Ha Hb Hab; simpl; [exact Hb|].
  inversion Ha; subst. inversion Hab; subst.
  constructor; [apply IH; assumption|].
  apply Forall_app. split; assumption.
Qed.

Lemma on_curve_logl (s : Settings) (p : point) :
  on_curve s p -> p_logl p = logl_of_logx s (p_logx p).
Proof.
  intros [Hr Hl]. unfold logl_of_logx. rewrite Hl, Hr. reflexivity.
Qed.

Lemma std_ordered_init `{NumLib} (s : Settings) (nlive : nat) (t : tape)
  (st0 : std_state) (logtrapz : Q) (t0 : tape) :
  Forall (fun d => d <= 0) t ->
  std_init s nlive t = Ok (st0, logtrapz, t0) ->
  std_ordered s st0 /\ Forall (fun d => d <= 0) t0.
Proof.
  intros Ht Hinit.
  destruct (std_init_points s nlive _ _ _ _ Hinit) as [lxs [Hd [Hl Hdead]]].
  apply draws_split in Hd. subst t. apply Forall_app in Ht.
  destruct Ht as [Hlxs Ht0]. split; [| exact Ht0].
  unfold std_ordered. rewrite Hl, Hdead. repeat split; try constructor.
  - apply init_live_on_curve.
  - rewrite <- (init_live_logx s lxs 1) in Hlxs.
    rewrite Forall_map in Hlxs. exact Hlxs.
Qed.

Lemma std_ordered_body `{NumLib} (s : Settings) (nlive : nat) (logtrapz : Q)
  (st : std_state) (d : Q) (st' : std_state) :
  likelihood_monotone s ->
  d <= 0 ->
  std_ordered s st ->
  std_body s nlive logtrapz st d = Ok st' ->
  std_ordered s st'.
Proof.
  intros Hmono Hd [Hcurve [Hlogx [Hsorted Hbelow]]] Hbody.
  destruct (std_body_points s nlive _ _ _ _ Hbody)
    as [ind [dying [Hnth [Hmin [Hl' Hd']]]]].
  assert (Hin : In dying (live_points st)) by (eapply nth_error_In; exact Hnth).
  assert (Hdc : on_curve s dying).
  { rewrite Forall_forall in Hcurve. apply Hcurve. exact Hin. }
  assert (Hdx : p_logx dying <= 0).
  { rewrite Forall_forall in Hlogx. apply (Hlogx dying Hin). }
  assert (Hup : p_logl dying
                <= p_logl (new_point s (p_label dying) (p_logx dying + d))).
  { rewrite (on_curve_logl s dying Hdc).
    change (p_logl (new_point s (p_label dying) (p_logx dying + d)))
      with (logl_of_logx s (p_logx dying + d)).
    apply Hmono; lra. }
  unfold std_ordered. rewrite Hl', Hd'. split; [| split; [| split]].
  - apply set_nth_Forall; [exact Hcurve | split; reflexivity].
  - apply set_nth_Forall; [exact Hlogx | simpl; lra].
  - rewrite map_app. apply sorted_app; [exact Hsorted | |].
    + simpl. constructor; constructor.
    + rewrite Forall_map. eapply Forall_impl; [| exact Hbelow].
      intros q Hq. simpl in Hq. simpl. constructor; [| constructor].
      rewrite Forall_forall in Hq. apply Hq. exact Hin.
  - apply Forall_app. split.
    + eapply Forall_impl; [| exact Hbelow]. intros q Hq. simpl in Hq.
      apply set_nth_Forall; [exact Hq|].
      rewrite Forall_forall in Hq. specialize (Hq dying Hin). lra.
    + constructor; [| constructor].
      apply set_nth_Forall; [exact Hmin | exact Hup].
Qed.

(** X6. When the likelihood does not decrease as the prior volume shrinks
    and every draw of [np.log(np.random.random())] is at most [0], the
    samples of a run that [generate_standard_run] returns are in increasing
    order of likelihood, for any [np.argsort] that meets its contract. *)
Theorem standard_run_logl_sorted `{NumLib} (s : Settings) (dyn : bool) (t : tape)
  (r0 : run) (t' : tape) :
  argsort_contract np_argsort ->
  likelihood_monotone s ->
  Forall (fun d => d <= 0) t ->
  generate_standard_run s dyn t = Ok (r0, t') ->
  StronglySorted Qle (run_logl r0).
Proof.
  intros Hc Hmono Ht Hrun.
  destruct (standard_run_pieces s dyn t r0 t' Hrun)
    as [st0 [logtrapz [t0 [st [sorted_live [Hinit [Hloop [Htake Hr0]]]]]]]].
  set (nlive := if dyn then ninit s else nlive_const s) in *.
  destruct (std_ordered_init s nlive t st0 logtrapz t0 Ht Hinit) as [Hord0 Ht0].
  destruct (std_loop_invariant s nlive logtrapz (std_ordered s)
              (fun d => d <= 0)) with (t := t0) (st := st0) (st' := st) (t' := t')
    as [[_ [_ [Hsorted Hbelow]]] _]; try assumption.
  { intros st1 d st2 Hd Hok Hbody. eapply std_ordered_body; eassumption. }
  destruct (take_argsort_sorted p_logl np_argsort _ _ Hc Htake) as [Hsl Hperm].
  rewrite Hr0. cbn [run_logl]. rewrite map_app.
  apply sorted_app; [exact Hsorted | exact Hsl |].
  rewrite Forall_map. eapply Forall_impl; [| exact Hbelow].
  intros q Hq. simpl in Hq. rewrite Forall_map.
  apply Forall_forall. intros p Hp.
  apply (Permutation_in _ Hperm) in Hp.
  rewrite Forall_forall in Hq. apply Hq. exact Hp.
Qed.

Lemma toy_likelihood_monotone : likelihood_monotone toy_settings.
Proof.
  intros x y Hxy Hy. unfold logl_of_logx. simpl.
  assert (Hx : 0 < 1 - x) by lra.
  assert (Hy' : 0 < 1 - y) by lra.
  assert (Hix : 0 < / (1 - x)) by (apply Qinv_lt_0_compat; exact Hx).
  assert (Hiy : 0 < / (1 - y)) by (apply Qinv_lt_0_compat; exact Hy').
  assert (Hle : / (1 - x) <= / (1 - y)).
  { apply Qle_shift_inv_l; [exact Hy'|].
    setoid_replace (/ (1 - x) * (1 - y)) with ((1 - y) / (1 - x))
      by (unfold Qdiv; ring).
    apply Qle_shift_div_r; [exact Hx | lra]. }
  unfold Qdiv. rewrite !Qmult_1_l.
  assert (Hsq : / (1 - x) * / (1 - x) <= / (1 - y) * / (1 - y)) by nra.
  change (/ 2) with (1 # 2).
  set (a := / (1 - x) * / (1 - x)) in *. set (b := / (1 - y) * / (1 - y)) in *.
  lra.
Qed.

Lemma standard_run_logl_sorted_witness :
  match generate_standard_run toy_settings false toy_tape with
  | Ok (r0, _) => StronglySorted Qle (run_logl r0)
  | Raise _ => False
  end.
Proof.
  destruct (generate_standard_run toy_settings false toy_tape)
    as [[r0 t'] | e] eqn:E.
  - apply (@standard_run_logl_sorted RatLib toy_settings false toy_tape r0 t'
             argsort_stable_contract toy_likelihood_monotone).
    + unfold toy_tape. repeat constructor; discriminate.
    + exact E.
  - vm_compute in E. discriminate.
Defined.

(** ** Importance functions: the range of what they return *)

Lemma mapM_Forall {A B : Type} (g : A -> result B) (P : A -> Prop)
  (R : B -> Prop) :
  (forall x y, P x -> g x = Ok y -> R y) ->
  forall a out, Forall P a -> mapM g a = Ok out -> Forall R out.
Proof.
  intros Hg a. induction a as [| x a IH]; intros out Ha Hm; simpl in Hm.
  - inversion Hm. constructor.
  - bind_split Hm as y Hy. bind_split Hm as ys Hys. inversion Hm; subst.
    inversion Ha; subst. constructor; [eapply Hg; eassumption | apply IH; assumption].
Qed.

Lemma zipM_Forall {A B C : Type} (f : A -> B -> result C) (P : A -> Prop)
  (Q' : B -> Prop) (R : C -> Prop) :
  (forall x y z, P x -> Q' y -> f x y = Ok z -> R z) ->
  forall a b out, Forall P a -> Forall Q' b -> zipM f a b = Ok out ->
                  Forall R out /\ length out = length a.
Proof.
  intros Hf a. induction a as [| x a IH]; intros b out Ha Hb Hz;
    destruct b as [| y b]; simpl in Hz; try discriminate.
  - inversion Hz. split; [constructor | reflexivity].
  - bind_split Hz as z Hz1. bind_split Hz as zs Hzs. inversion Hz; subst.
    inversion Ha; subst. inversion Hb; subst.
    destruct (IH b zs) as [Hall Hlen]; try assumption.
    split; [constructor; [eapply Hf; eassumption | exact Hall] | simpl; f_equal; exact Hlen].
Qed.

(** [a op= b] keeps the shape of [a]. *)
Lemma inplace_Forall {A B : Type} (f : A -> B -> result A) (P : A -> Prop)
  (Q' : B -> Prop) (R : A -> Prop) :
  (forall x y z, P x -> Q' y -> f x y = Ok z -> R z) ->
  forall a b out, Forall P a -> Forall Q' b -> inplace f a b = Ok out ->
                  Forall R out /\ length out = length a.
Proof.
  intros Hf a b out Ha Hb Hi. unfold inplace in Hi.
  destruct (length b =? length a)%nat.
  - eapply zipM_Forall; eassumption.
  - destruct b as [| y [| y' b]]; try discriminate.
    inversion Hb; subst. split.
    + eapply (mapM_Forall (fun x => f x y) P R); [| exact Ha | exact Hi].
      intros x z Hx Hz. eapply Hf; eassumption.
    + apply mapM_length in Hi. exact Hi.
Qed.

Lemma broadcast_Forall {A B C : Type} (f : A -> B -> result C) (P : A -> Prop)
  (Q' : B -> Prop) (R : C -> Prop) :
  (forall x y z, P x -> Q' y -> f x y = Ok z -> R z) ->
  forall a b out, Forall P a -> Forall Q' b -> broadcast f a b = Ok out ->
                  Forall R out.
Proof.
  intros Hf a b out Ha Hb Hi. unfold broadcast in Hi.
  destruct (length b =? length a)%nat.
  - eapply zipM_Forall; eassumption.
  - assert (Hleft : forall y, Q' y -> mapM (fun x => f x y) a = Ok out ->
                              Forall R out).
    { intros y Hy Hm.
      eapply (mapM_Forall (fun x => f x y) P R); [| exact Ha | exact Hm].
      intros x z Hx Hz. eapply Hf; eassumption. }
    assert (Hright : forall x, P x -> mapM (f x) b = Ok out -> Forall R out).
    { intros x Hx Hm.
      eapply (mapM_Forall (f x) Q' R); [| exact Hb | exact Hm].
      intros y z Hy Hz. eapply Hf; eassumption. }
    destruct a as [| x [| x' a]]; destruct b as [| y [| y' b]];
      try discriminate;
      try (inversion Hb; subst; eapply Hleft; eassumption);
      try (inversion Ha; subst; eapply Hright; eassumption).
Qed.

Lemma fdiv_nonneg (x m q : Q) : 0 <= x -> 0 <= m -> fdiv x m = Ok q -> 0 <= q.
Proof.
  unfold fdiv. intros Hx Hm Hq.
  destruct (Qeq_bool m 0) eqn:E; [discriminate|]. inversion Hq; subst.
  apply Qeq_bool_neq in E. apply Qle_shift_div_l; lra.
Qed.

(** Rescaling a non-negative array by its maximum gives a relative
    importance of the same shape. *)
Lemma over_max_relative (a v : list Q) :
  Forall (Qle 0) a -> over_max a = Ok v -> relative v /\ length v = length a.
Proof.
  intros Hnn Hv. unfold over_max in Hv. bind_split Hv as top Htop.
  destruct (np_max_spec a top Htop) as [Hin Hall].
  assert (Hne : ~ top == 0).
  { destruct a as [| x a]; [discriminate|].
    unfold div_all in Hv. simpl in Hv. unfold fdiv at 1 in Hv.
    destruct (Qeq_bool top 0) eqn:E; [discriminate|].
    apply Qeq_bool_neq in E. exact E. }
  rewrite (div_all_ok a top Hne) in Hv. inversion Hv; subst v.
  rewrite Forall_forall in Hnn, Hall.
  assert (Hpos : 0 < top) by (specialize (Hnn top Hin); lra).
  split; [| apply length_map]. split.
  - rewrite Forall_map. apply Forall_forall. intros x Hx.
    specialize (Hnn x Hx). specialize (Hall x Hx). split.
    + apply Qle_shift_div_l; lra.
    + apply Qle_shift_div_r; lra.
  - apply Exists_exists. exists (top / top). split.
    + apply in_map_iff. exists top. auto.
    + field. lra.
Qed.

Lemma cumsum_from_length (l : list Q) :
  forall acc, length (cumsum_from acc l) = length l.
Proof.
  induction l as [| x l IH]; intro acc; simpl; [reflexivity|].
  f_equal. apply IH.
Qed.

(** Rescaling a non-empty array of non-negative entries by its maximum:
    zero is divided by zero when every entry is zero, and the outcome is a
    relative importance of the same shape otherwise. *)
Lemma over_max_cases (a : list Q) :
  a <> [] ->
  Forall (Qle 0) a ->
  (Forall (fun x => x == 0) a /\ over_max a = Raise NonFinite) \/
  (~ Forall (fun x => x == 0) a /\
   exists v, over_max a = Ok v /\ relative v /\ length v = length a).
Proof.
  intros Hne Hnn.
  destruct (np_max a) as [top | e] eqn:Etop.
  2:{ destruct a; [congruence | discriminate]. }
  destruct (np_max_spec a top Etop) as [Hin Hall].
  destruct (Qeq_dec top 0) as [Hz | Hnz].
  - assert (Hzero : Forall (fun x => x == 0) a).
    { rewrite Forall_forall in *. intros x Hx.
      specialize (Hnn x Hx). specialize (Hall x Hx). simpl in Hall. lra. }
    left. split; [exact Hzero|].
    apply over_max_zero; [exact Hne|].
    eapply Forall_impl; [| exact Hzero]. intros x Hx. simpl in Hx. lra.
  - assert (Hv : over_max a = Ok (map (fun x => x / top) a)).
    { unfold over_max. rewrite Etop. cbn [bind]. apply div_all_ok. exact Hnz. }
    right. split.
    + intro Hall0. rewrite Forall_forall in Hall0. apply Hnz.
      apply (Hall0 top Hin).
    + eexists. split; [exact Hv|]. apply over_max_relative; assumption.
Qed.

Lemma relative_high (v : list Q) (fraction : Q) :
  relative v -> fraction < 1 ->
  np_where (fun x => Qgtb x fraction) v <> [].
Proof.
  intros [_ Hone] Hf Hnone. apply Exists_exists in Hone.
  destruct Hone as [x [Hx Hx1]].
  apply in_split in Hx. destruct Hx as [a [b Hab]]. subst v.
  unfold np_where in Hnone. rewrite where_from_app in Hnone.
  apply app_eq_nil in Hnone. destruct Hnone as [_ Hnone].
  simpl in Hnone.
  assert (Hgt : Qgtb x fraction = true) by (apply Qgtb_gt; lra).
  rewrite Hgt in Hnone. discriminate.
Qed.

(** [importance *= 1 / nlive] with positive live counts, of the shape of
    [importance] or a single one. *)
Lemma scale_inplace (imp nlive : list Q) :
  Forall (Qlt 0) nlive ->
  length nlive = length imp \/ length nlive = 1%nat ->
  exists scaled,
    inplace (fun x n => inv <- fdiv 1 n ;; Ok (x * inv)) imp nlive = Ok scaled /\
    Forall2 (fun x y => exists n, 0 < n /\ y = x * (1 / n)) imp scaled.
Proof.
  intros Hpos Hshape.
  assert (Hone : forall x n, 0 < n ->
             (inv <- fdiv 1 n ;; Ok (x * inv)) = Ok (x * (1 / n))).
  { intros x n Hn. unfold fdiv. destruct (Qeq_bool n 0) eqn:E.
    - apply Qeq_bool_eq in E. lra.
    - reflexivity. }
  assert (Hzip : forall a nl, length nl = length a -> Forall (Qlt 0) nl ->
             exists scaled,
               zipM (fun x n => inv <- fdiv 1 n ;; Ok (x * inv)) a nl = Ok scaled /\
               Forall2 (fun x y => exists n, 0 < n /\ y = x * (1 / n)) a scaled).
  { induction a as [| x a IH]; intros [| n nl] Hlen Hnl;
      cbn [length] in Hlen; try discriminate.
    - exists []. split; [reflexivity | constructor].
    - inversion Hnl as [| ? ? Hn Hnl']; subst.
      destruct (IH nl) as [q [Hq Hr]]; [lia | assumption |].
      cbn [zipM]. rewrite (Hone x n Hn). cbn [bind]. rewrite Hq. cbn [bind].
      eexists. split; [reflexivity|].
      constructor; [exists n; split; [assumption | reflexivity] | exact Hr]. }
  assert (Hmap : forall a n, 0 < n ->
             exists scaled,
               mapM (fun x => inv <- fdiv 1 n ;; Ok (x * inv)) a = Ok scaled /\
               Forall2 (fun x y => exists n, 0 < n /\ y = x * (1 / n)) a scaled).
  { intros a n Hn. induction a as [| x a [q [Hq Hr]]].
    - exists []. split; [reflexivity | constructor].
    - cbn [mapM]. rewrite (Hone x n Hn). cbn [bind]. rewrite Hq. cbn [bind].
      eexists. split; [reflexivity|].
      constructor; [exists n; split; [assumption | reflexivity] | exact Hr]. }
  unfold inplace. destruct (length nlive =? length imp)%nat eqn:E.
  - apply Nat.eqb_eq in E. apply Hzip; assumption.
  - destruct Hshape as [Hs | Hs].
    { apply Nat.eqb_neq in E. contradiction. }
    destruct nlive as [| n [| n' nl]]; try discriminate.
    inversion Hpos; subst. apply Hmap. assumption.
Qed.

Lemma scaled_inplace_sign (imp scaled : list Q) :
  Forall2 (fun x y => exists n, 0 < n /\ y = x * (1 / n)) imp scaled ->
  length scaled = length imp /\
  (Forall (Qle 0) imp -> Forall (Qle 0) scaled) /\
  (Forall (fun x => x == 0) scaled <-> Forall (fun x => x == 0) imp).
Proof.
  induction 1 as [| x y imp scaled [n [Hn ->]] _ [IHl [IHn IHz]]].
  - split; [reflexivity|]. split; [auto|]. split; auto.
  - assert (Hinv : 0 < / n) by (apply Qinv_lt_0_compat; exact Hn).
    assert (Heq : x * (1 / n) == x * / n) by (unfold Qdiv; ring).
    split; [simpl; f_equal; exact IHl|]. split.
    + intro Hx. inversion Hx; subst. constructor; [| auto].
      rewrite Heq. apply Qmult_le_0_compat; lra.
    + split; intro Hx; inversion Hx as [| ? ? Hhd Htl]; subst;
        (constructor; [| apply IHz; exact Htl]).
      * rewrite Heq in Hhd. apply Qmult_integral in Hhd.
        destruct Hhd as [Hhd | Hhd]; [exact Hhd | lra].
      * rewrite Heq, Hhd. ring.
Qed.

(** A running sum stays where it is exactly when what is added is zero. *)
Lemma cumsum_from_flat (l : list Q) :
  forall a,
    Forall (fun c => c == a) (cumsum_from a l) <-> Forall (fun x => x == 0) l.
Proof.
  induction l as [| y l IH]; intro a; simpl.
  - split; constructor.
  - split; intro Hx; inversion Hx as [| ? ? Hhd Htl]; subst.
    + assert (Hy : y == 0) by lra. constructor; [exact Hy|].
      apply (IH (a + y)). eapply Forall_impl; [| exact Htl].
      intros c Hc. simpl in Hc. lra.
    + constructor; [lra|]. apply (IH (a + y)) in Htl.
      eapply Forall_impl; [| exact Htl]. intros c Hc. simpl in Hc. lra.
Qed.

(** [cumsum(w).max() - cumsum(w)] is zero everywhere exactly when every
    weight after the first is zero. *)
Lemma cumsum_flat (w : list Q) (m : Q) :
  np_max (cumsum w) = Ok m ->
  Forall (fun x => x == 0) (map (fun c => m - c) (cumsum w)) <->
  Forall (fun x => x == 0) (tl w).
Proof.
  destruct w as [| x w]; intro Hm; [discriminate|].
  destruct (np_max_spec _ _ Hm) as [Hin _].
  unfold cumsum in *. cbn [cumsum_from tl] in *. rewrite Forall_map.
  rewrite <- (cumsum_from_flat w (0 + x)).
  split; intro Hx.
  - inversion Hx as [| ? ? Hhd Htl]; subst.
    eapply Forall_impl; [| exact Htl]. intros c Hc. simpl in Hc. lra.
  - assert (Hmx : m == 0 + x).
    { destruct Hin as [Heq | Hin]; [rewrite <- Heq; reflexivity|].
      rewrite Forall_forall in Hx. apply (Hx m Hin). }
    constructor; [lra|]. eapply Forall_impl; [| exact Hx].
    intros c Hc. simpl in Hc. lra.
Qed.

Lemma z_importance_cases `{NumLib} (w nlive : list Q) :
  w <> [] ->
  Forall (Qlt 0) nlive ->
  length nlive = length w \/ length nlive = 1%nat ->
  (Forall (fun x => x == 0) (tl w) /\
   z_importance w nlive false = Raise NonFinite) \/
  (~ Forall (fun x => x == 0) (tl w) /\
   exists v, z_importance w nlive false = Ok v /\
             relative v /\ length v = length w).
Proof.
  intros Hne Hn Hshape. unfold z_importance. cbv zeta.
  assert (Hlc : length (cumsum w) = length w) by apply cumsum_from_length.
  destruct (np_max (cumsum w)) as [m | e] eqn:Em.
  2:{ destruct w; [congruence | discriminate]. }
  cbn [bind].
  destruct (np_max_spec _ m Em) as [_ Hall].
  pose proof (cumsum_flat w m Em) as Hflat.
  set (imp := map (fun x => m - x) (cumsum w)) in *.
  assert (Himp : Forall (Qle 0) imp).
  { unfold imp. rewrite Forall_map. eapply Forall_impl; [| exact Hall].
    intros x Hx. simpl in Hx. lra. }
  assert (Hli : length imp = length w)
    by (unfold imp; rewrite length_map; exact Hlc).
  destruct (scale_inplace imp nlive Hn) as [scaled [Hs Hrel]];
    [rewrite Hli; exact Hshape|].
  rewrite Hs. cbn [bind].
  destruct (scaled_inplace_sign _ _ Hrel) as [Hlen [Hnn Hzero]].
  destruct (over_max_cases scaled) as [[Hz Hr] | [Hnz [v [Hv [Hrelv Hlv]]]]].
  - intro Hnil. subst scaled. simpl in Hlen. rewrite Hli in Hlen.
    destruct w; [congruence | discriminate].
  - apply Hnn, Himp.
  - left. split; [apply Hflat, Hzero, Hz | exact Hr].
  - right. split.
    + intro Ht. apply Hnz. apply Hzero, Hflat, Ht.
    + exists v. split; [exact Hv|]. split; [exact Hrelv|].
      rewrite Hlv, Hlen. exact Hli.
Qed.

(** X7. For a non-empty [w] of any signs and positive live counts, of the
    shape of [w] or a single one (broadcast), [z_importance] has one of two
    outcomes.  When every weight after the first is zero the importance
    before the rescaling is zero everywhere and the rescaling divides zero
    by zero (numpy returns an array of nan, with no exception).  Otherwise
    it returns an array of the shape of [w] with every entry in [[0, 1]] and
    an entry equal to 1. *)
Theorem z_importance_relative `{NumLib} (w nlive : list Q) :
  w <> [] ->
  Forall (Qlt 0) nlive ->
  length nlive = length w \/ length nlive = 1%nat ->
  (Forall (fun x => x == 0) (tl w) /\
   z_importance w nlive false = Raise NonFinite) \/
  (~ Forall (fun x => x == 0) (tl w) /\
   exists v, z_importance w nlive false = Ok v /\
             relative v /\ length v = length w).
Proof. apply z_importance_cases. Qed.

Lemma z_importance_relative_witness :
  (exists v, z_importance [1; 2; 1] [2] false = Ok v /\
             relative v /\ length v = 3%nat) /\
  z_importance [1] [1] false = Raise NonFinite.
Proof.
  split.
  - destruct (@z_importance_relative RatLib [1; 2; 1] [2])
      as [[Hz _] | [_ Hv]];
      [discriminate | repeat constructor | right; reflexivity | | exact Hv].
    inversion Hz as [| ? ? H2 _]. discriminate H2.
  - destruct (@z_importance_relative RatLib [1] [1])
      as [[_ Hr] | [Hnz _]];
      [discriminate | repeat constructor | left; reflexivity | exact Hr |].
    exfalso. apply Hnz. constructor.
Defined.

Lemma zipM_pure {A B C : Type} (g : A -> B -> C) :
  forall a b, length b = length a ->
    zipM (fun x y => Ok (g x y)) a b =
    Ok (map (fun p => g (fst p) (snd p)) (combine a b)).
Proof.
  induction a as [| x a IH]; intros [| y b] Hlen; cbn [length] in Hlen;
    try discriminate; [reflexivity|].
  cbn [zipM bind combine map fst snd]. rewrite IH by lia. reflexivity.
Qed.

Lemma broadcast_same {A B C : Type} (g : A -> B -> C) (a : list A)
  (b : list B) :
  length b = length a ->
  broadcast (fun x y => Ok (g x y)) a b =
  Ok (map (fun p => g (fst p) (snd p)) (combine a b)).
Proof.
  intro Hlen. unfold broadcast. rewrite Hlen, Nat.eqb_refl.
  apply zipM_pure. exact Hlen.
Qed.

Lemma column0_ok (th : list (list Q)) :
  Forall (fun row => row <> []) th ->
  column0 th = Ok (map (fun row => nth 0 row 0) th).
Proof.
  unfold column0. induction 1 as [| row th Hrow _ IH]; [reflexivity|].
  cbn [mapM map]. rewrite IH. destruct row as [| x row]; [congruence|].
  reflexivity.
Qed.

Lemma Qabs_zero (z : Q) : Qabs z == 0 <-> z == 0.
Proof.
  split; intro Hz.
  - pose proof (Qle_Qabs z) as H1. pose proof (Qle_Qabs (- z)) as H2.
    rewrite Qabs_opp in H2. lra.
  - rewrite Hz. reflexivity.
Qed.

Lemma sumQ_zero (w : list Q) :
  Forall (Qle 0) w -> sumQ w == 0 -> Forall (fun x => x == 0) w.
Proof.
  induction 1 as [| x w Hx Hw IH]; intro Hs; [constructor|].
  simpl in Hs. pose proof (sumQ_nonneg w Hw) as Hnn.
  constructor; [lra | apply IH; lra].
Qed.

(** The weighted mean of values that agree wherever the weight is not
    zero. *)
Lemma weighted_sum_shared (a : Q) (f w : list Q) :
  Forall2 (fun x y => y == 0 \/ x == a) f w ->
  sumQ (map (fun p => fst p * snd p) (combine f w)) == a * sumQ w.
Proof.
  induction 1 as [| x y f w Hxy _ IH]; simpl; [ring|].
  rewrite IH. destruct Hxy as [Hy | Hx]; [rewrite Hy | rewrite Hx]; ring.
Qed.

(** [fabs * w] is zero everywhere exactly when every value of non-zero
    weight is at the mean. *)
Lemma distance_weights_zero (mean : Q) (f w : list Q) :
  length w = length f ->
  Forall (fun x => x == 0)
    (map (fun p => fst p * snd p)
       (combine (map (fun x => Qabs (x - mean)) f) w)) <->
  Forall2 (fun x y => y == 0 \/ x == mean) f w.
Proof.
  revert w. induction f as [| x f IH]; intros [| y w] Hlen;
    cbn [length] in Hlen; try discriminate.
  - split; constructor.
  - cbn [map combine fst snd]. split; intro Hx.
    + inversion Hx as [| ? ? Hhd Htl]; subst.
      constructor; [| apply IH; [lia | exact Htl]].
      destruct (Qmult_integral (Qabs (x - mean)) y Hhd) as [Hd | Hy];
        [| left; exact Hy].
      right. apply (proj1 (Qabs_zero (x - mean))) in Hd. lra.
    + inversion Hx as [| ? ? ? ? Hp Hr]; subst.
      constructor; [| apply IH; [lia | exact Hr]].
      destruct Hp as [Hy | Hd].
      * rewrite Hy. ring.
      * assert (Hz : Qabs (x - mean) == 0) by (apply Qabs_zero; lra).
        rewrite Hz. ring.
Qed.

Lemma Forall2_map_left {A B C : Type} (g : A -> B) (R : B -> C -> Prop)
  (a : list A) (c : list C) :
  Forall2 R (map g a) c <-> Forall2 (fun x y => R (g x) y) a c.
Proof.
  revert c. induction a as [| x a IH]; intros [| y c]; simpl;
    split; intro Hx; inversion Hx; subst; constructor;
    try assumption; apply IH; assumption.
Qed.

Lemma Forall2_right_all {A B : Type} (P : B -> Prop) (R : A -> B -> Prop)
  (a : list A) (b : list B) :
  (forall x y, P y -> R x y) ->
  length a = length b -> Forall P b -> Forall2 R a b.
Proof.
  intro HR. revert b. induction a as [| x a IH]; intros [| y b] Hlen Hb;
    cbn [length] in Hlen; try discriminate; constructor.
  - inversion Hb; subst. apply HR. assumption.
  - inversion Hb; subst. apply IH; [lia | assumption].
Qed.

(** Tuned: the mean of [theta1] cannot be formed or every distance from it
    is weighted by zero exactly when the samples of non-zero weight share
    one value of [theta1]. *)
Lemma p_importance_tuned_cases (th : list (list Q)) (w : list Q) :
  w <> [] ->
  Forall (Qle 0) w ->
  length th = length w ->
  Forall (fun row => row <> []) th ->
  ((exists a, Forall2 (fun row x => x == 0 \/ nth 0 row 0 == a) th w) /\
   p_importance th w true "theta1" = Raise NonFinite) \/
  (~ (exists a, Forall2 (fun row x => x == 0 \/ nth 0 row 0 == a) th w) /\
   exists v, p_importance th w true "theta1" = Ok v /\
             relative v /\ length v = length w).
Proof.
  intros Hne Hw Hlen Hrows.
  set (f := map (fun row => nth 0 row 0) th).
  assert (Hlf : length w = length f)
    by (unfold f; rewrite length_map; symmetry; exact Hlen).
  assert (Hcalc :
    p_importance th w true "theta1" =
    (mean <- fdiv (sumQ (map (fun p => fst p * snd p) (combine f w))) (sumQ w) ;;
     over_max (map (fun p => fst p * snd p)
                 (combine (map (fun x => Qabs (x - mean)) f) w)))).
  { unfold p_importance. cbn [negb].
    replace (assert ("theta1" =? "theta1")%string AssertTuningType)
      with (Ok tt : result unit) by reflexivity.
    cbn [bind]. rewrite (column0_ok th Hrows). cbn [bind]. fold f.
    rewrite (broadcast_same Qmult f w Hlf). cbn [bind].
    destruct (fdiv _ _) as [mean | e]; cbn [bind]; [| reflexivity].
    rewrite (broadcast_same Qmult); [reflexivity|].
    rewrite length_map. exact Hlf. }
  rewrite Hcalc. clear Hcalc.
  destruct (Qeq_dec (sumQ w) 0) as [Hs0 | Hs].
  - left. split.
    + exists 0. apply Forall2_right_all with (P := fun x => x == 0).
      * intros row y Hy. left. exact Hy.
      * exact Hlen.
      * apply sumQ_zero; assumption.
    + unfold fdiv. rewrite (Qeq_eq_bool _ _ Hs0). reflexivity.
  - rewrite (fdiv_ok _ _ Hs). cbn [bind].
    set (mean := sumQ (map (fun p => fst p * snd p) (combine f w)) / sumQ w).
    set (fabs := map (fun x => Qabs (x - mean)) f).
    assert (Hla : length w = length fabs)
      by (unfold fabs; rewrite length_map; exact Hlf).
    set (importance := map (fun p => fst p * snd p) (combine fabs w)).
    pose proof (distance_weights_zero mean f w Hlf) as Hzero.
    fold fabs in Hzero. fold importance in Hzero.
    assert (Hli : length importance = length w).
    { unfold importance. rewrite length_map, length_combine, <- Hla.
      apply Nat.min_id. }
    destruct (over_max_cases importance)
      as [[Hz Hr] | [Hnz [v [Hv [Hrel Hlv]]]]].
    + intro Hnil. rewrite Hnil in Hli. destruct w; [congruence | discriminate].
    + unfold importance. rewrite Forall_map. apply Forall_forall.
      intros [x y] Hin. cbn [fst snd].
      pose proof (in_combine_l _ _ _ _ Hin) as Hx.
      pose proof (in_combine_r _ _ _ _ Hin) as Hy.
      unfold fabs in Hx. apply in_map_iff in Hx. destruct Hx as [x0 [<- _]].
      rewrite Forall_forall in Hw. specialize (Hw y Hy).
      apply Qmult_le_0_compat; [apply Qabs_nonneg | exact Hw].
    + left. split; [| exact Hr]. exists mean.
      apply Forall2_map_left with (g := fun row => nth 0 row 0)
        (R := fun x y => y == 0 \/ x == mean).
      apply Hzero. exact Hz.
    + right. split.
      * intros [a Ha]. apply Hnz. apply Hzero.
        apply Forall2_map_left with (g := fun row => nth 0 row 0)
          (R := fun x y => y == 0 \/ x == a) in Ha. fold f in Ha.
        assert (Hmean : mean == a).
        { unfold mean. rewrite (weighted_sum_shared a f w Ha). field. exact Hs. }
        eapply Forall2_impl; [| exact Ha].
        intros x y [Hy | Hx]; [left; exact Hy | right; lra].
      * exists v. split; [exact Hv|]. split; [exact Hrel|].
        rewrite Hlv. exact Hli.
Qed.

(** X8. For a non-empty array of non-negative weights [p_importance] has one
    of two outcomes: the rescaling divides zero by zero (numpy returns an
    array of nan, with no exception), or it returns an array of the shape of
    [w] with every entry in [[0, 1]] and an entry equal to 1.  Untuned, the
    first happens exactly when every weight is zero, and neither [theta] nor
    [tuning_type] is looked at.  Tuned, with one non-empty row of [theta]
    for each weight, the first happens exactly when the samples of non-zero
    weight share one value of [theta1] (a single sample does). *)
Theorem p_importance_relative (th : list (list Q)) (w : list Q)
  (tuning_type : string) :
  w <> [] ->
  Forall (Qle 0) w ->
  ((Forall (fun x => x == 0) w /\
    p_importance th w false tuning_type = Raise NonFinite) \/
   (~ Forall (fun x => x == 0) w /\
    exists v, p_importance th w false tuning_type = Ok v /\
              relative v /\ length v = length w)) /\
  (forall th' ty,
      p_importance th' w false ty = p_importance th w false tuning_type) /\
  (length th = length w ->
   Forall (fun row => row <> []) th ->
   ((exists a, Forall2 (fun row x => x == 0 \/ nth 0 row 0 == a) th w) /\
    p_importance th w true "theta1" = Raise NonFinite) \/
   (~ (exists a, Forall2 (fun row x => x == 0 \/ nth 0 row 0 == a) th w) /\
    exists v, p_importance th w true "theta1" = Ok v /\
              relative v /\ length v = length w)).
Proof.
  intros Hne Hw. split; [| split].
  - unfold p_importance. cbn [negb]. apply over_max_cases; assumption.
  - intros th' ty. reflexivity.
  - intros Hlen Hrows. apply p_importance_tuned_cases; assumption.
Qed.

Lemma p_importance_relative_witness :
  (exists v, p_importance [[1]; [-1]; [3]] [1; 2; 1] false "theta1" = Ok v /\
             relative v /\ length v = 3%nat) /\
  (exists v, p_importance [[1]; [-1]; [3]] [1; 2; 1] true "theta1" = Ok v /\
             relative v /\ length v = 3%nat).
Proof.
  destruct (p_importance_relative [[1]; [-1]; [3]] [1; 2; 1] "theta1")
    as [Hun [_ Htuned]];
    [discriminate | repeat constructor; discriminate |].
  split.
  - destruct Hun as [[Hz _] | [_ Hv]]; [| exact Hv].
    inversion Hz as [| ? ? H1 _]. discriminate H1.
  - destruct Htuned as [[[a Ha] _] | [_ Hv]];
      [reflexivity | repeat constructor; discriminate | | exact Hv].
    exfalso. inversion Ha as [| ? ? ? ? H1 Ha1]; subst.
    inversion Ha1 as [| ? ? ? ? H2 _]; subst.
    cbn [nth] in H1, H2.
    destruct H1 as [H1 | H1]; [discriminate H1|].
    destruct H2 as [H2 | H2]; [discriminate H2|].
    rewrite <- H1 in H2. discriminate H2.
Defined.

Lemma relative_sum_pos (v : list Q) : relative v -> 0 < sumQ v.
Proof.
  intros [Hall Hone].
  assert (Hnn : Forall (Qle 0) v).
  { eapply Forall_impl; [| exact Hall]. intros x Hx. simpl in Hx. lra. }
  clear Hall. induction Hone as [x v Hx | x v _ IH]; simpl;
    inversion Hnn as [| ? ? H0 Hv]; subst.
  - pose proof (sumQ_nonneg v Hv). lra.
  - specialize (IH Hv). lra.
Qed.

Lemma positive_tail (w : list Q) :
  w <> [] -> Forall (Qlt 0) w ->
  (Forall (fun x => x == 0) (tl w) <-> length w = 1%nat).
Proof.
  intros Hne Hw. destruct w as [| x [| y w]]; [congruence | |].
  - split; [reflexivity | constructor].
  - split; intro Hx; [| discriminate].
    inversion Hw as [| ? ? _ Hw']; subst. inversion Hw' as [| ? ? Hy _]; subst.
    inversion Hx as [| ? ? Hy0 _]; subst. lra.
Qed.

(** [a + b * goal] is zero everywhere only if [b] is. *)
Lemma mix_zero (goal : Q) (a b : list Q) :
  0 < goal ->
  length b = length a ->
  Forall (Qle 0) a -> Forall (Qle 0) b ->
  Forall (fun x => x == 0)
    (map (fun p => fst p + snd p * goal) (combine a b)) ->
  Forall (fun x => x == 0) b.
Proof.
  intro Hg. revert b. induction a as [| x a IH]; intros [| y b] Hlen Ha Hb Hz;
    cbn [length] in Hlen; try discriminate; [constructor|].
  cbn [map combine fst snd] in Hz.
  inversion Ha as [| ? ? Hx Ha']; subst. inversion Hb as [| ? ? Hy Hb']; subst.
  inversion Hz as [| ? ? Hhd Htl]; subst.
  constructor; [| apply IH; [lia | assumption | assumption | exact Htl]].
  assert (Hyg : 0 <= y * goal) by (apply Qmult_le_0_compat; lra).
  assert (Hyz : y * goal == 0) by lra.
  apply Qmult_integral in Hyz. destruct Hyz; [assumption | lra].
Qed.

(** The mixture of the two importances, for a goal strictly between 0
    and 1. *)
Lemma mixed_importance (goal : Q) (imp_z imp_p : list Q) :
  0 < goal -> goal <= 1 ->
  relative imp_z -> relative imp_p ->
  length imp_p = length imp_z ->
  exists v,
    (zn <- div_all imp_z (sumQ imp_z) ;;
     pn <- div_all imp_p (sumQ imp_p) ;;
     importance <- inplace (fun x y => Ok (x + y * goal))
                     (map (fun x => x * (1 - goal)) zn) pn ;;
     over_max importance) = Ok v /\
    relative v /\ length v = length imp_z.
Proof.
  intros Hg0 Hg1 Hz Hp Hlen.
  pose proof (relative_sum_pos _ Hz) as Hsz.
  pose proof (relative_sum_pos _ Hp) as Hsp.
  rewrite (div_all_ok imp_z (sumQ imp_z)) by lra. cbn [bind].
  rewrite (div_all_ok imp_p (sumQ imp_p)) by lra. cbn [bind].
  set (zn := map (fun x => x * (1 - goal)) (map (fun x => x / sumQ imp_z) imp_z)).
  set (pn := map (fun x => x / sumQ imp_p) imp_p).
  assert (Hlz : length zn = length imp_z)
    by (unfold zn; rewrite !length_map; reflexivity).
  assert (Hlp : length pn = length zn)
    by (unfold pn; rewrite length_map, Hlz; exact Hlen).
  unfold inplace. rewrite Hlp, Nat.eqb_refl.
  rewrite (zipM_pure (fun x y => x + y * goal) zn pn Hlp). cbn [bind].
  set (importance := map (fun p => fst p + snd p * goal) (combine zn pn)).
  assert (Hli : length importance = length imp_z).
  { unfold importance. rewrite length_map, length_combine, Hlp, Nat.min_id.
    exact Hlz. }
  destruct Hz as [Hz01 _]. destruct Hp as [Hp01 Hpone].
  assert (Hzn : Forall (Qle 0) zn).
  { unfold zn. rewrite !Forall_map. eapply Forall_impl; [| exact Hz01].
    intros x Hx. simpl in Hx. apply Qmult_le_0_compat; [| lra].
    apply Qle_shift_div_l; lra. }
  assert (Hpn : Forall (Qle 0) pn).
  { unfold pn. rewrite Forall_map. eapply Forall_impl; [| exact Hp01].
    intros x Hx. simpl in Hx. apply Qle_shift_div_l; lra. }
  destruct (over_max_cases importance)
    as [[Hzero _] | [_ [v [Hv [Hrel Hlv]]]]].
  - intro Hnil. rewrite Hnil in Hli. apply Exists_exists in Hpone.
    destruct Hpone as [x [Hx _]]. destruct imp_p; [contradiction|].
    rewrite <- Hlen in Hli. discriminate.
  - unfold importance. rewrite Forall_map. apply Forall_forall.
    intros [x y] Hin. cbn [fst snd].
    pose proof (in_combine_l _ _ _ _ Hin) as Hx.
    pose proof (in_combine_r _ _ _ _ Hin) as Hy.
    rewrite Forall_forall in Hzn, Hpn.
    specialize (Hzn x Hx). specialize (Hpn y Hy).
    assert (0 <= y * goal) by (apply Qmult_le_0_compat; lra). lra.
  - exfalso. apply (mix_zero goal zn pn Hg0 Hlp Hzn Hpn) in Hzero.
    apply Exists_exists in Hpone. destruct Hpone as [x [Hx Hx1]].
    rewrite Forall_forall in Hzero.
    assert (Hin : In (x / sumQ imp_p) pn)
      by (unfold pn; apply in_map_iff; exists x; auto).
    specialize (Hzero _ Hin). simpl in Hzero.
    assert (Hq : x / sumQ imp_p * sumQ imp_p == x) by (field; lra).
    rewrite Hzero in Hq. lra.
  - exists v. split; [exact Hv|]. split; [exact Hrel|].
    rewrite Hlv. exact Hli.
Qed.

(** X9. Untuned, with [np.exp] positive, [dynamic_goal] in [[0, 1]] and as
    many positive live counts as log weights (at least one),
    [point_importance] has one of two outcomes.  For a single sample and a
    goal other than 1 the evidence importance is zero and its rescaling
    divides zero by zero (numpy returns [[nan]] with no exception, and
    [min_max_importance] then finds no index above the threshold).  In every
    other case, in each of the three branches, it returns an array with one
    entry for each sample, every entry in [[0, 1]] and an entry equal to 1;
    so for [dynamic_fraction] below 1 some index is above the threshold that
    [min_max_importance] applies. *)
Theorem point_importance_relative `{NumLib} `{AuLib} (samples : list sample)
  (thread_min_max : list (nanQ * Q)) (s : Settings) (simulate : bool)
  (goal : Q) :
  let run_dict := dict_given_samples_array samples thread_min_max in
  let logw :=
    get_logw (run_logl run_dict) (run_nlive_array run_dict) simulate in
  (forall x, 0 < np_exp x) ->
  logw <> [] ->
  length (run_nlive_array run_dict) = length logw ->
  Forall (Qlt 0) (run_nlive_array run_dict) ->
  dynamic_goal s = Some goal ->
  0 <= goal <= 1 ->
  tuned_dynamic_p s = false ->
  ((length logw = 1%nat /\ ~ goal == 1) /\
   point_importance samples thread_min_max s simulate = Raise NonFinite) \/
  (~ (length logw = 1%nat /\ ~ goal == 1) /\
   exists v,
     point_importance samples thread_min_max s simulate = Ok v /\
     relative v /\ length v = length logw /\
     (dynamic_fraction s < 1 ->
      np_where (fun x => Qgtb x (dynamic_fraction s)) v <> [])).
Proof.
  intros run_dict logw Hexp Hne Hlen Hn Hgoal Hg01 Htuned.
  unfold point_importance. cbv zeta. fold run_dict. fold logw.
  rewrite Hgoal, Htuned.
  destruct (np_max logw) as [m | e] eqn:Em.
  2:{ destruct logw; [congruence | discriminate]. }
  cbn [bind].
  set (w := map (fun x => np_exp (x - m)) logw).
  assert (Hlw : length w = length logw) by (unfold w; apply length_map).
  assert (Hw : Forall (Qlt 0) w).
  { unfold w. rewrite Forall_map. apply Forall_forall. intros x _. apply Hexp. }
  assert (Hw0 : Forall (Qle 0) w).
  { eapply Forall_impl; [| exact Hw]. intros x Hx. simpl in Hx. lra. }
  assert (Hwne : w <> []).
  { intro Hnil. rewrite Hnil in Hlw. destruct logw; [congruence | discriminate]. }
  pose proof (positive_tail w Hwne Hw) as Htail. rewrite Hlw in Htail.
  assert (Hz := z_importance_cases w (run_nlive_array run_dict) Hwne Hn
                  (or_introl (eq_trans Hlen (eq_sym Hlw)))).
  assert (Hp : exists v, p_importance (run_theta run_dict) w false "theta1" = Ok v /\
                         relative v /\ length v = length w).
  { unfold p_importance. cbn [negb].
    destruct (over_max_cases w Hwne Hw0) as [[Hzero _] | [_ Hv]]; [| exact Hv].
    exfalso. destruct w as [| x w']; [congruence|].
    inversion Hw; subst. inversion Hzero; subst. lra. }
  assert (Hfinish : forall v,
             relative v -> length v = length w ->
             relative v /\ length v = length logw /\
             (dynamic_fraction s < 1 ->
              np_where (fun x => Qgtb x (dynamic_fraction s)) v <> [])).
  { intros v Hrel Hlv. split; [exact Hrel|]. split; [congruence|].
    apply relative_high. exact Hrel. }
  destruct (Qeq_bool goal 0) eqn:E0.
  { apply Qeq_bool_eq in E0.
    destruct Hz as [[Hflat Hr] | [Hnot [v [Hv [Hrel Hlv]]]]].
    - left. split; [| exact Hr]. split; [apply Htail, Hflat | lra].
    - right. split; [intros [H1 _]; apply Hnot, Htail, H1|].
      exists v. split; [exact Hv|]. apply Hfinish; assumption. }
  destruct (Qeq_bool goal 1) eqn:E1.
  { apply Qeq_bool_eq in E1. destruct Hp as [v [Hv [Hrel Hlv]]].
    right. split; [intros [_ H1]; apply H1, E1|].
    exists v. split; [exact Hv|]. apply Hfinish; assumption. }
  apply Qeq_bool_neq in E0. apply Qeq_bool_neq in E1.
  destruct Hz as [[Hflat Hr] | [Hnot [imp_z [Hvz [Hrelz Hlz]]]]].
  - rewrite Hr. cbn [bind]. left.
    split; [| reflexivity]. split; [apply Htail, Hflat | exact E1].
  - rewrite Hvz. cbn [bind].
    destruct Hp as [imp_p [Hvp [Hrelp Hlp]]]. rewrite Hvp. cbn [bind].
    destruct (mixed_importance goal imp_z imp_p) as [v [Hv [Hrel Hlv]]];
      [lra | lra | assumption | assumption | congruence |].
    right. split; [intros [H1 _]; apply Hnot, Htail, H1|].
    exists v. split; [exact Hv|]. apply Hfinish; [exact Hrel | congruence].
Qed.

Lemma point_importance_relative_witness :
  exists v,
    point_importance (samples toy_dyn_state) (thread_min_max toy_dyn_state)
      toy_settings false = Ok v /\
    relative v /\
    length v = length (samples toy_dyn_state) /\
    np_where (fun x => Qgtb x (dynamic_fraction toy_settings)) v <> [].
Proof.
  destruct (@point_importance_relative RatLib ToyAu (samples toy_dyn_state)
              (thread_min_max toy_dyn_state) toy_settings false 0)
    as [[[Hone _] _] | [_ [v [Hv [Hrel [Hlen Hhigh]]]]]].
  - exact rat_exp_pos.
  - vm_compute. discriminate.
  - vm_compute. reflexivity.
  - vm_compute. repeat (constructor; [reflexivity|]). constructor.
  - reflexivity.
  - split; discriminate.
  - reflexivity.
  - vm_compute in Hone. discriminate Hone.
  - exists v. split; [exact Hv|]. split; [exact Hrel|].
    split; [rewrite Hlen; vm_compute; reflexivity|].
    apply Hhigh. reflexivity.
Defined.

(** ** Insertion interval: errors, and the interval handed to the thread
    generator *)

Lemma first_high_exists (s : Settings) (importance : list Q) :
  Exists (fun x => dynamic_fraction s < x) importance ->
  exists h, first_high s importance h.
Proof.
  induction importance as [| x l IH]; intro Hex; [inversion Hex|].
  destruct (Qlt_le_dec (dynamic_fraction s) x) as [Hhigh | Hlow].
  - exists O. split; [exists x; auto|]. intros i y Hi. lia.
  - inversion Hex; subst; [lra|].
    destruct (IH H0) as [h [[y [Hy Hfy]] Hbefore]].
    exists (S h). split; [exists y; auto|].
    intros [| i] z Hi Hz; simpl in Hz.
    + inversion Hz; subst. exact Hlow.
    + apply (Hbefore i z); [lia | exact Hz].
Qed.

Lemma last_high_exists (s : Settings) (importance : list Q) :
  Exists (fun x => dynamic_fraction s < x) importance ->
  exists h, last_high s importance h.
Proof.
  induction importance as [| x l IH]; intro Hex; [inversion Hex|].
  destruct (Exists_dec (fun x => dynamic_fraction s < x) l) as [Hl | Hnl].
  { intro y. destruct (Qlt_le_dec (dynamic_fraction s) y); [left | right]; lra. }
  - destruct (IH Hl) as [h [[y [Hy Hfy]] Hafter]].
    exists (S h). split; [exists y; auto|].
    intros [| i] z Hi Hz; [lia|]. simpl in Hz.
    apply (Hafter i z); [lia | exact Hz].
  - inversion Hex; subst; [| contradiction].
    exists O. split; [exists x; auto|].
    intros [| i] z Hi Hz; [lia|]. simpl in Hz.
    destruct (Qlt_le_dec (dynamic_fraction s) z) as [Hhigh | Hlow]; [| exact Hlow].
    exfalso. apply Hnl. apply Exists_exists. exists z.
    split; [eapply nth_error_In; exact Hz | exact Hhigh].
Qed.

Lemma high_first_last (s : Settings) (importance : list Q) (h0 h1 : nat) :
  first_high s importance h0 -> last_high s importance h1 ->
  (h0 <= h1 < length importance)%nat.
Proof.
  intros [_ Hbefore] [[x [Hx Hfx]] _]. split.
  - destruct (Nat.le_gt_cases h0 h1) as [Hle | Hgt]; [exact Hle|].
    specialize (Hbefore h1 x Hgt Hx). lra.
  - apply nth_error_Some. congruence.
Qed.

(** With a sample above the threshold, [min_max_importance] is the lookup of
    the start followed by the lookup of the end. *)
Lemma min_max_importance_lookups (s : Settings) (importance : list Q)
  (samples : list sample) (h0 h1 : nat) :
  0 < dynamic_fraction s ->
  dynamic_fraction s < 1 ->
  first_high s importance h0 ->
  last_high s importance h1 ->
  min_max_importance importance samples s =
  (' (logl_min, logx_min) <-
     (if (h0 =? 0)%nat then Ok (NaN, 0)
      else
        row <- index samples (h0 - 1) ;;
        x <- logx_at_unique (logl row) samples ;;
        Ok (Val (logl row), x)) ;;
   ' (logl_max, logx_max) <-
     (if (Z.of_nat h1 =? Z.of_nat (length samples) - 1)%Z then
        row <- index_neg samples 1 ;;
        Ok (logl row, logx row)
      else
        row <- index samples (h1 + 1) ;;
        x <- logx_at_unique (logl row) samples ;;
        Ok (logl row, x)) ;;
   Ok ((logl_min, logl_max), (logx_min, logx_max))).
Proof.
  intros Hf0 Hf1 Hfirst Hlast. unfold min_max_importance.
  apply Qgtb_gt in Hf0. apply Qltb_lt in Hf1. rewrite Hf0, Hf1.
  cbn [andb assert bind].
  rewrite (where_first_high s importance h0 Hfirst). cbn [bind].
  destruct (if (h0 =? 0)%nat then Ok (NaN, 0)
            else
              row <- index samples (h0 - 1) ;;
              x <- logx_at_unique (logl row) samples ;;
              Ok (Val (logl row), x)) as [[lmin xmin] | e]; cbn [bind];
    [| reflexivity].
  rewrite (where_last_high s importance h1 Hlast). reflexivity.
Qed.

Lemma low_importance_where (s : Settings) (importance : list Q) :
  Forall (fun x => x <= dynamic_fraction s) importance <->
  np_where (fun x => Qgtb x (dynamic_fraction s)) importance = [].
Proof.
  unfold np_where. split.
  - intro Hlow. apply where_from_none.
    eapply Forall_impl; [| exact Hlow]. intros x Hx. apply Qgtb_le. exact Hx.
  - generalize O. induction importance as [| x l IH]; intros k Hw; [constructor|].
    simpl in Hw. destruct (Qgtb x (dynamic_fraction s)) eqn:E; [discriminate|].
    constructor; [apply Qgtb_le; exact E | eapply IH; exact Hw].
Qed.

(** X10. [min_max_importance] fails its first assertion exactly when
    [dynamic_fraction] is outside [(0, 1)]; inside, and with one importance
    per sample, it raises [IndexError] exactly when no importance is above
    [dynamic_fraction], and the only other exception it can raise is the
    assertion of a unique match. *)
Theorem min_max_importance_errors (s : Settings) (importance : list Q)
  (samples : list sample) :
  let res := min_max_importance importance samples s in
  (~ (0 < dynamic_fraction s /\ dynamic_fraction s < 1) ->
   res = Raise (AssertionError AssertDynamicFraction)) /\
  (0 < dynamic_fraction s -> dynamic_fraction s < 1 ->
   length importance = length samples ->
   (res = Raise IndexError <->
    Forall (fun x => x <= dynamic_fraction s) importance) /\
   (forall e, res = Raise e ->
              e = IndexError \/ e = AssertionError AssertUniqueMatch)).
Proof.
  intro res. split.
  - intro Hout. subst res. unfold min_max_importance.
    destruct (Qgtb (dynamic_fraction s) 0) eqn:E0;
      destruct (Qltb (dynamic_fraction s) 1) eqn:E1; try reflexivity.
    exfalso. apply Hout. split; [apply Qgtb_gt, E0 | apply Qltb_lt, E1].
  - intros Hf0 Hf1 Hlen.
    destruct (Exists_dec (fun x => dynamic_fraction s < x) importance)
      as [Hhigh | Hnone].
    { intro y. destruct (Qlt_le_dec (dynamic_fraction s) y); [left | right]; lra. }
    + destruct (first_high_exists s importance Hhigh) as [h0 Hfirst].
      destruct (last_high_exists s importance Hhigh) as [h1 Hlast].
      destruct (high_first_last s importance h0 h1 Hfirst Hlast) as [Hle Hlt].
      rewrite Hlen in Hlt.
      assert (Hlt0 : (h0 < length samples)%nat) by lia.
      destruct (start_lookup samples h0 Hlt0) as [Hstart _].
      destruct (end_lookup samples h1 Hlt) as [Hstop _].
      subst res.
      rewrite (min_max_importance_lookups s importance samples h0 h1
                 Hf0 Hf1 Hfirst Hlast).
      assert (Hnot : ~ Forall (fun x => x <= dynamic_fraction s) importance).
      { intro Hall. apply Exists_exists in Hhigh. destruct Hhigh as [x [Hx Hfx]].
        rewrite Forall_forall in Hall. specialize (Hall x Hx). lra. }
      destruct Hstart as [[lmin0 [xmin0 [-> _]]] | [-> _]]; cbn [bind].
      * destruct Hstop as [[lmax0 [xmax0 [-> _]]] | [-> _]]; cbn [bind].
        -- split; [split; [discriminate | contradiction] | discriminate].
        -- split; [split; [discriminate | contradiction]|].
           intros e He. inversion He. auto.
      * split; [split; [discriminate | contradiction]|].
        intros e He. inversion He. auto.
    + assert (Hlow : Forall (fun x => x <= dynamic_fraction s) importance).
      { apply Forall_forall. intros x Hx.
        destruct (Qlt_le_dec (dynamic_fraction s) x) as [Hgt | Hle'];
          [| exact Hle'].
        exfalso. apply Hnone. apply Exists_exists. eauto. }
      assert (Hres : res = Raise IndexError).
      { subst res. unfold min_max_importance.
        apply Qgtb_gt in Hf0. apply Qltb_lt in Hf1. rewrite Hf0, Hf1.
        cbn [andb assert bind].
        rewrite (proj1 (low_importance_where s importance) Hlow). reflexivity. }
      rewrite Hres. split; [split; auto|].
      intros e He. inversion He. auto.
Qed.

Lemma min_max_importance_errors_witness :
  min_max_importance [1 # 8; 1 # 4; 1 # 4; 1 # 3] (samples toy_dyn_state)
    toy_settings = Raise IndexError.
Proof.
  apply (proj2 (min_max_importance_errors toy_settings
                  [1 # 8; 1 # 4; 1 # 4; 1 # 3] (samples toy_dyn_state))).
  - reflexivity.
  - reflexivity.
  - reflexivity.
  - repeat constructor; discriminate.
Defined.

Lemma strongly_sorted_nth {A : Type} (R : A -> A -> Prop) (l : list A) :
  StronglySorted R l ->
  forall i j a b, (i < j)%nat -> nth_error l i = Some a ->
                  nth_error l j = Some b -> R a b.
Proof.
  induction 1 as [| x l Hs IH Hall]; intros i j a b Hij Ha Hb.
  - destruct i; discriminate.
  - destruct j as [| j]; [lia|]. simpl in Hb. destruct i as [| i]; simpl in Ha.
    + inversion Ha; subst. rewrite Forall_forall in Hall.
      apply Hall. eapply nth_error_In. exact Hb.
    + eapply IH; [| exact Ha | exact Hb]. lia.
Qed.

Lemma decreasing_nth (l : list Q) (i j : nat) (a b : Q) :
  decreasing l -> (i < j)%nat -> nth_error l i = Some a ->
  nth_error l j = Some b -> b < a.
Proof.
  intros Hd Hij Ha Hb. unfold decreasing in Hd.
  apply Sorted_StronglySorted in Hd.
  - apply (strongly_sorted_nth _ l Hd i j a b Hij Ha Hb).
  - intros x y z Hxy Hyz. lra.
Qed.

(** A key that one sample carries is looked up at that sample. *)
Lemma at_logl_unique (samples : list sample) (i : nat) (x row : sample) :
  nth_error samples i = Some x ->
  at_logl (logl x) samples = [row] -> row = x.
Proof.
  intros Hx Hrow.
  assert (Hin : In x (at_logl (logl x) samples)).
  { unfold at_logl. apply filter_In. split; [eapply nth_error_In; exact Hx|].
    apply Qeq_bool_iff. reflexivity. }
  rewrite Hrow in Hin. destruct Hin as [Heq | []]. exact Heq.
Qed.

(** X11. When the samples are in strictly decreasing order of [logx], all
    below 0, an interval that [min_max_importance] returns has its end
    strictly below its start, so the thread generator's assertion on the
    interval holds for it. *)
Theorem min_max_importance_interval (s : Settings) (importance : list Q)
  (samples : list sample) (lmin : nanQ) (lmax xmin xmax : Q) :
  length importance = length samples ->
  decreasing (map logx samples) ->
  Forall (fun x => logx x < 0) samples ->
  min_max_importance importance samples s = Ok ((lmin, lmax), (xmin, xmax)) ->
  xmax < xmin /\
  forall label keep t,
    generate_single_thread s (Some xmax) label xmin keep t
    <> Raise (AssertionError AssertInterval).
Proof.
  intros Hlen Hdec Hneg Hres.
  assert (Hlt : xmax < xmin).
  { assert (Hf : 0 < dynamic_fraction s /\ dynamic_fraction s < 1).
    { unfold min_max_importance in Hres.
      destruct (Qgtb (dynamic_fraction s) 0) eqn:E0;
        destruct (Qltb (dynamic_fraction s) 1) eqn:E1; try discriminate.
      split; [apply Qgtb_gt, E0 | apply Qltb_lt, E1]. }
    destruct Hf as [Hf0 Hf1].
    destruct (Exists_dec (fun x => dynamic_fraction s < x) importance)
      as [Hhigh | Hnone].
    { intro y. destruct (Qlt_le_dec (dynamic_fraction s) y); [left | right]; lra. }
    2:{ exfalso.
        assert (Hlow : Forall (fun x => x <= dynamic_fraction s) importance).
        { apply Forall_forall. intros x Hx.
          destruct (Qlt_le_dec (dynamic_fraction s) x) as [Hgt | Hle'];
            [| exact Hle'].
          exfalso. apply Hnone. apply Exists_exists. eauto. }
        unfold min_max_importance in Hres.
        apply Qgtb_gt in Hf0. apply Qltb_lt in Hf1. rewrite Hf0, Hf1 in Hres.
        cbn [andb assert bind] in Hres.
        rewrite (proj1 (low_importance_where s importance) Hlow) in Hres.
        discriminate. }
    destruct (first_high_exists s importance Hhigh) as [h0 Hfirst].
    destruct (last_high_exists s importance Hhigh) as [h1 Hlast].
    destruct (high_first_last s importance h0 h1 Hfirst Hlast) as [Hle Hlt1].
    rewrite Hlen in Hlt1.
    assert (Hlt0 : (h0 < length samples)%nat) by lia.
    destruct (start_lookup samples h0 Hlt0) as [Hstart _].
    destruct (end_lookup samples h1 Hlt1) as [Hstop _].
    rewrite (min_max_importance_lookups s importance samples h0 h1
               Hf0 Hf1 Hfirst Hlast) in Hres.
    destruct Hstart as [[lmin0 [xmin0 [Hs0 [Hok0 _]]]] | [Hs0 _]];
      rewrite Hs0 in Hres; cbn [bind] in Hres; [| discriminate].
    destruct Hstop as [[lmax0 [xmax0 [Hs1 [Hok1 _]]]] | [Hs1 _]];
      rewrite Hs1 in Hres; cbn [bind] in Hres; [| discriminate].
    inversion Hres; subst lmin0 lmax0 xmin0 xmax0. clear Hres Hs0 Hs1.
    (* the end is the [logx] of a sample at or after [h1] *)
    assert (Hend : exists j x, (h1 <= j)%nat /\ nth_error samples j = Some x /\
                               xmax = logx x).
    { unfold end_ok, end_key in Hok1.
      destruct (S h1 =? length samples)%nat eqn:E.
      - apply Nat.eqb_eq in E. destruct Hok1 as [final [Hfin [_ Hx]]].
        exists (length samples - 1)%nat, final. repeat split; [lia | exact Hfin | exact Hx].
      - apply Nat.eqb_neq in E.
        destruct (nth_error samples (S h1)) as [nxt |] eqn:En;
          [| apply nth_error_None in En; lia].
        simpl in Hok1. destruct Hok1 as [_ [row [Hrow Hx]]].
        apply (at_logl_unique samples (S h1) nxt row En) in Hrow. subst row.
        exists (S h1), nxt. repeat split; [lia | exact En | exact Hx]. }
    destruct Hend as [j [x [Hj [Hx Hxmax]]]].
    unfold start_ok, start_key in Hok0. destruct h0 as [| i].
    + destruct Hok0 as [_ Hx0]. subst xmin xmax.
      rewrite Forall_forall in Hneg. apply Hneg. eapply nth_error_In. exact Hx.
    + destruct (nth_error samples i) as [prev |] eqn:Ei;
        [| apply nth_error_None in Ei; lia].
      simpl in Hok0. destruct Hok0 as [_ [row [Hrow Hx0]]].
      apply (at_logl_unique samples i prev row Ei) in Hrow. subst row.
      subst xmin xmax.
      apply (decreasing_nth (map logx samples) i j); [exact Hdec | lia | |].
      * rewrite nth_error_map, Ei. reflexivity.
      * rewrite nth_error_map, Hx. reflexivity. }
  split; [exact Hlt|]. intros label keep t Hraise.
  unfold generate_single_thread in Hraise. cbn [bind] in Hraise.
  apply Qgtb_gt in Hlt. rewrite Hlt in Hraise. cbn [assert bind] in Hraise.
  destruct (generate_thread_logx xmax xmin keep t) as [[xs t'] | e] eqn:Hg;
    cbn [bind] in Hraise.
  - destruct xs as [| x0 xs]; [discriminate|].
    destruct (combine_rows _ _ _ _ _ _) as [rows | e0] eqn:Hc;
      cbn [bind] in Hraise; [discriminate|].
    apply combine_rows_raises in Hc. congruence.
  - apply generate_thread_logx_raises in Hg. congruence.
Qed.

Lemma min_max_importance_interval_witness :
  -4 < -2 /\
  forall label keep t,
    generate_single_thread toy_settings (Some (-4)) label (-2) keep t
    <> Raise (AssertionError AssertInterval).
Proof.
  apply (min_max_importance_interval toy_settings [1 # 8; 1 # 4; 1; 1]
           ladder_rows (Val (-2)) (-1) (-2) (-4)).
  - reflexivity.
  - unfold decreasing. simpl. repeat constructor.
  - unfold ladder_rows. repeat constructor.
  - vm_compute. reflexivity.
Defined.

(** ** Dynamic driver: live points and thread ends *)

Lemma dnlive_total_app (a b : list sample) :
  dnlive_total (a ++ b) = (dnlive_total a + dnlive_total b)%Z.
Proof.
  unfold dnlive_total. induction a as [| x a IH]; simpl; [reflexivity|].
  rewrite IH. lia.
Qed.

Lemma dnlive_total_perm (a b : list sample) :
  Permutation a b -> dnlive_total a = dnlive_total b.
Proof.
  unfold dnlive_total. induction 1; simpl; lia.
Qed.

Lemma bump_at_total (l : list sample) :
  forall i, (i < length l)%nat ->
            dnlive_total (bump_at l i) = (dnlive_total l + 1)%Z.
Proof.
  unfold dnlive_total.
  induction l as [| x l IH]; intros [| i] Hi; simpl in *; try lia.
  rewrite IH by lia. lia.
Qed.

Lemma bump_at_thread_logls (l : list sample) :
  forall i, map (fun x => (thread_label x, logl x)) (bump_at l i)
            = map (fun x => (thread_label x, logl x)) l.
Proof.
  induction l as [| x l IH]; intros [| i]; simpl; try reflexivity.
  f_equal. apply IH.
Qed.

(** A thread closes itself: its changes in the number of live points sum to
    [-1]. *)
Lemma single_thread_dnlive (s : Settings) (logx_end : option Q) (label : nat)
  (logx_start : Q) (keep : bool) (t : tape) (rows : list sample) (t' : tape) :
  generate_single_thread s logx_end label logx_start keep t = Ok (Some rows, t') ->
  dnlive_total rows = (-1)%Z.
Proof.
  unfold generate_single_thread. intro Hg.
  bind_split Hg as e He. bind_split Hg as u Hu.
  bind_split Hg as [xs t1] Hxs.
  destruct xs as [| x xs]; [discriminate|].
  bind_split Hg as rows' Hrows. inversion Hg; subst.
  destruct (combine_rows_columns _ _ _ _ _ _ _ Hrows) as [_ [_ [_ [Hn _]]]].
  unfold dnlive_total. rewrite Hn. apply end_marks_sum. simpl. lia.
Qed.

(** The start of a matched key is a row of the samples. *)
Lemma matches_in_range (key : Q) (l : list sample) (i : nat) :
  index (matches key l) 0 = Ok i -> (i < length l)%nat.
Proof.
  intro Hi. unfold matches, np_where in Hi.
  destruct (where_from_head _ _ _ _ Hi) as [j [x [Hj [Hx _]]]].
  subst i. simpl. apply nth_error_Some. congruence.
Qed.

(** What adding one thread does. *)
Lemma add_thread_spec (s : Settings) (logl_min : nanQ) (logx_min logx_max : Q)
  (st : dyn_state) (t : tape) (st' : dyn_state) (t' : tape) :
  add_thread s logl_min logx_min logx_max st t = Ok (st', t') ->
  live_at_end st' = live_at_end st /\
  exists rows final,
    thread_logls st' = thread_logls st
                       ++ map (fun x => (thread_label x, logl x)) rows /\
    In (S (length (thread_min_max st)), logl final)
      (map (fun x => (thread_label x, logl x)) rows) /\
    thread_min_max st' = thread_min_max st ++ [(logl_min, logl final)].
Proof.
  unfold add_thread. intro Ha.
  bind_split Ha as [thread t1] Hgen.
  bind_split Ha as samples1 Hbump.
  destruct thread as [rows |]; [| discriminate].
  bind_split Ha as final Hfinal. inversion Ha; subst st' t1. clear Ha.
  pose proof (single_thread_dnlive _ _ _ _ _ _ _ _ Hgen) as Hsum.
  destruct (single_thread_labels _ _ _ _ _ _ _ _ Hgen) as [k [Hk Hlab]].
  assert (Hfin : In final rows).
  { unfold index_neg in Hfinal.
    destruct ((1 <=? 1) && (1 <=? length rows))%nat; [| discriminate].
    apply index_ok in Hfinal. eapply nth_error_In. exact Hfinal. }
  assert (Hfl : thread_label final = S (length (thread_min_max st))).
  { assert (Hin : In (thread_label final) (map thread_label rows))
      by (apply in_map; exact Hfin).
    rewrite Hlab in Hin. apply repeat_spec in Hin. exact Hin. }
  unfold live_at_end, thread_logls, prior_threads. cbn [samples thread_min_max].
  rewrite dnlive_total_app, Hsum, filter_app, length_app, map_app.
  destruct logl_min as [| key].
  - inversion Hbump; subst samples1. split; [simpl; lia|].
    exists rows, final. split; [reflexivity|]. split; [| reflexivity].
    rewrite <- Hfl. apply (in_map (fun x => (thread_label x, logl x))). exact Hfin.
  - bind_split Hbump as u Hu. bind_split Hbump as i Hi.
    inversion Hbump; subst samples1.
    rewrite bump_at_total by (eapply matches_in_range; exact Hi).
    rewrite bump_at_thread_logls. split; [simpl; lia|].
    exists rows, final. split; [reflexivity|]. split; [| reflexivity].
    rewrite <- Hfl. apply (in_map (fun x => (thread_label x, logl x))). exact Hfin.
Qed.

Lemma add_threads_spec (s : Settings) (logl_min : nanQ) (logx_min logx_max : Q)
  (n : nat) :
  forall st t st' t',
    add_threads n s logl_min logx_min logx_max st t = Ok (st', t') ->
    live_at_end st' = live_at_end st /\
    exists more,
      thread_min_max st' = thread_min_max st ++ more /\
      length more = n /\
      Forall (fun p => fst p = logl_min) more /\
      incl (thread_logls st) (thread_logls st') /\
      forall k p, nth_error more k = Some p ->
                  In (S (length (thread_min_max st) + k), snd p)
                    (thread_logls st').
Proof.
  induction n as [| n IH]; intros st t st' t' Ha; simpl in Ha.
  - inversion Ha; subst. split; [reflexivity|]. exists [].
    rewrite app_nil_r. repeat split; try constructor.
    + apply incl_refl.
    + intros [| k] p Hp; discriminate.
  - bind_split Ha as [st1 t1] Hone.
    destruct (add_thread_spec _ _ _ _ _ _ _ _ Hone)
      as [Hlive1 [rows [final [Hlogls [Hend Htmm]]]]].
    destruct (IH _ _ _ _ Ha) as [Hlive [more [Hm [Hlen [Hstart [Hincl Hends]]]]]].
    split; [congruence|].
    exists ((logl_min, logl final) :: more).
    rewrite Hm, Htmm, <- app_assoc. split; [reflexivity|].
    split; [simpl; f_equal; exact Hlen|].
    split; [constructor; [reflexivity | exact Hstart]|].
    assert (Hincl1 : incl (thread_logls st) (thread_logls st1)).
    { rewrite Hlogls. apply incl_appl. apply incl_refl. }
    split; [eapply incl_tran; eassumption|].
    intros [| k] p Hp; simpl in Hp.
    + inversion Hp; subst p. simpl. rewrite Nat.add_0_r.
      apply Hincl. rewrite Hlogls. apply in_or_app. right. exact Hend.
    + specialize (Hends k p Hp). rewrite Htmm, length_app in Hends.
      simpl in Hends.
      replace (S (length (thread_min_max st) + S k))
        with (S (length (thread_min_max st) + 1 + k)) by lia.
      exact Hends.
Qed.

Section DynamicThreads.

Context `{NumLib} `{AuLib}.
Variable s : Settings.
Hypothesis argsort_ok : argsort_contract np_argsort.

(** One pass of the loop keeps the number of live points after the last
    sample, and appends the rows of its threads to [thread_min_max]. *)
Lemma dyn_body_threads (st : dyn_state) (t : tape) (st' : dyn_state) (t' : tape) :
  dyn_body s st t = Ok (st', t') ->
  live_at_end st' = live_at_end st /\
  exists more,
    thread_min_max st' = thread_min_max st ++ more /\
    length more = nbatch s /\
    (forall p q, In p more -> In q more -> fst p = fst q) /\
    (forall x, In x (thread_logls st) -> In x (thread_logls st')) /\
    forall k p, nth_error more k = Some p ->
                In (S (length (thread_min_max st) + k), snd p)
                  (thread_logls st').
Proof.
  unfold dyn_body. intro Hb.
  bind_split Hb as importance Himp.
  bind_split Hb as [logl_min_max logx_min_max] Hmm.
  bind_split Hb as [st1 t1] Hadd.
  bind_split Hb as sorted Hsort. inversion Hb; subst st' t1. clear Hb.
  destruct (sort_samples_spec (samples st1) argsort_ok)
    as [sorted' [Hsort' [_ Hperm]]].
  rewrite Hsort' in Hsort. inversion Hsort; subst sorted'.
  destruct (add_threads_spec _ _ _ _ _ _ _ _ _ Hadd)
    as [Hlive [more [Hm [Hlen [Hstart [Hincl Hends]]]]]].
  assert (Hsame : forall x, In x (thread_logls st1) ->
                            In x (map (fun y => (thread_label y, logl y)) sorted)).
  { intros x Hx. unfold thread_logls in Hx.
    eapply Permutation_in; [| exact Hx].
    apply Permutation_map. apply Permutation_sym. exact Hperm. }
  split.
  - unfold live_at_end in *. cbn [samples thread_min_max].
    rewrite (dnlive_total_perm _ _ Hperm). exact Hlive.
  - exists more. cbn [thread_min_max]. split; [exact Hm|].
    split; [exact Hlen|]. split.
    + intros p q Hp Hq. rewrite Forall_forall in Hstart.
      rewrite (Hstart p Hp), (Hstart q Hq). reflexivity.
    + split.
      * intros x Hx. apply Hsame. apply Hincl. exact Hx.
      * intros k p Hp. apply Hsame. apply (Hends k p Hp).
Qed.

End DynamicThreads.

(** X12. The loop of the dynamic driver keeps the books of the live points:
    the number of threads that start from the whole prior plus the sum of
    the changes in [nlive] over the samples is the same when the loop
    returns as on entry; each thread it adds takes one live point away at
    its last sample and gives one back at the sample it starts from, or is
    counted as starting from the whole prior. *)
Theorem dynamic_loop_live_points `{NumLib} `{AuLib} (s : Settings) (max : Q)
  (fuel : nat) (st : dyn_state) (t : tape) (stf : dyn_state) (tf : tape) :
  argsort_contract np_argsort ->
  dyn_loop fuel s max st t = Some (Ok (stf, tf)) ->
  live_at_end stf = live_at_end st.
Proof.
  intros Hc. revert st t.
  induction fuel as [| fuel IH]; intros st t Hloop; simpl in Hloop;
    destruct (Qltb (natQ (length (samples st))) max); try discriminate.
  - inversion Hloop; subst. reflexivity.
  - destruct (dyn_body s st t) as [[st1 t1] | e] eqn:Hb; [| discriminate].
    rewrite (IH _ _ Hloop).
    apply (dyn_body_threads s Hc st t st1 t1 Hb).
  - inversion Hloop; subst. reflexivity.
Qed.

Lemma dynamic_loop_live_points_witness :
  match dyn_loop 3 toy_settings 6 toy_dyn_state toy_dyn_tape with
  | Some (Ok (stf, _)) => live_at_end stf = live_at_end toy_dyn_state
  | _ => False
  end.
Proof.
  destruct (dyn_loop 3 toy_settings 6 toy_dyn_state toy_dyn_tape)
    as [[[stf tf] | e] |] eqn:E.
  - apply (@dynamic_loop_live_points RatLib ToyAu toy_settings 6 3
             toy_dyn_state toy_dyn_tape stf tf argsort_stable_contract E).
  - vm_compute in E. discriminate.
  - vm_compute in E. discriminate.
Defined.

(** The loop appends [nbatch] rows to [thread_min_max] in each pass and
    leaves at the first state that is not below the budget. *)
Lemma dyn_loop_appends `{NumLib} `{AuLib} (s : Settings) (max : Q)
  (fuel : nat) (st : dyn_state) (t : tape) (stf : dyn_state) (tf : tape) :
  argsort_contract np_argsort ->
  dyn_loop fuel s max st t = Some (Ok (stf, tf)) ->
  max <= natQ (length (samples stf)) /\
  exists more passes,
    thread_min_max stf = thread_min_max st ++ more /\
    length more = (passes * nbatch s)%nat /\
    (passes <= fuel)%nat /\
    (forall x, In x (thread_logls st) -> In x (thread_logls stf)) /\
    forall k p, nth_error more k = Some p ->
                In (S (length (thread_min_max st) + k), snd p)
                  (thread_logls stf).
Proof.
  intros Hc. revert st t.
  induction fuel as [| fuel IH]; intros st t Hloop; simpl in Hloop;
    destruct (Qltb (natQ (length (samples st))) max) eqn:Hcond;
    try discriminate.
  - inversion Hloop; subst. split; [apply Qltb_ge; exact Hcond|].
    exists [], O. rewrite app_nil_r.
    repeat split; auto. intros [| k] p Hp; discriminate.
  - destruct (dyn_body s st t) as [[st1 t1] | e] eqn:Hb; [| discriminate].
    destruct (dyn_body_threads s Hc st t st1 t1 Hb)
      as [_ [more1 [Hm1 [Hlen1 [_ [Hkeep1 Hends1]]]]]].
    destruct (IH _ _ Hloop)
      as [Hmax [more [passes [Hm [Hlen [Hp [Hkeep Hends]]]]]]].
    split; [exact Hmax|].
    exists (more1 ++ more), (S passes).
    rewrite Hm, Hm1, <- app_assoc. split; [reflexivity|].
    split; [rewrite length_app, Hlen1, Hlen; simpl; lia|].
    split; [lia|]. split; [auto|].
    intros k p Hk.
    destruct (Nat.lt_ge_cases k (length more1)) as [Hlt | Hge].
    + rewrite nth_error_app1 in Hk by exact Hlt.
      apply Hkeep. apply (Hends1 k p Hk).
    + rewrite nth_error_app2 in Hk by exact Hge.
      specialize (Hends _ _ Hk). rewrite Hm1, length_app in Hends.
      replace (S (length (thread_min_max st) + k))
        with (S (length (thread_min_max st) + length more1
                 + (k - length more1))) by lia.
      exact Hends.
  - inversion Hloop; subst. split; [apply Qltb_ge; exact Hcond|].
    exists [], O. rewrite app_nil_r.
    repeat split; auto; try lia. intros [| k] p Hp; discriminate.
Qed.

(** X13. The loop of the dynamic driver only appends to [thread_min_max],
    [nbatch] rows in each pass, and row [k - 1] of what it appends ends at
    the likelihood of a sample of thread [k] that is among the samples when
    the loop returns. *)
Theorem dynamic_loop_thread_ends `{NumLib} `{AuLib} (s : Settings) (max : Q)
  (fuel : nat) (st : dyn_state) (t : tape) (stf : dyn_state) (tf : tape) :
  argsort_contract np_argsort ->
  dyn_loop fuel s max st t = Some (Ok (stf, tf)) ->
  exists more passes,
    thread_min_max stf = thread_min_max st ++ more /\
    length more = (passes * nbatch s)%nat /\
    (passes <= fuel)%nat /\
    (forall x, In x (thread_logls st) -> In x (thread_logls stf)) /\
    forall k p, nth_error more k = Some p ->
                In (S (length (thread_min_max st) + k), snd p)
                  (thread_logls stf).
Proof.
  intros Hc Hloop.
  apply (dyn_loop_appends s max fuel st t stf tf Hc Hloop).
Qed.

Lemma dynamic_loop_thread_ends_witness :
  match dyn_loop 3 toy_settings 6 toy_dyn_state toy_dyn_tape with
  | Some (Ok (stf, _)) =>
      exists more passes,
        thread_min_max stf = thread_min_max toy_dyn_state ++ more /\
        length more = (passes * nbatch toy_settings)%nat /\
        (passes <= 3)%nat /\
        (forall x, In x (thread_logls toy_dyn_state) ->
                   In x (thread_logls stf)) /\
        forall k p, nth_error more k = Some p ->
                    In (S (length (thread_min_max toy_dyn_state) + k), snd p)
                      (thread_logls stf)
  | _ => False
  end.
Proof.
  destruct (dyn_loop 3 toy_settings 6 toy_dyn_state toy_dyn_tape)
    as [[[stf tf] | e] |] eqn:E.
  - apply (@dynamic_loop_thread_ends RatLib ToyAu toy_settings 6 3
             toy_dyn_state toy_dyn_tape stf tf argsort_stable_contract E).
  - vm_compute in E. discriminate.
  - vm_compute in E. discriminate.
Defined.

(** ** Dynamic driver: the run as a whole *)

(** X27. When [generate_dynamic_run] returns a run, [dynamic_goal] is in
    [[0, 1]]; the exploratory standard run was made with [ninit] live points
    and the loop started from its samples; the loop left with at least
    [n_samples_max] samples (or the estimate from the exploratory run); the
    first [ninit] rows of [thread_min_max] are those of the exploratory run,
    all starting from the whole prior, followed by [nbatch] rows for each
    pass of the loop; and the run is the dictionary of the final samples
    with the settings recorded. *)
Theorem dynamic_run_threads `{NumLib} `{AuLib} (fuel : nat) (s : Settings)
  (t : tape) (r0 : run) (t' : tape) :
  argsort_contract np_argsort ->
  generate_dynamic_run fuel s t = Some (Ok (r0, t')) ->
  exists goal standard_run t0 max stf more passes,
    dynamic_goal s = Some goal /\ 0 <= goal <= 1 /\
    generate_standard_run s true t = Ok (standard_run, t0) /\
    samples_budget s (length (samples_array_given_run standard_run)) = Ok max /\
    dyn_loop fuel s max
      {| samples := samples_array_given_run standard_run;
         thread_min_max := run_thread_min_max standard_run |} t0
    = Some (Ok (stf, t')) /\
    max <= natQ (length (samples stf)) /\
    thread_min_max stf = run_thread_min_max standard_run ++ more /\
    length (run_thread_min_max standard_run) = ninit s /\
    Forall (fun p => fst p = NaN) (run_thread_min_max standard_run) /\
    length more = (passes * nbatch s)%nat /\
    r0 = with_settings s
           (dict_given_samples_array (samples stf) (thread_min_max stf)) /\
    run_settings r0 = Some s.
Proof.
  intros Hc Hrun. unfold generate_dynamic_run in Hrun.
  destruct (dynamic_goal s) as [goal |] eqn:Hgoal; [| discriminate].
  destruct (Qle_bool goal 1 && Qle_bool 0 goal) eqn:Hrange;
    cbn [negb] in Hrun; [| discriminate].
  apply andb_true_iff in Hrange. destruct Hrange as [Hg1 Hg0].
  apply Qle_bool_iff in Hg1. apply Qle_bool_iff in Hg0.
  destruct (generate_standard_run s true t) as [[standard_run t0] | e] eqn:Hstd;
    [| discriminate].
  destruct (samples_budget s _) as [max | e] eqn:Hmax; [| discriminate].
  destruct (dyn_loop fuel s max _ t0) as [[[stf tf] | e] |] eqn:Hloop;
    try discriminate.
  inversion Hrun; subst r0 tf. clear Hrun.
  destruct (dyn_loop_appends s max fuel _ t0 stf t' Hc Hloop)
    as [Hbudget [more [passes [Hm [Hlen _]]]]].
  cbn [thread_min_max] in Hm.
  destruct (standard_run_pieces s true t standard_run t0 Hstd)
    as [st0 [logtrapz [t1 [st [sorted_live [Hinit [Hl [Htake Hr0]]]]]]]].
  destruct (std_loop_invariant s (ninit s) logtrapz (std_points_ok s (ninit s))
              (fun _ => True)) with (t := t1) (st := st0) (st' := st) (t' := t0)
    as [[_ [_ [Hlab _]]] _].
  { intros sa d sb _ Hok Hbody. eapply std_points_ok_body; eassumption. }
  { apply Forall_forall. auto. }
  { exact Hl. }
  { eapply std_points_ok_init. exact Hinit. }
  assert (Htmm : run_thread_min_max standard_run
                 = map (fun p => (NaN, p_logl p)) (live_points st)).
  { rewrite Hr0. reflexivity. }
  exists goal, standard_run, t0, max, stf, more, passes.
  split; [reflexivity|]. split; [split; assumption|].
  split; [reflexivity|]. split; [exact Hmax|]. split; [exact Hloop|].
  split; [exact Hbudget|]. split; [exact Hm|]. split.
  { rewrite Htmm, length_map.
    apply (f_equal (@length nat)) in Hlab.
    rewrite length_map, length_seq in Hlab. exact Hlab. }
  split.
  { rewrite Htmm, Forall_map. apply Forall_forall. intros p _. reflexivity. }
  split; [exact Hlen|]. split; reflexivity.
Qed.

Lemma dynamic_run_threads_witness :
  match generate_dynamic_run 3 toy_settings toy_tape with
  | Some (Ok (r0, t')) =>
      exists goal standard_run t0 max stf more passes,
        dynamic_goal toy_settings = Some goal /\ 0 <= goal <= 1 /\
        generate_standard_run toy_settings true toy_tape
        = Ok (standard_run, t0) /\
        samples_budget toy_settings
          (length (samples_array_given_run standard_run)) = Ok max /\
        dyn_loop 3 toy_settings max
          {| samples := samples_array_given_run standard_run;
             thread_min_max := run_thread_min_max standard_run |} t0
        = Some (Ok (stf, t')) /\
        max <= natQ (length (samples stf)) /\
        thread_min_max stf = run_thread_min_max standard_run ++ more /\
        length (run_thread_min_max standard_run) = ninit toy_settings /\
        Forall (fun p => fst p = NaN) (run_thread_min_max standard_run) /\
        length more = (passes * nbatch toy_settings)%nat /\
        r0 = with_settings toy_settings
               (dict_given_samples_array (samples stf) (thread_min_max stf)) /\
        run_settings r0 = Some toy_settings
  | _ => False
  end.
Proof.
  destruct (generate_dynamic_run 3 toy_settings toy_tape)
    as [[[r0 t'] | e] |] eqn:E.
  - apply (@dynamic_run_threads RatLib ToyAu 3 toy_settings toy_tape r0 t'
             argsort_stable_contract E).
  - vm_compute in E. discriminate.
  - vm_compute in E. discriminate.
Defined.

(** ** Estimators: means and credible intervals stay within the values *)

Lemma broadcast_same_length {A B C : Type} (f : A -> B -> result C)
  (a : list A) (b : list B) :
  length b = length a -> broadcast f a b = zipM f a b.
Proof.
  intro Hlen. unfold broadcast. rewrite Hlen, Nat.eqb_refl. reflexivity.
Qed.

Lemma weighted_sum_between (lo hi : Q) (w : list Q) :
  forall v,
    length v = length w ->
    Forall (Qlt 0) w ->
    Forall (fun x => lo <= x <= hi) v ->
    exists wv,
      zipM (fun x y => Ok (x * y)) w v = Ok wv /\
      lo * sumQ w <= sumQ wv <= hi * sumQ w.
Proof.
  induction w as [| x w IH]; intros [| y v] Hlen Hw Hv; simpl in Hlen;
    try discriminate.
  - exists []. split; [reflexivity|]. simpl. lra.
  - inversion Hw; subst. inversion Hv; subst.
    destruct (IH v) as [wv [Hz Hb]]; [lia | assumption | assumption |].
    exists (x * y :: wv). simpl. rewrite Hz. split; [reflexivity|].
    simpl. nra.
Qed.

Lemma relative_weights_pos `{NumLib} (logw : list Q) (m : Q) :
  (forall x, 0 < np_exp x) ->
  Forall (Qlt 0) (map (fun x => np_exp (x - m)) logw).
Proof.
  intro Hexp. rewrite Forall_map. apply Forall_forall. intros x _. apply Hexp.
Qed.

(** A weighted mean of values in [[lo, hi]] is in [[lo, hi]]. *)
Lemma weighted_mean_between `{NumLib} (logw values : list Q) (lo hi : Q) :
  (forall x, 0 < np_exp x) ->
  logw <> [] ->
  length values = length logw ->
  Forall (fun x => lo <= x <= hi) values ->
  exists m, weighted_mean logw (Ok values) = Ok m /\ lo <= m <= hi.
Proof.
  intros Hexp Hne Hlen Hv. unfold weighted_mean.
  destruct (np_max logw) as [top | e] eqn:Htop.
  2:{ destruct logw; [congruence | discriminate]. }
  cbn [bind].
  set (w := map (fun x => np_exp (x - top)) logw).
  assert (Hw : Forall (Qlt 0) w) by (apply relative_weights_pos; exact Hexp).
  assert (Hwl : length values = length w) by (subst w; rewrite length_map; exact Hlen).
  rewrite (broadcast_same_length _ w values Hwl).
  destruct (weighted_sum_between lo hi w values Hwl Hw Hv) as [wv [Hz Hb]].
  rewrite Hz. cbn [bind].
  assert (Hs : 0 < sumQ w).
  { apply sumQ_pos; [| exact Hw]. subst w. destruct logw; [congruence | discriminate]. }
  rewrite fdiv_ok by lra. eexists. split; [reflexivity|]. split.
  - apply Qle_shift_div_l; lra.
  - apply Qle_shift_div_r; lra.
Qed.

(** X14. With a positive exponential and one value per weight, the mean
    estimators return, and what they return lies between any two bounds of
    the values they average: [rMeanEstimator] over the [r] column,
    [paramMeanEstimator] over its column of [theta]. *)
Theorem mean_estimators_between `{NumLib} (logw : list Q) (ns_run : run)
  (lo hi : Q) :
  (forall x, 0 < np_exp x) ->
  logw <> [] ->
  (length (run_r ns_run) = length logw ->
   Forall (fun x => lo <= x <= hi) (run_r ns_run) ->
   exists m, estimator rMeanEstimator logw ns_run = Ok m /\ lo <= m <= hi) /\
  (forall param_ind col,
      column (run_theta ns_run) (param_ind - 1) = Ok col ->
      length col = length logw ->
      Forall (fun x => lo <= x <= hi) col ->
      exists m, estimator (paramMeanEstimator param_ind) logw ns_run = Ok m /\
                lo <= m <= hi).
Proof.
  intros Hexp Hne. split.
  - intros Hlen Hv. simpl. apply weighted_mean_between; assumption.
  - intros k col Hcol Hlen Hv. simpl. rewrite Hcol.
    apply weighted_mean_between; assumption.
Qed.

Lemma mean_estimators_between_witness :
  (length (run_r toy_run) = length [-2; -1; 0] ->
   Forall (fun x => 1 <= x <= 3) (run_r toy_run) ->
   exists m, estimator rMeanEstimator [-2; -1; 0] toy_run = Ok m /\
             1 <= m <= 3) /\
  (forall param_ind col,
      column (run_theta toy_run) (param_ind - 1) = Ok col ->
      length col = length [-2; -1; 0] ->
      Forall (fun x => 1 <= x <= 3) col ->
      exists m, estimator (paramMeanEstimator param_ind) [-2; -1; 0] toy_run
                = Ok m /\ 1 <= m <= 3).
Proof.
  apply (@mean_estimators_between RatLib [-2; -1; 0] toy_run 1 3).
  - exact rat_exp_pos.
  - discriminate.
Defined.

Lemma last_in_or_default (l : list Q) (y : Q) :
  last l y = y \/ In (last l y) l.
Proof.
  destruct l as [| a l]; [left; reflexivity|]. right.
  revert a. induction l as [| b l IH]; intro a; [left; reflexivity|].
  right. change (last (a :: b :: l) y) with (last (b :: l) y). apply IH.
Qed.

Lemma sorted_le_last (l : list Q) (y : Q) :
  Sorted Qle (y :: l) -> y <= last l y.
Proof.
  intro Hs. apply Sorted_StronglySorted in Hs.
  2:{ intros a b c Hab Hbc. lra. }
  inversion Hs as [| ? ? _ Hall]; subst.
  destruct (last_in_or_default l y) as [Heq | Hin].
  - rewrite Heq. lra.
  - rewrite Forall_forall in Hall. apply Hall. exact Hin.
Qed.

Lemma last_cons_default (l : list Q) :
  forall y d, last (y :: l) d = last l y.
Proof.
  induction l as [| a l IH]; intros y d; [reflexivity|].
  change (last (y :: a :: l) d) with (last (a :: l) d).
  rewrite (IH a d), (IH a y). reflexivity.
Qed.

Lemma interp_from_upper (x : Q) (xp : list Q) :
  forall fp x0 y0 v,
    interp_from x x0 y0 xp fp = Ok v ->
    x0 <= x ->
    Sorted Qlt (x0 :: xp) ->
    Sorted Qle (y0 :: fp) ->
    v <= last fp y0.
Proof.
  induction xp as [| x1 xp IH]; intros fp x0 y0 v Hi Hx0 Hxs Hys;
    destruct fp as [| y1 fp]; simpl in Hi; try discriminate.
  - inversion Hi; subst. simpl. lra.
  - pose proof (sorted_le_last (y1 :: fp) y0 Hys) as Hlast0.
    apply Sorted_inv in Hxs. destruct Hxs as [Hxs Hx01].
    apply Sorted_inv in Hys. destruct Hys as [Hys Hy01].
    apply HdRel_inv in Hx01. apply HdRel_inv in Hy01.
    pose proof (sorted_le_last fp y1 Hys) as Hlast1.
    assert (Hsame : last (y1 :: fp) y0 = last fp y1)
      by apply last_cons_default.
    rewrite Hsame.
    destruct (Qltb x x1) eqn:E.
    + apply Qltb_lt in E. rewrite fdiv_ok in Hi by lra. inversion Hi; subst.
      pose proof (segment_bounds x0 x1 y0 y1 x) as Hb.
      assert (y0 <= (y1 - y0) / (x1 - x0) * (x - x0) + y0 <= y1)
        by (apply Hb; lra).
      lra.
    + apply Qltb_ge in E.
      apply (IH fp x1 y1 v Hi E Hxs Hys).
Qed.

(** [np.interp] on an increasing grid stays between the first and the last
    of its non-decreasing values. *)
Lemma np_interp_within (p : Q) (xp fp : list Q) (v : Q) :
  Sorted Qlt xp ->
  Sorted Qle fp ->
  np_interp p xp fp = Ok v ->
  exists lo hi, In lo fp /\ In hi fp /\ lo <= v <= hi.
Proof.
  intros Hxs Hys Hv. unfold np_interp in Hv.
  destruct (negb (length xp =? length fp)%nat); [discriminate|].
  destruct xp as [| x0 xp]; [discriminate|].
  destruct fp as [| y0 fp]; [discriminate|].
  destruct (Qltb p x0) eqn:E.
  - inversion Hv; subst. exists v, v. simpl. repeat split; auto; lra.
  - apply Qltb_ge in E.
    exists y0, (last fp y0). split; [left; reflexivity|]. split.
    + destruct (last_in_or_default fp y0) as [Heq | Hin];
        [rewrite Heq; left; reflexivity | right; exact Hin].
    + split.
      * apply (interp_from_lower p xp fp x0 y0 v Hv E Hxs Hys).
      * apply (interp_from_upper p xp fp x0 y0 v Hv E Hxs Hys).
Qed.

Lemma assign_column_in (n : nat) (values col : list Q) :
  assign_column n values = Ok col -> Forall (fun a => In a values) col.
Proof.
  unfold assign_column. destruct (length values =? n)%nat.
  - intro Hc. inversion Hc; subst. apply Forall_forall. auto.
  - destruct values as [| v [| ? ?]]; intro Hc; inversion Hc.
    apply Forall_forall. intros a Ha. apply repeat_spec in Ha. subst a.
    left. reflexivity.
Qed.

Lemma cred_table_values `{NumLib} (logw values xp fp : list Q) :
  cred_table logw (Ok values) = Ok (xp, fp) ->
  Forall (fun a => In a values) fp.
Proof.
  unfold cred_table. intro Ht.
  bind_split Ht as m Hm. bind_split Ht as values' Hv. inversion Hv; subst values'.
  bind_split Ht as col Hcol. bind_split Ht as ws Hws.
  bind_split Ht as vs Hvs. bind_split Ht as w0 Hw0.
  bind_split Ht as cdf' Hcdf. inversion Ht; subst cdf' vs. clear Ht.
  apply take_in in Hvs. apply assign_column_in in Hcol.
  rewrite Forall_forall in Hcol.
  eapply Forall_impl; [| exact Hvs]. intros a Ha. apply Hcol. exact Ha.
Qed.

Lemma cred_estimate_within `{NumLib} (p : Q) (logw values : list Q) (v : Q) :
  (forall x, 0 < np_exp x) ->
  argsort_contract np_argsort ->
  cred_estimate p logw (Ok values) = Ok v ->
  exists lo hi, In lo values /\ In hi values /\ lo <= v <= hi.
Proof.
  intros Hexp Hc Hv. rewrite cred_estimate_table in Hv.
  destruct (cred_table logw (Ok values)) as [[xp fp] | e] eqn:Ht;
    [| discriminate].
  cbn [bind] in Hv.
  destruct (cred_table_spec Hexp Hc logw (Ok values) xp fp Ht)
    as [_ [_ [Hxs Hys]]].
  pose proof (cred_table_values logw values xp fp Ht) as Hin.
  rewrite Forall_forall in Hin.
  destruct (np_interp_within p xp fp v Hxs Hys Hv) as [lo [hi [Hlo [Hhi Hb]]]].
  exists lo, hi. auto.
Qed.

(** X15. With a positive exponential and an [np.argsort] that meets its
    contract, a credible interval that an estimator returns lies between
    two of the values it is computed from, whatever the probability:
    [rCredEstimator] between two entries of [r], [paramCredEstimator]
    between two entries of its column of [theta]. *)
Theorem credible_interval_within `{NumLib} (p : Q) (logw : list Q)
  (ns_run : run) :
  (forall x, 0 < np_exp x) ->
  argsort_contract np_argsort ->
  (forall v,
      estimator (rCredEstimator p) logw ns_run = Ok v ->
      exists lo hi, In lo (run_r ns_run) /\ In hi (run_r ns_run) /\
                    lo <= v <= hi) /\
  (forall param_ind col v,
      column (run_theta ns_run) (param_ind - 1) = Ok col ->
      estimator (paramCredEstimator p param_ind) logw ns_run = Ok v ->
      exists lo hi, In lo col /\ In hi col /\ lo <= v <= hi).
Proof.
  intros Hexp Hc. split.
  - intros v Hv. simpl in Hv. apply (cred_estimate_within p logw _ v Hexp Hc Hv).
  - intros k col v Hcol Hv. simpl in Hv. rewrite Hcol in Hv.
    apply (cred_estimate_within p logw _ v Hexp Hc Hv).
Qed.

Lemma credible_interval_within_witness :
  (forall v,
      estimator (rCredEstimator (1 # 4)) [-2; -1; 0] toy_run = Ok v ->
      exists lo hi, In lo (run_r toy_run) /\ In hi (run_r toy_run) /\
                    lo <= v <= hi) /\
  (forall param_ind col v,
      column (run_theta toy_run) (param_ind - 1) = Ok col ->
      estimator (paramCredEstimator (1 # 4) param_ind) [-2; -1; 0] toy_run
      = Ok v ->
      exists lo hi, In lo col /\ In hi col /\ lo <= v <= hi).
Proof.
  apply (@credible_interval_within RatLib (1 # 4) [-2; -1; 0] toy_run).
  - exact rat_exp_pos.
  - exact argsort_stable_contract.
Defined.

(** ** Estimators: the second moment *)

Lemma normalised_sum (S : Q) (w : list Q) :
  ~ S == 0 ->
  forall c,
    length c = length w ->
    exists a b,
      zipM (fun x y => Ok (x * (y * y))) (map (fun x => x / S) w) c = Ok a /\
      zipM (fun x y => Ok (x * y)) w (map (fun y => y * y) c) = Ok b /\
      sumQ a == sumQ b / S.
Proof.
  intro HS. induction w as [| x w IH]; intros [| y c] Hlen; simpl in Hlen;
    try discriminate.
  - exists [], []. split; [reflexivity | split; [reflexivity|]].
    simpl. field; exact HS.
  - destruct (IH c) as [a [b [Ha [Hb Hab]]]]; [lia|].
    exists (x / S * (y * y) :: a), (x * (y * y) :: b).
    simpl. rewrite Ha, Hb. split; [reflexivity | split; [reflexivity|]].
    simpl. rewrite Hab. field; exact HS.
Qed.

(** X16. With a positive exponential, what [paramSquaredMeanEstimator]
    returns is never negative; with one parameter value per weight it
    returns for every non-empty run, and normalising the weights before the
    sum, as it does, gives the weighted mean of the squares, which the mean
    estimators would compute by dividing after the sum. *)
Theorem squared_mean_estimator `{NumLib} (param_ind : Z) (logw : list Q)
  (ns_run : run) (col : list Q) :
  (forall x, 0 < np_exp x) ->
  column (run_theta ns_run) (param_ind - 1) = Ok col ->
  (forall q, estimator (paramSquaredMeanEstimator param_ind) logw ns_run = Ok q ->
             0 <= q) /\
  (logw <> [] -> length col = length logw ->
   exists q m,
     estimator (paramSquaredMeanEstimator param_ind) logw ns_run = Ok q /\
     weighted_mean logw (Ok (map (fun y => y * y) col)) = Ok m /\
     q == m).
Proof.
  intros Hexp Hcol. split.
  - intros q Hq. simpl in Hq. bind_split Hq as top Htop.
    bind_split Hq as w' Hw'. rewrite Hcol in Hq. cbn [bind] in Hq.
    bind_split Hq as wv Hwv. inversion Hq; subst q.
    set (w := map (fun x => np_exp (x - top)) logw) in *.
    assert (Hw : Forall (Qle 0) w).
    { eapply Forall_impl; [| apply (relative_weights_pos logw top Hexp)].
      intros a Ha. apply Qlt_le_weak. exact Ha. }
    assert (Hw0 : Forall (Qle 0) w').
    { eapply (mapM_Forall (fun x => fdiv x (sumQ w)) (Qle 0) (Qle 0));
        [| exact Hw | exact Hw'].
      intros x y Hx Hy. eapply fdiv_nonneg; [exact Hx | | exact Hy].
      apply sumQ_nonneg. exact Hw. }
    apply sumQ_nonneg.
    eapply (broadcast_Forall (fun x y => Ok (x * (y * y))) (Qle 0)
              (fun _ => True) (Qle 0)); [| exact Hw0 | | exact Hwv].
    + intros x y z Hx _ Hz. inversion Hz; subst.
      apply Qmult_le_0_compat; [exact Hx | nra].
    + apply Forall_forall. auto.
  - intros Hne Hlen. simpl. unfold weighted_mean.
    destruct (np_max logw) as [top | e] eqn:Htop.
    2:{ destruct logw; [congruence | discriminate]. }
    cbn [bind]. rewrite Hcol. cbn [bind].
    set (w := map (fun x => np_exp (x - top)) logw).
    assert (Hw : Forall (Qlt 0) w) by (apply relative_weights_pos; exact Hexp).
    assert (Hs : 0 < sumQ w).
    { apply sumQ_pos; [| exact Hw]. subst w.
      destruct logw; [congruence | discriminate]. }
    assert (Hwl : length col = length w)
      by (subst w; rewrite length_map; exact Hlen).
    rewrite div_all_ok by lra. cbn [bind].
    rewrite broadcast_same_length by (rewrite length_map; exact Hwl).
    rewrite broadcast_same_length by (rewrite length_map; exact Hwl).
    destruct (normalised_sum (sumQ w) w) with (c := col) as [a [b [Ha [Hb Hab]]]];
      [lra | exact Hwl |].
    rewrite Ha, Hb. cbn [bind]. rewrite fdiv_ok by lra.
    exists (sumQ a), (sumQ b / sumQ w).
    split; [reflexivity | split; [reflexivity | exact Hab]].
Qed.

Lemma squared_mean_estimator_witness :
  (forall q, estimator (paramSquaredMeanEstimator 1) [-2; -1; 0] toy_run = Ok q ->
             0 <= q) /\
  ([-2; -1; 0] <> [] -> length [3; -1; 2] = length [-2; -1; 0] ->
   exists q m,
     estimator (paramSquaredMeanEstimator 1) [-2; -1; 0] toy_run = Ok q /\
     weighted_mean [-2; -1; 0] (Ok (map (fun y => y * y) [3; -1; 2])) = Ok m /\
     q == m).
Proof.
  apply (@squared_mean_estimator RatLib 1 [-2; -1; 0] toy_run [3; -1; 2]).
  - exact rat_exp_pos.
  - reflexivity.
Defined.

(** ** Analytic reference values: the table *)

Lemma dict_fold_other {V : Type} (l : list (string * V)) (k : string) :
  ~ In k (map fst l) ->
  forall d, dict_get (fold_left (fun d p => dict_set d (fst p) (snd p)) l d) k
            = dict_get d k.
Proof.
  induction l as [| [k0 v0] l IH]; intros Hk d; simpl; [reflexivity|].
  simpl in Hk. rewrite IH by tauto.
  apply dict_get_set_other. intro Heq. apply Hk. left. exact Heq.
Qed.

Lemma dict_fold_get {V : Type} (keys : list string) :
  NoDup keys ->
  forall (vals : list V) d k v,
    In (k, v) (combine keys vals) ->
    dict_get (fold_left (fun d p => dict_set d (fst p) (snd p))
                (combine keys vals) d) k = Some v.
Proof.
  induction 1 as [| k0 keys Hk0 Hnd IH]; intros [| v0 vals] d k v Hin;
    simpl in Hin; try contradiction.
  simpl. destruct Hin as [Heq | Hin].
  - inversion Heq; subst k v.
    rewrite dict_fold_other; [apply dict_get_set_same|].
    intro Hin. apply Hk0.
    apply in_map_iff in Hin. destruct Hin as [[k1 v1] [Hk1 Hin]].
    simpl in Hk1. subst k1. apply in_combine_l in Hin. exact Hin.
  - apply IH. exact Hin.
Qed.

Lemma lookup_columns {V : Type} (D : list (string * V)) (keys : list string) :
  forall vals,
    length vals = length keys ->
    (forall k v, In (k, v) (combine keys vals) -> dict_get D k = Some v) ->
    mapM (fun k => match dict_get D k with
                   | Some v => Ok (k, v)
                   | None => Raise IndexError
                   end) keys = Ok (combine keys vals).
Proof.
  induction keys as [| k keys IH]; intros [| v vals] Hlen Hget; simpl in Hlen;
    try discriminate; [reflexivity|].
  simpl. rewrite (Hget k v) by (left; reflexivity). cbn [bind].
  rewrite (IH vals); [reflexivity | lia |].
  intros k1 v1 Hin. apply Hget. right. exact Hin.
Qed.

(** The loop fills the dict with the reference values in order. *)
Lemma true_values_loop_fold `{NumLib} `{PyLib} (s : Settings)
  (ests : list Estimator) :
  forall output cols,
    true_values_loop ests s output cols
    = (vals <- mapM (reference_value s) ests ;;
       Ok (fold_left (fun d p => dict_set d (fst p) (snd p))
             (combine (map name ests) vals) output,
           cols ++ map name ests)).
Proof.
  induction ests as [| est ests IH]; intros output cols; simpl.
  - rewrite app_nil_r. reflexivity.
  - unfold reference_value at 1.
    destruct (analytical est s) as [v | [a | | | | | |]]; cbn [bind];
      try reflexivity;
      rewrite IH; destruct (mapM (reference_value s) ests) as [vals | e];
      cbn [bind]; try reflexivity;
      simpl; rewrite <- app_assoc; reflexivity.
Qed.

(** X17. For estimators with pairwise distinct names,
    [get_true_estimator_values] returns one column per estimator, in the
    order of the list, holding its analytic value or [nan] when
    [analytical] is missing or fails an assertion; it raises exactly when
    some [analytical] raises anything else, and then raises the first such
    exception. *)
Theorem true_values_table `{NumLib} `{PyLib} (s : Settings)
  (ests : list Estimator) :
  NoDup (map name ests) ->
  get_true_estimator_values ests s
  = (vals <- mapM (reference_value s) ests ;;
     Ok (combine (map name ests) vals)).
Proof.
  intro Hnd. unfold get_true_estimator_values.
  rewrite true_values_loop_fold.
  destruct (mapM (reference_value s) ests) as [vals | e] eqn:Hv; cbn [bind];
    [| reflexivity].
  apply mapM_length in Hv.
  apply lookup_columns; [rewrite length_map; exact Hv|].
  intros k v Hin. apply dict_fold_get; assumption.
Qed.

Lemma true_values_table_witness :
  get_true_estimator_values
    [logzEstimator; nSamplesEstimator; rMeanEstimator] toy_settings
  = (vals <- mapM (reference_value toy_settings)
               [logzEstimator; nSamplesEstimator; rMeanEstimator] ;;
     Ok (combine (map name [logzEstimator; nSamplesEstimator; rMeanEstimator])
           vals)).
Proof.
  apply (@true_values_table RatLib RatPy toy_settings
           [logzEstimator; nSamplesEstimator; rMeanEstimator]).
  repeat constructor; simpl; intuition discriminate.
Defined.

(** X18. Off the median, [paramCredEstimator.analytical] fails its
    assertion exactly when the likelihood is not ['gaussian'] or the prior
    is neither ['gaussian'] nor ['gaussian_cached'], and the table of true
    values then holds [nan] for it; the value does not depend on
    [param_ind]. *)
Theorem cred_analytical_gaussian_only `{NumLib} `{PyLib} (s : Settings) (p : Q)
  (param_ind : Z) :
  ~ p == 1 # 2 ->
  let gaussian :=
    likelihood_name s = "gaussian"%string /\
    (prior_name s = "gaussian"%string \/
     prior_name s = "gaussian_cached"%string) in
  (analytical (paramCredEstimator p param_ind) s
   = Raise (AssertionError AssertGaussian) <-> ~ gaussian) /\
  (~ gaussian -> reference_value s (paramCredEstimator p param_ind) = Ok NaN) /\
  (forall param_ind',
      analytical (paramCredEstimator p param_ind') s
      = analytical (paramCredEstimator p param_ind) s).
Proof.
  intros Hp gaussian.
  assert (Hb : Qeq_bool p (1 # 2) = false).
  { destruct (Qeq_bool p (1 # 2)) eqn:E; [| reflexivity].
    apply Qeq_bool_iff in E. contradiction. }
  assert (Hraise : ~ gaussian ->
                   analytical (paramCredEstimator p param_ind) s
                   = Raise (AssertionError AssertGaussian)).
  { intro Hng. simpl. rewrite Hb.
    destruct (String.eqb (likelihood_name s) "gaussian") eqn:El;
      [| reflexivity].
    cbn [assert bind]. unfold is_gaussian_prior.
    destruct (String.eqb (prior_name s) "gaussian") eqn:Ep.
    - exfalso. apply Hng. split; [apply String.eqb_eq, El|].
      left. apply String.eqb_eq, Ep.
    - destruct (String.eqb (prior_name s) "gaussian_cached") eqn:Ec;
        [| reflexivity].
      exfalso. apply Hng. split; [apply String.eqb_eq, El|].
      right. apply String.eqb_eq, Ec. }
  split; [| split].
  - split; [| exact Hraise].
    intros Ha [Hl Hpr]. simpl in Ha. rewrite Hb in Ha.
    apply String.eqb_eq in Hl. rewrite Hl in Ha. cbn [assert bind] in Ha.
    assert (Hg : is_gaussian_prior (prior_name s) = true).
    { unfold is_gaussian_prior. apply orb_true_iff.
      destruct Hpr as [Hpr | Hpr]; [left | right]; apply String.eqb_eq; exact Hpr. }
    rewrite Hg in Ha. cbn [assert bind] in Ha.
    unfold fdiv in Ha.
    destruct (Qeq_bool (likelihood_scale s * likelihood_scale s) 0);
      [discriminate|].
    cbn [bind] in Ha.
    destruct (Qeq_bool (prior_scale s * prior_scale s) 0); discriminate.
  - intro Hng. unfold reference_value. rewrite (Hraise Hng). reflexivity.
  - intro k'. reflexivity.
Qed.

Lemma cred_analytical_gaussian_only_witness :
  let gaussian :=
    likelihood_name toy_settings = "gaussian"%string /\
    (prior_name toy_settings = "gaussian"%string \/
     prior_name toy_settings = "gaussian_cached"%string) in
  (analytical (paramCredEstimator (84 # 100) 1) toy_settings
   = Raise (AssertionError AssertGaussian) <-> ~ gaussian) /\
  (~ gaussian ->
   reference_value toy_settings (paramCredEstimator (84 # 100) 1) = Ok NaN) /\
  (forall param_ind',
      analytical (paramCredEstimator (84 # 100) param_ind') toy_settings
      = analytical (paramCredEstimator (84 # 100) 1) toy_settings).
Proof.
  apply (@cred_analytical_gaussian_only RatLib RatPy toy_settings (84 # 100) 1).
  discriminate.
Defined.

(** ** The earlier revision never returns a run or a thread *)

Lemma npns_body_threads `{NumLib} (s : Settings) (nlive : nat) (logtrapz : Q)
  (st st' : Npns.state) (d : Q) :
  Npns.body s nlive logtrapz st d = Ok st' ->
  length (Npns.threads st') = length (Npns.threads st).
Proof.
  unfold Npns.body. intro Hb.
  bind_split Hb as ind Hind. bind_split Hb as dying Hdying.
  bind_split Hb as th Hth. bind_split Hb as stp Hstp.
  bind_split Hb as lzl Hlzl. inversion Hb; subst. simpl.
  apply set_nth_length.
Qed.

Lemma npns_loop_threads `{NumLib} (s : Settings) (nlive : nat) (logtrapz : Q)
  (t : tape) :
  forall st st' t',
    Npns.loop s nlive logtrapz st t = Ok (st', t') ->
    length (Npns.threads st') = length (Npns.threads st).
Proof.
  induction t as [| d t IH]; intros st st' t' Hl; simpl in Hl;
    destruct (Npns.cond s st); try discriminate.
  - inversion Hl; subst. reflexivity.
  - bind_split Hl as st1 Hb. rewrite (IH _ _ _ Hl).
    eapply npns_body_threads. exact Hb.
  - inversion Hl; subst. reflexivity.
Qed.

(** X19. [generate_standard_run] of the earlier revision never returns:
    whatever the settings, the number of live points and the draws, it
    raises; when the replacement loop comes to its end, what it raises is
    the [TypeError] of [threads[:, 2]] on a list. *)
Theorem npns_standard_run_never_returns `{NumLib} (s : Settings) (nlive : nat)
  (n_calls : nat) (t : tape) :
  exists e,
    Npns.generate_standard_run s nlive n_calls t = Raise e /\
    forall st0 logtrapz t0 st t',
      Npns.init s nlive t = Ok (st0, logtrapz, t0) ->
      Npns.loop s nlive logtrapz st0 t0 = Ok (st, t') ->
      e = TypeError.
Proof.
  unfold Npns.generate_standard_run.
  destruct (Npns.init s nlive t) as [[[st0 logtrapz] t0] | e0] eqn:Hinit;
    cbn [bind].
  2:{ exists e0. split; [reflexivity|]. intros; discriminate. }
  destruct (Npns.loop s nlive logtrapz st0 t0) as [[st t'] | e1] eqn:Hloop;
    cbn [bind].
  2:{ exists e1. split; [reflexivity|].
      intros st0' lt' t0' st' t'' Hi Hl. inversion Hi; subst.
      rewrite Hloop in Hl. discriminate. }
  pose proof (npns_loop_threads s nlive logtrapz t0 st0 st t' Hloop) as Hlen.
  assert (Hth : length (Npns.threads st0) = nlive /\ (1 <= nlive)%nat).
  { unfold Npns.init in Hinit.
    bind_split Hinit as [lxs t1] Hd. bind_split Hinit as l Hl.
    bind_split Hinit as stp Hstp. bind_split Hinit as inv Hinv.
    inversion Hinit; subst. simpl. rewrite repeat_length. split; [reflexivity|].
    apply draws_length in Hd. subst nlive.
    destruct lxs; [discriminate | simpl; lia]. }
  destruct Hth as [Hth Hpos].
  destruct (Npns.threads st) as [| th ths] eqn:Et.
  - simpl in Hlen. lia.
  - exists TypeError. split; [reflexivity | auto].
Qed.

(** X20. Where the later [generate_single_thread] returns a thread, the
    earlier revision raises the [TypeError] of [np.hstack(lrx, ...)] on the
    same arguments and draws; it returns only [None], for the empty
    trajectory, and the two revisions agree there. *)
Theorem npns_single_thread_never_returns_rows (s : Settings)
  (logx_end : option Q) (label : nat) (logx_start : Q) (keep : bool) (t : tape) :
  (forall rows t',
      generate_single_thread s logx_end label logx_start keep t
      = Ok (Some rows, t') ->
      Npns.generate_single_thread s logx_end logx_start keep t
      = Raise TypeError) /\
  (forall t',
      generate_single_thread s logx_end label logx_start keep t = Ok (None, t')
      <-> Npns.generate_single_thread s logx_end logx_start keep t
          = Ok (None, t')) /\
  (forall x t',
      Npns.generate_single_thread s logx_end logx_start keep t = Ok (x, t') ->
      x = None /\ keep = false).
Proof.
  unfold generate_single_thread, Npns.generate_single_thread.
  destruct (match logx_end with
            | Some e => Ok e
            | None => match logx_terminate s with
                      | Some e => Ok e
                      | None => Raise TypeError
                      end
            end) as [e | err]; cbn [bind].
  2:{ repeat split; intros; discriminate. }
  destruct (assert (Qgtb logx_start e) AssertInterval) as [u | err]; cbn [bind].
  2:{ repeat split; intros; discriminate. }
  destruct (generate_thread_logx e logx_start keep t) as [[xs t1] | err] eqn:Hg;
    cbn [bind].
  2:{ repeat split; intros; discriminate. }
  destruct xs as [| x xs]; [simpl | cbn [length Nat.eqb]].
  - split; [intros; discriminate|].
    split; [intro t'; split; intro Hx; inversion Hx; reflexivity|].
    intros x t' Hx. inversion Hx; subst. split; [reflexivity|].
    destruct keep; [| reflexivity].
    unfold generate_thread_logx in Hg. destruct t as [| d t]; [discriminate|].
    simpl in Hg.
    destruct (thread_logx_loop e (logx_start + d) t) as [[rest t2] | err];
      discriminate.
  - split; [intros; reflexivity|]. split.
    + intro t'. split; intro Hx; [| discriminate].
      match type of Hx with
      | context [combine_rows ?a ?b ?c ?d ?e ?f] =>
          destruct (combine_rows a b c d e f)
      end; cbn [bind] in Hx; discriminate.
    + intros; discriminate.
Qed.

(** ** Parallelised wrappers *)

Import Wrappers.

Lemma dict_get_none_without (kw : kwargs) (k : string) :
  dict_get kw k = None -> without k kw = kw.
Proof.
  unfold without. induction kw as [| [k' v'] kw IH]; simpl; [reflexivity|].
  destruct (String.eqb k' k) eqn:E; [discriminate|]. simpl.
  intro Hn. f_equal. apply IH. exact Hn.
Qed.

Lemma pop_spec (kw : kwargs) (k : string) (default : pyval) :
  pop kw k default = (kwarg kw k default, without k kw).
Proof.
  unfold pop, kwarg. destruct (dict_get kw k) eqn:E; [reflexivity|].
  rewrite (dict_get_none_without kw k E). reflexivity.
Qed.

Lemma dict_get_without_other (kw : kwargs) (k k' : string) :
  k <> k' -> dict_get (without k' kw) k = dict_get kw k.
Proof.
  intro Hne. unfold without. induction kw as [| [k0 v0] kw IH]; simpl;
    [reflexivity|].
  destruct (String.eqb k0 k') eqn:E'; simpl.
  - apply String.eqb_eq in E'. subst k0.
    destruct (String.eqb k' k) eqn:E; [| exact IH].
    apply String.eqb_eq in E. congruence.
  - destruct (String.eqb k0 k); [reflexivity | exact IH].
Qed.

Lemma kwarg_without_other (kw : kwargs) (k k' : string) (default : pyval) :
  k <> k' -> kwarg (without k' kw) k default = kwarg kw k default.
Proof.
  intro Hne. unfold kwarg. rewrite dict_get_without_other by exact Hne.
  reflexivity.
Qed.

Lemma in_without (kw : kwargs) (k' : string) (p : string * pyval) :
  In p (without k' kw) <-> In p kw /\ fst p <> k'.
Proof.
  unfold without. rewrite filter_In. split; intros [Hin Hk]; split; auto.
  - intro Heq. apply String.eqb_eq in Heq. rewrite Heq in Hk. discriminate.
  - destruct (String.eqb (fst p) k') eqn:E; [| reflexivity].
    apply String.eqb_eq in E. contradiction.
Qed.

Lemma collect_returns {A : Type} (l : list (outcome A)) (out : list A) :
  collect l = Return out <-> l = map Return out.
Proof.
  revert out. induction l as [| m l IH]; intro out; simpl.
  - split; intro Hc.
    + inversion Hc. reflexivity.
    + destruct out; [reflexivity | discriminate].
  - destruct m as [a | e]; simpl.
    + destruct (collect l) as [rest | e] eqn:Hr; simpl.
      * split; intro Hc.
        -- inversion Hc; subst. simpl. f_equal. apply IH. reflexivity.
        -- destruct out as [| b out]; [discriminate|]. simpl in Hc.
           inversion Hc; subst. f_equal. f_equal.
           assert (Hm : Return rest = Return out) by (apply IH; reflexivity).
           inversion Hm. reflexivity.
      * split; intro Hc; [discriminate|].
        destruct out as [| b out]; [discriminate|]. simpl in Hc.
        inversion Hc; subst.
        assert (Hm : @Throw (list A) e = Return out) by (apply IH; reflexivity).
        discriminate.
    + split; intro Hc; [discriminate|].
      destruct out; discriminate.
Qed.

Lemma collect_map_return {A : Type} (out : list A) :
  collect (map Return out) = Return out.
Proof. apply collect_returns. reflexivity. Qed.

Lemma without_dict_set_same (kw : kwargs) (k : string) (v : pyval) :
  without k (dict_set kw k v) = without k kw.
Proof.
  unfold without. induction kw as [| [k0 v0] kw IH]; simpl.
  - rewrite String.eqb_refl. reflexivity.
  - destruct (String.eqb k0 k) eqn:E; simpl; rewrite E; simpl;
      [reflexivity | f_equal; exact IH].
Qed.

Lemma without_comm (a b : string) (kw : kwargs) :
  without a (without b kw) = without b (without a kw).
Proof.
  unfold without. induction kw as [| [k0 v0] kw IH]; simpl; [reflexivity|].
  destruct (String.eqb k0 b) eqn:Eb; destruct (String.eqb k0 a) eqn:Ea; simpl;
    rewrite ?Ea, ?Eb; simpl; rewrite ?IH; reflexivity.
Qed.

Lemma stack_columns (arrays : list (list Q)) (m : nat) :
  arrays <> [] ->
  Forall (fun a => length a = m) arrays ->
  exists arr,
    np_stack_axis1 arrays = Return arr /\
    shape arr = (m, length arrays) /\
    length (rows arr) = m /\
    forall i j a,
      (i < m)%nat ->
      nth_error arrays j = Some a ->
      exists row,
        nth_error (rows arr) i = Some row /\
        length row = length arrays /\
        nth_error row j = nth_error a i.
Proof.
  intros Hne Hall. destruct arrays as [| a0 rest]; [congruence|].
  unfold np_stack_axis1.
  assert (Ha0 : length a0 = m) by (inversion Hall; assumption).
  assert (Hsame : forallb (fun b => (length b =? length a0)%nat) rest = true).
  { apply forallb_forall. intros b Hb. apply Nat.eqb_eq.
    rewrite Forall_forall in Hall. rewrite Ha0. apply Hall. right. exact Hb. }
  rewrite Hsame. eexists. split; [reflexivity|]. cbn [shape rows].
  rewrite Ha0. split; [reflexivity|].
  split; [rewrite length_map, length_seq; reflexivity|].
  intros i j a Hi Hj.
  exists (map (fun b => nth i b 0) (a0 :: rest)). split; [| split].
  - rewrite nth_error_map, nth_error_seq.
    apply Nat.ltb_lt in Hi. rewrite Hi. reflexivity.
  - apply length_map.
  - rewrite nth_error_map, Hj. simpl.
    assert (Hla : length a = m).
    { rewrite Forall_forall in Hall. apply Hall. eapply nth_error_In. exact Hj. }
    symmetry. apply nth_error_nth'. lia.
Qed.

(** X21. Run without the pool and without [results_as_list], on a list of
    runs that is not empty and with a [single_run_func] that returns an array
    of [m] entries for each run, [func_on_runs] returns an [m] by
    [len(run_list)] array whose column [j] is the result for run [j]: entry
    [(i, j)] is entry [i] of that result.  On an empty list of runs it raises
    the [ValueError] of [np.stack]. *)
Theorem func_on_runs_columns `{Pool}
  (single_run_func : run -> list Estimator -> kwargs -> outcome (list Q))
  (run_list : list run) (estimator_list : list Estimator) (kw : kwargs)
  (m : nat) :
  truthy (kwarg kw "parallelise" (PyBool true)) = false ->
  truthy (kwarg kw "results_as_list" (PyBool false)) = false ->
  (forall r0, In r0 run_list ->
              exists a, single_run_func r0 estimator_list (passed_on kw)
                        = Return a /\ length a = m) ->
  (run_list = [] ->
   func_on_runs single_run_func run_list estimator_list kw
   = Throw (Core ValueError)) /\
  (run_list <> [] ->
   exists arr,
     func_on_runs single_run_func run_list estimator_list kw
     = Return (ResultsArray arr) /\
     shape arr = (m, length run_list) /\
     length (rows arr) = m /\
     forall i j r0 a,
       (i < m)%nat ->
       nth_error run_list j = Some r0 ->
       single_run_func r0 estimator_list (passed_on kw) = Return a ->
       exists row,
         nth_error (rows arr) i = Some row /\
         nth_error row j = nth_error a i).
Proof.
  intros Hpar Hlist Hf. unfold func_on_runs.
  rewrite !pop_spec.
  rewrite (kwarg_without_other kw "parallelise" "max_workers") by discriminate.
  rewrite !(kwarg_without_other _ "results_as_list") by discriminate.
  rewrite Hpar, Hlist. fold (passed_on kw).
  split.
  - intros ->. reflexivity.
  - intro Hne.
    assert (Hres : exists arrays,
               map (fun r0 => single_run_func r0 estimator_list (passed_on kw))
                 run_list = map Return arrays /\
               length arrays = length run_list /\
               Forall (fun a => length a = m) arrays /\
               forall j r0 a,
                 nth_error run_list j = Some r0 ->
                 single_run_func r0 estimator_list (passed_on kw) = Return a ->
                 nth_error arrays j = Some a).
    { clear Hne. induction run_list as [| r1 rl IH].
      - exists []. repeat split; [constructor|].
        intros [| j] r0 a Hj; discriminate.
      - destruct (Hf r1 (or_introl eq_refl)) as [a1 [Ha1 Hl1]].
        destruct IH as [arrays [Hmap [Hlen [Hall Hnth]]]].
        { intros r0 Hin. apply Hf. right. exact Hin. }
        exists (a1 :: arrays). simpl. rewrite Ha1, Hmap.
        split; [reflexivity|]. split; [f_equal; exact Hlen|].
        split; [constructor; assumption|].
        intros [| j] r0 a Hj Ha; simpl in Hj.
        + inversion Hj; subst r0. rewrite Ha1 in Ha. inversion Ha. reflexivity.
        + simpl. eapply Hnth; eassumption. }
    destruct Hres as [arrays [Hmap [Hlen [Hall Hnth]]]].
    rewrite Hmap, collect_map_return. cbn [obind].
    assert (Hane : arrays <> []).
    { intro Hnil. subst arrays. destruct run_list; [congruence | discriminate]. }
    destruct (stack_columns arrays m Hane Hall) as [arr [Hs [Hsh [Hrows Hent]]]].
    rewrite Hs. cbn [obind]. exists arr. split; [reflexivity|].
    rewrite Hlen in Hsh. split; [exact Hsh|]. split; [exact Hrows|].
    intros i j r0 a Hi Hj Ha.
    destruct (Hent i j a Hi (Hnth j r0 a Hj Ha)) as [row [Hrow [_ Hrj]]].
    exists row. split; assumption.
Qed.

Lemma func_on_runs_columns_witness :
  let f := fun (r0 : run) (_ : list Estimator) (_ : kwargs) =>
             Return (run_r r0) in
  let kw := [("parallelise"%string, PyBool false)] in
  ([toy_run; toy_run] = [] ->
   @func_on_runs orderly_pool f [toy_run; toy_run] [] kw
   = Throw (Core ValueError)) /\
  ([toy_run; toy_run] <> [] ->
   exists arr,
     @func_on_runs orderly_pool f [toy_run; toy_run] [] kw
     = Return (ResultsArray arr) /\
     shape arr = (3%nat, length [toy_run; toy_run]) /\
     length (rows arr) = 3%nat /\
     forall i j r0 a,
       (i < 3)%nat ->
       nth_error [toy_run; toy_run] j = Some r0 ->
       f r0 [] (passed_on kw) = Return a ->
       exists row,
         nth_error (rows arr) i = Some row /\
         nth_error row j = nth_error a i).
Proof.
  intros f kw.
  apply (@func_on_runs_columns orderly_pool f [toy_run; toy_run] [] kw 3).
  - reflexivity.
  - reflexivity.
  - intros r0 Hin. exists (run_r r0). split; [reflexivity|].
    destruct Hin as [<- | [<- | []]]; reflexivity.
Defined.

Lemma permutation_returns {A : Type} (l : list (outcome A)) (out : list A) :
  Permutation l (map Return out) ->
  exists out', l = map Return out' /\ Permutation out' out.
Proof.
  intro Hp. apply Permutation_map_inv in Hp.
  destruct Hp as [out' [Hl Hperm]].
  exists out'. split; [exact Hl | apply Permutation_sym; exact Hperm].
Qed.

(** X22. Run through the pool with [results_as_list], when every call
    returns and [as_completed] yields each future once, [func_on_runs]
    returns the results of the calls in the order of completion: a
    permutation of the list it returns without the pool, not that list. *)
Theorem func_on_runs_completion_order `{Pool}
  (single_run_func : run -> list Estimator -> kwargs -> outcome (list Q))
  (run_list : list run) (estimator_list : list Estimator) (kw : kwargs) :
  (forall (A : Type) (l : list A), Permutation (as_completed A l) l) ->
  new_pool (kwarg kw "max_workers" PyNone) = Return tt ->
  truthy (kwarg kw "parallelise" (PyBool true)) = true ->
  truthy (kwarg kw "results_as_list" (PyBool false)) = true ->
  (forall r0, In r0 run_list ->
              exists a, single_run_func r0 estimator_list (passed_on kw)
                        = Return a) ->
  exists completed in_order,
    func_on_runs single_run_func run_list estimator_list kw
    = Return (ResultsList completed) /\
    func_on_runs single_run_func run_list estimator_list
      (dict_set kw "parallelise" (PyBool false))
    = Return (ResultsList in_order) /\
    map Return in_order
    = map (fun r0 => single_run_func r0 estimator_list (passed_on kw)) run_list /\
    Permutation completed in_order.
Proof.
  intros Hperm Hpool Hpar Hlist Hf.
  assert (Hres : exists arrays,
             map (fun r0 => single_run_func r0 estimator_list (passed_on kw))
               run_list = map Return arrays).
  { induction run_list as [| r1 rl IH]; [exists []; reflexivity|].
    destruct (Hf r1 (or_introl eq_refl)) as [a1 Ha1].
    destruct IH as [arrays Hmap].
    { intros r0 Hin. apply Hf. right. exact Hin. }
    exists (a1 :: arrays). simpl. rewrite Ha1, Hmap. reflexivity. }
  destruct Hres as [in_order Hmap].
  destruct (permutation_returns
              (as_completed _ (map Return in_order)) in_order (Hperm _ _))
    as [completed [Hc Hp]].
  exists completed, in_order. split; [| split; [| split]].
  - unfold func_on_runs. rewrite !pop_spec.
    rewrite (kwarg_without_other kw "parallelise" "max_workers") by discriminate.
    rewrite !(kwarg_without_other _ "results_as_list") by discriminate.
    rewrite Hpar, Hlist, Hpool. fold (passed_on kw). cbn [obind].
    rewrite Hmap, Hc, collect_map_return. reflexivity.
  - set (kw' := dict_set kw "parallelise" (PyBool false)).
    assert (Hpassed : passed_on kw' = passed_on kw).
    { unfold passed_on, kw'.
      rewrite (without_comm "parallelise" "max_workers").
      rewrite without_dict_set_same.
      rewrite (without_comm "max_workers" "parallelise"). reflexivity. }
    unfold func_on_runs. rewrite !pop_spec.
    rewrite (kwarg_without_other kw' "parallelise" "max_workers") by discriminate.
    rewrite !(kwarg_without_other _ "results_as_list") by discriminate.
    assert (Hp' : kwarg kw' "parallelise" (PyBool true) = PyBool false).
    { unfold kwarg, kw'. rewrite dict_get_set_same. reflexivity. }
    assert (Hl' : kwarg kw' "results_as_list" (PyBool false)
                  = kwarg kw "results_as_list" (PyBool false)).
    { unfold kwarg, kw'. rewrite dict_get_set_other by discriminate.
      reflexivity. }
    rewrite Hp', Hl', Hlist. fold (passed_on kw'). rewrite Hpassed.
    cbn [truthy obind]. rewrite Hmap, collect_map_return. reflexivity.
  - symmetry. exact Hmap.
  - exact Hp.
Qed.

Lemma func_on_runs_completion_order_witness :
  let f := fun (r0 : run) (_ : list Estimator) (_ : kwargs) =>
             Return (run_logl r0 ++ run_r r0) in
  let kw := [("results_as_list"%string, PyInt 1)] in
  let other := with_settings toy_settings toy_run in
  exists completed in_order,
    @func_on_runs reversing_pool f [toy_run; other] [] kw
    = Return (ResultsList completed) /\
    @func_on_runs reversing_pool f [toy_run; other] []
      (dict_set kw "parallelise" (PyBool false))
    = Return (ResultsList in_order) /\
    map Return in_order = map (fun r0 => f r0 [] (passed_on kw)) [toy_run; other] /\
    Permutation completed in_order.
Proof.
  intros f kw other.
  apply (@func_on_runs_completion_order reversing_pool f [toy_run; other] [] kw).
  - intros A l. apply Permutation_sym, Permutation_rev.
  - reflexivity.
  - reflexivity.
  - reflexivity.
  - intros r0 _. eexists. reflexivity.
Defined.

(** The pool may return the results in another order than the runs. *)
Example func_on_runs_reversed :
  let f := fun (r0 : run) (_ : list Estimator) (_ : kwargs) =>
             Return [natQ (length (run_logl r0))] in
  let short := {| run_settings := None; run_logl := [-1]; run_r := [1];
                  run_logx := [-1]; run_thread_labels := [1%nat];
                  run_theta := [[1]]; run_nlive_array := [1];
                  run_thread_min_max := [(NaN, -1)] |} in
  @func_on_runs reversing_pool f [toy_run; short] [] []
  = Return (ResultsArray {| shape := (1%nat, 2%nat); rows := [[1; 3]] |}) /\
  @func_on_runs reversing_pool f [toy_run; short] []
    [("parallelise"%string, PyBool false)]
  = Return (ResultsArray {| shape := (1%nat, 2%nat); rows := [[3; 1]] |}).
Proof. split; reflexivity. Qed.

(** X23. When [generate_runs] returns, it returns [n_repeat] runs (none
    for [n_repeat <= 0]), one from each call of [generate_ns_run]: in the
    order of the calls when [parallelise is False], and otherwise, for an
    [as_completed] that yields each future once, in some order.  Only the
    object [False] turns the pool off: with any other value the pool is
    created first and what its creation raises is raised. *)
Theorem generate_runs_returns `{Pool} (ns_generate_ns_run : nat -> outcome run)
  (n_repeat : Z) (max_workers parallelise : pyval) :
  (forall (A : Type) (l : list A), Permutation (as_completed A l) l) ->
  let calls := map ns_generate_ns_run (seq 0 (Z.to_nat n_repeat)) in
  (forall run_list,
      generate_runs ns_generate_ns_run n_repeat max_workers parallelise
      = Return run_list ->
      length run_list = Z.to_nat n_repeat /\
      Permutation (map Return run_list) calls /\
      (parallelise = PyBool false -> map Return run_list = calls)) /\
  (parallelise <> PyBool false ->
   forall e, new_pool max_workers = Throw e ->
             generate_runs ns_generate_ns_run n_repeat max_workers parallelise
             = Throw e).
Proof.
  intros Hperm calls. split.
  - intros run_list Hg. unfold generate_runs in Hg. fold calls in Hg.
    assert (Hp : Permutation (map Return run_list) calls /\
                 (parallelise = PyBool false -> map Return run_list = calls)).
    { destruct (is_False parallelise) eqn:Ef.
      - apply collect_returns in Hg. rewrite Hg. split; [apply Permutation_refl|].
        reflexivity.
      - destruct (new_pool max_workers) as [u | e]; [| discriminate].
        cbn [obind] in Hg. apply collect_returns in Hg. split.
        + rewrite <- Hg. apply Hperm.
        + intros ->. discriminate. }
    split; [| exact Hp]. destruct Hp as [Hp _].
    apply Permutation_length in Hp.
    unfold calls in Hp. rewrite !length_map, length_seq in Hp. exact Hp.
  - intros Hpar e Hpool. unfold generate_runs.
    assert (Hf : is_False parallelise = false).
    { destruct parallelise as [[|] | z |]; try reflexivity. congruence. }
    rewrite Hf, Hpool. reflexivity.
Qed.

Lemma generate_runs_returns_witness :
  let job := fun i : nat => Return (if Nat.even i then toy_run
                                    else with_settings toy_settings toy_run) in
  let calls := map job (seq 0 (Z.to_nat 3)) in
  (forall run_list,
      @generate_runs reversing_pool job 3 PyNone (PyInt 0) = Return run_list ->
      length run_list = Z.to_nat 3 /\
      Permutation (map Return run_list) calls /\
      (PyInt 0 = PyBool false -> map Return run_list = calls)) /\
  (PyInt 0 <> PyBool false ->
   forall e, @new_pool reversing_pool PyNone = Throw e ->
             @generate_runs reversing_pool job 3 PyNone (PyInt 0) = Throw e).
Proof.
  intros job.
  apply (@generate_runs_returns reversing_pool job 3 PyNone (PyInt 0)).
  intros A l. apply Permutation_sym, Permutation_rev.
Defined.

(** What [get_run_data] reads from its keyword arguments. *)
Lemma get_run_data_kwargs `{Pool} `{IoUtils}
  (ns_generate_ns_run : Settings -> nat -> outcome run)
  (settings : Settings) (n_repeat : Z) (kw : kwargs) :
  get_run_data ns_generate_ns_run settings n_repeat kw
  = let parallelise := kwarg kw "parallelise" (PyBool true) in
    let max_workers := kwarg kw "max_workers" PyNone in
    let load := kwarg kw "load" (PyBool true) in
    let save := kwarg kw "save" (PyBool true) in
    let overwrite_existing := kwarg kw "overwrite_existing" (PyBool false) in
    let check_loaded_settings :=
      kwarg kw "check_loaded_settings" (PyBool false) in
    match without "check_loaded_settings"
            (without "overwrite_existing"
               (without "save"
                  (without "load"
                     (without "max_workers" (without "parallelise" kw))))) with
    | _ :: _ => (Throw (Core TypeError), [])
    | [] =>
        let save_name := ("data/" ++ data_save_name settings n_repeat)%string in
        match load_block settings save_name load overwrite_existing
                check_loaded_settings with
        | (Throw e, trace) => (Throw e, trace)
        | (Return (data, load', overwrite'), trace) =>
            if negb (truthy load') then
              let generated := [Generated n_repeat max_workers parallelise] in
              match generate_runs (ns_generate_ns_run settings) n_repeat
                      max_workers parallelise with
              | Throw e => (Throw e, trace ++ generated)
              | Return new_data =>
                  if truthy save then
                    (obind (pickle_save new_data save_name overwrite')
                       (fun _ => Return new_data),
                     trace ++ generated ++ [Saved new_data save_name overwrite'])
                  else (Return new_data, trace ++ generated)
              end
            else
              match data with
              | Some d => (Return d, trace)
              | None => (Throw UnboundLocalError, trace)
              end
        end
    end.
Proof.
  unfold get_run_data. rewrite !pop_spec.
  rewrite !(kwarg_without_other _ "max_workers") by discriminate.
  rewrite !(kwarg_without_other _ "load") by discriminate.
  rewrite !(kwarg_without_other _ "save") by discriminate.
  rewrite !(kwarg_without_other _ "overwrite_existing") by discriminate.
  rewrite !(kwarg_without_other _ "check_loaded_settings") by discriminate.
  reflexivity.
Qed.

Lemma leftover_kwargs (kw : kwargs) :
  without "check_loaded_settings"
    (without "overwrite_existing"
       (without "save"
          (without "load" (without "max_workers" (without "parallelise" kw)))))
  = [] <->
  forall p, In p kw -> In (fst p) get_run_data_keys.
Proof.
  split.
  - intros Hnil p Hp.
    destruct (in_dec string_dec (fst p) get_run_data_keys) as [Hin | Hout];
      [exact Hin|].
    exfalso.
    assert (Hleft : In p (without "check_loaded_settings"
                            (without "overwrite_existing"
                               (without "save"
                                  (without "load"
                                     (without "max_workers"
                                        (without "parallelise" kw))))))).
    { repeat (apply in_without; split);
        try exact Hp;
        intro Heq; apply Hout; rewrite Heq; simpl; tauto. }
    rewrite Hnil in Hleft. contradiction.
  - intro Hall.
    destruct (without "check_loaded_settings" _) as [| p rest] eqn:E;
      [reflexivity|].
    exfalso.
    assert (Hp : In p (p :: rest)) by (left; reflexivity).
    rewrite <- E in Hp.
    repeat (apply in_without in Hp; destruct Hp as [Hp ?]).
    specialize (Hall p Hp). simpl in Hall.
    repeat (destruct Hall as [Hall | Hall]; [congruence|]). contradiction.
Qed.

Lemma load_block_trace `{IoUtils} (settings : Settings) (save_name : string)
  (load overwrite_existing check_loaded_settings : pyval) :
  snd (load_block settings save_name load overwrite_existing
         check_loaded_settings)
  = if truthy load then [Loaded save_name] else [].
Proof.
  unfold load_block. destruct (truthy load); reflexivity.
Qed.

(** X24. [get_run_data] raises [TypeError] before it touches a file or
    generates a run exactly when it is given a keyword argument other than
    [parallelise], [max_workers], [load], [save], [overwrite_existing] and
    [check_loaded_settings]. *)
Theorem get_run_data_unexpected_kwargs `{Pool} `{IoUtils}
  (ns_generate_ns_run : Settings -> nat -> outcome run)
  (settings : Settings) (n_repeat : Z) (kw : kwargs) :
  get_run_data ns_generate_ns_run settings n_repeat kw
  = (Throw (Core TypeError), []) <->
  exists p, In p kw /\ ~ In (fst p) get_run_data_keys.
Proof.
  rewrite get_run_data_kwargs. cbv zeta.
  pose proof (leftover_kwargs kw) as Hleft.
  destruct (without "check_loaded_settings" _) as [| p rest] eqn:E.
  - split.
    + intro Hres. exfalso.
      pose proof (load_block_trace settings
                    ("data/" ++ data_save_name settings n_repeat)%string
                    (kwarg kw "load" (PyBool true))
                    (kwarg kw "overwrite_existing" (PyBool false))
                    (kwarg kw "check_loaded_settings" (PyBool false))) as Htr.
      unfold load_block in Hres, Htr.
      destruct (truthy (kwarg kw "load" (PyBool true))) eqn:El.
      * match type of Hres with
        | context [?m] =>
            match m with
            | (match pickle_load _ with _ => _ end) =>
                destruct m as [[[data load'] ov'] | e]
            end
        end.
        -- destruct (negb (truthy load')).
           ++ destruct (generate_runs _ _ _ _); [| discriminate].
              destruct (truthy (kwarg kw "save" (PyBool true))); discriminate.
           ++ destruct data; discriminate.
        -- discriminate.
      * rewrite El in Hres. cbn [negb] in Hres.
        destruct (generate_runs _ _ _ _); [| discriminate].
        destruct (truthy (kwarg kw "save" (PyBool true))); discriminate.
    + intros [p [Hp Hout]]. exfalso. apply Hout.
      apply (proj1 Hleft eq_refl p Hp).
  - split; [| reflexivity]. intros _.
    destruct (in_dec string_dec (fst p) get_run_data_keys) as [Hin | Hout].
    + exfalso.
      assert (Hp : In p (p :: rest)) by (left; reflexivity).
      rewrite <- E in Hp.
      repeat (apply in_without in Hp; destruct Hp as [Hp ?]).
      simpl in Hin.
      repeat (destruct Hin as [Hin | Hin]; [congruence|]). contradiction.
    + exists p. split; [| exact Hout].
      assert (Hp : In p (p :: rest)) by (left; reflexivity).
      rewrite <- E in Hp.
      repeat (apply in_without in Hp; destruct Hp as [Hp ?]). exact Hp.
Qed.

(** X25. With [load] and [check_loaded_settings] set, when the file is
    missing ([OSError]) or cut short ([EOFError]), [get_run_data] does not go
    on to generate the runs: the check of the loaded settings reads [data],
    which was never bound, and [UnboundLocalError] leaves the function after
    the one attempt to load. *)
Theorem get_run_data_checked_miss `{Pool} `{IoUtils}
  (ns_generate_ns_run : Settings -> nat -> outcome run)
  (settings : Settings) (n_repeat : Z) (kw : kwargs) :
  (forall p, In p kw -> In (fst p) get_run_data_keys) ->
  truthy (kwarg kw "load" (PyBool true)) = true ->
  truthy (kwarg kw "check_loaded_settings" (PyBool false)) = true ->
  let save_name := ("data/" ++ data_save_name settings n_repeat)%string in
  pickle_load save_name = Throw OSError \/
  pickle_load save_name = Throw EOFError ->
  get_run_data ns_generate_ns_run settings n_repeat kw
  = (Throw UnboundLocalError, [Loaded save_name]).
Proof.
  intros Hkeys Hload Hcheck save_name Hmiss.
  rewrite get_run_data_kwargs. cbv zeta.
  rewrite (proj2 (leftover_kwargs kw) Hkeys).
  unfold load_block. fold save_name. rewrite Hload, Hcheck.
  destruct Hmiss as [-> | ->]; reflexivity.
Qed.

Lemma get_run_data_checked_miss_witness :
  @get_run_data orderly_pool (disk (Throw OSError))
    (fun _ _ => Return toy_run) toy_settings 2
    [("check_loaded_settings"%string, PyBool true)]
  = (Throw UnboundLocalError, [Loaded "data/runs"%string]).
Proof.
  apply (@get_run_data_checked_miss orderly_pool (disk (Throw OSError))
           (fun _ _ => Return toy_run) toy_settings 2
           [("check_loaded_settings"%string, PyBool true)]).
  - intros p [<- | []]. simpl. tauto.
  - reflexivity.
  - reflexivity.
  - left. reflexivity.
Defined.

(** X26. Without the check of the loaded settings: a file that loads is
    returned as it is, whatever [n_repeat] and the settings, and nothing is
    generated or saved; after [EOFError] the runs are generated and, with
    [save] set, saved with [overwrite_existing] true whatever the caller
    passed; with [load] unset no file is read. *)
Theorem get_run_data_cache `{Pool} `{IoUtils}
  (ns_generate_ns_run : Settings -> nat -> outcome run)
  (settings : Settings) (n_repeat : Z) (kw : kwargs) :
  (forall p, In p kw -> In (fst p) get_run_data_keys) ->
  truthy (kwarg kw "check_loaded_settings" (PyBool false)) = false ->
  let save_name := ("data/" ++ data_save_name settings n_repeat)%string in
  let parallelise := kwarg kw "parallelise" (PyBool true) in
  let max_workers := kwarg kw "max_workers" PyNone in
  let generated := Generated n_repeat max_workers parallelise in
  let res := get_run_data ns_generate_ns_run settings n_repeat kw in
  (truthy (kwarg kw "load" (PyBool true)) = true ->
   forall data, pickle_load save_name = Return data ->
                res = (Return data, [Loaded save_name])) /\
  (truthy (kwarg kw "load" (PyBool true)) = true ->
   truthy (kwarg kw "save" (PyBool true)) = true ->
   pickle_load save_name = Throw EOFError ->
   forall data,
     generate_runs (ns_generate_ns_run settings) n_repeat max_workers
       parallelise = Return data ->
     res = (obind (pickle_save data save_name (PyBool true))
              (fun _ => Return data),
            [Loaded save_name; generated;
             Saved data save_name (PyBool true)])) /\
  (truthy (kwarg kw "load" (PyBool true)) = false ->
   forall e, ~ In (Loaded e) (snd res)).
Proof.
  intros Hkeys Hcheck save_name parallelise max_workers generated res.
  assert (Hres : res = get_run_data ns_generate_ns_run settings n_repeat kw)
    by reflexivity.
  rewrite get_run_data_kwargs in Hres. cbv zeta in Hres.
  rewrite (proj2 (leftover_kwargs kw) Hkeys) in Hres.
  unfold load_block in Hres. fold save_name in Hres.
  fold parallelise max_workers in Hres. rewrite Hcheck in Hres.
  clearbody res. split; [| split].
  - intros Hload data Hdata. rewrite Hload, Hdata in Hres.
    rewrite Hload in Hres. exact Hres.
  - intros Hload Hsave Heof data Hgen.
    rewrite Hload, Heof in Hres. cbn [truthy negb] in Hres.
    rewrite Hgen, Hsave in Hres. exact Hres.
  - intros Hload e Hin. rewrite Hload in Hres. cbn [negb] in Hres.
    rewrite Hload in Hres. cbn [negb] in Hres.
    destruct (generate_runs _ _ _ _) as [data | err].
    + destruct (truthy (kwarg kw "save" (PyBool true))); subst res;
        simpl in Hin; intuition discriminate.
    + subst res. simpl in Hin. intuition discriminate.
Qed.

Lemma get_run_data_cache_witness :
  let kw := [("overwrite_existing"%string, PyBool false)] in
  let job := fun (_ : Settings) (_ : nat) => Return toy_run in
  let res := @get_run_data orderly_pool (disk (Throw EOFError)) job
               toy_settings 2 kw in
  (truthy (kwarg kw "load" (PyBool true)) = true ->
   forall data, @pickle_load (disk (Throw EOFError)) "data/runs"%string
                = Return data ->
                res = (Return data, [Loaded "data/runs"%string])) /\
  (truthy (kwarg kw "load" (PyBool true)) = true ->
   truthy (kwarg kw "save" (PyBool true)) = true ->
   @pickle_load (disk (Throw EOFError)) "data/runs"%string = Throw EOFError ->
   forall data,
     @generate_runs orderly_pool (job toy_settings) 2 PyNone (PyBool true)
     = Return data ->
     res = (obind (@pickle_save (disk (Throw EOFError)) data
                     "data/runs"%string (PyBool true))
              (fun _ => Return data),
            [Loaded "data/runs"%string; Generated 2 PyNone (PyBool true);
             Saved data "data/runs"%string (PyBool true)])) /\
  (truthy (kwarg kw "load" (PyBool true)) = false ->
   forall e, ~ In (Loaded e) (snd res)).
Proof.
  intros kw job.
  apply (@get_run_data_cache orderly_pool (disk (Throw EOFError)) job
           toy_settings 2 kw).
  - intros p [<- | []]. simpl. tauto.
  - reflexivity.
Defined.

(** ** Dynamic driver: the loop returns within the sample budget *)

(** A trajectory that the first [m] draws take to [logx_end] or below stops
    after [m] draws or fewer, and leaves the rest of the tape. *)
Lemma thread_logx_loop_within (logx_end : Q) (t : tape) :
  forall last m,
    Forall (fun d => d < 0) t ->
    (m <= length t)%nat ->
    last + sumQ (firstn m t) <= logx_end ->
    exists rest,
      thread_logx_loop logx_end last t = Ok (rest, skipn (length rest) t) /\
      (length rest <= m)%nat /\
      Forall (fun x => x < last) rest.
Proof.
  induction t as [| d t IH]; intros last m Hneg Hm Hsum.
  - assert (m = 0%nat) by (simpl in Hm; lia). subst m. simpl in Hsum.
    exists []. simpl.
    assert (Hle : last <= logx_end) by lra.
    apply Qgtb_le in Hle. rewrite Hle.
    split; [reflexivity|]. split; [lia | constructor].
  - cbn [thread_logx_loop]. destruct (Qgtb last logx_end) eqn:E.
    + apply Qgtb_gt in E. inversion Hneg as [| ? ? Hd Hneg']; subst.
      destruct m as [| m]; [simpl in Hsum; lra|].
      cbn [firstn sumQ fold_right] in Hsum.
      destruct (IH (last + d) m Hneg') as [rest [Hloop [Hlen Hbelow]]];
        [simpl in Hm; lia | unfold sumQ; lra |].
      rewrite Hloop. cbn [bind].
      exists ((last + d) :: rest). split; [reflexivity|].
      split; [simpl; lia|].
      constructor; [lra|]. eapply Forall_impl; [| exact Hbelow].
      intros x Hx. simpl in Hx. lra.
    + exists []. split; [reflexivity|]. split; [simpl; lia | constructor].
Qed.

Lemma generate_thread_logx_within (logx_end logx_start : Q) (t : tape)
  (size : nat) :
  Forall (fun d => d < 0) t ->
  (1 <= size <= length t)%nat ->
  logx_start + sumQ (firstn size t) <= logx_end ->
  exists xs,
    generate_thread_logx logx_end logx_start true t
      = Ok (xs, skipn (length xs) t) /\
    (1 <= length xs <= size)%nat /\
    Forall (fun x => x < logx_start) xs.
Proof.
  intros Hneg [Hs1 Hs2] Hsum.
  destruct t as [| d t]; [simpl in Hs2; lia|].
  destruct size as [| m]; [lia|].
  inversion Hneg as [| ? ? Hd Hneg']; subst.
  cbn [firstn sumQ fold_right] in Hsum.
  destruct (thread_logx_loop_within logx_end t (logx_start + d) m Hneg')
    as [rest [Hloop [Hlen Hbelow]]];
    [simpl in Hs2; lia | unfold sumQ; lra |].
  exists ((logx_start + d) :: rest).
  unfold generate_thread_logx. cbn [draw bind]. rewrite Hloop. cbn [bind negb].
  split; [reflexivity|]. split; [simpl; lia|].
  constructor; [lra|]. eapply Forall_impl; [| exact Hbelow].
  intros x Hx. simpl in Hx. lra.
Qed.

(** The rows of a thread are on the likelihood curve. *)
Lemma combine_rows_curve (s : Settings) (label : nat) (xs : list Q) :
  forall ns ths rows,
    combine_rows label
      (map (logl_given_r s) (map (r_given_logx s) xs))
      (map (r_given_logx s) xs) xs ns ths = Ok rows ->
    map logx rows = xs /\
    Forall (fun x => logl x = logl_of_logx s (logx x)) rows.
Proof.
  induction xs as [| x xs IH]; intros ns ths rows Hc;
    destruct ns, ths; simpl in Hc; try discriminate.
  - inversion Hc. split; [reflexivity | constructor].
  - bind_split Hc as rest Hrest. inversion Hc; subst.
    destruct (IH _ _ _ Hrest) as [Hx Hall].
    split; [simpl; f_equal; exact Hx|].
    constructor; [reflexivity | exact Hall].
Qed.

Lemma generate_single_thread_within (s : Settings) (logx_end logx_start : Q)
  (label : nat) (t : tape) (size : nat) :
  (forall rs, length (sample_nsphere_shells s rs) = length rs) ->
  logx_end < logx_start ->
  Forall (fun d => d < 0) t ->
  (1 <= size <= length t)%nat ->
  logx_start + sumQ (firstn size t) <= logx_end ->
  exists rows,
    generate_single_thread s (Some logx_end) label logx_start true t
      = Ok (Some rows, skipn (length rows) t) /\
    (1 <= length rows <= size)%nat /\
    Forall (fun x => logx x < logx_start /\
                     logl x = logl_of_logx s (logx x)) rows.
Proof.
  intros Hshell Hlt Hneg Hsize Hsum.
  destruct (generate_thread_logx_within logx_end logx_start t size
              Hneg Hsize Hsum) as [xs [Hgen [Hlen Hbelow]]].
  unfold generate_single_thread. cbn [bind].
  apply Qgtb_gt in Hlt. rewrite Hlt. cbn [assert bind]. rewrite Hgen.
  cbn [bind].
  destruct xs as [| x xs]; [simpl in Hlen; lia|].
  destruct (combine_rows_ok label
              (map (logl_given_r s) (map (r_given_logx s) (x :: xs)))
              (map (r_given_logx s) (x :: xs)) (x :: xs)
              (end_marks (length (x :: xs)))
              (sample_nsphere_shells s (map (r_given_logx s) (x :: xs))))
    as [rows [Hrows _]].
  - rewrite !length_map. reflexivity.
  - rewrite length_map. reflexivity.
  - apply end_marks_length.
  - rewrite Hshell, length_map. reflexivity.
  - rewrite Hrows. cbn [bind].
    destruct (combine_rows_curve s label _ _ _ _ Hrows) as [Hx Hcurve].
    assert (Hlr : length rows = length (x :: xs))
      by (rewrite <- Hx; symmetry; apply length_map).
    exists rows. rewrite Hlr. split; [reflexivity|]. split; [exact Hlen|].
    rewrite <- Hx in Hbelow. rewrite Forall_map in Hbelow.
    rewrite Forall_forall in *. intros y Hy. split; [apply Hbelow | apply Hcurve];
      exact Hy.
Qed.

(** The rows that carry a key are counted by [np.where]. *)
Lemma matches_length (key : Q) (l : list sample) :
  length (matches key l) = length (at_logl key l).
Proof. unfold matches, np_where, at_logl. apply where_from_length. Qed.

Lemma bump_at_logl (l : list sample) :
  forall i, map logl (bump_at l i) = map logl l.
Proof.
  induction l as [| x l IH]; intros [| i]; simpl; try reflexivity.
  f_equal. apply IH.
Qed.

Lemma at_logl_length_logl (key : Q) (a b : list sample) :
  map logl a = map logl b ->
  length (at_logl key a) = length (at_logl key b).
Proof.
  revert b. induction a as [| x a IH]; intros [| y b] Hab;
    simpl in Hab; try discriminate; [reflexivity|].
  inversion Hab as [[Hxy Hrest]]. unfold at_logl in *. simpl. rewrite Hxy.
  destruct (Qeq_bool (logl y) key); simpl; rewrite (IH b Hrest); reflexivity.
Qed.

Lemma at_logl_none (key : Q) (rows : list sample) :
  Forall (fun x => ~ logl x == key) rows -> at_logl key rows = [].
Proof.
  unfold at_logl. induction 1 as [| x rows Hx _ IH]; simpl; [reflexivity|].
  destruct (Qeq_bool (logl x) key) eqn:E; [| exact IH].
  apply Qeq_bool_eq in E. contradiction.
Qed.

Lemma ample_weaken (n size : nat) (w w' : Q) (t : tape) :
  w <= w' -> ample n size w t -> ample n size w' t.
Proof.
  intros Hw Ha k Hk. destruct (Ha k Hk) as [Hlen Hsum]. split; [exact Hlen | lra].
Qed.

Lemma ample_skipn (n size c : nat) (w : Q) (t : tape) :
  (c <= size)%nat -> ample (S n) size w t -> ample n size w (skipn c t).
Proof.
  intros Hc Ha k Hk. destruct (Ha (k + c)%nat) as [Hlen Hsum]; [simpl; lia|].
  rewrite length_skipn, skipn_skipn. split; [lia | exact Hsum].
Qed.

Lemma Forall_skipn_neg (c : nat) (t : tape) :
  Forall (fun d => d < 0) t -> Forall (fun d => d < 0) (skipn c t).
Proof.
  intro Ht. rewrite <- (firstn_skipn c t) in Ht.
  apply Forall_app in Ht. apply Ht.
Qed.

Lemma bump_at_length (l : list sample) :
  forall i, length (bump_at l i) = length l.
Proof.
  intro i. rewrite <- (length_map logl), bump_at_logl. apply length_map.
Qed.

(** One more thread, when its start key is carried by one sample and the
    tape takes it below its end within [size] draws. *)
Lemma add_thread_returns (s : Settings) (size : nat) (logl_min : nanQ)
  (logx_min logx_max : Q) (st : dyn_state) (t : tape) :
  (forall rs, length (sample_nsphere_shells s rs) = length rs) ->
  likelihood_strict s ->
  logx_max < logx_min -> logx_min <= 0 ->
  match logl_min with
  | NaN => True
  | Val key => key == logl_of_logx s logx_min /\
               length (at_logl key (samples st)) = 1%nat
  end ->
  Forall (fun d => d < 0) t ->
  (1 <= size <= length t)%nat ->
  sumQ (firstn size t) <= logx_max ->
  exists st' c,
    add_thread s logl_min logx_min logx_max st t = Ok (st', skipn c t) /\
    (1 <= c <= size)%nat /\
    length (samples st') = (length (samples st) + c)%nat /\
    match logl_min with
    | NaN => True
    | Val key => length (at_logl key (samples st')) = 1%nat
    end.
Proof.
  intros Hshell Hstrict Hlt Hstart Hkey Hneg Hsize Hsum.
  destruct (generate_single_thread_within s logx_max logx_min
              (S (length (thread_min_max st))) t size Hshell Hlt Hneg Hsize)
    as [rows [Hgen [Hlen Hrows]]]; [lra|].
  unfold add_thread. rewrite Hgen. cbn [bind].
  assert (Hfinal : exists final, index_neg rows 1 = Ok final).
  { unfold index_neg.
    replace ((1 <=? 1) && (1 <=? length rows))%nat with true.
    2:{ symmetry. apply andb_true_iff. split; apply Nat.leb_le; lia. }
    apply index_lt. lia. }
  destruct Hfinal as [final Hfinal].
  destruct logl_min as [| key].
  - cbn [bind]. rewrite Hfinal. cbn [bind].
    eexists. exists (length rows). split; [reflexivity|].
    split; [exact Hlen|]. split; [| exact I].
    cbn [samples]. apply length_app.
  - destruct Hkey as [Hk Hone].
    assert (Hm : length (matches key (samples st)) = 1%nat)
      by (rewrite matches_length; exact Hone).
    rewrite Hm. cbn [Nat.eqb assert bind].
    destruct (matches key (samples st)) as [| i [| ? ?]] eqn:Em;
      try discriminate.
    unfold index at 1. cbn [nth_error bind]. rewrite Hfinal. cbn [bind].
    eexists. exists (length rows). split; [reflexivity|].
    split; [exact Hlen|]. cbn [samples].
    split; [rewrite length_app, bump_at_length; reflexivity|].
    unfold at_logl. rewrite filter_app, length_app.
    fold (at_logl key (bump_at (samples st) i)). fold (at_logl key rows).
    rewrite (at_logl_length_logl key _ (samples st) (bump_at_logl _ i)), Hone.
    rewrite at_logl_none; [reflexivity|].
    eapply Forall_impl; [| exact Hrows]. intros x [Hx Hcurve] Heq.
    rewrite Hcurve, Hk in Heq.
    pose proof (Hstrict logx_min (logx x) Hx Hstart) as Hs. lra.
Qed.

Lemma add_threads_returns (s : Settings) (size : nat) (logl_min : nanQ)
  (logx_min logx_max : Q) (n : nat) :
  (forall rs, length (sample_nsphere_shells s rs) = length rs) ->
  likelihood_strict s ->
  (1 <= size)%nat ->
  logx_max < logx_min -> logx_min <= 0 ->
  forall st t,
    match logl_min with
    | NaN => True
    | Val key => key == logl_of_logx s logx_min /\
                 length (at_logl key (samples st)) = 1%nat
    end ->
    Forall (fun d => d < 0) t ->
    ample n size logx_max t ->
    exists st' t',
      add_threads n s logl_min logx_min logx_max st t = Ok (st', t') /\
      (length (samples st') <= length (samples st) + n * size)%nat.
Proof.
  intros Hshell Hstrict Hsize Hlt Hstart.
  induction n as [| n IH]; intros st t Hkey Hneg Ha.
  - exists st, t. split; [reflexivity | lia].
  - destruct (Ha 0%nat) as [Hlen Hsum]; [simpl; lia|].
    rewrite skipn_0 in Hsum.
    destruct (add_thread_returns s size logl_min logx_min logx_max st t
                Hshell Hstrict Hlt Hstart Hkey Hneg)
      as [st1 [c [Hone [Hc [Hl1 Hkey1]]]]]; [lia | exact Hsum |].
    destruct (IH st1 (skipn c t)) as [st' [t' [Hrest Hl']]].
    + destruct logl_min as [| key]; [exact I|].
      split; [apply Hkey | exact Hkey1].
    + apply Forall_skipn_neg. exact Hneg.
    + apply ample_skipn; [lia | exact Ha].
    + exists st', t'. cbn [add_threads]. rewrite Hone. cbn [bind].
      split; [exact Hrest|]. simpl. nia.
Qed.

Lemma last_in_cons (l : list Q) :
  forall a d, In (last (a :: l) d) (a :: l).
Proof.
  induction l as [| b l IH]; intros a d; [left; reflexivity|].
  right. change (last (a :: b :: l) d) with (last (b :: l) d). apply IH.
Qed.

Lemma decreasing_last_le (l : list Q) (x : Q) :
  decreasing l -> In x l -> last l 0 <= x.
Proof.
  intros Hd Hin. unfold decreasing in Hd. apply Sorted_StronglySorted in Hd.
  2:{ intros a b c Hab Hbc. lra. }
  induction Hd as [| a l Hs IH Hall]; [destruct Hin|].
  destruct l as [| b l].
  - destruct Hin as [<- | []]. simpl. lra.
  - change (last (a :: b :: l) 0) with (last (b :: l) 0).
    destruct Hin as [<- | Hin]; [| apply IH; exact Hin].
    pose proof (last_in_cons l b 0) as Hl.
    rewrite Forall_forall in Hall. specialize (Hall _ Hl). cbv beta in Hall.
    apply Qlt_le_weak. exact Hall.
Qed.

(** With a sample above the threshold and no two samples at one [logl],
    [min_max_importance] returns an interval inside the prior, its end below
    its start and not below the lowest sample; a start other than the whole
    prior is the one sample that carries the start key. *)
Lemma min_max_importance_ready (s : Settings) (importance : list Q)
  (sm : list sample) :
  0 < dynamic_fraction s -> dynamic_fraction s < 1 ->
  length importance = length sm ->
  Exists (fun x => dynamic_fraction s < x) importance ->
  (forall x, In x sm -> length (at_logl (logl x) sm) = 1%nat) ->
  Forall (fun x => logl x == logl_of_logx s (logx x)) sm ->
  decreasing (map logx sm) ->
  Forall (fun x => logx x < 0) sm ->
  exists lmin lmax xmin xmax,
    min_max_importance importance sm s = Ok ((lmin, lmax), (xmin, xmax)) /\
    xmax < xmin /\ xmin <= 0 /\ last (map logx sm) 0 <= xmax /\
    match lmin with
    | NaN => True
    | Val key => key == logl_of_logx s xmin /\
                 length (at_logl key sm) = 1%nat
    end.
Proof.
  intros Hf0 Hf1 Hlen Hhigh Huniq Hcurve Hdec Hneg.
  destruct (first_high_exists s importance Hhigh) as [h0 Hfirst].
  destruct (last_high_exists s importance Hhigh) as [h1 Hlast].
  destruct (high_first_last s importance h0 h1 Hfirst Hlast) as [Hle Hlt1].
  rewrite Hlen in Hlt1.
  assert (Hlt0 : (h0 < length sm)%nat) by lia.
  destruct (start_lookup sm h0 Hlt0) as [Hstart _].
  destruct (end_lookup sm h1 Hlt1) as [Hstop _].
  rewrite (min_max_importance_lookups s importance sm h0 h1
             Hf0 Hf1 Hfirst Hlast).
  assert (Hclear : forall key, ~ ambiguous sm key ->
                               ambiguous sm key -> False) by auto.
  assert (Hkeys : forall i, ~ ambiguous sm (option_map logl (nth_error sm i))).
  { intros i [k [Hk Hn]]. destruct (nth_error sm i) as [x |] eqn:Ei;
      [| discriminate].
    inversion Hk; subst k. apply Hn. apply Huniq.
    eapply nth_error_In. exact Ei. }
  destruct Hstart as [[lmin [xmin [Hs0 [Hok0 _]]]] | [_ Hamb]].
  2:{ exfalso. unfold start_key in Hamb. destruct h0 as [| i].
      - destruct Hamb as [k [Hk _]]. discriminate.
      - apply (Hkeys i). exact Hamb. }
  destruct Hstop as [[lmax [xmax [Hs1 [Hok1 _]]]] | [_ Hamb]].
  2:{ exfalso. unfold end_key in Hamb.
      destruct (S h1 =? length sm)%nat.
      - destruct Hamb as [k [Hk _]]. discriminate.
      - apply (Hkeys (S h1)). exact Hamb. }
  rewrite Hs0. cbn [bind]. rewrite Hs1. cbn [bind].
  exists lmin, lmax, xmin, xmax. split; [reflexivity|].
  (* the end is the [logx] of a sample at or after [h1] *)
  assert (Hend : exists j x, (h1 <= j)%nat /\ nth_error sm j = Some x /\
                             xmax = logx x).
  { unfold end_ok, end_key in Hok1.
    destruct (S h1 =? length sm)%nat eqn:E.
    - apply Nat.eqb_eq in E. destruct Hok1 as [final [Hfin [_ Hx]]].
      exists (length sm - 1)%nat, final.
      repeat split; [lia | exact Hfin | exact Hx].
    - apply Nat.eqb_neq in E.
      destruct (nth_error sm (S h1)) as [nxt |] eqn:En;
        [| apply nth_error_None in En; lia].
      simpl in Hok1. destruct Hok1 as [_ [row [Hrow Hx]]].
      apply (at_logl_unique sm (S h1) nxt row En) in Hrow. subst row.
      exists (S h1), nxt. repeat split; [lia | exact En | exact Hx]. }
  destruct Hend as [j [x [Hj [Hx Hxmax]]]].
  assert (Hxin : In x sm) by (eapply nth_error_In; exact Hx).
  assert (Hlow : last (map logx sm) 0 <= xmax).
  { subst xmax. apply decreasing_last_le; [exact Hdec|].
    apply in_map. exact Hxin. }
  rewrite Forall_forall in Hneg, Hcurve.
  unfold start_ok, start_key in Hok0. destruct h0 as [| i].
  - destruct Hok0 as [-> ->].
    split; [subst xmax; apply Hneg; exact Hxin|].
    split; [lra|]. split; [exact Hlow | exact I].
  - destruct (nth_error sm i) as [prev |] eqn:Ei;
      [| apply nth_error_None in Ei; lia].
    simpl in Hok0. destruct Hok0 as [-> [row [Hrow Hx0]]].
    pose proof (at_logl_unique sm i prev row Ei Hrow) as Hsame. subst row.
    assert (Hpin : In prev sm) by (eapply nth_error_In; exact Ei).
    split.
    + subst xmin xmax.
      apply (decreasing_nth (map logx sm) i j); [exact Hdec | lia | |].
      * rewrite nth_error_map, Ei. reflexivity.
      * rewrite nth_error_map, Hx. reflexivity.
    + split; [subst xmin; apply Qlt_le_weak, Hneg, Hpin|].
      split; [exact Hlow|]. subst xmin.
      split; [apply Hcurve, Hpin | rewrite Hrow; reflexivity].
Qed.

Section LoopReturns.

Context `{NumLib} `{AuLib}.
Variable s : Settings.
Variable max : Q.
Variable size : nat.
Hypothesis argsort_ok : argsort_contract np_argsort.
Hypothesis batch_pos : (1 <= nbatch s)%nat.
Hypothesis size_pos : (1 <= size)%nat.
Hypothesis fraction_ok : 0 < dynamic_fraction s < 1.
Hypothesis shells_ok : forall rs, length (sample_nsphere_shells s rs) = length rs.
Hypothesis strict_ok : likelihood_strict s.

(** A pass that finds what it needs returns, with [nbatch] threads of at
    most [size] samples each added to the samples. *)
Lemma dyn_body_returns (st : dyn_state) (t : tape) :
  pass_ready s size st t ->
  exists st' t',
    dyn_body s st t = Ok (st', t') /\
    (length (samples st') <= length (samples st) + nbatch s * size)%nat.
Proof.
  intros [[importance [Himp [Hlen Hhigh]]]
            [Huniq [Hcurve [Hdec [Hneg [Htape Hample]]]]]].
  destruct fraction_ok as [Hf0 Hf1].
  destruct (min_max_importance_ready s importance (samples st)
              Hf0 Hf1 Hlen Hhigh Huniq Hcurve Hdec Hneg)
    as [lmin [lmax [xmin [xmax [Hmm [Hlt [Hstart [Hlow Hkey]]]]]]]].
  destruct (add_threads_returns s size lmin xmin xmax (nbatch s)
              shells_ok strict_ok size_pos Hlt Hstart st t Hkey Htape)
    as [st1 [t1 [Hadd Hl1]]].
  { apply (ample_weaken _ _ _ _ _ Hlow). exact Hample. }
  destruct (sort_samples_spec (samples st1) argsort_ok)
    as [sorted [Hsort [_ Hperm]]].
  unfold dyn_body. rewrite Himp. cbn [bind]. rewrite Hmm. cbn [bind fst snd].
  rewrite Hadd. cbn [bind]. rewrite Hsort. cbn [bind].
  eexists. eexists. split; [reflexivity|]. cbn [samples].
  rewrite (Permutation_length Hperm). exact Hl1.
Qed.

Variable st0 : dyn_state.
Variable t0 : tape.
Hypothesis ready :
  forall st t,
    dyn_reached s max st0 t0 st t ->
    natQ (length (samples st)) < max ->
    pass_ready s size st t.

Lemma dyn_loop_returns (fuel : nat) :
  forall st t,
    dyn_reached s max st0 t0 st t ->
    natQ (length (samples st)) < max ->
    max <= natQ (length (samples st) + fuel) ->
    exists stf tf,
      dyn_loop fuel s max st t = Some (Ok (stf, tf)) /\
      max <= natQ (length (samples stf)) /\
      natQ (length (samples stf)) < max + natQ (nbatch s * size).
Proof.
  induction fuel as [| fuel IH]; intros st t Hreach Hlt Hfuel.
  - rewrite Nat.add_0_r in Hfuel. lra.
  - cbn [dyn_loop]. pose proof Hlt as Hcond. apply Qltb_lt in Hcond.
    rewrite Hcond.
    destruct (dyn_body_returns st t (ready st t Hreach Hlt))
      as [st' [t' [Hb Hl']]].
    rewrite Hb.
    pose proof (dyn_body_grows s argsort_ok batch_pos st t st' t' Hb) as Hgrow.
    destruct (Qlt_le_dec (natQ (length (samples st'))) max) as [Hlt' | Hge'].
    + apply IH; [| exact Hlt' |].
      * eapply reached_pass; eassumption.
      * eapply Qle_trans; [exact Hfuel|]. apply natQ_le. lia.
    + exists st', t'. split.
      * pose proof Hge' as Hc. apply Qltb_ge in Hc.
        destruct fuel; cbn [dyn_loop]; rewrite Hc; reflexivity.
      * split; [exact Hge'|].
        pose proof (natQ_le _ _ Hl') as Hq. rewrite natQ_plus in Hq. lra.
Qed.

End LoopReturns.

Lemma toy_likelihood_strict : likelihood_strict toy_settings.
Proof.
  intros x y Hxy Hx0. unfold logl_of_logx. simpl.
  assert (Hx : 0 < 1 - x) by lra.
  assert (Hy : 0 < 1 - y) by lra.
  assert (Hix : 0 < / (1 - x)) by (apply Qinv_lt_0_compat; exact Hx).
  assert (Hiy : 0 < / (1 - y)) by (apply Qinv_lt_0_compat; exact Hy).
  assert (Hlt : / (1 - y) < / (1 - x)).
  { apply Qlt_shift_inv_l; [exact Hx|].
    setoid_replace (/ (1 - y) * (1 - x)) with ((1 - x) / (1 - y))
      by (unfold Qdiv; ring).
    apply Qlt_shift_div_r; [exact Hy | lra]. }
  unfold Qdiv. rewrite !Qmult_1_l.
  assert (Hsq : / (1 - y) * / (1 - y) < / (1 - x) * / (1 - x)) by nra.
  change (/ 2) with (1 # 2).
  set (a := / (1 - x) * / (1 - x)) in *. set (b := / (1 - y) * / (1 - y)) in *.
  lra.
Qed.

(** C6. Take [nbatch >= 1], [dynamic_fraction] in (0, 1), an [np.argsort]
    that meets its contract, a shell sampler that returns one row for each
    radius, a likelihood that increases strictly as [logx] decreases, thread
    labels of the exploratory run within the number of its threads, and
    fewer samples than [n_samples_max] after the exploratory run.  Suppose
    that every pass of [while n_samples < n_samples_max] finds an importance
    for each sample with one above [dynamic_fraction], samples on the
    likelihood curve in decreasing order of [logx] with no two at one [logl]
    (so that each start or end key is matched by exactly one sample), and a
    tape of negative draws on which each of the [nbatch] threads has passed
    the lowest sample after [size] draws or fewer (so that each thread has
    between 1 and [size] samples).  Then the loop returns, with fuel for as
    many passes as samples were missing, and the number of samples it
    returns with is at least [n_samples_max] and at most
    [n_samples_max + nbatch * size]; it is also at most
    [n_samples_max + nbatch * len] for any [len] that bounds the number of
    samples of each thread the loop generated. *)
Theorem dynamic_loop_sample_budget `{NumLib} `{AuLib} (s : Settings) (max : Q)
  (st0 : dyn_state) (t0 : tape) (fuel size : nat) :
  argsort_contract np_argsort ->
  (1 <= nbatch s)%nat ->
  (1 <= size)%nat ->
  0 < dynamic_fraction s < 1 ->
  (forall rs, length (sample_nsphere_shells s rs) = length rs) ->
  likelihood_strict s ->
  Forall (fun l => l <= length (thread_min_max st0))%nat (labels st0) ->
  natQ (length (samples st0)) < max ->
  max <= natQ (length (samples st0) + fuel) ->
  (forall st t,
      dyn_reached s max st0 t0 st t ->
      natQ (length (samples st)) < max ->
      pass_ready s size st t) ->
  exists stf tf,
    dyn_loop fuel s max st0 t0 = Some (Ok (stf, tf)) /\
    max <= natQ (length (samples stf)) /\
    natQ (length (samples stf)) <= max + natQ (nbatch s * size) /\
    (forall len,
        (forall label, (length (thread_min_max st0) < label)%nat ->
                       (thread_size label (samples stf) <= len)%nat) ->
        natQ (length (samples stf)) <= max + natQ (nbatch s * len)).
Proof.
  intros Hsort Hbatch Hsize Hfrac Hshell Hstrict Hlabels Hlt Hfuel Hready.
  destruct (dyn_loop_returns s max size Hsort Hbatch Hsize Hfrac Hshell Hstrict
              st0 t0 Hready fuel st0 t0 (reached_entry s max st0 t0) Hlt Hfuel)
    as [stf [tf [Hloop [Hlow Hhigh]]]].
  exists stf, tf. split; [exact Hloop|]. split; [exact Hlow|].
  split; [apply Qlt_le_weak; exact Hhigh|].
  intros len Hlen.
  destruct (dyn_loop_budget s max Hsort Hbatch len (length (thread_min_max st0))
              fuel st0 t0 stf tf Hloop Hlabels (Nat.le_refl _) Hlt Hlen)
    as [_ Hup].
  apply Qlt_le_weak. exact Hup.
Qed.

Lemma dynamic_loop_sample_budget_witness :
  exists stf tf,
    @dyn_loop RatLib ToyAu 2 toy_settings 6 toy_dyn_state budget_tape
    = Some (Ok (stf, tf)) /\
    6 <= natQ (length (samples stf)) /\
    natQ (length (samples stf)) <= 6 + natQ (nbatch toy_settings * 2) /\
    (forall len,
        (forall label, (length (thread_min_max toy_dyn_state) < label)%nat ->
                       (thread_size label (samples stf) <= len)%nat) ->
        natQ (length (samples stf)) <= 6 + natQ (nbatch toy_settings * len)).
Proof.
  apply (@dynamic_loop_sample_budget RatLib ToyAu toy_settings 6 toy_dyn_state
           budget_tape 2 2).
  - exact argsort_stable_contract.
  - simpl. lia.
  - lia.
  - split; reflexivity.
  - intro rs. simpl. apply length_map.
  - exact toy_likelihood_strict.
  - repeat constructor.
  - reflexivity.
  - vm_compute. discriminate.
  - intros st t Hreach Hbelow.
    assert (Hst : (st = toy_dyn_state /\ t = budget_tape) \/
                  ~ natQ (length (samples st)) < 6).
    { clear Hbelow. induction Hreach as [| st t st' t' _ IH Hlt Hb].
      - left. split; reflexivity.
      - destruct IH as [[-> ->] | Hn]; [| contradiction].
        right. vm_compute in Hb. inversion Hb; subst st' t'.
        intro Hc. vm_compute in Hc. discriminate Hc. }
    destruct Hst as [[-> ->] | Hn]; [| contradiction].
    unfold pass_ready. split; [| split; [| split; [| split; [| split; [| split]]]]].
    + eexists. split; [vm_compute; reflexivity|].
      split; [reflexivity|]. apply Exists_cons_hd. reflexivity.
    + intros x Hin. unfold toy_dyn_state in Hin. cbn [samples] in Hin.
      repeat (destruct Hin as [<- | Hin]; [vm_compute; reflexivity|]).
      destruct Hin.
    + unfold toy_dyn_state. cbn [samples].
      repeat (constructor; [vm_compute; reflexivity|]). constructor.
    + unfold decreasing, toy_dyn_state. simpl. repeat constructor.
    + unfold toy_dyn_state. cbn [samples]. repeat constructor.
    + unfold budget_tape. repeat constructor.
    + intros k Hk. simpl in Hk. assert (k = 0%nat) by lia. subst k.
      split; [simpl; lia|]. vm_compute. discriminate.
Defined.

(** The run of the toy problem on [budget_tape]: one pass adds thread 3 with
    two samples, the first and the last by [logl], and reaches the budget of
    six. *)
Example budget_dynamic_loop :
  match @dyn_loop RatLib ToyAu 2 toy_settings 6 toy_dyn_state budget_tape with
  | Some (Ok (stf, tf)) =>
      labels stf = [3; 1; 1; 2; 1; 3]%nat /\ length (thread_min_max stf) = 3%nat /\
      tf = []
  | _ => False
  end.
Proof. vm_compute. repeat split. Qed.
